(** * The semantic-version engine of deno_std (semver/mod.ts)

    A shallow embedding of the SemVer parser, the comparison functions, the
    range mini-language and the query functions, followed by the properties
    proved about them.

    Conventions of the embedding.
    - A JavaScript string is a [string]: each character stands for one
      UTF-16 code unit below 256.
    - A JavaScript number is a double.  The engine only ever computes with
      non-negative integers and [Infinity]; the type [number] holds exactly
      those, and [round53] is the rounding of an integer to the nearest
      double (ties to even).
    - A function that may throw returns a [result]; [try ... catch] is a
      match on it. *)

From Stdlib Require Import String Ascii List NArith ZArith Lia Bool.
From Stdlib Require Import DecimalString DecimalN DecimalPos DecimalFacts.
From Stdlib Require Import OrderedTypeEx.
Import ListNotations.

Local Open Scope string_scope.
Local Open Scope N_scope.

(** ** Exceptions *)

(** What a [throw] carries: the class of the error.  [NullDereference x]
    is the TypeError the runtime raises on a property access of [x] when
    [x] is [null] or [undefined].  Messages are not modelled. *)
Inductive exn : Type :=
  | TypeError
  | Error
  | NullDereference (x : string).

Inductive result (A : Type) : Type :=
  | Ok (a : A)
  | Throw (e : exn).

Arguments Ok {A} a.
Arguments Throw {A} e.

Definition bind {A B : Type} (r : result A) (k : A -> result B) : result B :=
  match r with
  | Ok a => k a
  | Throw e => Throw e
  end.

Notation "x <- r ;; k" := (bind r (fun x => k))
  (at level 61, r at next level, right associativity).

(** [try { r } catch { h }] *)
Definition try_catch {A : Type} (r : result A) (h : A) : A :=
  match r with
  | Ok a => a
  | Throw _ => h
  end.

Definition throws {A : Type} (r : result A) : Prop :=
  exists e, r = Throw e.

(** [xs.map(f)] where [f] may throw: left to right, stopping at the first
    exception. *)
Fixpoint mapM {A B : Type} (f : A -> result B) (xs : list A) : result (list B) :=
  match xs with
  | [] => Ok []
  | x :: xs' => y <- f x ;; ys <- mapM f xs' ;; Ok (y :: ys)
  end.

(** ** Characters and strings *)

Definition is_digit (c : ascii) : bool :=
  (Ascii.leb "0" c && Ascii.leb c "9")%char.

Definition is_alpha (c : ascii) : bool :=
  ((Ascii.leb "a" c && Ascii.leb c "z") || (Ascii.leb "A" c && Ascii.leb c "Z"))%char.

(** [[0-9A-Za-z-]] *)
Definition is_idchar (c : ascii) : bool :=
  is_digit c || is_alpha c || Ascii.eqb c "-".

(** [\s] and the characters [trim] removes, among the code units below 256:
    TAB, LF, VT, FF, CR, SPACE and NBSP. *)
Definition is_space (c : ascii) : bool :=
  let n := N_of_ascii c in
  ((9 <=? n) && (n <=? 13)) || (n =? 32) || (n =? 160).

Fixpoint forallb_string (p : ascii -> bool) (s : string) : bool :=
  match s with
  | EmptyString => true
  | String c s' => p c && forallb_string p s'
  end.

Definition is_empty (s : string) : bool :=
  match s with
  | EmptyString => true
  | String _ _ => false
  end.

(** [numeric.test(s)] for [numeric = /^[0-9]+$/]. *)
Definition numeric_test (s : string) : bool :=
  negb (is_empty s) && forallb_string is_digit s.

Fixpoint trim_start (s : string) : string :=
  match s with
  | EmptyString => EmptyString
  | String c s' => if is_space c then trim_start s' else s
  end.

Fixpoint trim_end (s : string) : string :=
  match s with
  | EmptyString => EmptyString
  | String c s' =>
      let t := trim_end s' in
      if is_space c && is_empty t then EmptyString else String c t
  end.

(** [s.trim()] *)
Definition trim (s : string) : string := trim_end (trim_start s).

(** [s.toLowerCase()], on the code units below 128 that have a lower case. *)
Definition to_lower_char (c : ascii) : ascii :=
  if (Ascii.leb "A" c && Ascii.leb c "Z")%char
  then ascii_of_N (N_of_ascii c + 32) else c.

Fixpoint toLowerCase (s : string) : string :=
  match s with
  | EmptyString => EmptyString
  | String c s' => String (to_lower_char c) (toLowerCase s')
  end.

(** [s.split(sep)] for a one-character separator string. *)
Fixpoint split_char_aux (sep : ascii) (s : string) (cur : string) : list string :=
  match s with
  | EmptyString => [cur]
  | String c s' =>
      if Ascii.eqb c sep then cur :: split_char_aux sep s' EmptyString
      else split_char_aux sep s' (cur ++ String c EmptyString)
  end.

Definition split_char (sep : ascii) (s : string) : list string :=
  split_char_aux sep s EmptyString.

(** [s.split(/\s+/)]: the pieces between the maximal runs of white space; a
    run at either end leaves an empty piece there. *)
Fixpoint split_ws_aux (s : string) (cur : string) (in_sep : bool) : list string :=
  match s with
  | EmptyString => [cur]
  | String c s' =>
      if is_space c then
        if in_sep then split_ws_aux s' EmptyString true
        else cur :: split_ws_aux s' EmptyString true
      else split_ws_aux s' (cur ++ String c EmptyString) false
  end.

Definition split_ws (s : string) : list string :=
  split_ws_aux s EmptyString false.

(** [s.split] on "\s*\|\|\s*".  [ws] buffers white space that belongs to the
    separator if [||] follows and to the piece otherwise; [skipping] is set
    while the white space after a [||] is being consumed. *)
Fixpoint split_or_aux (s : string) (cur ws : string) (skipping : bool) : list string :=
  match s with
  | EmptyString => [cur ++ ws]
  | String "|" (String "|" s') => cur :: split_or_aux s' EmptyString EmptyString true
  | String c s' =>
      if is_space c then
        if skipping then split_or_aux s' cur ws true
        else split_or_aux s' cur (ws ++ String c EmptyString) false
      else split_or_aux s' (cur ++ ws ++ String c EmptyString) EmptyString false
  end.

Definition split_or (s : string) : list string :=
  split_or_aux s EmptyString EmptyString false.

(** [xs.join(sep)] *)
Definition join (sep : string) (xs : list string) : string := String.concat sep xs.

(** ** Numbers *)

(** The doubles the engine computes with. *)
Inductive number : Type :=
  | Int (n : N)
  | Infinity.

(** [Number.MAX_SAFE_INTEGER], 2^53 - 1. *)
Definition MAX_SAFE_INTEGER : N := 9007199254740991.

Definition MAX_LENGTH : nat := 256.

(** The double nearest to the integer [n], ties to even, as an integer.
    Integers up to 2^53 are doubles; above, a double is [q * 2^e] with a
    53-bit [q]. *)
Definition round53 (n : N) : N :=
  if n <=? 2 ^ 53 then n
  else
    let e := N.log2 n - 52 in
    let q := n / 2 ^ e in
    let r := n mod 2 ^ e in
    let half := 2 ^ (e - 1) in
    let q' := if r <? half then q
              else if half <? r then q + 1
              else if N.even q then q else q + 1 in
    q' * 2 ^ e.

(** The double of an integer: beyond the largest finite double the rounding
    gives [Infinity]. *)
Definition double_of_N (n : N) : number :=
  let r := round53 n in
  if r <? 2 ^ 1024 then Int r else Infinity.

(** The value of a run of decimal digits. *)
Definition digits_value (s : string) : N :=
  match NilEmpty.uint_of_string s with
  | Some d => N.of_uint d
  | None => 0
  end.

(** [+s] for a string of decimal digits. *)
Definition ToNumber (s : string) : number := double_of_N (digits_value s).

(** [x + 1] and [x++] *)
Definition number_succ (x : number) : number :=
  match x with
  | Int n => double_of_N (n + 1)
  | Infinity => Infinity
  end.

Definition number_eqb (x y : number) : bool :=
  match x, y with
  | Int a, Int b => a =? b
  | Infinity, Infinity => true
  | _, _ => false
  end.

Definition number_ltb (x y : number) : bool :=
  match x, y with
  | Int a, Int b => a <? b
  | Int _, Infinity => true
  | Infinity, _ => false
  end.

(** The decimal digits of an integer. *)
Definition decimal (n : N) : string := NilZero.string_of_uint (N.to_uint n).

(** Number::toString prints the shortest digit string that reads back as the
    same double.  [shortest_candidate x k] is the multiple of
    [10^(digits - k)] next to [x] that rounds to [x], the closer one (the
    even one on a tie) when both do. *)
Definition shortest_candidate (x : N) (k : nat) : option N :=
  let d := String.length (decimal x) in
  let P := 10 ^ N.of_nat (d - k) in
  let lo := (x / P) * P in
  let hi := lo + P in
  match round53 lo =? x, round53 hi =? x with
  | true, true =>
      Some (if x - lo <? hi - x then lo
            else if hi - x <? x - lo then hi
            else if N.even (lo / P) then lo else hi)
  | true, false => Some lo
  | false, true => Some hi
  | false, false => None
  end.

Fixpoint shortest_from (x : N) (k fuel : nat) : N :=
  match fuel with
  | O => x
  | S fuel' =>
      match shortest_candidate x k with
      | Some v => v
      | None => shortest_from x (S k) fuel'
      end
  end.

(** Seventeen significant digits always suffice for a double. *)
Definition shortest (x : N) : N := shortest_from x 1 17.

Fixpoint strip_trailing_zeros (s : string) : string :=
  match s with
  | EmptyString => EmptyString
  | String c s' =>
      let t := strip_trailing_zeros s' in
      if Ascii.eqb c "0" && is_empty t then EmptyString else String c t
  end.

(** [String(x)], and what [+] does to a number operand next to a string:
    plain digits below 10^21, exponent notation from there on. *)
Definition NumberToString (x : number) : string :=
  match x with
  | Infinity => "Infinity"
  | Int n =>
      if n <=? 2 ^ 53 then decimal n
      else
        let digits := decimal (shortest n) in
        let len := String.length digits in
        if Nat.leb len 21 then digits
        else
          match strip_trailing_zeros digits with
          | EmptyString => digits
          | String c EmptyString =>
              String c EmptyString ++ "e+" ++ decimal (N.of_nat (len - 1))
          | String c rest =>
              String c EmptyString ++ "." ++ rest ++ "e+" ++ decimal (N.of_nat (len - 1))
          end
  end.

(** ** The grammar

    Each regular expression of the tokenizer is embedded as a matcher that
    returns the capture groups and, for a pattern that does not end in [$],
    the unmatched rest.  [None] for a group is JavaScript's [undefined].
    The patterns are deterministic where they are used: every repetition is
    followed by a character it cannot match, so the longest run is the only
    one that lets the pattern go on. *)

(** The longest prefix of [s] whose characters satisfy [p], and the rest. *)
Fixpoint take_while (p : ascii -> bool) (s : string) : string * string :=
  match s with
  | EmptyString => (EmptyString, EmptyString)
  | String c s' =>
      if p c then let (a, b) := take_while p s' in (String c a, b)
      else (EmptyString, s)
  end.

(** What [s] lost to reach its suffix [rest]. *)
Definition consumed (s rest : string) : string :=
  substring 0 (String.length s - String.length rest) s.

(** NUMERICIDENTIFIER, "0|[1-9]\d*" *)
Definition match_nid (s : string) : option (string * string) :=
  match s with
  | EmptyString => None
  | String c s' =>
      if Ascii.eqb c "0" then Some ("0", s')
      else if is_digit c then
        let (ds, rest) := take_while is_digit s' in Some (String c ds, rest)
      else None
  end.

(** XRANGEIDENTIFIER, "0|[1-9]\d*|x|X|\*" *)
Definition match_xid (s : string) : option (string * string) :=
  match s with
  | EmptyString => None
  | String c s' =>
      if Ascii.eqb c "x" || Ascii.eqb c "X" || Ascii.eqb c "*"
      then Some (String c EmptyString, s')
      else match_nid s
  end.

(** PRERELEASEIDENTIFIER on a whole identifier: a NUMERICIDENTIFIER or a
    NONNUMERICIDENTIFIER, "\d*[a-zA-Z-][a-zA-Z0-9-]*". *)
Definition valid_pid (s : string) : bool :=
  match s with
  | EmptyString => false
  | String c s' =>
      forallb_string is_idchar s &&
      (negb (forallb_string is_digit s) || negb (Ascii.eqb c "0") || is_empty s')
  end.

(** BUILDIDENTIFIER, "[0-9A-Za-z-]+", on a whole identifier. *)
Definition valid_bid (s : string) : bool :=
  negb (is_empty s) && forallb_string is_idchar s.

Definition is_idchar_or_dot (c : ascii) : bool := is_idchar c || Ascii.eqb c ".".

(** A lead character followed by dot-separated identifiers: PRERELEASE with
    the lead "-" and [valid_pid], BUILD with the lead "+" and
    [valid_bid].  The group captured is the dotted list. *)
Definition match_dotted (lead : ascii) (valid : string -> bool) (s : string)
  : option (string * string) :=
  match s with
  | EmptyString => None
  | String c s' =>
      if Ascii.eqb c lead then
        let (run, rest) := take_while is_idchar_or_dot s' in
        if forallb valid (split_char "." run) then Some (run, rest) else None
      else None
  end.

(** PRERELEASE: a hyphen, then PRERELEASEIDENTIFIERs separated by dots. *)
Definition match_prerelease : string -> option (string * string) :=
  match_dotted "-" valid_pid.

(** BUILD: a plus sign, then BUILDIDENTIFIERs separated by dots. *)
Definition match_build : string -> option (string * string) :=
  match_dotted "+" valid_bid.

(** [r?] for a matcher [r] with one capture group. *)
Definition optional (r : string -> option (string * string)) (s : string)
  : option string * string :=
  match r s with
  | Some (g, rest) => (Some g, rest)
  | None => (None, s)
  end.

Definition expect (c : ascii) (s : string) : option string :=
  match s with
  | String c' s' => if Ascii.eqb c' c then Some s' else None
  | EmptyString => None
  end.

(** The capture groups of FULLPLAIN: major, minor, patch, prerelease, build. *)
Record full_groups : Type := {
  g_major : string;
  g_minor : string;
  g_patch : string;
  g_prerelease : option string;
  g_build : option string
}.

(** FULLPLAIN, "v?(nid)\.(nid)\.(nid)PRERELEASE?BUILD?" *)
Definition match_FULLPLAIN (s : string) : option (full_groups * string) :=
  let s0 := match s with
            | String c s' => if Ascii.eqb c "v" then s' else s
            | EmptyString => s
            end in
  match match_nid s0 with
  | None => None
  | Some (M, s1) =>
  match expect "." s1 with
  | None => None
  | Some s2 =>
  match match_nid s2 with
  | None => None
  | Some (m, s3) =>
  match expect "." s3 with
  | None => None
  | Some s4 =>
  match match_nid s4 with
  | None => None
  | Some (p, s5) =>
      let (pr, s6) := optional match_prerelease s5 in
      let (b, s7) := optional match_build s6 in
      Some ({| g_major := M; g_minor := m; g_patch := p;
               g_prerelease := pr; g_build := b |}, s7)
  end end end end end.

(** [s.match(re[FULL])], FULL = "^FULLPLAIN$" *)
Definition match_FULL (s : string) : option full_groups :=
  match match_FULLPLAIN s with
  | Some (g, EmptyString) => Some g
  | _ => None
  end.

(** GTLT, "((?:<|>)?=?)" *)
Definition match_GTLT (s : string) : string * string :=
  match s with
  | String c s' =>
      if Ascii.eqb c "<" || Ascii.eqb c ">" then
        match s' with
        | String c' s'' =>
            if Ascii.eqb c' "=" then (String c "=", s'')
            else (String c EmptyString, s')
        | EmptyString => (String c EmptyString, s')
        end
      else if Ascii.eqb c "=" then ("=", s')
      else (EmptyString, s)
  | EmptyString => (EmptyString, EmptyString)
  end.

(** [comp.match(re[COMPARATOR])], COMPARATOR = "^GTLT\s*(FULLPLAIN)$|^$":
    groups 1 (the operator) and 2 (the version text).  The empty string
    matches the second alternative and leaves both undefined. *)
Definition match_COMPARATOR (s : string) : option (option string * option string) :=
  let (op, s1) := match_GTLT s in
  let s2 := trim_start s1 in
  match match_FULLPLAIN s2 with
  | Some (_, EmptyString) => Some (Some op, Some s2)
  | _ => if is_empty s then Some (None, None) else None
  end.

(** The capture groups of XRANGEPLAIN. *)
Record xrange_groups : Type := {
  x_M : string;
  x_m : option string;
  x_p : option string;
  x_pr : option string;
  x_b : option string
}.

Definition is_v_eq_space (c : ascii) : bool :=
  Ascii.eqb c "v" || Ascii.eqb c "=" || is_space c.

(** XRANGEPLAIN,
    "[v=\s]*(xid)(?:\.(xid)(?:\.(xid)(?:PRERELEASE)?BUILD?)?)?" *)
Definition match_XRANGEPLAIN (s : string) : option (xrange_groups * string) :=
  let s0 := snd (take_while is_v_eq_space s) in
  match match_xid s0 with
  | None => None
  | Some (M, s1) =>
      let only_M := Some ({| x_M := M; x_m := None; x_p := None;
                             x_pr := None; x_b := None |}, s1) in
      match expect "." s1 with
      | None => only_M
      | Some s2 =>
      match match_xid s2 with
      | None => only_M
      | Some (m, s3) =>
          let M_m := Some ({| x_M := M; x_m := Some m; x_p := None;
                              x_pr := None; x_b := None |}, s3) in
          match expect "." s3 with
          | None => M_m
          | Some s4 =>
          match match_xid s4 with
          | None => M_m
          | Some (p, s5) =>
              let (pr, s6) := optional match_prerelease s5 in
              let (b, s7) := optional match_build s6 in
              Some ({| x_M := M; x_m := Some m; x_p := Some p;
                       x_pr := pr; x_b := b |}, s7)
          end end
      end end
  end.

(** Anchored at [$]. *)
Definition at_end {A : Type} (r : option (A * string)) : option A :=
  match r with
  | Some (g, EmptyString) => Some g
  | _ => None
  end.

(** TILDE, "^(?:~>?)XRANGEPLAIN$" *)
Definition match_TILDE (s : string) : option xrange_groups :=
  match s with
  | String "~" (String ">" s') => at_end (match_XRANGEPLAIN s')
  | String "~" s' => at_end (match_XRANGEPLAIN s')
  | _ => None
  end.

(** CARET, "^(?:\^)XRANGEPLAIN$" *)
Definition match_CARET (s : string) : option xrange_groups :=
  match s with
  | String "^" s' => at_end (match_XRANGEPLAIN s')
  | _ => None
  end.

(** XRANGE, "^GTLT\s*XRANGEPLAIN$": the operator and the groups. *)
Definition match_XRANGE (s : string) : option (string * xrange_groups) :=
  let (op, s1) := match_GTLT s in
  match at_end (match_XRANGEPLAIN (trim_start s1)) with
  | Some g => Some (op, g)
  | None => None
  end.

(** One or more white-space characters, all of them. *)
Definition spaces1 (s : string) : option string :=
  match s with
  | String c s' => if is_space c then Some (trim_start s') else None
  | EmptyString => None
  end.

(** HYPHENRANGE, "^\s*(XRANGEPLAIN)\s+-\s+(XRANGEPLAIN)\s*$": the text of
    each side (groups 1 and 7) with its groups. *)
Definition match_HYPHENRANGE (s : string)
  : option ((string * xrange_groups) * (string * xrange_groups)) :=
  let s0 := trim_start s in
  match match_XRANGEPLAIN s0 with
  | None => None
  | Some (f, s1) =>
  match spaces1 s1 with
  | None => None
  | Some s2 =>
  match expect "-" s2 with
  | None => None
  | Some s3 =>
  match spaces1 s3 with
  | None => None
  | Some s4 =>
  match match_XRANGEPLAIN s4 with
  | None => None
  | Some (t, s5) =>
      if is_empty (trim_start s5)
      then Some ((consumed s0 s1, f), (consumed s4 s5, t))
      else None
  end end end end end.

(** STAR, "(<|>)?=?\s*\*", at the start of [s]: the rest after the match. *)
Definition match_STAR_here (s : string) : option string :=
  let (_, s1) := match_GTLT s in expect "*" (trim_start s1).

(** [s.replace(re[STAR], "")]: the leftmost match is removed. *)
Fixpoint replace_STAR (s : string) : string :=
  match match_STAR_here s with
  | Some rest => rest
  | None =>
      match s with
      | EmptyString => EmptyString
      | String c s' => String c (replace_STAR s')
      end
  end.

(** ** Values

    The arguments of the exported functions are dynamically typed.  A
    version argument is a string, a [SemVer] object, [null] or [undefined];
    other primitives and foreign objects are outside the embedding. *)

Record Options : Type := { includePrerelease : bool }.

(** An [options] argument is [None] when [typeof options !== "object"]; the
    functions then take [{ includePrerelease: false }]. *)
Definition object_or_default (options : option Options) : Options :=
  match options with
  | Some o => o
  | None => {| includePrerelease := false |}
  end.

(** A prerelease identifier: a number or a string. *)
Inductive ident : Type :=
  | INum (n : N)
  | IStr (s : string).

Record SemVer : Type := {
  raw : string;
  options : Options;
  major : N;
  minor : N;
  patch : N;
  version : string;
  build : list string;
  prerelease : list ident
}.

Inductive jsvalue : Type :=
  | VStr (s : string)
  | VSemVer (v : SemVer)
  | VNull
  | VUndefined.

(** [!!v] *)
Definition truthy (v : jsvalue) : bool :=
  match v with
  | VStr s => negb (is_empty s)
  | VSemVer _ => true
  | VNull | VUndefined => false
  end.

(** A string operand of [+] or an element of [join]. *)
Definition ident_to_string (a : ident) : string :=
  match a with
  | INum n => NumberToString (Int n)
  | IStr s => s
  end.

(** [a === b] on identifiers: never true across the two types. *)
Definition ident_eqb (a b : ident) : bool :=
  match a, b with
  | INum x, INum y => x =? y
  | IStr s, IStr t => String.eqb s t
  | _, _ => false
  end.

(** [x + "..."] for a captured group: [undefined] prints as its name. *)
Definition to_str (o : option string) : string :=
  match o with
  | Some s => s
  | None => "undefined"
  end.

(** ** compareIdentifiers *)

(** [s < t] on strings: code unit by code unit. *)
Definition string_ltb (s t : string) : bool :=
  match String.compare s t with
  | Lt => true
  | _ => false
  end.

(** [compareIdentifiers(a, b)], lines 556-565.  [numeric.test] sees the
    operand as a string; when both pass, both are converted with [+].  A
    number is compared with a string (the last line of [lt]) only when the
    number prints with an exponent, from 10^21 on; the engine builds no such
    number and that comparison is closed with [false]. *)
Definition compareIdentifiers (a b : ident) : Z :=
  let anum := numeric_test (ident_to_string a) in
  let bnum := numeric_test (ident_to_string b) in
  let plus (x : ident) : number :=
    match x with
    | INum n => Int n
    | IStr s => ToNumber s
    end in
  let eq :=
    if anum && bnum then number_eqb (plus a) (plus b) else ident_eqb a b in
  let lt :=
    if anum && bnum then number_ltb (plus a) (plus b)
    else match a, b with
         | INum x, INum y => x <? y
         | IStr s, IStr t => string_ltb s t
         | _, _ => false
         end in
  (if eq then 0
   else if anum && negb bnum then -1
   else if bnum && negb anum then 1
   else if lt then -1 else 1)%Z.

(** [a || b] on numbers. *)
Definition or_else (a b : Z) : Z := if (a =? 0)%Z then b else a.

(** ** The SemVer class *)

(** [format()], lines 333-339: the canonical string. *)
Definition format_version (M m p : N) (pre : list ident) : string :=
  let main := NumberToString (Int M) ++ "." ++ NumberToString (Int m)
              ++ "." ++ NumberToString (Int p) in
  match pre with
  | [] => main
  | _ :: _ => main ++ "-" ++ join "." (map ident_to_string pre)
  end.

Definition is_nil {A : Type} (l : list A) : bool :=
  match l with
  | [] => true
  | _ :: _ => false
  end.

Definition SemVer_format (v : SemVer) : SemVer :=
  {| raw := raw v; options := options v;
     major := major v; minor := minor v; patch := patch v;
     version := format_version (major v) (minor v) (patch v) (prerelease v);
     build := build v; prerelease := prerelease v |}.

(** The callback of [m[4].split(".").map], lines 320-328: a run of digits
    below MAX_SAFE_INTEGER becomes a number, anything else stays a string. *)
Definition numberify (id : string) : ident :=
  if numeric_test id then
    match ToNumber id with
    | Int num => if num <? MAX_SAFE_INTEGER then INum num else IStr id
    | Infinity => IStr id
    end
  else IStr id.

(** [+m[i]] followed by the range check of lines 307-315. *)
Definition main_field (g : string) : result N :=
  match ToNumber g with
  | Int n => if MAX_SAFE_INTEGER <? n then Throw TypeError else Ok n
  | Infinity => Throw TypeError
  end.

(** [new SemVer(version, options)], lines 280-332. *)
Definition new_SemVer (v : jsvalue) (options : option Options) : result SemVer :=
  let options := object_or_default options in
  match match v with
        | VSemVer o => Ok (version o)
        | VStr s => Ok s
        | VNull | VUndefined => Throw TypeError
        end with
  | Throw e => Throw e
  | Ok text =>
      if Nat.ltb MAX_LENGTH (String.length text) then Throw TypeError
      else
        match match_FULL (trim text) with
        | None => Throw TypeError
        | Some m =>
            M <- main_field (g_major m) ;;
            mi <- main_field (g_minor m) ;;
            p <- main_field (g_patch m) ;;
            let pre :=
              match g_prerelease m with
              | None => []
              | Some m4 => map numberify (split_char "." m4)
              end in
            let b :=
              match g_build m with
              | None => []
              | Some m5 => split_char "." m5
              end in
            Ok {| raw := text; options := options;
                  major := M; minor := mi; patch := p;
                  version := format_version M mi p pre;
                  build := b; prerelease := pre |}
        end
  end.

(** [compareMain(other)], lines 346-351, on a [SemVer] operand. *)
Definition compareMain (this other : SemVer) : Z :=
  or_else (compareIdentifiers (INum (major this)) (INum (major other)))
    (or_else (compareIdentifiers (INum (minor this)) (INum (minor other)))
       (compareIdentifiers (INum (patch this)) (INum (patch other)))).

(** The [do ... while (++i)] loop of [comparePre], lines 364-380.  The two
    lists are the elements from index [i] on; an exhausted list reads
    [undefined]. *)
Fixpoint comparePre_loop (a b : list ident) : Z :=
  match a, b with
  | [], [] => 0
  | _ :: _, [] => 1
  | [], _ :: _ => -1
  | x :: a', y :: b' =>
      if ident_eqb x y then comparePre_loop a' b'
      else compareIdentifiers x y
  end%Z.

(** [comparePre(other)], lines 352-381, on a [SemVer] operand. *)
Definition comparePre (this other : SemVer) : Z :=
  match prerelease this, prerelease other with
  | _ :: _, [] => -1
  | [], _ :: _ => 1
  | [], [] => 0
  | a, b => comparePre_loop a b
  end%Z.

(** The conversion every method starts with:
    [if (!(other instanceof SemVer)) other = new SemVer(other, this.options)]. *)
Definition as_SemVer (this : SemVer) (other : jsvalue) : result SemVer :=
  match other with
  | VSemVer o => Ok o
  | _ => new_SemVer other (Some (options this))
  end.

(** [this.compare(other)], lines 340-345. *)
Definition SemVer_compare (this : SemVer) (other : jsvalue) : result Z :=
  o <- as_SemVer this other ;;
  Ok (or_else (compareMain this o) (comparePre this o)).

(** ** inc *)

(** [x++] on a field or a numeric identifier. *)
Definition incr (n : N) : N := round53 (n + 1).

Definition with_main (v : SemVer) (M m p : N) (pre : list ident) : SemVer :=
  {| raw := raw v; options := options v;
     major := M; minor := m; patch := p;
     version := version v; build := build v; prerelease := pre |}.

(** The end of [inc], lines 510-512: [this.format(); this.raw = this.version]. *)
Definition finish_inc (v : SemVer) : SemVer :=
  let text := format_version (major v) (minor v) (patch v) (prerelease v) in
  {| raw := text; options := options v;
     major := major v; minor := minor v; patch := patch v;
     version := text; build := build v; prerelease := prerelease v |}.

(** The [while (--i >= 0)] loop of the "pre" case, lines 476-483: the last
    number of the list is incremented; [None] when the list holds none (the
    loop then ends with [i === -1]). *)
Fixpoint incr_last_number (l : list ident) : option (list ident) :=
  match l with
  | [] => None
  | x :: xs =>
      match incr_last_number xs with
      | Some xs' => Some (x :: xs')
      | None =>
          match x with
          | INum n => Some (INum (incr n) :: xs)
          | IStr _ => None
          end
      end
  end.

(** Whether [Number(s)] is not [NaN]: [s], trimmed, is empty or a
    StrNumericLiteral (a signed decimal literal or [Infinity], or an
    unsigned binary, octal or hexadecimal integer literal). *)
Definition is_hex_digit (c : ascii) : bool :=
  (is_digit c || (Ascii.leb "a" c && Ascii.leb c "f")
   || (Ascii.leb "A" c && Ascii.leb c "F"))%char.

Definition is_octal_digit (c : ascii) : bool :=
  (Ascii.leb "0" c && Ascii.leb c "7")%char.

Definition is_binary_digit (c : ascii) : bool :=
  (Ascii.eqb c "0" || Ascii.eqb c "1")%char.

(** ExponentPart opt, to the end of the string. *)
Definition exponent_opt (s : string) : bool :=
  match s with
  | EmptyString => true
  | String c s' =>
      if Ascii.eqb c "e" || Ascii.eqb c "E" then
        match s' with
        | String sign s'' =>
            if Ascii.eqb sign "+" || Ascii.eqb sign "-" then numeric_test s''
            else numeric_test s'
        | EmptyString => false
        end
      else false
  end.

(** StrUnsignedDecimalLiteral *)
Definition unsigned_decimal (s : string) : bool :=
  if String.eqb s "Infinity" then true
  else
    let (int_part, s1) := take_while is_digit s in
    match s1 with
    | String "." s2 =>
        let (frac_part, s3) := take_while is_digit s2 in
        negb (is_empty int_part && is_empty frac_part) && exponent_opt s3
    | _ => negb (is_empty int_part) && exponent_opt s1
    end.

Definition string_is_number (s : string) : bool :=
  match trim s with
  | EmptyString => true
  | String "0" (String c digits) as t =>
      if Ascii.eqb c "x" || Ascii.eqb c "X" then
        negb (is_empty digits) && forallb_string is_hex_digit digits
      else if Ascii.eqb c "o" || Ascii.eqb c "O" then
        negb (is_empty digits) && forallb_string is_octal_digit digits
      else if Ascii.eqb c "b" || Ascii.eqb c "B" then
        negb (is_empty digits) && forallb_string is_binary_digit digits
      else unsigned_decimal t
  | String c s' as t =>
      if Ascii.eqb c "+" || Ascii.eqb c "-" then unsigned_decimal s'
      else unsigned_decimal t
  end.

(** [isNaN(this.prerelease[1])] *)
Definition isNaN_second (pre : list ident) : bool :=
  match pre with
  | _ :: INum _ :: _ => false
  | _ :: IStr s :: _ => negb (string_is_number s)
  | _ => true
  end.

(** The case "pre" of [inc], lines 470-506.  [identifier] is [None] when it
    is omitted; an empty string is as falsy. *)
Definition inc_pre (v : SemVer) (identifier : option string) : SemVer :=
  let pre1 :=
    match prerelease v with
    | [] => [INum 0]
    | l =>
        match incr_last_number l with
        | Some l' => l'
        | None => (l ++ [INum 0])%list
        end
    end in
  let pre2 :=
    match identifier with
    | None => pre1
    | Some id =>
        if is_empty id then pre1
        else
          match pre1 with
          | IStr s :: _ =>
              if String.eqb s id then
                if isNaN_second pre1 then [IStr id; INum 0] else pre1
              else [IStr id; INum 0]
          | _ => [IStr id; INum 0]
          end
    end in
  finish_inc (with_main v (major v) (minor v) (patch v) pre2).

(** The case "patch", lines 458-467. *)
Definition inc_patch (v : SemVer) : SemVer :=
  let p := match prerelease v with
           | [] => incr (patch v)
           | _ :: _ => patch v
           end in
  finish_inc (with_main v (major v) (minor v) p []).

(** The case "minor", lines 447-457. *)
Definition inc_minor (v : SemVer) : SemVer :=
  let m := if negb (patch v =? 0) || is_nil (prerelease v)
           then incr (minor v) else minor v in
  finish_inc (with_main v (major v) m 0 []).

(** The case "major", lines 435-446. *)
Definition inc_major (v : SemVer) : SemVer :=
  let M := if negb (minor v =? 0) || negb (patch v =? 0) || is_nil (prerelease v)
           then incr (major v) else major v in
  finish_inc (with_main v M 0 0 []).

(** [this.inc(release, identifier)], lines 404-513.  The receiver is a
    fresh object wherever the engine calls the method, so the mutation is a
    new record. *)
Definition SemVer_inc (v : SemVer) (release : string) (identifier : option string)
  : result SemVer :=
  if String.eqb release "premajor" then
    Ok (finish_inc
          (inc_pre (with_main v (incr (major v)) 0 0 []) identifier))
  else if String.eqb release "preminor" then
    Ok (finish_inc
          (inc_pre (with_main v (major v) (incr (minor v)) 0 []) identifier))
  else if String.eqb release "prepatch" then
    Ok (finish_inc
          (inc_pre
             (inc_patch (with_main v (major v) (minor v) (patch v) []))
             identifier))
  else if String.eqb release "prerelease" then
    let v1 := match prerelease v with
              | [] => inc_patch v
              | _ :: _ => v
              end in
    Ok (finish_inc (inc_pre v1 identifier))
  else if String.eqb release "major" then Ok (inc_major v)
  else if String.eqb release "minor" then Ok (inc_minor v)
  else if String.eqb release "patch" then Ok (inc_patch v)
  else if String.eqb release "pre" then Ok (inc_pre v identifier)
  else Throw Error.

(** ** The exported functions on versions *)

(** [parse(version, options)], lines 241-265. *)
Definition parse (v : jsvalue) (options : option Options) : result (option SemVer) :=
  match v with
  | VSemVer o => Ok (Some o)
  | VNull | VUndefined => Ok None
  | VStr s =>
      if Nat.ltb MAX_LENGTH (String.length s) then Ok None
      else
        match match_FULL s with
        | None => Ok None
        | Some _ =>
            try_catch (o <- new_SemVer v options ;; Ok (Ok (Some o))) (Ok None)
        end
  end.

(** [valid(version, options)], lines 266-270. *)
Definition valid (v : jsvalue) (options : option Options) : result (option string) :=
  match v with
  | VNull => Ok None
  | _ =>
      o <- parse v options ;;
      Ok (match o with
          | Some o => Some (version o)
          | None => None
          end)
  end.

(** The third argument of [inc]: a string there is the identifier. *)
Inductive inc_options : Type :=
  | IdentifierGiven (identifier : string)
  | OptionsGiven (options : option Options).

(** [inc(version, release, options, identifier)], lines 520-530: the new
    version string, or [null]. *)
Definition inc (v : jsvalue) (release : string) (opts : inc_options)
  (identifier : option string) : option string :=
  let identifier :=
    match opts with
    | IdentifierGiven id => Some id
    | OptionsGiven _ => identifier
    end in
  let options :=
    match opts with
    | IdentifierGiven _ => None
    | OptionsGiven o => o
    end in
  try_catch
    (o <- new_SemVer v options ;;
     o' <- SemVer_inc o release identifier ;;
     Ok (Some (version o')))
    None.

(** [compare(v1, v2, options)], lines 584-586. *)
Definition compare (v1 v2 : jsvalue) (options : option Options) : result Z :=
  a <- new_SemVer v1 options ;;
  b <- new_SemVer v2 options ;;
  SemVer_compare a (VSemVer b).

Definition gt (v1 v2 : jsvalue) (options : option Options) : result bool :=
  c <- compare v1 v2 options ;; Ok (0 <? c)%Z.

Definition lt (v1 v2 : jsvalue) (options : option Options) : result bool :=
  c <- compare v1 v2 options ;; Ok (c <? 0)%Z.

Definition eq (v1 v2 : jsvalue) (options : option Options) : result bool :=
  c <- compare v1 v2 options ;; Ok (c =? 0)%Z.

Definition neq (v1 v2 : jsvalue) (options : option Options) : result bool :=
  c <- compare v1 v2 options ;; Ok (negb (c =? 0)%Z).

Definition gte (v1 v2 : jsvalue) (options : option Options) : result bool :=
  c <- compare v1 v2 options ;; Ok (0 <=? c)%Z.

Definition lte (v1 v2 : jsvalue) (options : option Options) : result bool :=
  c <- compare v1 v2 options ;; Ok (c <=? 0)%Z.

(** [diff(version1, version2, options)], lines 531-554: the release type
    as a string, or [null].  The [for ... in] loop meets the keys of a
    [SemVer] in the order the class declares them, so "major", "minor" and
    "patch" in this order. *)
Definition diff (version1 version2 : jsvalue) (options : option Options)
  : result (option string) :=
  e <- eq version1 version2 options ;;
  if e then Ok None
  else
    v1 <- parse version1 None ;;
    v2 <- parse version2 None ;;
    match v1, v2 with
    | Some v1, Some v2 =>
        let has_pre := negb (is_nil (prerelease v1)) || negb (is_nil (prerelease v2)) in
        let prefix := if has_pre then "pre" else "" in
        let defaultResult := if has_pre then Some "prerelease" else None in
        if negb (major v1 =? major v2) then Ok (Some (prefix ++ "major"))
        else if negb (minor v1 =? minor v2) then Ok (Some (prefix ++ "minor"))
        else if negb (patch v1 =? patch v2) then Ok (Some (prefix ++ "patch"))
        else Ok defaultResult
    | _, _ => Ok None
    end.

(** [v1 === v2] after [cmp] has replaced objects by their [version]. *)
Definition strict_equal_versions (v1 v2 : jsvalue) : result bool :=
  let unwrap (v : jsvalue) : result (option string) :=
    match v with
    | VSemVer o => Ok (Some (version o))
    | VStr s => Ok (Some s)
    | VNull => Throw (NullDereference "v")
    | VUndefined => Ok None
    end in
  a <- unwrap v1 ;;
  b <- unwrap v2 ;;
  Ok match a, b with
     | Some s, Some t => String.eqb s t
     | None, None => true
     | _, _ => false
     end.

(** [cmp(v1, operator, v2, options)], lines 623-650. *)
Definition cmp (v1 : jsvalue) (operator : string) (v2 : jsvalue)
  (options : option Options) : result bool :=
  if String.eqb operator "===" then strict_equal_versions v1 v2
  else if String.eqb operator "!==" then
    b <- strict_equal_versions v1 v2 ;; Ok (negb b)
  else if String.eqb operator "" || String.eqb operator "="
          || String.eqb operator "==" then eq v1 v2 options
  else if String.eqb operator "!=" then neq v1 v2 options
  else if String.eqb operator ">" then gt v1 v2 options
  else if String.eqb operator ">=" then gte v1 v2 options
  else if String.eqb operator "<" then lt v1 v2 options
  else if String.eqb operator "<=" then lte v1 v2 options
  else Throw TypeError.

(** ** The Comparator class *)

(** [semver] is [None] for the sentinel [ANY]. *)
Record Comparator : Type := {
  semver : option SemVer;
  operator : string;
  value : string;
  comparator_options : Options
}.

(** [new Comparator(comp, options)] on a string, lines 657-694, with
    [parse(comp)] inlined. *)
Definition new_Comparator (comp : string) (options : option Options)
  : result Comparator :=
  let options := object_or_default options in
  match match_COMPARATOR comp with
  | None => Throw TypeError
  | Some (m1, m2) =>
      let op := match m1 with
                | Some s => s
                | None => ""
                end in
      let op := if String.eqb op "=" then "" else op in
      match m2 with
      | None =>
          Ok {| semver := None; operator := op; value := "";
                comparator_options := options |}
      | Some m2 =>
          if is_empty m2 then
            Ok {| semver := None; operator := op; value := "";
                  comparator_options := options |}
          else
            sv <- new_SemVer (VStr m2) (Some options) ;;
            Ok {| semver := Some sv; operator := op;
                  value := op ++ version sv;
                  comparator_options := options |}
      end
  end.

(** [this.test(version)], lines 695-703. *)
Definition Comparator_test (this : Comparator) (v : jsvalue) : result bool :=
  match semver this with
  | None => Ok true
  | Some sv =>
      v' <- match v with
            | VStr _ => o <- new_SemVer v (Some (comparator_options this)) ;;
                        Ok (VSemVer o)
            | _ => Ok v
            end ;;
      cmp v' (operator this) (VSemVer sv) (Some (comparator_options this))
  end.

(** ** Range shorthand *)

(** [isX(id)], lines 880-882. *)
Definition isX (id : option string) : bool :=
  match id with
  | None => true
  | Some s => is_empty s || String.eqb (toLowerCase s) "x" || String.eqb s "*"
  end.

(** [(+s + 1)] as a string operand. *)
Definition plus_one (s : option string) : string :=
  NumberToString (number_succ (ToNumber (to_str s))).

Definition truthy_group (o : option string) : bool :=
  match o with
  | Some s => negb (is_empty s)
  | None => false
  end.

(** The callback of [replaceTilde], lines 894-910. *)
Definition tilde_callback (g : xrange_groups) : string :=
  let M := Some (x_M g) in
  let m := x_m g in
  let p := x_p g in
  let pr := x_pr g in
  if isX M then ""
  else if isX m then
    ">=" ++ to_str M ++ ".0.0 <" ++ plus_one M ++ ".0.0"
  else if isX p then
    ">=" ++ to_str M ++ "." ++ to_str m ++ ".0 <" ++ to_str M ++ "."
      ++ plus_one m ++ ".0"
  else if truthy_group pr then
    ">=" ++ to_str M ++ "." ++ to_str m ++ "." ++ to_str p ++ "-" ++ to_str pr
      ++ " <" ++ to_str M ++ "." ++ plus_one m ++ ".0"
  else
    ">=" ++ to_str M ++ "." ++ to_str m ++ "." ++ to_str p
      ++ " <" ++ to_str M ++ "." ++ plus_one m ++ ".0".

(** [replaceTilde(comp)], lines 892-911. *)
Definition replaceTilde (comp : string) : string :=
  match match_TILDE comp with
  | Some g => tilde_callback g
  | None => comp
  end.

(** [replaceTildes(comp)], lines 889-891. *)
Definition replaceTildes (comp : string) : string :=
  join " " (map replaceTilde (split_ws (trim comp))).

(** The callback of [replaceCaret], lines 923-957. *)
Definition caret_callback (g : xrange_groups) : string :=
  let M := Some (x_M g) in
  let m := x_m g in
  let p := x_p g in
  let pr := x_pr g in
  if isX M then ""
  else if isX m then
    ">=" ++ to_str M ++ ".0.0 <" ++ plus_one M ++ ".0.0"
  else if isX p then
    if String.eqb (to_str M) "0" then
      ">=" ++ to_str M ++ "." ++ to_str m ++ ".0 <" ++ to_str M ++ "."
        ++ plus_one m ++ ".0"
    else
      ">=" ++ to_str M ++ "." ++ to_str m ++ ".0 <" ++ plus_one M ++ ".0.0"
  else if truthy_group pr then
    if String.eqb (to_str M) "0" then
      if String.eqb (to_str m) "0" then
        ">=" ++ to_str M ++ "." ++ to_str m ++ "." ++ to_str p ++ "-" ++ to_str pr
          ++ " <" ++ to_str M ++ "." ++ to_str m ++ "." ++ plus_one p
      else
        ">=" ++ to_str M ++ "." ++ to_str m ++ "." ++ to_str p ++ "-" ++ to_str pr
          ++ " <" ++ to_str M ++ "." ++ plus_one m ++ ".0"
    else
      ">=" ++ to_str M ++ "." ++ to_str m ++ "." ++ to_str p ++ "-" ++ to_str pr
        ++ " <" ++ plus_one M ++ ".0.0"
  else
    if String.eqb (to_str M) "0" then
      if String.eqb (to_str m) "0" then
        ">=" ++ to_str M ++ "." ++ to_str m ++ "." ++ to_str p
          ++ " <" ++ to_str M ++ "." ++ to_str m ++ "." ++ plus_one p
      else
        ">=" ++ to_str M ++ "." ++ to_str m ++ "." ++ to_str p
          ++ " <" ++ to_str M ++ "." ++ plus_one m ++ ".0"
    else
      ">=" ++ to_str M ++ "." ++ to_str m ++ "." ++ to_str p
        ++ " <" ++ plus_one M ++ ".0.0".

(** [replaceCaret(comp)], lines 921-958. *)
Definition replaceCaret (comp : string) : string :=
  match match_CARET comp with
  | Some g => caret_callback g
  | None => comp
  end.

(** [replaceCarets(comp)], lines 918-920. *)
Definition replaceCarets (comp : string) : string :=
  join " " (map replaceCaret (split_ws (trim comp))).

(** The callback of [replaceXRange], lines 965-1018.  [ret] is the whole
    match.  A group that the callback overwrites with a number is kept as
    the string that number prints as. *)
Definition xrange_callback (ret gtlt : string) (g : xrange_groups) : string :=
  let M := Some (x_M g) in
  let m := x_m g in
  let p := x_p g in
  let xM := isX M in
  let xm := xM || isX m in
  let xp := xm || isX p in
  let anyX := xp in
  let gtlt := if String.eqb gtlt "=" && anyX then "" else gtlt in
  if xM then
    if String.eqb gtlt ">" || String.eqb gtlt "<" then "<0.0.0" else "*"
  else if negb (is_empty gtlt) && anyX then
    let m0 := if xm then "0" else to_str m in
    if String.eqb gtlt ">" then
      if xm then ">=" ++ plus_one M ++ "." ++ "0" ++ "." ++ "0"
      else ">=" ++ to_str M ++ "." ++ plus_one (Some m0) ++ "." ++ "0"
    else if String.eqb gtlt "<=" then
      if xm then "<" ++ plus_one M ++ "." ++ m0 ++ "." ++ "0"
      else "<" ++ to_str M ++ "." ++ plus_one (Some m0) ++ "." ++ "0"
    else gtlt ++ to_str M ++ "." ++ m0 ++ "." ++ "0"
  else if xm then
    ">=" ++ to_str M ++ ".0.0 <" ++ plus_one M ++ ".0.0"
  else if xp then
    ">=" ++ to_str M ++ "." ++ to_str m ++ ".0 <" ++ to_str M ++ "."
      ++ plus_one m ++ ".0"
  else ret.

(** [replaceXRange(comp)], lines 962-1019. *)
Definition replaceXRange (comp : string) : string :=
  let comp := trim comp in
  match match_XRANGE comp with
  | Some (gtlt, g) => xrange_callback comp gtlt g
  | None => comp
  end.

(** [replaceXRanges(comp)], lines 959-961. *)
Definition replaceXRanges (comp : string) : string :=
  join " " (map replaceXRange (split_ws comp)).

(** [replaceStars(comp)], lines 1022-1024. *)
Definition replaceStars (comp : string) : string := replace_STAR (trim comp).

(** [parseComparator(comp)], lines 873-879. *)
Definition parseComparator (comp : string) : string :=
  replaceStars (replaceXRanges (replaceTildes (replaceCarets comp))).

(** [hyphenReplace], lines 1030-1052, on the groups of HYPHENRANGE. *)
Definition hyphenReplace (from : string) (f : xrange_groups)
  (to : string) (t : xrange_groups) : string :=
  let fM := Some (x_M f) in
  let tM := Some (x_M t) in
  let from' :=
    if isX fM then ""
    else if isX (x_m f) then ">=" ++ to_str fM ++ ".0.0"
    else if isX (x_p f) then ">=" ++ to_str fM ++ "." ++ to_str (x_m f) ++ ".0"
    else ">=" ++ from in
  let to' :=
    if isX tM then ""
    else if isX (x_m t) then "<" ++ plus_one tM ++ ".0.0"
    else if isX (x_p t) then "<" ++ to_str tM ++ "." ++ plus_one (x_m t) ++ ".0"
    else if truthy_group (x_pr t) then
      "<=" ++ to_str tM ++ "." ++ to_str (x_m t) ++ "." ++ to_str (x_p t)
        ++ "-" ++ to_str (x_pr t)
    else "<=" ++ to in
  trim (from' ++ " " ++ to').

(** ** The Range class *)

Record Range : Type := {
  range : string;
  range_raw : string;
  range_options : Options;
  range_includePrerelease : bool;
  set : list (list Comparator)
}.

(** [this.parseRange(range)], lines 781-792. *)
Definition parseRange (options : Options) (range : string)
  : result (list Comparator) :=
  let range := trim range in
  let range :=
    match match_HYPHENRANGE range with
    | Some ((from, f), (to, t)) => hyphenReplace from f to t
    | None => range
    end in
  let range := join " " (split_ws range) in
  let comps :=
    split_ws (join " " (map parseComparator (split_char " " range))) in
  mapM (fun comp => new_Comparator comp (Some options)) comps.

(** [this.format()], lines 777-780. *)
Definition format_range (set : list (list Comparator)) : string :=
  trim (join "||" (map (fun comps => trim (join " " (map value comps))) set)).

(** [new Range(range, options)] on a string, lines 764-775. *)
Definition new_Range_of_string (range : string) (options : Options) : result Range :=
  sets <- mapM (fun r => parseRange options (trim r)) (split_or range) ;;
  let set := filter (fun c => negb (is_nil c)) sets in
  if is_nil set then Throw TypeError
  else
    Ok {| range := format_range set; range_raw := range;
          range_options := options;
          range_includePrerelease := includePrerelease options;
          set := set |}.

(** A range argument: a string, a [Range], a [Comparator], [null] or
    [undefined]. *)
Inductive range_arg : Type :=
  | RStr (s : string)
  | RRange (r : Range)
  | RComparator (c : Comparator)
  | RNull
  | RUndefined.

(** [new Range(range, options)], lines 745-776.  [null] and [undefined]
    reach [range.split], a property access the runtime refuses. *)
Definition new_Range (r : range_arg) (options : option Options) : result Range :=
  let options := object_or_default options in
  match r with
  | RRange r =>
      if Bool.eqb (range_includePrerelease r) (includePrerelease options)
      then Ok r
      else new_Range_of_string (range_raw r) options
  | RComparator c => new_Range_of_string (value c) options
  | RStr s => new_Range_of_string s options
  | RNull | RUndefined => Throw (NullDereference "range")
  end.

(** [version.prerelease] of an argument. *)
Definition prerelease_of (v : jsvalue) : result (list ident) :=
  match v with
  | VSemVer o => Ok (prerelease o)
  | VStr _ | VNull | VUndefined => Throw (NullDereference "version")
  end.

(** The first loop of [testSet], lines 823-827. *)
Fixpoint all_test (set : list Comparator) (v : jsvalue) : result bool :=
  match set with
  | [] => Ok true
  | c :: set' =>
      t <- Comparator_test c v ;;
      if t then all_test set' v else Ok false
  end.

(** The second loop of [testSet], lines 834-846, on a [SemVer]. *)
Fixpoint prerelease_allowed (set : list Comparator) (v : SemVer) : bool :=
  match set with
  | [] => false
  | c :: set' =>
      match semver c with
      | None => prerelease_allowed set' v
      | Some allowed =>
          if negb (is_nil (prerelease allowed))
             && (major allowed =? major v) && (minor allowed =? minor v)
             && (patch allowed =? patch v)
          then true
          else prerelease_allowed set' v
      end
  end.

(** [testSet(set, version, options)], lines 822-849. *)
Definition testSet (set : list Comparator) (v : jsvalue) (options : Options)
  : result bool :=
  t <- all_test set v ;;
  if negb t then Ok false
  else
    pre <- prerelease_of v ;;
    if negb (is_nil pre) && negb (includePrerelease options) then
      match v with
      | VSemVer o => Ok (prerelease_allowed set o)
      | _ => Throw (NullDereference "version")
      end
    else Ok true.

(** The loop of [Range.test], lines 797-802. *)
Fixpoint some_testSet (sets : list (list Comparator)) (v : jsvalue)
  (options : Options) : result bool :=
  match sets with
  | [] => Ok false
  | s :: sets' =>
      t <- testSet s v options ;;
      if t then Ok true else some_testSet sets' v options
  end.

(** [this.test(version)], lines 793-803. *)
Definition Range_test (this : Range) (v : jsvalue) : result bool :=
  v' <- match v with
        | VStr _ => o <- new_SemVer v (Some (range_options this)) ;; Ok (VSemVer o)
        | _ => Ok v
        end ;;
  some_testSet (set this) v' (range_options this).

(** ** The query functions *)

(** [satisfies(version, range, options)], lines 1053-1060. *)
Definition satisfies (v : jsvalue) (r : range_arg) (options : option Options)
  : result bool :=
  match new_Range r options with
  | Throw _ => Ok false
  | Ok r => Range_test r v
  end.

(** The state of the scans: [max] and [maxSV] (or [min] and [minSV]);
    [None] is [null]. *)
Definition scan_state : Type := (option jsvalue * option SemVer)%type.

Definition falsy (m : option jsvalue) : bool :=
  match m with
  | None => true
  | Some v => negb (truthy v)
  end.

(** The callback of [versions.forEach] in [maxSatisfying], lines 1071-1080. *)
Definition maxSatisfying_step (rangeObj : Range) (options : option Options)
  (st : scan_state) (v : jsvalue) : result scan_state :=
  let (max, maxSV) := st in
  t <- Range_test rangeObj v ;;
  if t then
    replace <-
      (if falsy max then Ok true
       else match maxSV with
            | None => Ok false
            | Some sv => c <- SemVer_compare sv v ;; Ok (c =? -1)%Z
            end) ;;
    if replace then
      sv <- new_SemVer v options ;; Ok (Some v, Some sv)
    else Ok st
  else Ok st.

(** The callback of [versions.forEach] in [minSatisfying], lines 1093-1102.
    [minSV.compare] on a [null] [minSV] is the runtime's TypeError. *)
Definition minSatisfying_step (rangeObj : Range) (options : option Options)
  (st : scan_state) (v : jsvalue) : result scan_state :=
  let (min, minSV) := st in
  t <- Range_test rangeObj v ;;
  if t then
    replace <-
      (if falsy min then Ok true
       else match minSV with
            | None => Throw (NullDereference "minSV")
            | Some sv => c <- SemVer_compare sv v ;; Ok (c =? 1)%Z
            end) ;;
    if replace then
      sv <- new_SemVer v options ;; Ok (Some v, Some sv)
    else Ok st
  else Ok st.

(** [versions.forEach(f)] over a state. *)
Fixpoint forEach {S A : Type} (f : S -> A -> result S) (xs : list A) (st : S)
  : result S :=
  match xs with
  | [] => Ok st
  | x :: xs' => st' <- f st x ;; forEach f xs' st'
  end.

(** [maxSatisfying(versions, range, options)], lines 1061-1082. *)
Definition maxSatisfying (versions : list jsvalue) (r : range_arg)
  (options : option Options) : result (option jsvalue) :=
  match new_Range r options with
  | Throw _ => Ok None
  | Ok rangeObj =>
      st <- forEach (maxSatisfying_step rangeObj options) versions (None, None) ;;
      Ok (fst st)
  end.

(** [minSatisfying(versions, range, options)], lines 1083-1104. *)
Definition minSatisfying (versions : list jsvalue) (r : range_arg)
  (options : option Options) : result (option jsvalue) :=
  match new_Range r options with
  | Throw _ => Ok None
  | Ok rangeObj =>
      st <- forEach (minSatisfying_step rangeObj options) versions (None, None) ;;
      Ok (fst st)
  end.

(** The callback of [comparators.forEach] in [minVersion], lines
    1118-1141.  [comparator.semver.version] of [ANY] is [undefined], which
    [new SemVer] refuses. *)
Definition minVersion_step (minver : option SemVer) (comparator : Comparator)
  : result (option SemVer) :=
  compver <- match semver comparator with
             | Some sv => new_SemVer (VStr (version sv)) None
             | None => new_SemVer VUndefined None
             end ;;
  let keep_lowest (compver : SemVer) : result (option SemVer) :=
    match minver with
    | None => Ok (Some compver)
    | Some mv =>
        g <- gt (VSemVer mv) (VSemVer compver) None ;;
        if g then Ok (Some compver) else Ok minver
    end in
  let op := operator comparator in
  if String.eqb op ">" then
    let bumped :=
      match prerelease compver with
      | [] => with_main compver (major compver) (minor compver)
                (incr (patch compver)) []
      | pre => with_main compver (major compver) (minor compver)
                 (patch compver) (pre ++ [INum 0])%list
      end in
    keep_lowest (finish_inc bumped)
  else if String.eqb op "" || String.eqb op ">=" then keep_lowest compver
  else if String.eqb op "<" || String.eqb op "<=" then Ok minver
  else Throw Error.

(** [minVersion(range, options)], lines 1105-1147. *)
Definition minVersion (r : range_arg) (options : option Options)
  : result (option SemVer) :=
  rangeObj <- new_Range r options ;;
  zero <- new_SemVer (VStr "0.0.0") None ;;
  t <- Range_test rangeObj (VSemVer zero) ;;
  if t then Ok (Some zero)
  else
    zero_pre <- new_SemVer (VStr "0.0.0-0") None ;;
    t <- Range_test rangeObj (VSemVer zero_pre) ;;
    if t then Ok (Some zero_pre)
    else
      minver <- forEach (fun minver comparators =>
                           forEach minVersion_step comparators minver)
                  (set rangeObj) None ;;
      match minver with
      | None => Ok None
      | Some mv =>
          t <- Range_test rangeObj (VSemVer mv) ;;
          if t then Ok (Some mv) else Ok None
      end.

(** [validRange(range, options)], lines 1148-1157. *)
Definition validRange (r : range_arg) (options : option Options) : option string :=
  try_catch
    (match r with
     | RNull => Ok None
     | _ =>
         rangeObj <- new_Range r options ;;
         Ok (Some (if is_empty (range rangeObj) then "*" else range rangeObj))
     end)
    None.

(** * Definitions used by the statements *)

(** ** The prerelease rule, as the specification words it

    A version with a prerelease sorts before the same main version without
    one; two prerelease lists are compared identifier by identifier, left
    to right: numeric identifiers numerically, non-numeric ones lexically,
    a numeric one below a non-numeric one, and a list that runs out first
    sorts first. *)

Inductive identifier_kind : Type :=
  | Numeric (value : N)
  | NonNumeric (text : string).

(** An identifier is numeric when it is made of digits, whichever way the
    object stores it. *)
Definition kind_of (x : ident) : identifier_kind :=
  match x with
  | INum n => Numeric n
  | IStr s => if numeric_test s then Numeric (digits_value s) else NonNumeric s
  end.

Definition sign (c : comparison) : Z :=
  match c with
  | Lt => -1
  | Eq => 0
  | Gt => 1
  end%Z.

Definition spec_compare_identifier (x y : ident) : Z :=
  match kind_of x, kind_of y with
  | Numeric a, Numeric b => sign (N.compare a b)
  | Numeric _, NonNumeric _ => (-1)%Z
  | NonNumeric _, Numeric _ => 1%Z
  | NonNumeric s, NonNumeric t => sign (String.compare s t)
  end.

Fixpoint spec_compare_identifiers (a b : list ident) : Z :=
  match a, b with
  | [], [] => 0
  | [], _ :: _ => -1
  | _ :: _, [] => 1
  | x :: a', y :: b' =>
      let c := spec_compare_identifier x y in
      if (c =? 0)%Z then spec_compare_identifiers a' b' else c
  end%Z.

Definition spec_prerelease_rule (a b : list ident) : Z :=
  match a, b with
  | [], [] => 0
  | _ :: _, [] => -1
  | [], _ :: _ => 1
  | _ :: _, _ :: _ => spec_compare_identifiers a b
  end%Z.

(** ** Predicates on versions *)

Definition same_main (a b : SemVer) : bool :=
  (major a =? major b) && (minor a =? minor b) && (patch a =? patch b).

(** The identifier is stored the way the constructor stores a numeric
    identifier below MAX_SAFE_INTEGER or a non-numeric one: no run of digits
    is kept as a string. *)
Definition safe_identifier (x : ident) : bool :=
  match x with
  | INum n => n <? MAX_SAFE_INTEGER
  | IStr s => negb (numeric_test s)
  end.

Definition safe_prerelease (v : SemVer) : bool :=
  forallb safe_identifier (prerelease v).

(** A prerelease identifier as the constructor stores it, lines 320-328:
    a number below MAX_SAFE_INTEGER, a string that is not a run of digits,
    or a run of digits whose double is MAX_SAFE_INTEGER or more. *)
Definition stored_identifier (x : ident) : bool :=
  match x with
  | INum n => n <? MAX_SAFE_INTEGER
  | IStr s =>
      negb (numeric_test s)
      || match ToNumber s with
         | Int num => negb (num <? MAX_SAFE_INTEGER)
         | Infinity => true
         end
  end.

(** What the constructor guarantees of the numbers of an object. *)
Definition number_identifier_ok (x : ident) : bool :=
  match x with
  | INum n => n <? MAX_SAFE_INTEGER
  | IStr _ => true
  end.

Definition numbers_ok (v : SemVer) : bool :=
  (major v <=? MAX_SAFE_INTEGER) && (minor v <=? MAX_SAFE_INTEGER)
  && (patch v <=? MAX_SAFE_INTEGER)
  && forallb number_identifier_ok (prerelease v).

(** ** compareIdentifiers by kinds *)

(** The comparison of two numbers and of two strings, as the last line of
    [compareIdentifiers] performs it. *)
Definition number_cmp (a b : number) : Z :=
  (if number_eqb a b then 0 else if number_ltb a b then -1 else 1)%Z.

Definition string_cmp (s t : string) : Z :=
  (if String.eqb s t then 0 else if string_ltb s t then -1 else 1)%Z.

(** [numeric.test(x)] *)
Definition is_numeric (x : ident) : bool := numeric_test (ident_to_string x).

(** [+x] *)
Definition number_of (x : ident) : number :=
  match x with
  | INum n => Int n
  | IStr s => ToNumber s
  end.

(** A number up to 2^53 prints as its digits. *)
Definition prints_as_digits (x : ident) : bool :=
  match x with
  | INum n => n <=? 2 ^ 53
  | IStr _ => true
  end.

(** [this.compare(other)] on two objects. *)
Definition compare_objects (a b : SemVer) : Z :=
  or_else (compareMain a b) (comparePre a b).

(** The main fields are numbers that print as their digits. *)
Definition main_ok (v : SemVer) : Prop :=
  major v <= 2 ^ 53 /\ minor v <= 2 ^ 53 /\ patch v <= 2 ^ 53.

(** The object with other options. *)
Definition with_options (v : SemVer) (o : Options) : SemVer :=
  {| raw := raw v; options := o;
     major := major v; minor := minor v; patch := patch v;
     version := version v; build := build v; prerelease := prerelease v |}.

(** ** diff, as amended *)

Definition has_prerelease (v : SemVer) : bool := negb (is_nil (prerelease v)).

(** The release type [diff] reports for two objects. *)
Definition release_type_between (v1 v2 : SemVer) : option string :=
  if (compare_objects v1 v2 =? 0)%Z then None
  else
    let prefix := if has_prerelease v1 || has_prerelease v2 then "pre" else "" in
    if negb (major v1 =? major v2) then Some (prefix ++ "major")
    else if negb (minor v1 =? minor v2) then Some (prefix ++ "minor")
    else if negb (patch v1 =? patch v2) then Some (prefix ++ "patch")
    else Some "prerelease".

(** A string of [n] ones. *)
Fixpoint ones (n : nat) : string :=
  match n with
  | O => EmptyString
  | S n' => String "1" (ones n')
  end.

(** ** The shape of the strings the grammar accepts *)

(** Whether [s] starts with a character satisfying [p]. *)
Definition head_is (p : ascii -> bool) (s : string) : bool :=
  match s with
  | EmptyString => false
  | String c _ => p c
  end.

(** A whole NUMERICIDENTIFIER: "0", or digits that do not start with 0. *)
Definition nid_ok (s : string) : bool :=
  match s with
  | EmptyString => false
  | String c ds =>
      (Ascii.eqb c "0" && is_empty ds)
      || (is_digit c && negb (Ascii.eqb c "0") && forallb_string is_digit ds)
  end.

(** A whole dotted list of identifiers. *)
Definition dotted_ok (valid : string -> bool) (run : string) : bool :=
  forallb_string is_idchar_or_dot run && forallb valid (split_char "." run).

(** An optional group behind its lead character. *)
Definition attach (lead : ascii) (o : option string) : string :=
  match o with
  | Some s => String lead s
  | None => EmptyString
  end.

(** The text FULLPLAIN matches for given groups. *)
Definition full_text (v : bool) (g : full_groups) : string :=
  (if v then "v" else "") ++ g_major g ++ "." ++ g_minor g ++ "." ++ g_patch g
    ++ attach "-" (g_prerelease g) ++ attach "+" (g_build g).

Definition groups_ok (g : full_groups) : bool :=
  nid_ok (g_major g) && nid_ok (g_minor g) && nid_ok (g_patch g)
  && match g_prerelease g with
     | Some pr => dotted_ok valid_pid pr
     | None => true
     end
  && match g_build g with
     | Some b => dotted_ok valid_bid b
     | None => true
     end.

(** What [new SemVer(v)] builds from an object [v]: the build metadata is
    not part of [v.version]. *)
Definition canonical (v : SemVer) (o : Options) : SemVer :=
  {| raw := version v; options := o;
     major := major v; minor := minor v; patch := patch v;
     version := version v; build := []; prerelease := prerelease v |}.

(** The groups of the canonical string: those of the input without the
    build. *)
Definition without_build (g : full_groups) : full_groups :=
  {| g_major := g_major g; g_minor := g_minor g; g_patch := g_patch g;
     g_prerelease := g_prerelease g; g_build := None |}.

(** ** Objects the constructors built, and what they accept *)

Definition constructed (v : SemVer) : Prop :=
  exists (x : jsvalue) (o : option Options), new_SemVer x o = Ok v.

(** The operators the comparator grammar yields. *)
Definition operator_ok (op : string) : bool :=
  String.eqb op "" || String.eqb op "<" || String.eqb op ">"
  || String.eqb op "<=" || String.eqb op ">=".

Definition comparator_ok (c : Comparator) : Prop :=
  operator_ok (operator c) = true
  /\ match semver c with
     | None => True
     | Some sv => constructed sv
     end.

Definition range_ok (r : Range) : Prop :=
  range_includePrerelease r = includePrerelease (range_options r)
  /\ forall g, In g (set r) -> forall c, In c g -> comparator_ok c.

(** A version argument that is valid, with the version it stands for. *)
Definition denotes (x : jsvalue) (v : SemVer) : Prop :=
  match x with
  | VStr _ => new_SemVer x None = Ok v
  | VSemVer v0 => v0 = v /\ constructed v
  | VNull | VUndefined => False
  end.

Definition valid_version (x : jsvalue) : Prop := exists v, denotes x v.

(** A range argument whose object, if it is one, was built by the
    constructor. *)
Definition range_arg_ok (r : range_arg) : Prop :=
  match r with
  | RRange r0 => range_ok r0
  | _ => True
  end.

(** What an operator makes of the result of [compare]. *)
Definition operator_holds (op : string) (c : Z) : bool :=
  if String.eqb op "" then (c =? 0)%Z
  else if String.eqb op ">" then (0 <? c)%Z
  else if String.eqb op ">=" then (0 <=? c)%Z
  else if String.eqb op "<" then (c <? 0)%Z
  else (c <=? 0)%Z.

Definition comparator_accepts (c : Comparator) (v : SemVer) : bool :=
  match semver c with
  | None => true
  | Some sv => operator_holds (operator c) (compare_objects v sv)
  end.

(** A comparator with a prerelease tag on the version's own major, minor
    and patch. *)
Definition anchors (c : Comparator) (v : SemVer) : bool :=
  match semver c with
  | None => false
  | Some sv => has_prerelease sv && same_main sv v
  end.

Definition set_accepts (include : bool) (set : list Comparator) (v : SemVer) : bool :=
  forallb (fun c => comparator_accepts c v) set
  && (negb (has_prerelease v) || include || existsb (fun c => anchors c v) set).

Definition range_accepts (r : Range) (v : SemVer) : bool :=
  existsb (fun g => set_accepts (includePrerelease (range_options r)) g v) (set r).

(** Two objects with the same fields of comparison. *)
Definition fields_eq (a b : SemVer) : Prop :=
  major a = major b /\ minor a = minor b /\ patch a = patch b
  /\ prerelease a = prerelease b.

(** ** The scans *)

(** What holds of the state of [minSatisfying] once the elements [seen]
    have been visited: nothing was accepted so far, or [min] is an accepted
    element, [minSV] is its version, and no accepted element is below it. *)
Definition min_invariant (r : Range) (seen : list jsvalue) (st : scan_state) : Prop :=
  match st with
  | (None, None) =>
      forall x v, In x seen -> denotes x v -> range_accepts r v = false
  | (Some m, Some sv) =>
      In m seen /\ constructed sv
      /\ exists vm, denotes m vm /\ fields_eq sv vm
           /\ range_accepts r vm = true
           /\ forall x v, In x seen -> denotes x v -> range_accepts r v = true ->
                          (compare_objects vm v <= 0)%Z
  | _ => False
  end.

(** The part of it that keeps [minSV.compare] safe. *)
Definition minSV_is_set (st : scan_state) : Prop :=
  falsy (fst st) = false -> snd st <> None.

(** When [min] is truthy, so that [minSV.compare] is reached, [minSV] is
    an object the constructor returned. *)
Definition minSV_is_constructed (o : option Options) (st : scan_state) : Prop :=
  falsy (fst st) = false ->
  exists sv x, snd st = Some sv /\ new_SemVer x o = Ok sv.

(** What holds of the state of [maxSatisfying]. *)
Definition max_invariant (st : scan_state) : Prop :=
  match snd st with
  | None => True
  | Some sv => constructed sv
  end.

(** The exceptions a test of a version can end with. *)
Definition thrown_by_test (e : exn) : Prop :=
  e = TypeError \/ e = NullDereference "v" \/ e = NullDereference "version".

(** ** The caret rewrite *)

(** A main version written out. *)
Definition triple_text (M m p : N) : string :=
  decimal M ++ "." ++ decimal m ++ "." ++ decimal p.


(** The text of an x-range identifier that stands for any value. *)
Definition x_identifier (s : string) : Prop := s = "x" \/ s = "X" \/ s = "*".


(** * Further functions of the module *)

(** [rcompare(v1, v2, options)], lines 592-594. *)
Definition rcompare (v1 v2 : jsvalue) (options : option Options) : result Z :=
  compare v2 v1 options.

(** The two spellings of the tilde operator. *)
Definition tilde_operator (s : string) : Prop := s = "~" \/ s = "~>".

(** The operators a token of an x-range can start with. *)
Definition xrange_operator (op : string) : Prop :=
  op = "" \/ op = "=" \/ op = "<" \/ op = ">" \/ op = "<=" \/ op = ">=".

(** The first character of an x-range identifier. *)
Definition is_xid_start (c : ascii) : bool :=
  is_digit c || Ascii.eqb c "x" || Ascii.eqb c "X" || Ascii.eqb c "*".

(** What an operator makes of a partial version: M stands for the versions
    from M.0.0 up to (M+1).0.0 excluded, M.m for those from M.m.0 up to
    M.(m+1).0 excluded.  No operator and "=" keep this interval, ">" asks
    for its upper end or more, "<=" for less than its upper end, and "<"
    and ">=" compare with its lower end. *)
Definition xrange_bounds (op : string) (M : N) (m : option N) : string :=
  let lo := match m with
            | None => triple_text M 0 0
            | Some m => triple_text M m 0
            end in
  let hi := match m with
            | None => triple_text (M + 1) 0 0
            | Some m => triple_text M (m + 1) 0
            end in
  if String.eqb op "" || String.eqb op "=" then ">=" ++ lo ++ " <" ++ hi
  else if String.eqb op ">" then ">=" ++ hi
  else if String.eqb op "<=" then "<" ++ hi
  else op ++ lo.

(** [range.replace(hr, hyphenReplace)], the first step of [parseRange],
    line 785. *)
Definition replace_HYPHENRANGE (range : string) : string :=
  match match_HYPHENRANGE range with
  | Some ((from, f), (to, t)) => hyphenReplace from f to t
  | None => range
  end.

(** A version with its trailing components present or left out. *)
Inductive partial_version : Type :=
  | Full (M m p : N) (pr : option string)
  | MajorMinor (M m : N)
  | MajorOnly (M : N).

Definition partial_text (v : partial_version) : string :=
  match v with
  | Full M m p pr => triple_text M m p ++ attach "-" pr
  | MajorMinor M m => decimal M ++ "." ++ decimal m
  | MajorOnly M => decimal M
  end.

Definition partial_ok (v : partial_version) : Prop :=
  match v with
  | Full M m p pr =>
      M <= MAX_SAFE_INTEGER /\ m <= MAX_SAFE_INTEGER /\ p <= MAX_SAFE_INTEGER
      /\ match pr with
         | Some s => dotted_ok valid_pid s = true
         | None => True
         end
  | MajorMinor M m => M <= MAX_SAFE_INTEGER /\ m <= MAX_SAFE_INTEGER
  | MajorOnly M => M <= MAX_SAFE_INTEGER
  end.

(** The groups XRANGEPLAIN captures on the text of a partial version. *)
Definition partial_groups (v : partial_version) : xrange_groups :=
  match v with
  | Full M m p pr =>
      {| x_M := decimal M; x_m := Some (decimal m); x_p := Some (decimal p);
         x_pr := pr; x_b := None |}
  | MajorMinor M m =>
      {| x_M := decimal M; x_m := Some (decimal m); x_p := None;
         x_pr := None; x_b := None |}
  | MajorOnly M =>
      {| x_M := decimal M; x_m := None; x_p := None; x_pr := None;
         x_b := None |}
  end.

(** The lower bound a hyphen range takes from its left side: the version
    itself, its missing components read as zeros. *)
Definition hyphen_lower (v : partial_version) : string :=
  match v with
  | Full M m p pr => ">=" ++ triple_text M m p ++ attach "-" pr
  | MajorMinor M m => ">=" ++ triple_text M m 0
  | MajorOnly M => ">=" ++ triple_text M 0 0
  end.

(** The upper bound it takes from its right side: the version itself,
    included, when it is complete; otherwise the first version past all
    those the partial version stands for, excluded. *)
Definition hyphen_upper (v : partial_version) : string :=
  match v with
  | Full M m p pr => "<=" ++ triple_text M m p ++ attach "-" pr
  | MajorMinor M m => "<" ++ triple_text M (m + 1) 0
  | MajorOnly M => "<" ++ triple_text (M + 1) 0 0
  end.

(** What may follow a token: the end of the string, or white space. *)
Definition ends_token (rest : string) : bool :=
  match rest with
  | EmptyString => true
  | String c _ => is_space c
  end.

(** What holds of the state of [maxSatisfying] once the elements [seen]
    have been visited: nothing was accepted so far, or [max] is an accepted
    element, [maxSV] is its version, and no accepted element is above it. *)
Definition max_scan_invariant (r : Range) (seen : list jsvalue) (st : scan_state)
  : Prop :=
  match st with
  | (None, None) =>
      forall x v, In x seen -> denotes x v -> range_accepts r v = false
  | (Some m, Some sv) =>
      In m seen /\ constructed sv
      /\ exists vm, denotes m vm /\ fields_eq sv vm
           /\ range_accepts r vm = true
           /\ forall x v, In x seen -> denotes x v -> range_accepts r v = true ->
                          (0 <= compare_objects vm v)%Z
  | _ => False
  end.

(** The Range with the one comparator that accepts any version. *)
Definition any_range (raw : string) (o : Options) : Range :=
  {| range := ""; range_raw := raw; range_options := o;
     range_includePrerelease := includePrerelease o;
     set := [[ {| semver := None; operator := ""; value := "";
                  comparator_options := o |} ]] |}.

(** The ways to write the range of all versions. *)
Definition any_text (s : string) : Prop :=
  s = "*" \/ s = "" \/ s = "x" \/ s = "X" \/ s = "*.*" \/ s = "x.x.x".

(** A comparator and a Range as the constructors build them under other
    options: the options are stored in the objects and nowhere else. *)
Definition comparator_with_options (o : Options) (c : Comparator) : Comparator :=
  {| semver := option_map (fun sv => with_options sv o) (semver c);
     operator := operator c; value := value c; comparator_options := o |}.

Definition range_with_options (o : Options) (r : Range) : Range :=
  {| range := range r; range_raw := range_raw r; range_options := o;
     range_includePrerelease := includePrerelease o;
     set := map (map (comparator_with_options o)) (set r) |}.

(** The [do ... while (++i)] loop of [compareBuild], lines 386-401, on the
    elements from index [i] on; an exhausted list reads [undefined]. *)
Fixpoint compareBuild_loop (a b : list string) : Z :=
  match a, b with
  | [], [] => 0
  | _ :: _, [] => 1
  | [], _ :: _ => -1
  | x :: a', y :: b' =>
      if String.eqb x y then compareBuild_loop a' b'
      else compareIdentifiers (IStr x) (IStr y)
  end%Z.

(** [this.compareBuild(other)], lines 382-403. *)
Definition SemVer_compareBuild (this : SemVer) (other : jsvalue) : result Z :=
  o <- as_SemVer this other ;;
  Ok (compareBuild_loop (build this) (build o)).

(** [compareBuild(a, b, options)], lines 587-591. *)
Definition compareBuild (a b : jsvalue) (options : option Options) : result Z :=
  versionA <- new_SemVer a options ;;
  versionB <- new_SemVer b options ;;
  c <- SemVer_compare versionA (VSemVer versionB) ;;
  if (c =? 0)%Z then SemVer_compareBuild versionA (VSemVer versionB) else Ok c.

(** The release types of [inc] that are meant for use. *)
Definition release_type (r : string) : Prop :=
  r = "major" \/ r = "minor" \/ r = "patch" \/ r = "premajor"
  \/ r = "preminor" \/ r = "prepatch" \/ r = "prerelease".

(** ** Comparator tokens *)

(** A character of a plain comparator: no white space, no "|", no "*". *)
Definition token_char (c : ascii) : bool :=
  negb (is_space c) && negb (Ascii.eqb c "|") && negb (Ascii.eqb c "*").

Definition token_ok (s : string) : bool :=
  negb (is_empty s) && forallb_string token_char s.

(** A plain comparator: an operator and a complete version. *)
Record bound : Type := {
  b_op : string;
  b_M : N;
  b_m : N;
  b_p : N;
  b_pr : option string
}.

(** The text of its version, and its own text. *)
Definition bound_version (b : bound) : string :=
  triple_text (b_M b) (b_m b) (b_p b) ++ attach "-" (b_pr b).

Definition bound_text (b : bound) : string := b_op b ++ bound_version b.

Definition bound_ok (b : bound) : Prop :=
  xrange_operator (b_op b)
  /\ match b_pr b with
     | Some s => dotted_ok valid_pid s = true
     | None => True
     end.

(** The operator as the Comparator stores it: "=" is stored as "". *)
Definition stored_operator (op : string) : string :=
  if String.eqb op "=" then "" else op.

(** Whether a version is on the side of the bound that its operator asks
    for, and whether the bound carries a prerelease on the version's own
    major, minor and patch. *)
Definition bound_accepts (b : bound) (v : SemVer) : bool :=
  match new_SemVer (VStr (bound_version b)) None with
  | Ok w => operator_holds (stored_operator (b_op b)) (compare_objects v w)
  | Throw _ => false
  end.

Definition bound_anchors (b : bound) (v : SemVer) : bool :=
  match new_SemVer (VStr (bound_version b)) None with
  | Ok w => has_prerelease w && same_main w v
  | Throw _ => false
  end.

(** The bounds a caret and a tilde stand for. *)
Definition upper (M m p : N) : bound :=
  {| b_op := "<"; b_M := M; b_m := m; b_p := p; b_pr := None |}.

Definition lower_bound (v : partial_version) : bound :=
  match v with
  | Full M m p pr =>
      {| b_op := ">="; b_M := M; b_m := m; b_p := p; b_pr := pr |}
  | MajorMinor M m =>
      {| b_op := ">="; b_M := M; b_m := m; b_p := 0; b_pr := None |}
  | MajorOnly M =>
      {| b_op := ">="; b_M := M; b_m := 0; b_p := 0; b_pr := None |}
  end.

(** Caret: up to the next version that changes the leftmost field that is
    not zero. *)
Definition caret_upper_bound (v : partial_version) : bound :=
  match v with
  | Full M m p _ =>
      if M =? 0 then if m =? 0 then upper 0 0 (p + 1) else upper 0 (m + 1) 0
      else upper (M + 1) 0 0
  | MajorMinor M m => if M =? 0 then upper 0 (m + 1) 0 else upper (M + 1) 0 0
  | MajorOnly M => upper (M + 1) 0 0
  end.

(** Tilde: up to the next minor, or the next major when only the major is
    given. *)
Definition tilde_upper_bound (v : partial_version) : bound :=
  match v with
  | Full M m _ _ | MajorMinor M m => upper M (m + 1) 0
  | MajorOnly M => upper (M + 1) 0 0
  end.

Definition caret_bounds (v : partial_version) : list bound :=
  [lower_bound v; caret_upper_bound v].

Definition tilde_bounds (v : partial_version) : list bound :=
  [lower_bound v; tilde_upper_bound v].

(** The upper bound a hyphen range takes from its right side. *)
Definition hyphen_upper_bound (v : partial_version) : bound :=
  match v with
  | Full M m p pr =>
      {| b_op := "<="; b_M := M; b_m := m; b_p := p; b_pr := pr |}
  | MajorMinor M m => upper M (m + 1) 0
  | MajorOnly M => upper (M + 1) 0 0
  end.

Definition hyphen_bounds (a b : partial_version) : list bound :=
  [lower_bound a; hyphen_upper_bound b].

(** ** outside, gtr and ltr *)

(** [comparator.semver] as an argument of a comparison function.  [ANY] is
    an object of no class, which [new SemVer] refuses as it refuses
    [undefined], line 287. *)
Definition semver_arg (c : Comparator) : jsvalue :=
  match semver c with
  | Some sv => VSemVer sv
  | None => VUndefined
  end.

(** [gt], [lt], [gte] and [lte] as values. *)
Definition comparison_function : Type :=
  jsvalue -> jsvalue -> option Options -> result bool.

(** The body of the loop over the comparators of one set in [outside],
    lines 1207-1217, on [high] and [low]; [None] is [null]. *)
Definition outside_step (gtfn ltfn : comparison_function)
  (options : option Options)
  (st : option Comparator * option Comparator) (comparator : Comparator)
  : result (option Comparator * option Comparator) :=
  comparator <- match semver comparator with
                | None => new_Comparator ">=0.0.0" None
                | Some _ => Ok comparator
                end ;;
  let high := match fst st with
              | Some h => h
              | None => comparator
              end in
  let low := match snd st with
             | Some l => l
             | None => comparator
             end in
  g <- gtfn (semver_arg comparator) (semver_arg high) options ;;
  if g then Ok (Some comparator, Some low)
  else
    l <- ltfn (semver_arg comparator) (semver_arg low) options ;;
    if l then Ok (Some high, Some comparator) else Ok (Some high, Some low).

(** The loop over the sets of the range in [outside], lines 1203-1232. *)
Fixpoint outside_sets (gtfn ltefn ltfn : comparison_function)
  (comp ecomp : string)
  (options : option Options) (version : SemVer)
  (sets : list (list Comparator)) : result bool :=
  match sets with
  | [] => Ok true
  | comparators :: sets' =>
      st <- forEach (outside_step gtfn ltfn options) comparators (None, None) ;;
      match st with
      | (Some high, Some low) =>
          if String.eqb (operator high) comp || String.eqb (operator high) ecomp
          then Ok false
          else
            below <-
              (if is_empty (operator low) || String.eqb (operator low) comp
               then ltefn (VSemVer version) (semver_arg low) None
               else Ok false) ;;
            if below then Ok false
            else
              below <-
                (if String.eqb (operator low) ecomp
                 then ltfn (VSemVer version) (semver_arg low) None
                 else Ok false) ;;
              if below then Ok false
              else outside_sets gtfn ltefn ltfn comp ecomp options version sets'
      | _ => Ok true
      end
  end.

(** [outside(version, range, hilo, options)], lines 1171-1234. *)
Definition outside (version : jsvalue) (range : range_arg) (hilo : string)
  (options : option Options) : result bool :=
  version <- new_SemVer version options ;;
  range <- new_Range range options ;;
  fns <- (if String.eqb hilo ">" then Ok (gt, lte, lt, ">", ">=")
          else if String.eqb hilo "<" then Ok (lt, gte, gt, "<", "<=")
          else Throw TypeError) ;;
  let '(gtfn, ltefn, ltfn, comp, ecomp) := fns in
  s <- satisfies (VSemVer version) (RRange range) options ;;
  if s then Ok false
  else outside_sets gtfn ltefn ltfn comp ecomp options version (set range).

(** [ltr(version, range, options)], lines 1160-1162. *)
Definition ltr (version : jsvalue) (range : range_arg) (options : option Options)
  : result bool :=
  outside version range "<" options.

(** [gtr(version, range, options)], lines 1165-1167. *)
Definition gtr (version : jsvalue) (range : range_arg) (options : option Options)
  : result bool :=
  outside version range ">" options.

(** A comparison function that answers on the objects the constructor
    built. *)
Definition answers (f : comparison_function) : Prop :=
  forall (a b : SemVer) (o : option Options),
    constructed a -> constructed b -> exists r, f (VSemVer a) (VSemVer b) o = Ok r.

(** A comparator that carries a version the constructor built. *)
Definition versioned (c : Comparator) : Prop :=
  exists sv, semver c = Some sv /\ constructed sv.

Definition outside_invariant (st : option Comparator * option Comparator) : Prop :=
  match st with
  | (Some high, Some low) => versioned high /\ versioned low
  | (None, None) => True
  | _ => False
  end.


(** ** intersects *)

(** [xs.every(f)] and [xs.some(f)] where [f] may throw: left to right,
    stopping at the first answer that decides or at the first exception. *)
Fixpoint array_every {A : Type} (f : A -> result bool) (xs : list A)
  : result bool :=
  match xs with
  | [] => Ok true
  | x :: xs' => b <- f x ;; if b then array_every f xs' else Ok false
  end.

Fixpoint array_some {A : Type} (f : A -> result bool) (xs : list A)
  : result bool :=
  match xs with
  | [] => Ok false
  | x :: xs' => b <- f x ;; if b then Ok true else array_some f xs'
  end.

(** [a.version === b.version] on the [semver] fields of two comparators;
    [ANY.version] is [undefined]. *)
Definition same_version (a b : Comparator) : bool :=
  match semver a, semver b with
  | Some x, Some y => String.eqb (version x) (version y)
  | None, None => true
  | _, _ => false
  end.

Definition increasing (op : string) : bool :=
  String.eqb op ">=" || String.eqb op ">".

Definition decreasing (op : string) : bool :=
  String.eqb op "<=" || String.eqb op "<".

Definition inclusive (op : string) : bool :=
  String.eqb op ">=" || String.eqb op "<=".

(** [this.intersects(comp, options)], lines 704-734.  In the second
    branch [comp.semver] is the version argument of [satisfies]: [ANY]
    there passes every [test] and fails at [version.prerelease.length]. *)
Definition Comparator_intersects (this comp : Comparator)
  (options : option Options) : result bool :=
  let options := object_or_default options in
  if String.eqb (operator this) "" then
    if String.eqb (value this) "" then Ok true
    else
      rangeTmp <- new_Range (RStr (value comp)) (Some options) ;;
      satisfies (VStr (value this)) (RRange rangeTmp) (Some options)
  else if String.eqb (operator comp) "" then
    if String.eqb (value comp) "" then Ok true
    else
      rangeTmp <- new_Range (RStr (value this)) (Some options) ;;
      match semver comp with
      | Some sv => satisfies (VSemVer sv) (RRange rangeTmp) (Some options)
      | None =>
          if is_nil (set rangeTmp) then Ok false
          else Throw (NullDereference "version.prerelease")
      end
  else
    let sameDirectionIncreasing :=
      increasing (operator this) && increasing (operator comp) in
    let sameDirectionDecreasing :=
      decreasing (operator this) && decreasing (operator comp) in
    let sameSemVer := same_version this comp in
    let differentDirectionsInclusive :=
      inclusive (operator this) && inclusive (operator comp) in
    less <- cmp (semver_arg this) "<" (semver_arg comp) (Some options) ;;
    let oppositeDirectionsLessThan :=
      less && increasing (operator this) && decreasing (operator comp) in
    greater <- cmp (semver_arg this) ">" (semver_arg comp) (Some options) ;;
    let oppositeDirectionsGreaterThan :=
      greater && decreasing (operator this) && increasing (operator comp) in
    Ok (sameDirectionIncreasing || sameDirectionDecreasing
        || sameSemVer && differentDirectionsInclusive
        || oppositeDirectionsLessThan || oppositeDirectionsGreaterThan).

(** The loop of [isSatisfiable], lines 856-861: [testComparator] against
    the comparators that remain, which are given from the last to the
    first as [pop] takes them. *)
Fixpoint isSatisfiable_loop (testComparator : Comparator)
  (remaining : list Comparator) (options : option Options) : result bool :=
  match remaining with
  | [] => Ok true
  | next :: remaining' =>
      result <- array_every
                  (fun otherComparator =>
                     Comparator_intersects testComparator otherComparator options)
                  (rev remaining) ;;
      if result then isSatisfiable_loop next remaining' options else Ok false
  end.

(** [isSatisfiable(comparators, options)], lines 852-863. *)
Definition isSatisfiable (comparators : list Comparator)
  (options : option Options) : result bool :=
  match rev comparators with
  | [] => Ok true
  | testComparator :: remaining =>
      isSatisfiable_loop testComparator remaining options
  end.

(** [this.intersects(range, options)], lines 804-817. *)
Definition Range_intersects (this range : Range) (options : option Options)
  : result bool :=
  array_some
    (fun thisComparators =>
       s <- isSatisfiable thisComparators options ;;
       if s then
         array_some
           (fun rangeComparators =>
              s' <- isSatisfiable rangeComparators options ;;
              if s' then
                array_every
                  (fun thisComparator =>
                     array_every
                       (fun rangeComparator =>
                          Comparator_intersects thisComparator rangeComparator
                            options)
                       rangeComparators)
                  thisComparators
              else Ok false)
           (set range)
       else Ok false)
    (set this).

(** [intersects(range1, range2, options)], lines 1241-1245: the options
    are not passed on to [Range.intersects]. *)
Definition intersects (range1 range2 : range_arg) (options : option Options)
  : result bool :=
  range1 <- new_Range range1 options ;;
  range2 <- new_Range range2 options ;;
  Range_intersects range1 range2 None.

(** A comparator the constructor built. *)
Definition built_comparator (c : Comparator) : Prop :=
  exists comp o, new_Comparator comp o = Ok c.

(** A comparator the constructor built around a version. *)
Definition proper (c : Comparator) : Prop :=
  built_comparator c /\ semver c <> None.

(** The answers of [intersects] and [isSatisfiable] where they do not
    throw. *)
Definition meet (c d : Comparator) : bool :=
  try_catch (Comparator_intersects c d None) false.

Definition satisfiable (cs : list Comparator) : bool :=
  try_catch (isSatisfiable cs None) false.

(** Whether the version [x] passes the one comparator [op y]. *)
Definition exact_meets (include : bool) (x : SemVer) (op : string) (y : SemVer)
  : bool :=
  operator_holds op (compare_objects x y)
  && (negb (has_prerelease x) || include || has_prerelease y && same_main y x).

(** The answer of [intersects] on two comparators with versions. *)
Definition comparators_meet (include : bool) (opa : string) (sa : SemVer)
  (opb : string) (sb : SemVer) : bool :=
  if String.eqb opa "" then exact_meets include sa opb sb
  else if String.eqb opb "" then exact_meets include sb opa sa
  else
    increasing opa && increasing opb || decreasing opa && decreasing opb
    || String.eqb (version sa) (version sb) && (inclusive opa && inclusive opb)
    || (compare_objects sa sb <? 0)%Z && increasing opa && decreasing opb
    || (0 <? compare_objects sa sb)%Z && decreasing opa && increasing opb.

(** Whether every comparator of one set meets every comparator of the
    other. *)
Definition sets_meet (s1 s2 : list Comparator) : bool :=
  forallb (fun c1 => forallb (fun c2 => meet c1 c2) s2) s1.

Definition ranges_meet (l1 l2 : list (list Comparator)) : bool :=
  existsb (fun s1 => satisfiable s1
                     && existsb (fun s2 => satisfiable s2 && sets_meet s1 s2) l2)
    l1.

(** Whether every comparator of the sets carries a version. *)
Definition has_versions (sets : list (list Comparator)) : bool :=
  forallb (forallb (fun c => match semver c with
                             | Some _ => true
                             | None => false
                             end)) sets.

(** * Properties *)

(** ** Numbers and their decimal form *)

Lemma pow53 : 2 ^ 53 = 9007199254740992.
Proof. reflexivity. Qed.

Lemma round53_small (n : N) : n <= 2 ^ 53 -> round53 n = n.
Proof.
  intros H. unfold round53.
  destruct (N.leb_spec n (2 ^ 53)) as [_ | Hlt]; [reflexivity | lia].
Qed.

Lemma double_of_N_small (n : N) : n <= 2 ^ 53 -> double_of_N n = Int n.
Proof.
  intros H. unfold double_of_N. rewrite (round53_small n H).
  assert (Hlt : n < 2 ^ 1024).
  { apply N.le_lt_trans with (2 ^ 53); [exact H |].
    apply N.pow_lt_mono_r; lia. }
  apply N.ltb_lt in Hlt. rewrite Hlt. reflexivity.
Qed.

Lemma incr_safe (n : N) : n <= MAX_SAFE_INTEGER -> incr n = n + 1.
Proof.
  intros H. unfold incr. apply round53_small.
  rewrite pow53. unfold MAX_SAFE_INTEGER in H. lia.
Qed.

Lemma string_of_uint_digits (d : Decimal.uint) :
  forallb_string is_digit (NilEmpty.string_of_uint d) = true.
Proof. induction d; simpl; auto. Qed.

Lemma decimal_digits (n : N) : forallb_string is_digit (decimal n) = true.
Proof.
  unfold decimal, NilZero.string_of_uint.
  destruct (N.to_uint n) eqn:E; try reflexivity;
    rewrite <- E; apply string_of_uint_digits.
Qed.

Lemma decimal_nonempty (n : N) : is_empty (decimal n) = false.
Proof.
  unfold decimal, NilZero.string_of_uint.
  destruct (N.to_uint n); reflexivity.
Qed.

Lemma numeric_test_decimal (n : N) : numeric_test (decimal n) = true.
Proof.
  unfold numeric_test. rewrite decimal_nonempty, decimal_digits. reflexivity.
Qed.

Lemma to_uint_nonnil (n : N) : N.to_uint n <> Decimal.Nil.
Proof.
  destruct n; simpl; [discriminate | apply DecimalPos.Unsigned.to_uint_nonnil].
Qed.

Lemma digits_value_decimal (n : N) : digits_value (decimal n) = n.
Proof.
  unfold digits_value, decimal, NilZero.string_of_uint.
  pose proof (to_uint_nonnil n) as Hn.
  destruct (N.to_uint n) eqn:E; try congruence;
    rewrite <- E, NilEmpty.usu; apply DecimalN.Unsigned.of_to.
Qed.

Lemma NumberToString_small (n : N) : n <= 2 ^ 53 -> NumberToString (Int n) = decimal n.
Proof.
  intros H. unfold NumberToString. apply N.leb_le in H. rewrite H. reflexivity.
Qed.

Lemma ToNumber_decimal (n : N) : n <= 2 ^ 53 -> ToNumber (decimal n) = Int n.
Proof.
  intros H. unfold ToNumber. rewrite digits_value_decimal.
  apply double_of_N_small; exact H.
Qed.

(** ** compareIdentifiers as a comparison of kinds *)

Ltac N_cases :=
  repeat match goal with
    | |- context [N.eqb ?a ?b] => destruct (N.eqb_spec a b)
    | |- context [N.ltb ?a ?b] => destruct (N.ltb_spec a b)
    | |- context [N.leb ?a ?b] => destruct (N.leb_spec a b)
    | H : context [N.eqb ?a ?b] |- _ => destruct (N.eqb_spec a b)
    | H : context [N.ltb ?a ?b] |- _ => destruct (N.ltb_spec a b)
    | H : context [N.leb ?a ?b] |- _ => destruct (N.leb_spec a b)
    end.

Lemma safe_below_pow53 (n : N) : (n <? MAX_SAFE_INTEGER) = true -> n <= 2 ^ 53.
Proof.
  intros H. apply N.ltb_lt in H. rewrite pow53. unfold MAX_SAFE_INTEGER in H. lia.
Qed.

Lemma number_identifier_ok_prints (x : ident) :
  number_identifier_ok x = true -> prints_as_digits x = true.
Proof.
  destruct x as [n | s]; cbn; [| reflexivity].
  intros H. apply N.leb_le. apply safe_below_pow53. exact H.
Qed.

Lemma is_numeric_INum (n : N) :
  (n <=? 2 ^ 53) = true -> is_numeric (INum n) = true.
Proof.
  intros H. unfold is_numeric, ident_to_string.
  rewrite NumberToString_small by (apply N.leb_le; exact H).
  apply numeric_test_decimal.
Qed.

Lemma compareIdentifiers_kinds (x y : ident) :
  prints_as_digits x = true -> prints_as_digits y = true ->
  compareIdentifiers x y =
    match is_numeric x, is_numeric y with
    | true, true => number_cmp (number_of x) (number_of y)
    | true, false => (-1)%Z
    | false, true => 1%Z
    | false, false => string_cmp (ident_to_string x) (ident_to_string y)
    end.
Proof.
  intros Hx Hy. unfold compareIdentifiers.
  fold (is_numeric x). fold (is_numeric y).
  destruct (is_numeric x) eqn:Ex, (is_numeric y) eqn:Ey; cbn [andb negb].
  - destruct x, y; reflexivity.
  - assert (Hne : ident_eqb x y = false).
    { destruct x as [n | s], y as [m | t]; cbn [ident_eqb]; try reflexivity.
      - cbn in Hy. rewrite (is_numeric_INum m Hy) in Ey. discriminate.
      - destruct (String.eqb_spec s t) as [-> | _]; [| reflexivity].
        unfold is_numeric in Ex, Ey. cbn in Ex, Ey. congruence. }
    rewrite Hne. reflexivity.
  - assert (Hne : ident_eqb x y = false).
    { destruct x as [n | s], y as [m | t]; cbn [ident_eqb]; try reflexivity.
      - cbn in Hx. rewrite (is_numeric_INum n Hx) in Ex. discriminate.
      - destruct (String.eqb_spec s t) as [-> | _]; [| reflexivity].
        unfold is_numeric in Ex, Ey. cbn in Ex, Ey. congruence. }
    rewrite Hne. reflexivity.
  - destruct x as [n | s].
    { cbn in Hx. rewrite (is_numeric_INum n Hx) in Ex. discriminate. }
    destruct y as [m | t].
    { cbn in Hy. rewrite (is_numeric_INum m Hy) in Ey. discriminate. }
    reflexivity.
Qed.

Lemma number_cmp_antisym (a b : number) : number_cmp a b = (- number_cmp b a)%Z.
Proof.
  unfold number_cmp. destruct a, b; cbn; N_cases; try reflexivity; lia.
Qed.

Lemma number_cmp_refl (a : number) : number_cmp a a = 0%Z.
Proof.
  unfold number_cmp. destruct a; cbn; [rewrite N.eqb_refl |]; reflexivity.
Qed.

Lemma number_cmp_trans (a b c : number) :
  number_cmp a b = (-1)%Z -> (number_cmp b c <= 0)%Z -> number_cmp a c = (-1)%Z.
Proof.
  unfold number_cmp. destruct a, b, c; cbn; N_cases; try reflexivity; lia.
Qed.

Lemma string_cmp_sign (s t : string) : string_cmp s t = sign (String.compare s t).
Proof.
  unfold string_cmp, string_ltb.
  destruct (String.eqb_spec s t) as [-> | Hne].
  - assert (E : String.compare t t = Eq).
    { destruct (String.compare t t) eqn:E; [reflexivity | |];
        pose proof (String.compare_antisym t t) as A; rewrite E in A; discriminate. }
    rewrite E. reflexivity.
  - destruct (String.compare s t) eqn:E; try reflexivity.
    apply String.compare_eq_iff in E. contradiction.
Qed.

Lemma sign_opp (c : comparison) : sign (CompOpp c) = (- sign c)%Z.
Proof. destruct c; reflexivity. Qed.

Lemma string_cmp_antisym (s t : string) : string_cmp s t = (- string_cmp t s)%Z.
Proof.
  rewrite !string_cmp_sign, (String.compare_antisym s t). apply sign_opp.
Qed.

Lemma string_cmp_refl (s : string) : string_cmp s s = 0%Z.
Proof. unfold string_cmp. rewrite String.eqb_refl. reflexivity. Qed.

Lemma string_cmp_lt (s t : string) :
  string_cmp s t = (-1)%Z <-> String_as_OT.lt s t.
Proof.
  rewrite string_cmp_sign, <- String_as_OT.cmp_lt. unfold String_as_OT.cmp.
  destruct (String.compare s t); cbn; split; congruence.
Qed.

Lemma string_cmp_zero (s t : string) : string_cmp s t = 0%Z <-> s = t.
Proof.
  unfold string_cmp. destruct (String.eqb_spec s t); [tauto |].
  destruct (string_ltb s t); split; (discriminate || contradiction).
Qed.

Lemma string_cmp_range (s t : string) :
  string_cmp s t = (-1)%Z \/ string_cmp s t = 0%Z \/ string_cmp s t = 1%Z.
Proof.
  unfold string_cmp. destruct (String.eqb s t), (string_ltb s t); auto.
Qed.

Lemma string_cmp_trans (s t u : string) :
  string_cmp s t = (-1)%Z -> (string_cmp t u <= 0)%Z -> string_cmp s u = (-1)%Z.
Proof.
  intros Hst Htu.
  destruct (string_cmp_range t u) as [H | [H | H]]; [| | lia].
  - apply string_cmp_lt. apply String_as_OT.lt_trans with t; apply string_cmp_lt; assumption.
  - apply string_cmp_zero in H. subst u. exact Hst.
Qed.

Lemma compareIdentifiers_antisym (x y : ident) :
  prints_as_digits x = true -> prints_as_digits y = true ->
  compareIdentifiers x y = (- compareIdentifiers y x)%Z.
Proof.
  intros Hx Hy.
  rewrite (compareIdentifiers_kinds x y Hx Hy), (compareIdentifiers_kinds y x Hy Hx).
  destruct (is_numeric x), (is_numeric y); try reflexivity.
  - apply number_cmp_antisym.
  - apply string_cmp_antisym.
Qed.

Lemma compareIdentifiers_range (x y : ident) :
  compareIdentifiers x y = (-1)%Z \/ compareIdentifiers x y = 0%Z
  \/ compareIdentifiers x y = 1%Z.
Proof.
  unfold compareIdentifiers.
  repeat match goal with |- context [if ?b then _ else _] => destruct b end; auto.
Qed.

Lemma compareIdentifiers_trans (x y z : ident) :
  prints_as_digits x = true -> prints_as_digits y = true ->
  prints_as_digits z = true ->
  compareIdentifiers x y = (-1)%Z -> (compareIdentifiers y z <= 0)%Z ->
  compareIdentifiers x z = (-1)%Z.
Proof.
  intros Hx Hy Hz.
  rewrite (compareIdentifiers_kinds x y Hx Hy), (compareIdentifiers_kinds y z Hy Hz),
    (compareIdentifiers_kinds x z Hx Hz).
  destruct (is_numeric x), (is_numeric y), (is_numeric z); try (intros; reflexivity || lia).
  - apply number_cmp_trans.
  - apply string_cmp_trans.
Qed.

Lemma ident_eqb_eq (x y : ident) : ident_eqb x y = true <-> x = y.
Proof.
  destruct x as [n | s], y as [m | t]; cbn; split; intros H; try discriminate.
  - apply N.eqb_eq in H. congruence.
  - injection H as ->. apply N.eqb_refl.
  - apply String.eqb_eq in H. congruence.
  - injection H as ->. apply String.eqb_refl.
Qed.

Lemma ident_eqb_refl (x : ident) : ident_eqb x x = true.
Proof. apply ident_eqb_eq. reflexivity. Qed.

Lemma ident_eqb_sym (x y : ident) : ident_eqb x y = ident_eqb y x.
Proof.
  destruct x, y; cbn; auto using N.eqb_sym, String.eqb_sym.
Qed.

Lemma compareIdentifiers_refl (x : ident) : compareIdentifiers x x = 0%Z.
Proof.
  unfold compareIdentifiers.
  destruct (numeric_test (ident_to_string x)); cbn [andb].
  - destruct x; cbn.
    + rewrite N.eqb_refl. reflexivity.
    + destruct (ToNumber s); cbn; [rewrite N.eqb_refl |]; reflexivity.
  - rewrite ident_eqb_refl. reflexivity.
Qed.

(** ** compareMain, comparePre and compare on objects *)

Lemma or_else_opp (a b : Z) : or_else (- a) (- b) = (- or_else a b)%Z.
Proof.
  unfold or_else.
  destruct (Z.eqb_spec a 0), (Z.eqb_spec (- a) 0); try reflexivity; lia.
Qed.

Lemma or_else_zero (a b : Z) : or_else a b = 0%Z <-> a = 0%Z /\ b = 0%Z.
Proof.
  unfold or_else. destruct (Z.eqb_spec a 0); split; intros; try tauto; lia.
Qed.

Lemma compareIdentifiers_numbers (a b : N) :
  a <= 2 ^ 53 -> b <= 2 ^ 53 ->
  compareIdentifiers (INum a) (INum b) = sign (a ?= b).
Proof.
  intros Ha Hb. apply N.leb_le in Ha, Hb.
  rewrite compareIdentifiers_kinds by assumption.
  rewrite !is_numeric_INum by assumption.
  unfold number_cmp. cbn.
  destruct (N.compare_spec a b); N_cases; try reflexivity; lia.
Qed.

Lemma compareIdentifiers_same_number (a : N) :
  compareIdentifiers (INum a) (INum a) = 0%Z.
Proof. apply compareIdentifiers_refl. Qed.

Lemma numbers_ok_main (v : SemVer) : numbers_ok v = true -> main_ok v.
Proof.
  unfold numbers_ok, main_ok. rewrite pow53. unfold MAX_SAFE_INTEGER.
  intros H. apply andb_prop in H as [H _].
  apply andb_prop in H as [H H3]. apply andb_prop in H as [H1 H2].
  apply N.leb_le in H1, H2, H3. lia.
Qed.

Lemma numbers_ok_prerelease (v : SemVer) :
  numbers_ok v = true -> forallb prints_as_digits (prerelease v) = true.
Proof.
  unfold numbers_ok. intros H. apply andb_prop in H as [_ H].
  rewrite forallb_forall in *. intros x Hx.
  apply number_identifier_ok_prints. apply H. exact Hx.
Qed.

Lemma compareMain_sign (a b : SemVer) :
  main_ok a -> main_ok b ->
  compareMain a b =
    or_else (sign (major a ?= major b))
      (or_else (sign (minor a ?= minor b)) (sign (patch a ?= patch b))).
Proof.
  intros (Ha1 & Ha2 & Ha3) (Hb1 & Hb2 & Hb3). unfold compareMain.
  rewrite !compareIdentifiers_numbers by assumption. reflexivity.
Qed.

Ltac compare_cases :=
  repeat match goal with
    | |- context [N.compare ?a ?b] => destruct (N.compare_spec a b)
    | H : context [N.compare ?a ?b] |- _ => destruct (N.compare_spec a b)
    end.

Lemma compareMain_antisym (a b : SemVer) :
  main_ok a -> main_ok b -> compareMain a b = (- compareMain b a)%Z.
Proof.
  intros Ha Hb. rewrite (compareMain_sign a b Ha Hb), (compareMain_sign b a Hb Ha).
  rewrite <- !or_else_opp, <- !sign_opp, <- !N.compare_antisym. reflexivity.
Qed.

Lemma compareMain_zero (a b : SemVer) :
  main_ok a -> main_ok b -> (compareMain a b = 0%Z <-> same_main a b = true).
Proof.
  intros Ha Hb. rewrite (compareMain_sign a b Ha Hb). unfold same_main.
  rewrite !or_else_zero, !andb_true_iff, !N.eqb_eq.
  compare_cases; cbn; split; intros; try lia; try tauto;
    repeat match goal with H : _ /\ _ |- _ => destruct H end;
    try discriminate; try lia.
Qed.

Lemma compareMain_same (a b : SemVer) :
  same_main a b = true -> compareMain a b = 0%Z.
Proof.
  unfold same_main. rewrite !andb_true_iff, !N.eqb_eq. intros [[H1 H2] H3].
  unfold compareMain. rewrite H1, H2, H3, !compareIdentifiers_same_number.
  reflexivity.
Qed.

Lemma compareMain_range (a b : SemVer) :
  compareMain a b = (-1)%Z \/ compareMain a b = 0%Z \/ compareMain a b = 1%Z.
Proof.
  unfold compareMain, or_else.
  repeat match goal with
    | |- context [compareIdentifiers ?x ?y] =>
        let H := fresh in
        destruct (compareIdentifiers_range x y) as [H | [H | H]]; rewrite H; cbn
    end; auto.
Qed.

Lemma sign_below (a b : N) : sign (a ?= b) = (-1)%Z <-> a < b.
Proof. destruct (N.compare_spec a b); cbn; split; intros; try lia; discriminate. Qed.

Lemma sign_not_above (a b : N) : (sign (a ?= b)%N <= 0)%Z <-> a <= b.
Proof. destruct (N.compare_spec a b); cbn; split; intros; lia. Qed.

Lemma or_else_sign_below (a b : N) (r : Z) :
  or_else (sign (a ?= b)) r = (-1)%Z <-> a < b \/ (a = b /\ r = (-1)%Z).
Proof.
  unfold or_else. destruct (N.compare_spec a b); cbn; split; intros; try lia;
    try discriminate.
Qed.

Lemma or_else_sign_not_above (a b : N) (r : Z) :
  (or_else (sign (a ?= b)%N) r <= 0)%Z <-> a < b \/ (a = b /\ (r <= 0)%Z).
Proof.
  unfold or_else. destruct (N.compare_spec a b); cbn; split; intros; lia.
Qed.

Lemma compareMain_trans (x y z : SemVer) :
  main_ok x -> main_ok y -> main_ok z ->
  compareMain x y = (-1)%Z -> (compareMain y z <= 0)%Z ->
  compareMain x z = (-1)%Z.
Proof.
  intros Hx Hy Hz.
  rewrite (compareMain_sign x y Hx Hy), (compareMain_sign y z Hy Hz),
    (compareMain_sign x z Hx Hz).
  rewrite !or_else_sign_below, !or_else_sign_not_above, !sign_below,
    !sign_not_above.
  lia.
Qed.

Lemma same_main_trans (x y z : SemVer) :
  same_main x y = true -> same_main y z = true -> same_main x z = true.
Proof.
  unfold same_main. rewrite !andb_true_iff, !N.eqb_eq.
  intros [[? ?] ?] [[? ?] ?]. repeat split; congruence.
Qed.

Lemma same_main_sym (x y : SemVer) : same_main x y = same_main y x.
Proof.
  unfold same_main.
  rewrite (N.eqb_sym (major x)), (N.eqb_sym (minor x)), (N.eqb_sym (patch x)).
  reflexivity.
Qed.

Lemma compareMain_same_l (x y z : SemVer) :
  same_main x y = true -> compareMain x z = compareMain y z.
Proof.
  unfold same_main. rewrite !andb_true_iff, !N.eqb_eq. intros [[H1 H2] H3].
  unfold compareMain. rewrite H1, H2, H3. reflexivity.
Qed.

Lemma compareMain_same_r (x y z : SemVer) :
  same_main y z = true -> compareMain x y = compareMain x z.
Proof.
  unfold same_main. rewrite !andb_true_iff, !N.eqb_eq. intros [[H1 H2] H3].
  unfold compareMain. rewrite H1, H2, H3. reflexivity.
Qed.

(** *** The loop of comparePre *)

Lemma comparePre_loop_refl (a : list ident) : comparePre_loop a a = 0%Z.
Proof.
  induction a as [| x a IH]; cbn; [reflexivity |].
  rewrite ident_eqb_refl. exact IH.
Qed.

Lemma comparePre_loop_antisym (a b : list ident) :
  forallb prints_as_digits a = true -> forallb prints_as_digits b = true ->
  comparePre_loop a b = (- comparePre_loop b a)%Z.
Proof.
  revert b. induction a as [| x a IH]; intros [| y b] Ha Hb; cbn; try reflexivity.
  cbn in Ha, Hb. apply andb_prop in Ha as [Hx Ha]. apply andb_prop in Hb as [Hy Hb].
  rewrite (ident_eqb_sym y x). destruct (ident_eqb x y).
  - apply IH; assumption.
  - apply compareIdentifiers_antisym; assumption.
Qed.

Lemma comparePre_loop_range (a b : list ident) :
  comparePre_loop a b = (-1)%Z \/ comparePre_loop a b = 0%Z
  \/ comparePre_loop a b = 1%Z.
Proof.
  revert b. induction a as [| x a IH]; intros [| y b]; cbn; auto.
  destruct (ident_eqb x y); [apply IH | apply compareIdentifiers_range].
Qed.

Lemma comparePre_loop_trans (x y z : list ident) :
  forallb prints_as_digits x = true -> forallb prints_as_digits y = true ->
  forallb prints_as_digits z = true ->
  comparePre_loop x y = (-1)%Z -> (comparePre_loop y z <= 0)%Z ->
  (comparePre_loop x z <= 0)%Z.
Proof.
  revert y z. induction x as [| x0 x IH]; intros y z Hx Hy Hz Hxy Hyz.
  - destruct z; cbn; lia.
  - destruct y as [| y0 y]; [cbn in Hxy; discriminate |].
    destruct z as [| z0 z]; [cbn in Hyz; lia |].
    cbn in Hx, Hy, Hz.
    apply andb_prop in Hx as [Hx0 Hx]. apply andb_prop in Hy as [Hy0 Hy].
    apply andb_prop in Hz as [Hz0 Hz].
    cbn in Hxy, Hyz |- *.
    destruct (ident_eqb x0 y0) eqn:Exy.
    + apply ident_eqb_eq in Exy. subst y0.
      destruct (ident_eqb x0 z0) eqn:Exz.
      * apply (IH y z); assumption.
      * exact Hyz.
    + destruct (ident_eqb y0 z0) eqn:Eyz.
      * apply ident_eqb_eq in Eyz. subst z0. rewrite Exy, Hxy. lia.
      * assert (H : compareIdentifiers x0 z0 = (-1)%Z)
          by (apply (compareIdentifiers_trans x0 y0 z0); assumption).
        destruct (ident_eqb x0 z0) eqn:Exz.
        -- apply ident_eqb_eq in Exz. subst z0.
           rewrite compareIdentifiers_refl in H. discriminate.
        -- rewrite H. lia.
Qed.

(** *** comparePre *)

Lemma comparePre_refl (a : SemVer) : comparePre a a = 0%Z.
Proof.
  unfold comparePre. destruct (prerelease a) as [| x l] eqn:E; [reflexivity |].
  apply comparePre_loop_refl.
Qed.

Lemma comparePre_same (a b : SemVer) :
  prerelease a = prerelease b -> comparePre a b = 0%Z.
Proof.
  intros H. unfold comparePre. rewrite H.
  destruct (prerelease b) as [| x l]; [reflexivity |].
  apply comparePre_loop_refl.
Qed.

Lemma comparePre_antisym (a b : SemVer) :
  forallb prints_as_digits (prerelease a) = true ->
  forallb prints_as_digits (prerelease b) = true ->
  comparePre a b = (- comparePre b a)%Z.
Proof.
  intros Ha Hb. unfold comparePre.
  destruct (prerelease a) as [| x l], (prerelease b) as [| y k]; try reflexivity.
  apply comparePre_loop_antisym; assumption.
Qed.

Lemma comparePre_range (a b : SemVer) :
  comparePre a b = (-1)%Z \/ comparePre a b = 0%Z \/ comparePre a b = 1%Z.
Proof.
  unfold comparePre.
  destruct (prerelease a) as [| x l], (prerelease b) as [| y k]; auto.
  apply comparePre_loop_range.
Qed.

Lemma comparePre_trans (x y z : SemVer) :
  forallb prints_as_digits (prerelease x) = true ->
  forallb prints_as_digits (prerelease y) = true ->
  forallb prints_as_digits (prerelease z) = true ->
  comparePre x y = (-1)%Z -> (comparePre y z <= 0)%Z -> (comparePre x z <= 0)%Z.
Proof.
  unfold comparePre. intros Hx Hy Hz.
  destruct (prerelease x) as [| x0 lx], (prerelease y) as [| y0 ly],
    (prerelease z) as [| z0 lz]; intros Hxy Hyz; try lia; try discriminate.
  apply (comparePre_loop_trans (x0 :: lx) (y0 :: ly) (z0 :: lz)); assumption.
Qed.

(** *** compare on objects *)

Lemma SemVer_compare_objects (a b : SemVer) :
  SemVer_compare a (VSemVer b) = Ok (compare_objects a b).
Proof. reflexivity. Qed.

Lemma compare_objects_range (a b : SemVer) :
  compare_objects a b = (-1)%Z \/ compare_objects a b = 0%Z
  \/ compare_objects a b = 1%Z.
Proof.
  unfold compare_objects, or_else.
  destruct (compareMain_range a b) as [H | [H | H]]; rewrite H; cbn; auto.
  apply comparePre_range.
Qed.

Lemma compare_objects_antisym (a b : SemVer) :
  numbers_ok a = true -> numbers_ok b = true ->
  compare_objects a b = (- compare_objects b a)%Z.
Proof.
  intros Ha Hb. unfold compare_objects.
  rewrite (compareMain_antisym a b), (comparePre_antisym a b);
    auto using numbers_ok_main, numbers_ok_prerelease.
  apply or_else_opp.
Qed.

Lemma compare_objects_same (a b : SemVer) :
  same_main a b = true -> prerelease a = prerelease b ->
  compare_objects a b = 0%Z.
Proof.
  intros Hm Hp. unfold compare_objects.
  rewrite (compareMain_same a b Hm), (comparePre_same a b Hp). reflexivity.
Qed.

Lemma compare_objects_refl (a : SemVer) : compare_objects a a = 0%Z.
Proof.
  apply compare_objects_same; [| reflexivity].
  unfold same_main. rewrite !N.eqb_refl. reflexivity.
Qed.

(** The mixed transitivity the scans rely on: below something that is not
    above. *)
Lemma compare_objects_trans (x y z : SemVer) :
  numbers_ok x = true -> numbers_ok y = true -> numbers_ok z = true ->
  compare_objects x y = (-1)%Z -> (compare_objects y z <= 0)%Z ->
  (compare_objects x z <= 0)%Z.
Proof.
  intros Hx Hy Hz.
  pose proof (numbers_ok_main x Hx) as Mx. pose proof (numbers_ok_main y Hy) as My.
  pose proof (numbers_ok_main z Hz) as Mz.
  pose proof (numbers_ok_prerelease x Hx) as Px.
  pose proof (numbers_ok_prerelease y Hy) as Py.
  pose proof (numbers_ok_prerelease z Hz) as Pz.
  unfold compare_objects, or_else.
  destruct (Z.eqb_spec (compareMain x y) 0) as [Exy | Nxy];
    destruct (Z.eqb_spec (compareMain y z) 0) as [Eyz | Nyz]; intros Hxy Hyz.
  - apply compareMain_zero in Exy; [| assumption ..].
    apply compareMain_zero in Eyz; [| assumption ..].
    pose proof (same_main_trans x y z Exy Eyz) as Exz.
    apply compareMain_zero in Exz; [| assumption ..].
    rewrite Exz. cbn. apply (comparePre_trans x y z); assumption.
  - apply compareMain_zero in Exy; [| assumption ..].
    rewrite (compareMain_same_l x y z Exy).
    destruct (Z.eqb_spec (compareMain y z) 0); [contradiction | exact Hyz].
  - apply compareMain_zero in Eyz; [| assumption ..].
    rewrite <- (compareMain_same_r x y z Eyz).
    destruct (Z.eqb_spec (compareMain x y) 0); [contradiction | lia].
  - assert (H : compareMain x z = (-1)%Z)
      by (apply (compareMain_trans x y z); assumption).
    rewrite H. cbn. lia.
Qed.

(** ** What the constructor guarantees *)

Lemma main_field_bound (g : string) (n : N) :
  main_field g = Ok n -> n <= MAX_SAFE_INTEGER.
Proof.
  unfold main_field. destruct (ToNumber g) as [m |]; [| discriminate].
  destruct (N.ltb_spec MAX_SAFE_INTEGER m) as [Hlt | Hle]; [discriminate |].
  intros E. injection E as <-. exact Hle.
Qed.

Lemma numberify_ok (id : string) : number_identifier_ok (numberify id) = true.
Proof.
  unfold numberify. destruct (numeric_test id); [| reflexivity].
  destruct (ToNumber id) as [m |]; [| reflexivity].
  destruct (m <? MAX_SAFE_INTEGER) eqn:E; [exact E | reflexivity].
Qed.

Lemma forallb_map_true {A B : Type} (p : B -> bool) (f : A -> B) (l : list A) :
  (forall x, p (f x) = true) -> forallb p (map f l) = true.
Proof. intros H. induction l; cbn; [reflexivity |]. rewrite H, IHl. reflexivity. Qed.

(** The shape of a successful construction. *)
Lemma new_SemVer_inv (v : jsvalue) (o : option Options) (a : SemVer) :
  new_SemVer v o = Ok a ->
  exists text m,
    match v with
    | VSemVer x => text = version x
    | VStr s => text = s
    | _ => False
    end /\
    (String.length text <= MAX_LENGTH)%nat /\
    match_FULL (trim text) = Some m /\
    main_field (g_major m) = Ok (major a) /\
    main_field (g_minor m) = Ok (minor a) /\
    main_field (g_patch m) = Ok (patch a) /\
    prerelease a = match g_prerelease m with
                   | None => []
                   | Some m4 => map numberify (split_char "." m4)
                   end /\
    build a = match g_build m with
              | None => []
              | Some m5 => split_char "." m5
              end /\
    raw a = text /\ options a = object_or_default o /\
    version a = format_version (major a) (minor a) (patch a) (prerelease a).
Proof.
  unfold new_SemVer. intros H.
  destruct (match v with
            | VStr s => Ok s
            | VSemVer x => Ok (version x)
            | _ => Throw TypeError
            end) as [text |] eqn:Ev; [| discriminate].
  destruct (Nat.ltb_spec MAX_LENGTH (String.length text)) as [Hgt | Hlen];
    [discriminate |].
  destruct (match_FULL (trim text)) as [m |] eqn:Em; [| discriminate].
  destruct (main_field (g_major m)) as [M |] eqn:EM; [| discriminate].
  destruct (main_field (g_minor m)) as [mi |] eqn:Emi; [| discriminate].
  destruct (main_field (g_patch m)) as [p |] eqn:Ep; [| discriminate].
  cbn in H. injection H as <-. cbn.
  exists text, m. repeat split; try assumption.
  destruct v; try discriminate; injection Ev as <-; reflexivity.
Qed.

Lemma new_SemVer_numbers_ok (v : jsvalue) (o : option Options) (a : SemVer) :
  new_SemVer v o = Ok a -> numbers_ok a = true.
Proof.
  intros H. apply new_SemVer_inv in H
    as (text & m & _ & _ & _ & HM & Hm & Hp & Hpre & _).
  apply main_field_bound in HM, Hm, Hp. unfold numbers_ok.
  apply N.leb_le in HM, Hm, Hp. rewrite HM, Hm, Hp, Hpre. cbn.
  destruct (g_prerelease m); [| reflexivity].
  apply forallb_map_true. apply numberify_ok.
Qed.

(** [compare(v1, v2)] is the comparison of the two objects it builds. *)
Lemma compare_constructed (v1 v2 : jsvalue) (o : option Options) (a b : SemVer) :
  new_SemVer v1 o = Ok a -> new_SemVer v2 o = Ok b ->
  compare v1 v2 o = Ok (compare_objects a b).
Proof. intros Ha Hb. unfold compare. rewrite Ha, Hb. reflexivity. Qed.

(** ** The prerelease rule (C1) *)

Lemma safe_identifier_prints (x : ident) :
  safe_identifier x = true -> prints_as_digits x = true.
Proof.
  destruct x as [n | s]; cbn; [| reflexivity].
  intros H. apply N.leb_le. apply safe_below_pow53. exact H.
Qed.

Lemma compareIdentifiers_spec (x y : ident) :
  safe_identifier x = true -> safe_identifier y = true ->
  compareIdentifiers x y = spec_compare_identifier x y.
Proof.
  intros Hx Hy.
  rewrite compareIdentifiers_kinds by (apply safe_identifier_prints; assumption).
  unfold spec_compare_identifier.
  destruct x as [n | s], y as [m | t]; cbn in Hx, Hy.
  - rewrite !is_numeric_INum
      by (apply N.leb_le; apply safe_below_pow53; assumption).
    unfold number_cmp. cbn. destruct (N.compare_spec n m); N_cases; try reflexivity; lia.
  - rewrite is_numeric_INum
      by (apply N.leb_le; apply safe_below_pow53; assumption).
    apply negb_true_iff in Hy. unfold is_numeric. cbn. rewrite Hy. reflexivity.
  - rewrite (is_numeric_INum m)
      by (apply N.leb_le; apply safe_below_pow53; assumption).
    apply negb_true_iff in Hx. unfold is_numeric. cbn. rewrite Hx. reflexivity.
  - apply negb_true_iff in Hx, Hy. unfold is_numeric. cbn. rewrite Hx, Hy.
    apply string_cmp_sign.
Qed.

Lemma ident_eqb_spec_zero (x y : ident) :
  safe_identifier x = true -> safe_identifier y = true ->
  ident_eqb x y = (spec_compare_identifier x y =? 0)%Z.
Proof.
  intros Hx Hy. unfold spec_compare_identifier.
  destruct x as [n | s], y as [m | t]; cbn in Hx, Hy |- *.
  - destruct (N.compare_spec n m); N_cases; try reflexivity; lia.
  - apply negb_true_iff in Hy. rewrite Hy. reflexivity.
  - apply negb_true_iff in Hx. rewrite Hx. reflexivity.
  - apply negb_true_iff in Hx, Hy. rewrite Hx, Hy.
    rewrite <- string_cmp_sign. unfold string_cmp.
    destruct (String.eqb s t); [reflexivity |].
    destruct (string_ltb s t); reflexivity.
Qed.

Ltac constructed s :=
  let r := eval vm_compute in (new_SemVer (VStr s) None) in
  match r with
  | Ok ?v => v
  end.

Lemma numberify_stored (id : string) : stored_identifier (numberify id) = true.
Proof.
  unfold numberify. destruct (numeric_test id) eqn:En.
  - destruct (ToNumber id) as [num |] eqn:Et.
    + destruct (num <? MAX_SAFE_INTEGER) eqn:E; cbn [stored_identifier].
      * exact E.
      * rewrite En, Et, E. reflexivity.
    + cbn [stored_identifier]. rewrite En, Et. reflexivity.
  - cbn [stored_identifier]. rewrite En. reflexivity.
Qed.

Lemma new_SemVer_stored (v : jsvalue) (o : option Options) (a : SemVer) :
  new_SemVer v o = Ok a -> forallb stored_identifier (prerelease a) = true.
Proof.
  intros H. apply new_SemVer_inv in H
    as (text & m & _ & _ & _ & _ & _ & _ & Hpre & _).
  rewrite Hpre. destruct (g_prerelease m); [| reflexivity].
  apply forallb_map_true. apply numberify_stored.
Qed.

(** A run of digits the constructor kept as a string is worth
    MAX_SAFE_INTEGER or more, and so is its double. *)
Lemma stored_digits_big (t : string) :
  stored_identifier (IStr t) = true -> numeric_test t = true ->
  MAX_SAFE_INTEGER <= digits_value t
  /\ forall n, n < MAX_SAFE_INTEGER ->
       number_eqb (Int n) (ToNumber t) = false
       /\ number_ltb (Int n) (ToNumber t) = true
       /\ number_eqb (ToNumber t) (Int n) = false
       /\ number_ltb (ToNumber t) (Int n) = false.
Proof.
  cbn [stored_identifier]. intros H Hn. rewrite Hn in H. cbn [negb orb] in H.
  unfold ToNumber, double_of_N in *.
  pose proof pow53 as P. unfold MAX_SAFE_INTEGER in *.
  destruct (N.leb_spec (digits_value t) (2 ^ 53)) as [Hle | Hgt].
  - rewrite (round53_small _ Hle) in *.
    assert (Hlt : digits_value t < 2 ^ 1024).
    { apply N.le_lt_trans with (2 ^ 53); [exact Hle |].
      apply N.pow_lt_mono_r; lia. }
    apply N.ltb_lt in Hlt. rewrite Hlt in *.
    apply negb_true_iff, N.ltb_ge in H.
    split; [exact H |]. intros n Hn'. cbn [number_eqb number_ltb].
    repeat split; N_cases; try reflexivity; lia.
  - split; [lia |]. intros n Hn'.
    destruct (round53 (digits_value t) <? 2 ^ 1024);
      cbn [number_eqb number_ltb]; [| repeat split; reflexivity].
    apply negb_true_iff, N.ltb_ge in H.
    repeat split; N_cases; try reflexivity; lia.
Qed.

(** [compareIdentifiers] and the rule agree on two stored identifiers of
    which one is safe. *)
Lemma compareIdentifiers_spec_one (x y : ident) :
  safe_identifier x = true -> stored_identifier y = true ->
  compareIdentifiers x y = spec_compare_identifier x y
  /\ compareIdentifiers y x = spec_compare_identifier y x
  /\ ident_eqb x y = (spec_compare_identifier x y =? 0)%Z
  /\ ident_eqb y x = (spec_compare_identifier y x =? 0)%Z.
Proof.
  intros Hx Hy. destruct (safe_identifier y) eqn:Sy.
  { repeat split; auto using compareIdentifiers_spec, ident_eqb_spec_zero. }
  destruct y as [m | t]; cbn in Sy; [cbn in Hy; congruence |].
  apply negb_false_iff in Sy.
  destruct (stored_digits_big t Hy Sy) as [Hbig Hcmp].
  rewrite !compareIdentifiers_kinds
    by (try reflexivity; apply safe_identifier_prints; exact Hx).
  unfold spec_compare_identifier, is_numeric. cbn [kind_of ident_to_string].
  rewrite Sy.
  destruct x as [n | s]; cbn in Hx.
  - fold (is_numeric (INum n)).
    rewrite is_numeric_INum by (apply N.leb_le, safe_below_pow53; exact Hx).
    apply N.ltb_lt in Hx. destruct (Hcmp n Hx) as (E1 & E2 & E3 & E4).
    unfold number_cmp. cbn [number_of kind_of]. rewrite E1, E2, E3, E4.
    cbn [ident_eqb].
    destruct (N.compare_spec n (digits_value t)); try lia.
    destruct (N.compare_spec (digits_value t) n); try lia.
    repeat split; reflexivity.
  - apply negb_true_iff in Hx. cbn [ident_to_string kind_of]. rewrite Hx.
    cbn [ident_eqb].
    assert (Hne : String.eqb s t = false).
    { destruct (String.eqb_spec s t) as [-> | _]; [congruence | reflexivity]. }
    rewrite Hne, (String.eqb_sym t s), Hne. repeat split; reflexivity.
Qed.

Lemma comparePre_loop_spec_one (a b : list ident) :
  forallb safe_identifier a = true -> forallb stored_identifier b = true ->
  comparePre_loop a b = spec_compare_identifiers a b
  /\ comparePre_loop b a = spec_compare_identifiers b a.
Proof.
  revert b. induction a as [| x a IH]; intros [| y b] Ha Hb; cbn;
    try (split; reflexivity).
  cbn in Ha, Hb. apply andb_prop in Ha as [Hx Ha]. apply andb_prop in Hb as [Hy Hb].
  destruct (compareIdentifiers_spec_one x y Hx Hy) as (E1 & E2 & E3 & E4).
  destruct (IH b Ha Hb) as [I1 I2].
  rewrite E3, E4, E1, E2, I1, I2. split; reflexivity.
Qed.

Lemma comparePre_spec_one (a b : SemVer) :
  safe_prerelease a = true -> forallb stored_identifier (prerelease b) = true ->
  comparePre a b = spec_prerelease_rule (prerelease a) (prerelease b)
  /\ comparePre b a = spec_prerelease_rule (prerelease b) (prerelease a).
Proof.
  unfold safe_prerelease, comparePre, spec_prerelease_rule. intros Ha Hb.
  destruct (prerelease a) as [| x l], (prerelease b) as [| y k];
    try (split; reflexivity).
  apply comparePre_loop_spec_one; assumption.
Qed.

(** Where the rule and the code agree: for two constructed versions with
    equal major, minor and patch, of which at least one has all its
    numeric prerelease identifiers below MAX_SAFE_INTEGER (so that the
    constructor stores each as a number), [compare] returns what the
    prerelease rule gives: a version with a prerelease is below the one
    without, two empty lists are equal, and otherwise the identifiers are
    compared left to right, numerically or lexically, a numeric one below
    a non-numeric one, the list that runs out first being the lower. *)
Theorem compare_follows_prerelease_rule :
  forall (v1 v2 : jsvalue) (o : option Options) (a b : SemVer),
    new_SemVer v1 o = Ok a -> new_SemVer v2 o = Ok b ->
    same_main a b = true ->
    safe_prerelease a = true \/ safe_prerelease b = true ->
    compare v1 v2 o = Ok (spec_prerelease_rule (prerelease a) (prerelease b)).
Proof.
  intros v1 v2 o a b Ha Hb Hmain Hsafe.
  rewrite (compare_constructed v1 v2 o a b Ha Hb). unfold compare_objects.
  rewrite (compareMain_same a b Hmain). cbn [or_else Z.eqb]. f_equal.
  destruct Hsafe as [Sa | Sb].
  - exact (proj1 (comparePre_spec_one a b Sa (new_SemVer_stored _ _ _ Hb))).
  - exact (proj2 (comparePre_spec_one b a Sb (new_SemVer_stored _ _ _ Ha))).
Qed.

Lemma compare_follows_prerelease_rule_witness :
  compare (VStr "1.0.0-alpha.1") (VStr "1.0.0-alpha.beta") None = Ok (-1)%Z
  /\ compare (VStr "1.0.0-alpha") (VStr "1.0.0-alpha.1") None = Ok (-1)%Z
  /\ compare (VStr "1.0.0-1") (VStr "1.0.0-2") None = Ok (-1)%Z
  /\ compare (VStr "1.0.0-alpha") (VStr "1.0.0") None = Ok (-1)%Z
  /\ compare (VStr "1.0.0-9007199254740993") (VStr "1.0.0-5") None = Ok 1%Z.
Proof.
  split; [| split; [| split; [| split]]].
  - let a := constructed "1.0.0-alpha.1" in
    let b := constructed "1.0.0-alpha.beta" in
    exact (compare_follows_prerelease_rule (VStr "1.0.0-alpha.1")
             (VStr "1.0.0-alpha.beta") None a b
             eq_refl eq_refl eq_refl (or_introl eq_refl)).
  - let a := constructed "1.0.0-alpha" in
    let b := constructed "1.0.0-alpha.1" in
    exact (compare_follows_prerelease_rule (VStr "1.0.0-alpha")
             (VStr "1.0.0-alpha.1") None a b
             eq_refl eq_refl eq_refl (or_introl eq_refl)).
  - let a := constructed "1.0.0-1" in
    let b := constructed "1.0.0-2" in
    exact (compare_follows_prerelease_rule (VStr "1.0.0-1")
             (VStr "1.0.0-2") None a b
             eq_refl eq_refl eq_refl (or_introl eq_refl)).
  - let a := constructed "1.0.0-alpha" in
    let b := constructed "1.0.0" in
    exact (compare_follows_prerelease_rule (VStr "1.0.0-alpha")
             (VStr "1.0.0") None a b
             eq_refl eq_refl eq_refl (or_introl eq_refl)).
  - let a := constructed "1.0.0-9007199254740993" in
    let b := constructed "1.0.0-5" in
    exact (compare_follows_prerelease_rule (VStr "1.0.0-9007199254740993")
             (VStr "1.0.0-5") None a b
             eq_refl eq_refl eq_refl (or_intror eq_refl)).
Defined.

(** C1, at the versions 1.0.0-9007199254740992 and
    1.0.0-9007199254740993: they have the same major, minor and patch and
    their prerelease identifiers are numeric and differ, so the prerelease
    rule puts the first strictly below the second.  The constructor keeps
    both identifiers as strings, exact, and [compareIdentifiers] converts
    both with [+] to the same double: [compare] returns 0, [eq] is true of
    the two and [lt] is false. *)
Theorem compare_breaks_prerelease_rule :
  exists a b : SemVer,
    new_SemVer (VStr "1.0.0-9007199254740992") None = Ok a
    /\ new_SemVer (VStr "1.0.0-9007199254740993") None = Ok b
    /\ same_main a b = true
    /\ spec_prerelease_rule (prerelease a) (prerelease b) = (-1)%Z
    /\ compare (VStr "1.0.0-9007199254740992") (VStr "1.0.0-9007199254740993") None
       = Ok 0%Z
    /\ eq (VStr "1.0.0-9007199254740992") (VStr "1.0.0-9007199254740993") None
       = Ok true
    /\ lt (VStr "1.0.0-9007199254740992") (VStr "1.0.0-9007199254740993") None
       = Ok false.
Proof.
  eexists. eexists.
  split; [vm_compute; reflexivity |].
  split; [vm_compute; reflexivity |].
  repeat split; vm_compute; reflexivity.
Qed.

(** ** Consistency of the order (C2) *)

Lemma spec_compare_identifiers_zero_one (a b : list ident) :
  forallb safe_identifier a = true -> forallb stored_identifier b = true ->
  spec_compare_identifiers a b = 0%Z -> a = b.
Proof.
  revert b. induction a as [| x a IH]; intros [| y b] Ha Hb; cbn;
    try reflexivity; try discriminate.
  cbn in Ha, Hb. apply andb_prop in Ha as [Hx Ha]. apply andb_prop in Hb as [Hy Hb].
  destruct (compareIdentifiers_spec_one x y Hx Hy) as (_ & _ & E & _).
  rewrite <- E. destruct (ident_eqb x y) eqn:Exy.
  - apply ident_eqb_eq in Exy. subst y. intros H. f_equal. apply IH; assumption.
  - intros H. rewrite H in E. discriminate.
Qed.

(** Equality under [compare] with a version whose identifiers are safe is
    equality of the fields. *)
Lemma compare_objects_zero_one (a b : SemVer) :
  numbers_ok a = true -> numbers_ok b = true ->
  safe_prerelease a = true -> forallb stored_identifier (prerelease b) = true ->
  compare_objects a b = 0%Z ->
  same_main a b = true /\ prerelease a = prerelease b.
Proof.
  intros Na Nb Sa Sb H. unfold compare_objects in H.
  apply or_else_zero in H as [Hm Hp]. split.
  - apply compareMain_zero; auto using numbers_ok_main.
  - rewrite (proj1 (comparePre_spec_one a b Sa Sb)) in Hp.
    unfold safe_prerelease in Sa. unfold spec_prerelease_rule in Hp.
    destruct (prerelease a) as [| x l] eqn:Ea, (prerelease b) as [| y k] eqn:Eb;
      try reflexivity; try discriminate.
    apply spec_compare_identifiers_zero_one; assumption.
Qed.

(** What holds of the order: for constructed versions, [compare(a,b)] is
    the opposite of [compare(b,a)]; equality under [compare] is transitive
    among three versions of which at least one has all its numeric
    prerelease identifiers below MAX_SAFE_INTEGER; two versions with the
    same major, minor, patch and prerelease compare equal whatever their
    build metadata, as "1.0.0+a" and "1.0.0+b" do. *)
Theorem compare_is_consistent :
  forall (v1 v2 v3 : jsvalue) (o : option Options) (a b c : SemVer),
    new_SemVer v1 o = Ok a -> new_SemVer v2 o = Ok b -> new_SemVer v3 o = Ok c ->
    (exists x : Z, compare v1 v2 o = Ok x /\ compare v2 v1 o = Ok (- x)%Z)
    /\ (safe_prerelease a = true \/ safe_prerelease b = true
        \/ safe_prerelease c = true ->
        compare v1 v2 o = Ok 0%Z -> compare v2 v3 o = Ok 0%Z ->
        compare v1 v3 o = Ok 0%Z)
    /\ (same_main a b = true -> prerelease a = prerelease b ->
        compare v1 v2 o = Ok 0%Z)
    /\ compare (VStr "1.0.0+a") (VStr "1.0.0+b") None = Ok 0%Z.
Proof.
  intros v1 v2 v3 o a b c Ha Hb Hc.
  pose proof (new_SemVer_numbers_ok _ _ _ Ha) as Na.
  pose proof (new_SemVer_numbers_ok _ _ _ Hb) as Nb.
  pose proof (new_SemVer_numbers_ok _ _ _ Hc) as Nc.
  pose proof (new_SemVer_stored _ _ _ Ha) as Ta.
  pose proof (new_SemVer_stored _ _ _ Hb) as Tb.
  pose proof (new_SemVer_stored _ _ _ Hc) as Tc.
  rewrite (compare_constructed v1 v2 o a b Ha Hb),
    (compare_constructed v2 v1 o b a Hb Ha),
    (compare_constructed v2 v3 o b c Hb Hc),
    (compare_constructed v1 v3 o a c Ha Hc).
  split; [| split; [| split]].
  - exists (compare_objects a b). split; [reflexivity |].
    rewrite (compare_objects_antisym b a Nb Na). reflexivity.
  - intros Hsafe Hab Hbc.
    injection Hab as Hab. injection Hbc as Hbc.
    assert (Hba : compare_objects b a = 0%Z)
      by (rewrite (compare_objects_antisym b a Nb Na), Hab; reflexivity).
    assert (Hcb : compare_objects c b = 0%Z)
      by (rewrite (compare_objects_antisym c b Nc Nb), Hbc; reflexivity).
    assert (Hsb : safe_prerelease b = true).
    { destruct Hsafe as [Sa | [Sb | Sc]]; [| exact Sb |].
      - destruct (compare_objects_zero_one a b Na Nb Sa Tb Hab) as [_ E].
        unfold safe_prerelease in *. rewrite <- E. exact Sa.
      - destruct (compare_objects_zero_one c b Nc Nb Sc Tb Hcb) as [_ E].
        unfold safe_prerelease in *. rewrite <- E. exact Sc. }
    destruct (compare_objects_zero_one b a Nb Na Hsb Ta Hba) as [Mba Pba].
    destruct (compare_objects_zero_one b c Nb Nc Hsb Tc Hbc) as [Mbc Pbc].
    rewrite (compare_objects_same a c); [reflexivity | | congruence].
    apply (same_main_trans a b c); [| exact Mbc].
    rewrite same_main_sym. exact Mba.
  - intros Hm Hp. rewrite (compare_objects_same a b Hm Hp). reflexivity.
  - vm_compute. reflexivity.
Qed.

Lemma compare_is_consistent_witness :
  (exists x : Z,
     compare (VStr "1.2.3-rc.1+a") (VStr "v1.2.3-rc.1") None = Ok x
     /\ compare (VStr "v1.2.3-rc.1") (VStr "1.2.3-rc.1+a") None = Ok (- x)%Z)
  /\ compare (VStr "1.2.3-rc.1+a") (VStr "1.2.3-rc.1+c") None = Ok 0%Z
  /\ compare (VStr "1.0.0+a") (VStr "1.0.0+b") None = Ok 0%Z.
Proof.
  let a := constructed "1.2.3-rc.1+a" in
  let b := constructed "v1.2.3-rc.1" in
  let c := constructed "1.2.3-rc.1+c" in
  pose proof (compare_is_consistent (VStr "1.2.3-rc.1+a") (VStr "v1.2.3-rc.1")
                (VStr "1.2.3-rc.1+c") None a b c eq_refl eq_refl eq_refl)
    as (Hanti & Htrans & _ & Hbuild).
  split; [exact Hanti | split; [| exact Hbuild]].
  exact (Htrans (or_introl eq_refl) eq_refl eq_refl).
Defined.

(** C2, at a = 1.0.0-9007199254740992.1, b = 1.0.0-9007199254740993.5 and
    c = 1.0.0-9007199254740992.2: equality under [compare] is not
    transitive.  The first identifiers of a and b, and of b and c, differ
    as strings and convert to the same double, so [compareIdentifiers]
    answers 0 and [comparePre] returns 0 for both pairs at once; the first
    identifiers of a and c are the same string, the loop goes on and
    orders 1 below 2.  So [compare(a,b)] and [compare(b,c)] are 0, and
    [eq] true, while [compare(a,c)] is -1. *)
Theorem compare_equality_not_transitive :
  compare (VStr "1.0.0-9007199254740992.1") (VStr "1.0.0-9007199254740993.5") None
    = Ok 0%Z
  /\ compare (VStr "1.0.0-9007199254740993.5") (VStr "1.0.0-9007199254740992.2") None
     = Ok 0%Z
  /\ compare (VStr "1.0.0-9007199254740992.1") (VStr "1.0.0-9007199254740992.2") None
     = Ok (-1)%Z
  /\ eq (VStr "1.0.0-9007199254740992.1") (VStr "1.0.0-9007199254740993.5") None
     = Ok true
  /\ eq (VStr "1.0.0-9007199254740993.5") (VStr "1.0.0-9007199254740992.2") None
     = Ok true
  /\ eq (VStr "1.0.0-9007199254740992.1") (VStr "1.0.0-9007199254740992.2") None
     = Ok false.
Proof. repeat split; vm_compute; reflexivity. Qed.

(** ** inc (C5) *)

Lemma SemVer_inc_major (v : SemVer) (id : option string) :
  SemVer_inc v "major" id = Ok (inc_major v).
Proof. reflexivity. Qed.

Lemma SemVer_inc_minor (v : SemVer) (id : option string) :
  SemVer_inc v "minor" id = Ok (inc_minor v).
Proof. reflexivity. Qed.

Lemma SemVer_inc_patch (v : SemVer) (id : option string) :
  SemVer_inc v "patch" id = Ok (inc_patch v).
Proof. reflexivity. Qed.

(** C5: on a constructed version, [inc] with "major" increments major
    unless minor and patch are 0 and the prerelease is not empty, and then
    leaves it; minor and patch become 0 and the prerelease is emptied.
    "minor" does the same one field down (patch 0 and a prerelease leave
    minor as it is), and "patch" increments patch unless there is a
    prerelease.  The four examples of the specification follow. *)
Theorem inc_release_short_circuits :
  forall (x : jsvalue) (o : option Options) (v : SemVer) (id : option string),
    new_SemVer x o = Ok v ->
    (exists v' : SemVer,
        SemVer_inc v "major" id = Ok v'
        /\ major v' = (if (minor v =? 0) && (patch v =? 0) && has_prerelease v
                       then major v else major v + 1)
        /\ minor v' = 0 /\ patch v' = 0 /\ prerelease v' = []
        /\ inc x "major" (OptionsGiven o) id = Some (version v'))
    /\ (exists v' : SemVer,
        SemVer_inc v "minor" id = Ok v'
        /\ major v' = major v
        /\ minor v' = (if (patch v =? 0) && has_prerelease v
                       then minor v else minor v + 1)
        /\ patch v' = 0 /\ prerelease v' = []
        /\ inc x "minor" (OptionsGiven o) id = Some (version v'))
    /\ (exists v' : SemVer,
        SemVer_inc v "patch" id = Ok v'
        /\ major v' = major v /\ minor v' = minor v
        /\ patch v' = (if has_prerelease v then patch v else patch v + 1)
        /\ prerelease v' = []
        /\ inc x "patch" (OptionsGiven o) id = Some (version v'))
    /\ inc (VStr "1.2.3") "patch" (OptionsGiven None) None = Some "1.2.4"
    /\ inc (VStr "1.2.3-4") "patch" (OptionsGiven None) None = Some "1.2.3"
    /\ inc (VStr "1.0.0") "major" (OptionsGiven None) None = Some "2.0.0"
    /\ inc (VStr "1.0.0-5") "major" (OptionsGiven None) None = Some "1.0.0".
Proof.
  intros x o v id Hv.
  pose proof (new_SemVer_numbers_ok _ _ _ Hv) as Hok.
  unfold numbers_ok in Hok.
  apply andb_prop in Hok as [Hok _]. apply andb_prop in Hok as [Hok Hp].
  apply andb_prop in Hok as [HM Hm]. apply N.leb_le in HM, Hm, Hp.
  unfold inc. rewrite Hv. cbn [bind try_catch].
  rewrite SemVer_inc_major, SemVer_inc_minor, SemVer_inc_patch.
  cbn [bind try_catch]. unfold has_prerelease.
  split; [| split; [| split]].
  - exists (inc_major v). split; [reflexivity |]. unfold inc_major. cbn.
    repeat split.
    destruct (minor v =? 0), (patch v =? 0), (prerelease v); cbn;
      try reflexivity; apply incr_safe; assumption.
  - exists (inc_minor v). split; [reflexivity |]. unfold inc_minor. cbn.
    repeat split.
    destruct (patch v =? 0), (prerelease v); cbn;
      try reflexivity; apply incr_safe; assumption.
  - exists (inc_patch v). split; [reflexivity |]. unfold inc_patch. cbn.
    repeat split.
    destruct (prerelease v); cbn; try reflexivity; apply incr_safe; assumption.
  - repeat split; vm_compute; reflexivity.
Qed.

Lemma inc_release_short_circuits_witness :
  inc (VStr "1.1.0") "major" (OptionsGiven None) None = Some "2.0.0"
  /\ inc (VStr "1.2.0-5") "minor" (OptionsGiven None) None = Some "1.2.0".
Proof.
  split.
  - let v := constructed "1.1.0" in
    pose proof (inc_release_short_circuits (VStr "1.1.0") None v None eq_refl)
      as ((v' & Hinc & _ & _ & _ & _ & Hstr) & _).
    injection Hinc as <-. exact Hstr.
  - let v := constructed "1.2.0-5" in
    pose proof (inc_release_short_circuits (VStr "1.2.0-5") None v None eq_refl)
      as (_ & (v' & Hinc & _ & _ & _ & _ & Hstr) & _).
    injection Hinc as <-. exact Hstr.
Defined.

(** ** parse (C6) *)

Lemma length_ones (n : nat) : String.length (ones n) = n.
Proof. induction n; cbn; congruence. Qed.

(** C6, as amended: [parse] never raises; it returns [null] for [null] and
    [undefined], for a string longer than 256 characters, for a string
    that fails the full-version grammar and whenever the construction
    throws; an object that is already a [SemVer] is returned as it is. *)
Theorem parse_never_raises :
  forall (v : jsvalue) (o : option Options),
    (exists r : option SemVer, parse v o = Ok r)
    /\ match v with
       | VSemVer x => parse v o = Ok (Some x)
       | VNull | VUndefined => parse v o = Ok None
       | VStr s =>
           ((MAX_LENGTH < String.length s)%nat -> parse v o = Ok None)
           /\ (match_FULL s = None -> parse v o = Ok None)
           /\ (throws (new_SemVer v o) -> parse v o = Ok None)
           /\ (forall x, parse v o = Ok (Some x) -> new_SemVer v o = Ok x)
       end
    /\ parse VNull None = Ok None
    /\ parse (VStr "not-a-version") None = Ok None
    /\ parse (VStr (String "v" (ones 300))) None = Ok None.
Proof.
  intros v o. split; [| split; [| split; [| split]]].
  - destruct v as [s | x | |]; unfold parse; eauto.
    destruct (Nat.ltb MAX_LENGTH (String.length s)); eauto.
    destruct (match_FULL s); eauto.
    destruct (new_SemVer (VStr s) o); cbn [bind try_catch]; eauto.
  - destruct v as [s | x | |]; unfold parse; try reflexivity.
    split; [| split; [| split]].
    + intros H. apply Nat.ltb_lt in H. rewrite H. reflexivity.
    + intros H. rewrite H. destruct (Nat.ltb MAX_LENGTH (String.length s)); reflexivity.
    + intros [e He]. rewrite He. cbn [bind try_catch].
      destruct (Nat.ltb MAX_LENGTH (String.length s)), (match_FULL s); reflexivity.
    + intros x. destruct (Nat.ltb MAX_LENGTH (String.length s)); [discriminate |].
      destruct (match_FULL s); [| discriminate].
      destruct (new_SemVer (VStr s) o); cbn [bind try_catch]; congruence.
  - reflexivity.
  - vm_compute. reflexivity.
  - unfold parse. cbn [String.length]. rewrite length_ones. reflexivity.
Qed.

(** C6 as stated fails for an input that is not a string but a [SemVer]:
    [parse] returns the object, not [null]. *)
Lemma parse_returns_a_SemVer_argument :
  exists x : SemVer,
    new_SemVer (VStr "1.2.3") None = Ok x
    /\ parse (VSemVer x) None = Ok (Some x).
Proof. eexists. split; [vm_compute; reflexivity | reflexivity]. Qed.

(** ** diff (C9) *)

Lemma new_SemVer_options (x : jsvalue) (o o' : option Options) (v : SemVer) :
  new_SemVer x o = Ok v ->
  new_SemVer x o' = Ok (with_options v (object_or_default o')).
Proof.
  unfold new_SemVer.
  destruct (match x with
            | VStr s => Ok s
            | VSemVer x0 => Ok (version x0)
            | _ => Throw TypeError
            end) as [text |]; [| discriminate].
  destruct (Nat.ltb MAX_LENGTH (String.length text)); [discriminate |].
  destruct (match_FULL (trim text)) as [m |]; [| discriminate].
  destruct (main_field (g_major m)); [| discriminate].
  destruct (main_field (g_minor m)); [| discriminate].
  destruct (main_field (g_patch m)); [| discriminate].
  cbn. intros H. injection H as <-. reflexivity.
Qed.

Lemma parse_string_inv (s : string) (o : option Options) (v : SemVer) :
  parse (VStr s) o = Ok (Some v) -> new_SemVer (VStr s) o = Ok v.
Proof.
  unfold parse, try_catch.
  destruct (Nat.ltb MAX_LENGTH (String.length s)); [discriminate |].
  destruct (match_FULL s); [| discriminate].
  destruct (new_SemVer (VStr s) o) as [v' |]; cbn [bind]; [| discriminate].
  intros H. injection H as <-. reflexivity.
Qed.

Lemma compare_objects_with_options (a b : SemVer) (o o' : Options) :
  compare_objects (with_options a o) (with_options b o') = compare_objects a b.
Proof. reflexivity. Qed.

Lemma compare_objects_nonzero_prerelease (a b : SemVer) :
  same_main a b = true -> compare_objects a b <> 0%Z ->
  has_prerelease a || has_prerelease b = true.
Proof.
  intros Hm Hne. unfold has_prerelease.
  destruct (prerelease a) as [| x l] eqn:Ea; [| reflexivity].
  destruct (prerelease b) as [| y k] eqn:Eb; [| reflexivity].
  exfalso. apply Hne. apply compare_objects_same; congruence.
Qed.

(** C9, as amended: for two valid version strings, [diff] returns [null]
    if they are equal under [compare]; otherwise the name of the first
    field among major, minor and patch that differs, with "pre" before it
    if either version has a prerelease; and "prerelease" if none of the
    three differs. *)
Theorem diff_reports_first_difference :
  forall (s1 s2 : string) (o : option Options) (v1 v2 : SemVer),
    parse (VStr s1) None = Ok (Some v1) ->
    parse (VStr s2) None = Ok (Some v2) ->
    diff (VStr s1) (VStr s2) o = Ok (release_type_between v1 v2).
Proof.
  intros s1 s2 o v1 v2 P1 P2.
  pose proof (parse_string_inv _ _ _ P1) as C1.
  pose proof (parse_string_inv _ _ _ P2) as C2.
  unfold diff, eq.
  rewrite (compare_constructed _ _ o _ _
             (new_SemVer_options _ None o _ C1) (new_SemVer_options _ None o _ C2)).
  rewrite compare_objects_with_options. cbn [bind].
  unfold release_type_between.
  destruct (Z.eqb_spec (compare_objects v1 v2) 0) as [E | NE]; [reflexivity |].
  rewrite P1, P2. cbn [bind]. fold (has_prerelease v1). fold (has_prerelease v2).
  destruct (major v1 =? major v2) eqn:EM; cbn [negb]; [| reflexivity].
  destruct (minor v1 =? minor v2) eqn:Em; cbn [negb]; [| reflexivity].
  destruct (patch v1 =? patch v2) eqn:Ep; cbn [negb]; [| reflexivity].
  rewrite (compare_objects_nonzero_prerelease v1 v2); [reflexivity | | exact NE].
  unfold same_main. rewrite EM, Em, Ep. reflexivity.
Qed.

Lemma diff_reports_first_difference_witness :
  diff (VStr "1.0.0-alpha") (VStr "1.1.0") None = Ok (Some "preminor")
  /\ diff (VStr "1.2.3") (VStr "1.2.4") None = Ok (Some "patch")
  /\ diff (VStr "1.2.3") (VStr "1.2.3+build") None = Ok None.
Proof.
  split; [| split].
  - let a := constructed "1.0.0-alpha" in
    let b := constructed "1.1.0" in
    exact (diff_reports_first_difference "1.0.0-alpha" "1.1.0" None a b
             eq_refl eq_refl).
  - let a := constructed "1.2.3" in
    let b := constructed "1.2.4" in
    exact (diff_reports_first_difference "1.2.3" "1.2.4" None a b
             eq_refl eq_refl).
  - let a := constructed "1.2.3" in
    let b := constructed "1.2.3+build" in
    exact (diff_reports_first_difference "1.2.3" "1.2.3+build" None a b
             eq_refl eq_refl).
Defined.

(** C9 as stated fails where no field among major, minor and patch
    differs: the two versions below are not equal under [compare], and
    [diff] returns "prerelease", not [null]. *)
Lemma diff_returns_prerelease :
  compare (VStr "1.0.0-alpha") (VStr "1.0.0-beta") None = Ok (-1)%Z
  /\ diff (VStr "1.0.0-alpha") (VStr "1.0.0-beta") None = Ok (Some "prerelease").
Proof. split; vm_compute; reflexivity. Qed.

(** ** Strings *)

Lemma append_assoc (a b c : string) : (a ++ b) ++ c = a ++ (b ++ c).
Proof. induction a as [| x a IH]; cbn; [reflexivity | rewrite IH; reflexivity]. Qed.

Lemma append_nil_r (a : string) : a ++ "" = a.
Proof. induction a as [| x a IH]; cbn; [reflexivity | rewrite IH; reflexivity]. Qed.

Lemma length_append (a b : string) :
  String.length (a ++ b) = (String.length a + String.length b)%nat.
Proof. induction a as [| x a IH]; cbn; [reflexivity | rewrite IH; reflexivity]. Qed.

Lemma forallb_string_app (p : ascii -> bool) (a b : string) :
  forallb_string p (a ++ b) = forallb_string p a && forallb_string p b.
Proof.
  induction a as [| x a IH]; cbn; [reflexivity |].
  rewrite IH, andb_assoc. reflexivity.
Qed.

Lemma forallb_string_impl (p q : ascii -> bool) (s : string) :
  (forall c, p c = true -> q c = true) ->
  forallb_string p s = true -> forallb_string q s = true.
Proof.
  intros H. induction s as [| c s IH]; cbn; [reflexivity |].
  intros E. apply andb_prop in E as [E1 E2]. rewrite (H c E1), (IH E2). reflexivity.
Qed.

Lemma is_empty_true (s : string) : is_empty s = true -> s = "".
Proof. destruct s; [reflexivity | discriminate]. Qed.

(** *** Characters *)

Ltac ascii_cases c :=
  destruct c as [[] [] [] [] [] [] [] []]; try reflexivity; try discriminate.

Lemma digit_not_space (c : ascii) : is_digit c = true -> is_space c = false.
Proof. ascii_cases c. Qed.

Lemma idchar_or_dot_not_space (c : ascii) :
  is_idchar_or_dot c = true -> is_space c = false.
Proof. ascii_cases c. Qed.

Lemma digit_idchar_or_dot (c : ascii) :
  is_digit c = true -> is_idchar_or_dot c = true.
Proof. ascii_cases c. Qed.

Lemma idchar_idchar_or_dot (c : ascii) :
  is_idchar c = true -> is_idchar_or_dot c = true.
Proof. unfold is_idchar_or_dot. intros ->. reflexivity. Qed.

(** *** trim *)

Lemma trim_end_no_space (s : string) :
  forallb_string (fun c => negb (is_space c)) s = true -> trim_end s = s.
Proof.
  induction s as [| c s IH]; cbn; [reflexivity |].
  intros H. apply andb_prop in H as [Hc Hs]. rewrite (IH Hs).
  apply negb_true_iff in Hc. rewrite Hc. reflexivity.
Qed.

Lemma trim_no_space (s : string) :
  forallb_string (fun c => negb (is_space c)) s = true -> trim s = s.
Proof.
  intros H. unfold trim.
  assert (E : trim_start s = s).
  { destruct s as [| c s]; [reflexivity |]. cbn in H |- *.
    apply andb_prop in H as [Hc _]. apply negb_true_iff in Hc.
    rewrite Hc. reflexivity. }
  rewrite E. apply trim_end_no_space. exact H.
Qed.

Lemma length_trim_start (s : string) :
  (String.length (trim_start s) <= String.length s)%nat.
Proof.
  induction s as [| c s IH]; cbn; [lia |].
  destruct (is_space c); cbn; lia.
Qed.

Lemma length_trim_end (s : string) :
  (String.length (trim_end s) <= String.length s)%nat.
Proof.
  induction s as [| c s IH]; cbn; [lia |].
  destruct (is_space c && is_empty (trim_end s)); cbn; lia.
Qed.

Lemma length_trim (s : string) : (String.length (trim s) <= String.length s)%nat.
Proof.
  unfold trim. pose proof (length_trim_end (trim_start s)).
  pose proof (length_trim_start s). lia.
Qed.

(** *** split and join *)

Lemma split_char_aux_nonempty (sep : ascii) (s cur : string) :
  split_char_aux sep s cur <> [].
Proof.
  revert cur. induction s as [| c s IH]; intros cur; cbn; [discriminate |].
  destruct (Ascii.eqb c sep); [discriminate | apply IH].
Qed.

Lemma join_cons (sep x : string) (xs : list string) :
  xs <> [] -> join sep (x :: xs) = x ++ sep ++ join sep xs.
Proof. destruct xs; [contradiction | reflexivity]. Qed.

Lemma join_split_char_aux (sep : ascii) (s cur : string) :
  join (String sep "") (split_char_aux sep s cur) = cur ++ s.
Proof.
  revert cur. induction s as [| c s IH]; intros cur; cbn [split_char_aux].
  - cbn. rewrite append_nil_r. reflexivity.
  - destruct (Ascii.eqb_spec c sep) as [-> | Hne].
    + rewrite join_cons by apply split_char_aux_nonempty.
      rewrite IH. reflexivity.
    + rewrite IH, append_assoc. reflexivity.
Qed.

Lemma join_split_char (sep : ascii) (s : string) :
  join (String sep "") (split_char sep s) = s.
Proof. unfold split_char. apply join_split_char_aux. Qed.

(** *** take_while *)

Lemma take_while_sound (p : ascii -> bool) (s a b : string) :
  take_while p s = (a, b) ->
  s = a ++ b /\ forallb_string p a = true /\ head_is p b = false.
Proof.
  revert a b. induction s as [| c s IH]; intros a b; cbn.
  - intros H. injection H as <- <-. auto.
  - destruct (p c) eqn:Ec.
    + destruct (take_while p s) as [a' b'] eqn:E. intros H. injection H as <- <-.
      destruct (IH a' b' eq_refl) as (-> & Ha & Hb).
      cbn. rewrite Ec, Ha. auto.
    + intros H. injection H as <- <-. cbn. auto.
Qed.

Lemma take_while_complete (p : ascii -> bool) (a b : string) :
  forallb_string p a = true -> head_is p b = false ->
  take_while p (a ++ b) = (a, b).
Proof.
  intros Ha Hb. induction a as [| c a IH]; cbn.
  - destruct b as [| c b]; [reflexivity |]. cbn in Hb |- *. rewrite Hb. reflexivity.
  - cbn in Ha. apply andb_prop in Ha as [Hc Ha]. rewrite Hc, (IH Ha). reflexivity.
Qed.

(** *** The matchers, sound and complete *)

Lemma match_nid_sound (s a rest : string) :
  match_nid s = Some (a, rest) -> s = a ++ rest /\ nid_ok a = true.
Proof.
  destruct s as [| c s]; cbn; [discriminate |].
  destruct (Ascii.eqb_spec c "0") as [-> | Hne].
  - intros H. injection H as <- <-. auto.
  - destruct (is_digit c) eqn:Ec; [| discriminate].
    destruct (take_while is_digit s) as [ds r] eqn:E.
    intros H. injection H as <- <-.
    destruct (take_while_sound _ _ _ _ E) as (-> & Hds & _).
    split; [reflexivity |]. cbn. rewrite Ec, Hds.
    destruct (Ascii.eqb_spec c "0"); [contradiction |]. reflexivity.
Qed.

Lemma match_nid_complete (a rest : string) :
  nid_ok a = true -> head_is is_digit rest = false ->
  match_nid (a ++ rest) = Some (a, rest).
Proof.
  destruct a as [| c ds]; cbn; [discriminate |].
  intros Ha Hrest. destruct (Ascii.eqb_spec c "0") as [-> | Hne].
  - cbn in Ha. rewrite orb_false_r in Ha.
    apply is_empty_true in Ha. subst ds. reflexivity.
  - cbn in Ha. apply andb_prop in Ha as [Hc Hds]. rewrite andb_true_r in Hc.
    rewrite Hc, (take_while_complete _ _ _ Hds Hrest). reflexivity.
Qed.

Lemma match_dotted_sound (lead : ascii) (valid : string -> bool) (s run rest : string) :
  match_dotted lead valid s = Some (run, rest) ->
  s = String lead (run ++ rest) /\ dotted_ok valid run = true
  /\ head_is is_idchar_or_dot rest = false.
Proof.
  destruct s as [| c s]; cbn; [discriminate |].
  destruct (Ascii.eqb_spec c lead) as [-> | Hne]; [| discriminate].
  destruct (take_while is_idchar_or_dot s) as [r0 r1] eqn:E.
  destruct (forallb valid (split_char "." r0)) eqn:Ev; [| discriminate].
  intros H. injection H as <- <-.
  destruct (take_while_sound _ _ _ _ E) as (-> & Hrun & Hrest).
  unfold dotted_ok. rewrite Hrun, Ev. auto.
Qed.

Lemma match_dotted_complete (lead : ascii) (valid : string -> bool) (run rest : string) :
  dotted_ok valid run = true -> head_is is_idchar_or_dot rest = false ->
  match_dotted lead valid (String lead (run ++ rest)) = Some (run, rest).
Proof.
  unfold dotted_ok. intros H Hrest. apply andb_prop in H as [Hrun Hv].
  cbn. rewrite Ascii.eqb_refl, (take_while_complete _ _ _ Hrun Hrest), Hv.
  reflexivity.
Qed.

Lemma match_dotted_wrong_lead (lead : ascii) (valid : string -> bool) (s : string) :
  head_is (Ascii.eqb lead) s = false -> match_dotted lead valid s = None.
Proof.
  destruct s as [| c s]; cbn; [reflexivity |].
  rewrite Ascii.eqb_sym. intros ->. reflexivity.
Qed.

Lemma expect_sound (c : ascii) (s rest : string) :
  expect c s = Some rest -> s = String c rest.
Proof.
  destruct s as [| c' s]; cbn; [discriminate |].
  destruct (Ascii.eqb_spec c' c) as [-> | _]; [| discriminate].
  intros H. injection H as <-. reflexivity.
Qed.

(** ** FULLPLAIN, sound and complete *)

Lemma nid_ok_head_digit (a rest : string) :
  nid_ok a = true -> head_is is_digit (a ++ rest) = true.
Proof.
  destruct a as [| c ds]; cbn; [discriminate |]. intros H.
  apply orb_prop in H as [H | H].
  - apply andb_prop in H as [H _]. apply Ascii.eqb_eq in H. subst c. reflexivity.
  - apply andb_prop in H as [H _]. apply andb_prop in H as [H _]. exact H.
Qed.

Lemma nid_ok_digits (a : string) :
  nid_ok a = true -> forallb_string is_digit a = true.
Proof.
  destruct a as [| c ds]; cbn; [discriminate |]. intros H.
  apply orb_prop in H as [H | H].
  - apply andb_prop in H as [H1 H2]. apply Ascii.eqb_eq in H1.
    apply is_empty_true in H2. subst. reflexivity.
  - apply andb_prop in H as [H H2]. apply andb_prop in H as [H1 _].
    rewrite H1, H2. reflexivity.
Qed.

Lemma digit_not_v (c : ascii) : is_digit c = true -> Ascii.eqb c "v" = false.
Proof. ascii_cases c. Qed.

Ltac norm_append :=
  repeat (progress (rewrite ?append_assoc; cbn [append])).

Lemma match_FULLPLAIN_sound (s rest : string) (g : full_groups) :
  match_FULLPLAIN s = Some (g, rest) ->
  exists v : bool, s = full_text v g ++ rest /\ groups_ok g = true.
Proof.
  unfold match_FULLPLAIN.
  set (s0 := match s with
             | String c s' => if Ascii.eqb c "v" then s' else s
             | EmptyString => s
             end).
  assert (Hs : exists v : bool, s = (if v then "v" else "") ++ s0).
  { subst s0. destruct s as [| c s']; [exists false; reflexivity |].
    destruct (Ascii.eqb_spec c "v") as [-> | _];
      [exists true | exists false]; reflexivity. }
  destruct Hs as [v Hs].
  destruct (match_nid s0) as [[M s1] |] eqn:E1; [| discriminate].
  destruct (expect "." s1) as [s2 |] eqn:E2; [| discriminate].
  destruct (match_nid s2) as [[m s3] |] eqn:E3; [| discriminate].
  destruct (expect "." s3) as [s4 |] eqn:E4; [| discriminate].
  destruct (match_nid s4) as [[p s5] |] eqn:E5; [| discriminate].
  unfold optional.
  destruct (match_nid_sound _ _ _ E1) as [H1 OK1].
  destruct (match_nid_sound _ _ _ E3) as [H3 OK3].
  destruct (match_nid_sound _ _ _ E5) as [H5 OK5].
  apply expect_sound in E2, E4.
  destruct (match_prerelease s5) as [[pr s6] |] eqn:E6.
  - destruct (match_dotted_sound _ _ _ _ _ E6) as (H6 & OK6 & _).
    destruct (match_build s6) as [[b s7] |] eqn:E7; intros H; injection H as <- <-.
    + destruct (match_dotted_sound _ _ _ _ _ E7) as (H7 & OK7 & _).
      exists v. split.
      * rewrite Hs. clearbody s0. subst. unfold full_text.
        cbn [g_major g_minor g_patch g_prerelease g_build attach].
        norm_append. reflexivity.
      * unfold groups_ok. cbn. rewrite OK1, OK3, OK5, OK6, OK7. reflexivity.
    + exists v. split.
      * rewrite Hs. clearbody s0. subst. unfold full_text.
        cbn [g_major g_minor g_patch g_prerelease g_build attach].
        norm_append. reflexivity.
      * unfold groups_ok. cbn. rewrite OK1, OK3, OK5, OK6. reflexivity.
  - destruct (match_build s5) as [[b s7] |] eqn:E7; intros H; injection H as <- <-.
    + destruct (match_dotted_sound _ _ _ _ _ E7) as (H7 & OK7 & _).
      exists v. split.
      * rewrite Hs. clearbody s0. subst. unfold full_text.
        cbn [g_major g_minor g_patch g_prerelease g_build attach].
        norm_append. reflexivity.
      * unfold groups_ok. cbn. rewrite OK1, OK3, OK5, OK7. reflexivity.
    + exists v. split.
      * rewrite Hs. clearbody s0. subst. unfold full_text.
        cbn [g_major g_minor g_patch g_prerelease g_build attach].
        norm_append. reflexivity.
      * unfold groups_ok. cbn. rewrite OK1, OK3, OK5. reflexivity.
Qed.

Lemma head_attach_digit (lead : ascii) (o : option string) (rest : string) :
  is_digit lead = false -> head_is is_digit rest = false ->
  head_is is_digit (attach lead o ++ rest) = false.
Proof. destruct o; cbn; auto. Qed.

Lemma match_FULLPLAIN_complete (v : bool) (g : full_groups) :
  groups_ok g = true -> match_FULLPLAIN (full_text v g) = Some (g, "").
Proof.
  unfold groups_ok. intros H.
  apply andb_prop in H as [H OKb]. apply andb_prop in H as [H OKpr].
  apply andb_prop in H as [H OK3]. apply andb_prop in H as [OK1 OK2].
  destruct g as [M m p pr b]. cbn in OK1, OK2, OK3, OKpr, OKb.
  unfold match_FULLPLAIN, full_text. cbn [g_major g_minor g_patch g_prerelease g_build].
  set (tail := M ++ "." ++ m ++ "." ++ p ++ attach "-" pr ++ attach "+" b).
  assert (E0 : match (if v then "v" else "") ++ tail with
               | String c s' => if Ascii.eqb c "v" then s'
                                else (if v then "v" else "") ++ tail
               | EmptyString => (if v then "v" else "") ++ tail
               end = tail).
  { destruct v; [reflexivity |]. cbn.
    pose proof (nid_ok_head_digit M ("." ++ m ++ "." ++ p ++ attach "-" pr ++ attach "+" b) OK1) as Hd.
    fold tail in Hd. destruct tail as [| c t]; [reflexivity |].
    cbn in Hd. rewrite (digit_not_v c Hd). reflexivity. }
  rewrite E0. subst tail.
  rewrite (match_nid_complete M _ OK1) by reflexivity. cbn [expect append].
  rewrite Ascii.eqb_refl.
  rewrite (match_nid_complete m _ OK2) by reflexivity. cbn [expect append].
  rewrite Ascii.eqb_refl.
  rewrite (match_nid_complete p _ OK3)
    by (destruct pr, b; reflexivity).
  unfold optional, match_prerelease, match_build.
  destruct pr as [pr |]; cbn [attach append].
  - rewrite (match_dotted_complete "-" valid_pid pr _ OKpr)
      by (destruct b; reflexivity).
    destruct b as [b |]; cbn [attach].
    + rewrite <- (append_nil_r b) at 1.
      rewrite (match_dotted_complete "+" valid_bid b "" OKb) by reflexivity.
      reflexivity.
    + reflexivity.
  - destruct b as [b |]; cbn [attach].
    + rewrite (match_dotted_wrong_lead "-") by reflexivity.
      rewrite <- (append_nil_r b) at 1.
      rewrite (match_dotted_complete "+" valid_bid b "" OKb) by reflexivity.
      reflexivity.
    + reflexivity.
Qed.

Lemma match_FULL_sound (s : string) (g : full_groups) :
  match_FULL s = Some g ->
  exists v : bool, s = full_text v g /\ groups_ok g = true.
Proof.
  unfold match_FULL.
  destruct (match_FULLPLAIN s) as [[g' rest] |] eqn:E; [| discriminate].
  destruct rest; [| discriminate]. intros H. injection H as <-.
  destruct (match_FULLPLAIN_sound _ _ _ E) as (v & Hs & Hok).
  exists v. rewrite append_nil_r in Hs. auto.
Qed.

Lemma match_FULL_complete (v : bool) (g : full_groups) :
  groups_ok g = true -> match_FULL (full_text v g) = Some g.
Proof.
  intros H. unfold match_FULL. rewrite (match_FULLPLAIN_complete v g H). reflexivity.
Qed.

(** ** The canonical string reads back as the same version *)

Lemma round53_large (n : N) : 2 ^ 53 < n -> 2 ^ 53 <= round53 n.
Proof.
  intros H. unfold round53.
  destruct (N.leb_spec n (2 ^ 53)) as [Hle | _]; [lia |].
  set (e := N.log2 n - 52).
  assert (Hpos : 0 < n) by lia.
  assert (Hlog : 53 <= N.log2 n).
  { apply N.log2_le_pow2; [exact Hpos | lia]. }
  assert (He : 1 <= e) by (unfold e; lia).
  assert (Hq : 2 ^ 52 <= n / 2 ^ e).
  { apply N.div_le_lower_bound; [apply N.pow_nonzero; lia |].
    rewrite <- N.pow_add_r. replace (e + 52) with (N.log2 n) by (unfold e; lia).
    apply N.log2_spec. exact Hpos. }
  assert (H2e : 2 ^ 1 <= 2 ^ e) by (apply N.pow_le_mono_r; lia).
  change (2 ^ 1) with 2 in H2e.
  set (q := n / 2 ^ e) in *.
  assert (Hq' : 2 ^ 52 <= (if n mod 2 ^ e <? 2 ^ (e - 1) then q
                           else if 2 ^ (e - 1) <? n mod 2 ^ e then q + 1
                           else if N.even q then q else q + 1)).
  { destruct (n mod 2 ^ e <? 2 ^ (e - 1)); [exact Hq |].
    destruct (2 ^ (e - 1) <? n mod 2 ^ e); [lia |].
    destruct (N.even q); lia. }
  change (2 ^ 53) with (2 ^ 52 * 2).
  apply N.mul_le_mono; assumption.
Qed.

Lemma round53_exact_below (n : N) : round53 n < 2 ^ 53 -> round53 n = n.
Proof.
  intros H. destruct (N.le_gt_cases n (2 ^ 53)) as [Hle | Hgt].
  - apply round53_small. exact Hle.
  - pose proof (round53_large n Hgt). lia.
Qed.

Lemma ToNumber_exact (s : string) (n : N) :
  ToNumber s = Int n -> n < 2 ^ 53 -> digits_value s = n.
Proof.
  unfold ToNumber, double_of_N.
  destruct (round53 (digits_value s) <? 2 ^ 1024); [| discriminate].
  intros H Hn. injection H as H. rewrite <- H in Hn.
  rewrite <- (round53_exact_below _ Hn). exact H.
Qed.

Lemma uint_of_string_digits (s : string) :
  forallb_string is_digit s = true ->
  exists d : Decimal.uint, NilEmpty.uint_of_string s = Some d.
Proof.
  induction s as [| c s IH]; cbn [forallb_string NilEmpty.uint_of_string].
  - exists Decimal.Nil. reflexivity.
  - intros H. apply andb_prop in H as [Hc Hs]. destruct (IH Hs) as [d Hd].
    rewrite Hd. revert Hc. ascii_cases c; intros _; eexists; reflexivity.
Qed.

Lemma decimal_of_nid (a : string) : nid_ok a = true -> decimal (digits_value a) = a.
Proof.
  intros Hok. pose proof (nid_ok_digits a Hok) as Hd.
  destruct (uint_of_string_digits a Hd) as [d Ed].
  pose proof (NilEmpty.sus a d Ed) as Hs.
  unfold digits_value, decimal. rewrite Ed, DecimalN.Unsigned.to_of.
  assert (Hn : Decimal.unorm d = d /\ d <> Decimal.Nil).
  { destruct a as [| c ds]; [discriminate |]. cbn in Hok.
    apply orb_prop in Hok as [H | H].
    - apply andb_prop in H as [H1 H2]. apply Ascii.eqb_eq in H1.
      apply is_empty_true in H2. subst c ds. cbn in Ed. injection Ed as <-.
      split; [reflexivity | discriminate].
    - apply andb_prop in H as [H _]. apply andb_prop in H as [H1 H2].
      cbn [NilEmpty.uint_of_string] in Ed.
      destruct (NilEmpty.uint_of_string ds) as [d' |]; [| discriminate].
      revert H1 H2 Ed. ascii_cases c; intros _ _ Ed; cbn in Ed;
        injection Ed as <-; split; (reflexivity || discriminate). }
  destruct Hn as [Hn1 Hn2]. rewrite Hn1.
  unfold NilZero.string_of_uint. destruct d; [contradiction | ..]; exact Hs.
Qed.

Lemma MAX_SAFE_below_pow53 : MAX_SAFE_INTEGER < 2 ^ 53.
Proof. reflexivity. Qed.

Lemma main_field_text (g : string) (n : N) :
  nid_ok g = true -> main_field g = Ok n -> NumberToString (Int n) = g.
Proof.
  intros Hok H. pose proof (main_field_bound g n H) as Hb.
  unfold main_field in H. destruct (ToNumber g) as [m |] eqn:E; [| discriminate].
  destruct (MAX_SAFE_INTEGER <? m); [discriminate |]. injection H as ->.
  pose proof MAX_SAFE_below_pow53 as Hm.
  rewrite NumberToString_small by lia.
  rewrite <- (ToNumber_exact g n E) by lia.
  apply decimal_of_nid. exact Hok.
Qed.

Lemma valid_pid_numeric_nid (id : string) :
  valid_pid id = true -> numeric_test id = true -> nid_ok id = true.
Proof.
  unfold valid_pid, numeric_test. destruct id as [| c s]; [discriminate |].
  cbn [is_empty negb andb nid_ok]. intros Hv Hn.
  apply andb_prop in Hv as [_ Hv]. rewrite Hn in Hv. cbn [negb orb] in Hv.
  cbn [forallb_string] in Hn. apply andb_prop in Hn as [Hc Hs].
  rewrite Hc, Hs. destruct (Ascii.eqb c "0"); cbn in Hv |- *; [| reflexivity].
  rewrite Hv. reflexivity.
Qed.

Lemma numberify_text (id : string) :
  valid_pid id = true -> ident_to_string (numberify id) = id.
Proof.
  intros Hv. unfold numberify.
  destruct (numeric_test id) eqn:En; [| reflexivity].
  destruct (ToNumber id) as [num |] eqn:E; [| reflexivity].
  destruct (N.ltb_spec num MAX_SAFE_INTEGER) as [Hlt | _]; [| reflexivity].
  pose proof MAX_SAFE_below_pow53 as Hm. cbn [ident_to_string].
  rewrite NumberToString_small by lia.
  rewrite <- (ToNumber_exact id num E) by lia.
  apply decimal_of_nid. apply valid_pid_numeric_nid; assumption.
Qed.

Lemma map_numberify_text (ids : list string) :
  forallb valid_pid ids = true ->
  map ident_to_string (map numberify ids) = ids.
Proof.
  induction ids as [| id ids IH]; cbn; [reflexivity |].
  intros H. apply andb_prop in H as [H1 H2].
  rewrite (numberify_text id H1), (IH H2). reflexivity.
Qed.

Lemma groups_ok_without_build (g : full_groups) :
  groups_ok g = true -> groups_ok (without_build g) = true.
Proof.
  unfold groups_ok. cbn. intros H. apply andb_prop in H as [H _].
  rewrite H. reflexivity.
Qed.

Lemma split_char_nonempty (sep : ascii) (s : string) : split_char sep s <> [].
Proof. apply split_char_aux_nonempty. Qed.

Lemma version_text (g : full_groups) (M m p : N) :
  groups_ok g = true ->
  main_field (g_major g) = Ok M -> main_field (g_minor g) = Ok m ->
  main_field (g_patch g) = Ok p ->
  format_version M m p
    (match g_prerelease g with
     | None => []
     | Some m4 => map numberify (split_char "." m4)
     end)
  = full_text false (without_build g).
Proof.
  unfold groups_ok. intros H HM Hm Hp.
  apply andb_prop in H as [H _]. apply andb_prop in H as [H OKpr].
  apply andb_prop in H as [H OK3]. apply andb_prop in H as [OK1 OK2].
  unfold format_version, full_text.
  cbn [without_build g_major g_minor g_patch g_prerelease g_build attach].
  rewrite (main_field_text _ _ OK1 HM), (main_field_text _ _ OK2 Hm),
    (main_field_text _ _ OK3 Hp).
  destruct (g_prerelease g) as [m4 |]; cbn [attach].
  - unfold dotted_ok in OKpr. apply andb_prop in OKpr as [_ Hv].
    destruct (map numberify (split_char "." m4)) as [| x l] eqn:E.
    + apply map_eq_nil in E. destruct (split_char_nonempty "." m4 E).
    + rewrite <- E, (map_numberify_text _ Hv), join_split_char.
      norm_append. rewrite !append_nil_r. norm_append. reflexivity.
  - norm_append. rewrite !append_nil_r. reflexivity.
Qed.

Lemma length_full_text_without_build (v : bool) (g : full_groups) :
  (String.length (full_text false (without_build g))
   <= String.length (full_text v g))%nat.
Proof.
  unfold full_text.
  cbn [without_build g_major g_minor g_patch g_prerelease g_build attach].
  rewrite !length_append. cbn [String.length]. lia.
Qed.

Lemma dotted_ok_no_space (valid : string -> bool) (run : string) :
  dotted_ok valid run = true ->
  forallb_string (fun c => negb (is_space c)) run = true.
Proof.
  unfold dotted_ok. intros H. apply andb_prop in H as [H _].
  revert H. apply forallb_string_impl. intros c Hc.
  rewrite (idchar_or_dot_not_space c Hc). reflexivity.
Qed.

Lemma nid_ok_no_space (a : string) :
  nid_ok a = true -> forallb_string (fun c => negb (is_space c)) a = true.
Proof.
  intros H. apply nid_ok_digits in H. revert H.
  apply forallb_string_impl. intros c Hc.
  rewrite (digit_not_space c Hc). reflexivity.
Qed.

Lemma full_text_no_space (g : full_groups) :
  groups_ok g = true ->
  forallb_string (fun c => negb (is_space c)) (full_text false g) = true.
Proof.
  unfold groups_ok. intros H.
  apply andb_prop in H as [H OKb]. apply andb_prop in H as [H OKpr].
  apply andb_prop in H as [H OK3]. apply andb_prop in H as [OK1 OK2].
  unfold full_text.
  repeat (progress (rewrite ?forallb_string_app; cbn [append forallb_string])).
  rewrite (nid_ok_no_space _ OK1), (nid_ok_no_space _ OK2), (nid_ok_no_space _ OK3).
  destruct (g_prerelease g) as [pr |], (g_build g) as [b |];
    cbn [attach forallb_string];
    rewrite ?(dotted_ok_no_space _ _ OKpr), ?(dotted_ok_no_space _ _ OKb);
    reflexivity.
Qed.

(** Every method that receives an object and calls [new SemVer] on it
    reads [version] back.  For an object the constructor built this gives
    the same version, without the build metadata. *)
Lemma new_SemVer_roundtrip (x : jsvalue) (o o' : option Options) (v : SemVer) :
  new_SemVer x o = Ok v ->
  new_SemVer (VSemVer v) o' = Ok (canonical v (object_or_default o')).
Proof.
  intros H. apply new_SemVer_inv in H
    as (text & m & _ & Hlen & Hm & HM & Hmi & Hp & Hpre & _ & _ & _ & Hver).
  destruct (match_FULL_sound _ _ Hm) as (vf & Htext & Hok).
  rewrite Hpre in Hver.
  rewrite (version_text m _ _ _ Hok HM Hmi Hp) in Hver.
  unfold new_SemVer.
  assert (Hshort : Nat.ltb MAX_LENGTH (String.length (version v)) = false).
  { apply Nat.ltb_ge. rewrite Hver.
    pose proof (length_full_text_without_build vf m) as L1.
    pose proof (length_trim text) as L2. rewrite Htext in L2. lia. }
  rewrite Hshort.
  pose proof (groups_ok_without_build m Hok) as Hok'.
  rewrite Hver at 1.
  rewrite (trim_no_space _ (full_text_no_space _ Hok')).
  rewrite (match_FULL_complete false _ Hok').
  cbn [without_build g_major g_minor g_patch g_prerelease g_build].
  rewrite HM, Hmi, Hp. cbn [bind].
  unfold canonical. f_equal.
  rewrite <- Hpre.
  rewrite Hver. rewrite <- (version_text m _ _ _ Hok HM Hmi Hp), <- Hpre.
  reflexivity.
Qed.

(** ** Ranges the constructor built *)

Lemma constructed_numbers_ok (v : SemVer) : constructed v -> numbers_ok v = true.
Proof. intros (x & o & H). exact (new_SemVer_numbers_ok x o v H). Qed.

Lemma constructed_with_options (v : SemVer) (o : Options) :
  constructed v -> constructed (with_options v o).
Proof.
  intros (x & o0 & H). exists x, (Some o).
  exact (new_SemVer_options x o0 (Some o) v H).
Qed.

Lemma constructed_canonical (v : SemVer) (o : Options) :
  constructed v -> constructed (canonical v o).
Proof.
  intros (x & o0 & H). exists (VSemVer v), (Some o).
  exact (new_SemVer_roundtrip x o0 (Some o) v H).
Qed.

Lemma mapM_inv {A B : Type} (f : A -> result B) (xs : list A) (ys : list B) :
  mapM f xs = Ok ys -> forall y, In y ys -> exists x, In x xs /\ f x = Ok y.
Proof.
  revert ys. induction xs as [| x xs IH]; intros ys; cbn.
  - intros H. injection H as <-. intros y [].
  - destruct (f x) as [y0 |] eqn:E; [| discriminate]. cbn.
    destruct (mapM f xs) as [ys0 |]; [| discriminate]. cbn.
    intros H. injection H as <-. intros y [<- | Hy].
    + exists x. auto.
    + destruct (IH ys0 eq_refl y Hy) as (x' & Hx' & Hf). exists x'. auto.
Qed.

Lemma match_GTLT_operator (s : string) :
  let op := fst (match_GTLT s) in
  op = "" \/ op = "<" \/ op = ">" \/ op = "=" \/ op = "<=" \/ op = ">=".
Proof.
  destruct s as [| c s]; cbn; [auto |].
  destruct (Ascii.eqb_spec c "<") as [-> | N1].
  { cbn. destruct s as [| c' s']; cbn; [auto |].
    destruct (Ascii.eqb c' "="); cbn; auto 10. }
  destruct (Ascii.eqb_spec c ">") as [-> | N2].
  { cbn. destruct s as [| c' s']; cbn; [auto |].
    destruct (Ascii.eqb c' "="); cbn; auto 10. }
  cbn. destruct (Ascii.eqb c "="); cbn; auto.
Qed.

Lemma new_Comparator_ok (comp : string) (o : option Options) (c : Comparator) :
  new_Comparator comp o = Ok c -> comparator_ok c.
Proof.
  unfold new_Comparator, match_COMPARATOR.
  pose proof (match_GTLT_operator comp) as Hop.
  destruct (match_GTLT comp) as [op s1]. cbn in Hop.
  assert (Hnorm : operator_ok (if String.eqb op "=" then "" else op) = true).
  { destruct Hop as [-> | [-> | [-> | [-> | [-> | ->]]]]]; reflexivity. }
  destruct (match_FULLPLAIN (trim_start s1)) as [[g rest] |].
  - destruct rest.
    + destruct (is_empty (trim_start s1)).
      * intros H. injection H as <-. split; [exact Hnorm | exact I].
      * destruct (new_SemVer (VStr (trim_start s1)) (Some (object_or_default o)))
          as [sv |] eqn:E; [| discriminate].
        cbn. intros H. injection H as <-. split; [exact Hnorm |].
        cbn. exists (VStr (trim_start s1)), (Some (object_or_default o)). exact E.
    + destruct (is_empty comp); [| discriminate].
      intros H. injection H as <-. split; [reflexivity | exact I].
  - destruct (is_empty comp); [| discriminate].
    intros H. injection H as <-. split; [reflexivity | exact I].
Qed.

Lemma new_Range_of_string_inv (s : string) (o : Options) (r : Range) :
  new_Range_of_string s o = Ok r -> range_ok r /\ range_options r = o.
Proof.
  unfold new_Range_of_string.
  destruct (mapM (fun r0 => parseRange o (trim r0)) (split_or s)) as [sets |] eqn:E;
    [| discriminate].
  cbn. destruct (is_nil (filter (fun c => negb (is_nil c)) sets)); [discriminate |].
  intros H. injection H as <-. split; [| reflexivity].
  split; [reflexivity |].
  intros g Hg c Hc. cbn in Hg. apply filter_In in Hg as [Hg _].
  destruct (mapM_inv _ _ _ E g Hg) as (piece & _ & Hp).
  unfold parseRange in Hp.
  destruct (mapM_inv _ _ _ Hp c Hc) as (comp & _ & Hcomp).
  exact (new_Comparator_ok _ _ _ Hcomp).
Qed.

Lemma new_Range_inv (r : range_arg) (o : option Options) (rangeObj : Range) :
  range_arg_ok r -> new_Range r o = Ok rangeObj ->
  range_ok rangeObj
  /\ includePrerelease (range_options rangeObj)
     = includePrerelease (object_or_default o).
Proof.
  intros Hr. unfold new_Range.
  destruct r as [s | r0 | c | |]; try discriminate.
  - intros H. apply new_Range_of_string_inv in H as [H1 H2]. rewrite H2. auto.
  - destruct (Bool.eqb (range_includePrerelease r0)
                (includePrerelease (object_or_default o))) eqn:E.
    + intros H. injection H as <-. split; [exact Hr |].
      apply Bool.eqb_prop in E. rewrite <- E. destruct Hr as [Hr _].
      symmetry. exact Hr.
    + intros H. apply new_Range_of_string_inv in H as [H1 H2]. rewrite H2. auto.
  - intros H. apply new_Range_of_string_inv in H as [H1 H2]. rewrite H2. auto.
Qed.

(** ** Testing a constructed version *)

Lemma compare_objects_canonical (a b : SemVer) (o o' : Options) :
  compare_objects (canonical a o) (canonical b o') = compare_objects a b.
Proof. reflexivity. Qed.

Lemma compare_of_objects (a b : SemVer) (o : option Options) :
  constructed a -> constructed b ->
  compare (VSemVer a) (VSemVer b) o = Ok (compare_objects a b).
Proof.
  intros (xa & oa & Ha) (xb & ob & Hb).
  rewrite (compare_constructed _ _ o _ _
             (new_SemVer_roundtrip xa oa o a Ha) (new_SemVer_roundtrip xb ob o b Hb)).
  reflexivity.
Qed.

Lemma cmp_of_objects (a b : SemVer) (op : string) (o : option Options) :
  operator_ok op = true -> constructed a -> constructed b ->
  cmp (VSemVer a) op (VSemVer b) o = Ok (operator_holds op (compare_objects a b)).
Proof.
  intros Hop Ha Hb. pose proof (compare_of_objects a b o Ha Hb) as Hc.
  unfold operator_ok in Hop.
  repeat (apply orb_prop in Hop as [Hop | Hop]);
    apply String.eqb_eq in Hop; subst op;
    unfold cmp, eq, gt, gte, lt, lte; cbn [String.eqb Ascii.eqb Bool.eqb orb];
    rewrite Hc; reflexivity.
Qed.

Lemma Comparator_test_constructed (c : Comparator) (v : SemVer) :
  comparator_ok c -> constructed v ->
  Comparator_test c (VSemVer v) = Ok (comparator_accepts c v).
Proof.
  intros [Hop Hsv] Hv. unfold Comparator_test, comparator_accepts.
  destruct (semver c) as [sv |]; [| reflexivity]. cbn [bind].
  apply cmp_of_objects; assumption.
Qed.

Lemma all_test_constructed (set : list Comparator) (v : SemVer) :
  (forall c, In c set -> comparator_ok c) -> constructed v ->
  all_test set (VSemVer v) = Ok (forallb (fun c => comparator_accepts c v) set).
Proof.
  intros Hset Hv. induction set as [| c set IH]; cbn [all_test forallb]; [reflexivity |].
  rewrite (Comparator_test_constructed c v (Hset c (or_introl eq_refl)) Hv).
  cbn [bind]. destruct (comparator_accepts c v); cbn [andb]; [| reflexivity].
  apply IH. intros c' Hc'. apply Hset. right. exact Hc'.
Qed.

Lemma prerelease_allowed_anchors (set : list Comparator) (v : SemVer) :
  prerelease_allowed set v = existsb (fun c => anchors c v) set.
Proof.
  induction set as [| c set IH]; cbn [prerelease_allowed existsb]; [reflexivity |].
  unfold anchors at 1, has_prerelease, same_main.
  destruct (semver c) as [sv |]; cbn [orb]; [| exact IH].
  rewrite <- !andb_assoc.
  destruct (negb (is_nil (prerelease sv)) && ((major sv =? major v)
            && ((minor sv =? minor v) && (patch sv =? patch v)))); cbn [orb];
    [reflexivity | exact IH].
Qed.

Lemma testSet_constructed (set : list Comparator) (v : SemVer) (o : Options) :
  (forall c, In c set -> comparator_ok c) -> constructed v ->
  testSet set (VSemVer v) o = Ok (set_accepts (includePrerelease o) set v).
Proof.
  intros Hset Hv. unfold testSet, set_accepts.
  rewrite (all_test_constructed set v Hset Hv). cbn [bind prerelease_of].
  destruct (forallb (fun c => comparator_accepts c v) set); cbn [negb andb];
    [| reflexivity].
  rewrite prerelease_allowed_anchors. unfold has_prerelease.
  destruct (is_nil (prerelease v)), (includePrerelease o); reflexivity.
Qed.

Lemma some_testSet_constructed (sets : list (list Comparator)) (v : SemVer) (o : Options) :
  (forall g, In g sets -> forall c, In c g -> comparator_ok c) -> constructed v ->
  some_testSet sets (VSemVer v) o
  = Ok (existsb (fun g => set_accepts (includePrerelease o) g v) sets).
Proof.
  intros Hsets Hv.
  induction sets as [| g sets IH]; cbn [some_testSet existsb]; [reflexivity |].
  rewrite (testSet_constructed g v o (Hsets g (or_introl eq_refl)) Hv). cbn [bind].
  destruct (set_accepts (includePrerelease o) g v); cbn [orb]; [reflexivity |].
  apply IH. intros g' Hg'. apply Hsets. right. exact Hg'.
Qed.

Lemma Range_test_constructed (r : Range) (v : SemVer) :
  range_ok r -> constructed v ->
  Range_test r (VSemVer v) = Ok (range_accepts r v).
Proof.
  intros [_ Hr] Hv. unfold Range_test, range_accepts. cbn [bind].
  apply some_testSet_constructed; assumption.
Qed.

Lemma range_accepts_with_options (r : Range) (v : SemVer) (o : Options) :
  range_accepts r (with_options v o) = range_accepts r v.
Proof. reflexivity. Qed.

(** [Range.test] on a valid argument is total, and decided by the version
    the argument stands for. *)
Lemma Range_test_denotes (r : Range) (x : jsvalue) (v : SemVer) :
  range_ok r -> denotes x v -> Range_test r x = Ok (range_accepts r v).
Proof.
  intros Hr Hx. destruct x as [s | v0 | |]; cbn [denotes] in Hx; try contradiction.
  - unfold Range_test.
    rewrite (new_SemVer_options _ None (Some (range_options r)) v Hx). cbn [bind].
    destruct Hr as [_ Hr].
    rewrite some_testSet_constructed;
      [reflexivity | exact Hr |].
    apply constructed_with_options. exists (VStr s), None. exact Hx.
  - destruct Hx as [-> Hv]. apply Range_test_constructed; assumption.
Qed.

Lemma denotes_constructed (x : jsvalue) (v : SemVer) : denotes x v -> constructed v.
Proof.
  destruct x as [s | v0 | |]; cbn [denotes]; try contradiction.
  - intros H. exists (VStr s), None. exact H.
  - intros [_ H]. exact H.
Qed.

(** ** Prerelease visibility (C3) *)

Lemma satisfies_built (x : jsvalue) (rg : range_arg) (o : option Options) (r : Range) :
  new_Range rg o = Ok r -> satisfies x rg o = Range_test r x.
Proof. intros H. unfold satisfies. rewrite H. reflexivity. Qed.

Lemma anchors_inv (c : Comparator) (v : SemVer) :
  anchors c v = true <->
  exists sv, semver c = Some sv /\ has_prerelease sv = true /\ same_main sv v = true.
Proof.
  unfold anchors. destruct (semver c) as [sv |]; split.
  - intros H. apply andb_prop in H as [H1 H2]. exists sv. auto.
  - intros (sv' & E & H1 & H2). injection E as <-. rewrite H1, H2. reflexivity.
  - discriminate.
  - intros (sv' & E & _). discriminate.
Qed.

(** C3: for a constructed range and a valid version with a prerelease,
    [Range.test] (and so [satisfies]) returns a boolean; without
    [includePrerelease] it is true exactly when some AND-group has every
    comparator testing true and holds a comparator whose version has a
    prerelease and the same major, minor and patch; with
    [includePrerelease] only the first condition remains. *)
Theorem Range_test_prerelease_visibility :
  forall (s : string) (o : option Options) (r : Range) (x : jsvalue) (v : SemVer),
    new_Range (RStr s) o = Ok r ->
    denotes x v ->
    has_prerelease v = true ->
    satisfies x (RStr s) o = Range_test r x
    /\ (exists b : bool, Range_test r x = Ok b)
    /\ (includePrerelease (object_or_default o) = false ->
        (Range_test r x = Ok true <->
         exists g, In g (set r)
           /\ (forall c, In c g -> Comparator_test c (VSemVer v) = Ok true)
           /\ (exists c sv, In c g /\ semver c = Some sv
                /\ has_prerelease sv = true /\ same_main sv v = true)))
    /\ (includePrerelease (object_or_default o) = true ->
        (Range_test r x = Ok true <->
         exists g, In g (set r)
           /\ (forall c, In c g -> Comparator_test c (VSemVer v) = Ok true)))
    /\ satisfies (VStr "1.2.3-alpha.1") (RStr "^1.2.3-alpha") None = Ok true
    /\ satisfies (VStr "1.2.3-alpha.1") (RStr "^1.2.0") None = Ok false.
Proof.
  intros s o r x v Hr Hx Hpre.
  destruct (new_Range_inv (RStr s) o r I Hr) as [Hok Hincl].
  pose proof (denotes_constructed x v Hx) as Hv.
  split; [exact (satisfies_built x (RStr s) o r Hr) |].
  rewrite (Range_test_denotes r x v Hok Hx).
  assert (Hgroup : forall g, In g (set r) ->
            (forallb (fun c => comparator_accepts c v) g = true <->
             forall c, In c g -> Comparator_test c (VSemVer v) = Ok true)).
  { intros g Hg. rewrite forallb_forall. destruct Hok as [_ Hok].
    split; intros H c Hc.
    - rewrite (Comparator_test_constructed c v (Hok g Hg c Hc) Hv), (H c Hc).
      reflexivity.
    - specialize (H c Hc).
      rewrite (Comparator_test_constructed c v (Hok g Hg c Hc) Hv) in H.
      injection H as H. exact H. }
  split; [eexists; reflexivity |].
  unfold range_accepts, set_accepts. rewrite Hincl, Hpre. cbn [negb orb].
  split; [| split; [| split]].
  - intros Hno. rewrite Hno. cbn [orb]. split.
    + intros H. injection H as H. apply existsb_exists in H as (g & Hg & H).
      apply andb_prop in H as [Hall Hanchor].
      exists g. split; [exact Hg |]. split; [apply (Hgroup g Hg); exact Hall |].
      apply existsb_exists in Hanchor as (c & Hc & Ha).
      apply anchors_inv in Ha as (sv & E & H1 & H2). exists c, sv. auto.
    + intros (g & Hg & Hall & c & sv & Hc & E & H1 & H2). f_equal.
      apply existsb_exists. exists g. split; [exact Hg |].
      apply andb_true_intro. split; [apply (Hgroup g Hg); exact Hall |].
      apply existsb_exists. exists c. split; [exact Hc |].
      apply anchors_inv. exists sv. auto.
  - intros Hyes. rewrite Hyes. cbn [orb]. split.
    + intros H. injection H as H. apply existsb_exists in H as (g & Hg & H).
      rewrite andb_true_r in H. exists g. split; [exact Hg |].
      apply (Hgroup g Hg); exact H.
    + intros (g & Hg & Hall). f_equal. apply existsb_exists.
      exists g. split; [exact Hg |]. rewrite andb_true_r.
      apply (Hgroup g Hg); exact Hall.
  - vm_compute. reflexivity.
  - vm_compute. reflexivity.
Qed.

Ltac built_range s :=
  let r := eval vm_compute in (new_Range (RStr s) None) in
  match r with
  | Ok ?r0 => r0
  end.

Lemma Range_test_prerelease_visibility_witness :
  satisfies (VStr "1.2.4-beta.2") (RStr ">=1.2.0 <1.2.4-rc || 2.x") None
  = Ok true.
Proof.
  let r := built_range ">=1.2.0 <1.2.4-rc || 2.x" in
  let v := constructed "1.2.4-beta.2" in
  pose proof (Range_test_prerelease_visibility ">=1.2.0 <1.2.4-rc || 2.x" None r
                (VStr "1.2.4-beta.2") v eq_refl eq_refl eq_refl)
    as (Hsat & _ & Hiff & _).
  rewrite Hsat. apply (Hiff eq_refl).
  eexists. split; [left; reflexivity |]. split.
  - intros c [<- | [<- | []]]; vm_compute; reflexivity.
  - eexists. eexists. split; [right; left; reflexivity |].
    split; [reflexivity |]. split; reflexivity.
Defined.

(** ** Valid version arguments *)

Lemma denotes_fun (x : jsvalue) (v v' : SemVer) :
  denotes x v -> denotes x v' -> v = v'.
Proof.
  destruct x as [s | v0 | |]; cbn [denotes]; try contradiction.
  - intros H H'. congruence.
  - intros [H _] [H' _]. congruence.
Qed.

Lemma denotes_truthy (x : jsvalue) (v : SemVer) : denotes x v -> truthy x = true.
Proof.
  destruct x as [s | v0 | |]; cbn [denotes truthy]; try contradiction; [| reflexivity].
  destruct s; [| reflexivity]. intros H. vm_compute in H. discriminate.
Qed.

Lemma fields_eq_refl (a : SemVer) : fields_eq a a.
Proof. unfold fields_eq. auto. Qed.

Lemma compare_objects_fields_eq (a a' b b' : SemVer) :
  fields_eq a a' -> fields_eq b b' ->
  compare_objects a b = compare_objects a' b'.
Proof.
  intros (A1 & A2 & A3 & A4) (B1 & B2 & B3 & B4).
  unfold compare_objects, compareMain, comparePre.
  rewrite A1, A2, A3, A4, B1, B2, B3, B4. reflexivity.
Qed.

Lemma new_SemVer_denotes (x : jsvalue) (v : SemVer) (o : option Options) :
  denotes x v ->
  exists sv, new_SemVer x o = Ok sv /\ constructed sv /\ fields_eq sv v.
Proof.
  intros Hx. destruct x as [s | v0 | |]; cbn [denotes] in Hx; try contradiction.
  - exists (with_options v (object_or_default o)).
    pose proof (new_SemVer_options _ None o v Hx) as H. split; [exact H |].
    split; [exists (VStr s), o; exact H | repeat split].
  - destruct Hx as [-> (x & o0 & Hv)].
    exists (canonical v (object_or_default o)).
    pose proof (new_SemVer_roundtrip x o0 o v Hv) as H. split; [exact H |].
    split; [exists (VSemVer v), o; exact H | repeat split].
Qed.

Lemma SemVer_compare_denotes (sv : SemVer) (x : jsvalue) (v : SemVer) :
  denotes x v -> SemVer_compare sv x = Ok (compare_objects sv v).
Proof.
  intros Hx. destruct x as [s | v0 | |]; cbn [denotes] in Hx; try contradiction.
  - unfold SemVer_compare, as_SemVer.
    rewrite (new_SemVer_options _ None (Some (options sv)) v Hx). reflexivity.
  - destruct Hx as [-> _]. reflexivity.
Qed.

(** ** The scans on valid arguments *)

Lemma forEach_app {S A : Type} (f : S -> A -> result S) (xs ys : list A) (st : S) :
  forEach f (xs ++ ys)%list st = st' <- forEach f xs st ;; forEach f ys st'.
Proof.
  revert st. induction xs as [| x xs IH]; intros st; cbn [forEach app bind];
    [reflexivity |].
  destruct (f st x) as [st1 |]; cbn [bind]; [apply IH | reflexivity].
Qed.

Lemma minSatisfying_step_invariant (r : Range) (o : option Options)
  (seen : list jsvalue) (st : scan_state) (x : jsvalue) :
  range_ok r -> valid_version x -> min_invariant r seen st ->
  exists st', minSatisfying_step r o st x = Ok st'
              /\ min_invariant r (seen ++ [x])%list st'.
Proof.
  intros Hr [v Hx] Hinv. unfold minSatisfying_step.
  destruct st as [min minSV].
  rewrite (Range_test_denotes r x v Hr Hx). cbn [bind].
  pose proof (denotes_constructed x v Hx) as Hv.
  destruct (new_SemVer_denotes x v o Hx) as (svx & Hnew & Hcx & Hfx).
  destruct (range_accepts r v) eqn:Eacc.
  - (* [x] is accepted *)
    destruct min as [m |], minSV as [sv |]; cbn [min_invariant] in Hinv;
      try contradiction.
    + destruct Hinv as (Hm & Hsv & vm & Hdm & Hfm & Haccm & Hlow).
      cbn [falsy]. rewrite (denotes_truthy m vm Hdm). cbn [negb].
      rewrite (SemVer_compare_denotes sv x v Hx). cbn [bind].
      rewrite (compare_objects_fields_eq sv vm v v Hfm (fields_eq_refl v)).
      pose proof (denotes_constructed m vm Hdm) as Hvm.
      destruct (Z.eqb_spec (compare_objects vm v) 1) as [E1 | NE1].
      * rewrite Hnew. cbn [bind]. eexists. split; [reflexivity |].
        cbn [min_invariant]. split; [apply in_or_app; right; left; reflexivity |].
        split; [exact Hcx |]. exists v. split; [exact Hx |].
        split; [exact Hfx |]. split; [exact Eacc |].
        intros x' v' Hin Hd' Hacc'. apply in_app_or in Hin as [Hin | [<- | []]].
        -- pose proof (constructed_numbers_ok v Hv) as Nv.
           pose proof (constructed_numbers_ok vm Hvm) as Nvm.
           pose proof (constructed_numbers_ok v' (denotes_constructed x' v' Hd')) as Nv'.
           assert (Hlt : compare_objects v vm = (-1)%Z)
             by (rewrite (compare_objects_antisym v vm Nv Nvm), E1; reflexivity).
           exact (compare_objects_trans v vm v' Nv Nvm Nv' Hlt (Hlow x' v' Hin Hd' Hacc')).
        -- rewrite (denotes_fun _ _ _ Hd' Hx), compare_objects_refl. lia.
      * eexists. split; [reflexivity |]. cbn [min_invariant].
        split; [apply in_or_app; left; exact Hm |]. split; [exact Hsv |].
        exists vm. repeat (split; [assumption |]).
        intros x' v' Hin Hd' Hacc'. apply in_app_or in Hin as [Hin | [<- | []]].
        -- apply (Hlow x' v'); assumption.
        -- rewrite (denotes_fun _ _ _ Hd' Hx).
           destruct (compare_objects_range vm v) as [H | [H | H]]; lia.
    + cbn [falsy]. rewrite Hnew. cbn [bind]. eexists. split; [reflexivity |].
      cbn [min_invariant]. split; [apply in_or_app; right; left; reflexivity |].
      split; [exact Hcx |]. exists v. split; [exact Hx |].
      split; [exact Hfx |]. split; [exact Eacc |].
      intros x' v' Hin Hd' Hacc'. apply in_app_or in Hin as [Hin | [<- | []]].
      * rewrite (Hinv x' v' Hin Hd') in Hacc'. discriminate.
      * rewrite (denotes_fun _ _ _ Hd' Hx), compare_objects_refl. lia.
  - (* [x] is not accepted: the state stays *)
    eexists. split; [reflexivity |].
    destruct min as [m |], minSV as [sv |]; cbn [min_invariant] in Hinv |- *;
      try contradiction.
    + destruct Hinv as (Hm & Hsv & vm & Hdm & Hfm & Haccm & Hlow).
      split; [apply in_or_app; left; exact Hm |]. split; [exact Hsv |].
      exists vm. repeat (split; [assumption |]).
      intros x' v' Hin Hd' Hacc'. apply in_app_or in Hin as [Hin | [<- | []]].
      * apply (Hlow x' v'); assumption.
      * rewrite (denotes_fun _ _ _ Hd' Hx), Eacc in Hacc'. discriminate.
    + intros x' v' Hin Hd'. apply in_app_or in Hin as [Hin | [<- | []]].
      * apply (Hinv x' v'); assumption.
      * rewrite (denotes_fun _ _ _ Hd' Hx). exact Eacc.
Qed.

Lemma minSatisfying_scan (r : Range) (o : option Options)
  (xs seen : list jsvalue) (st : scan_state) :
  range_ok r -> Forall valid_version xs -> min_invariant r seen st ->
  exists st', forEach (minSatisfying_step r o) xs st = Ok st'
              /\ min_invariant r (seen ++ xs)%list st'.
Proof.
  intros Hr. revert seen st. induction xs as [| x xs IH]; intros seen st Hxs Hinv.
  - exists st. rewrite List.app_nil_r. auto.
  - inversion Hxs as [| ? ? Hx Hrest]; subst.
    destruct (minSatisfying_step_invariant r o seen st x Hr Hx Hinv)
      as (st1 & Hstep & Hinv1).
    destruct (IH (seen ++ [x])%list st1 Hrest Hinv1) as (st' & Hscan & Hinv').
    exists st'. cbn [forEach]. rewrite Hstep. cbn [bind].
    rewrite <- List.app_assoc in Hinv'. auto.
Qed.

Lemma maxSatisfying_step_invariant (r : Range) (o : option Options)
  (st : scan_state) (x : jsvalue) :
  range_ok r -> valid_version x -> max_invariant st ->
  exists st', maxSatisfying_step r o st x = Ok st' /\ max_invariant st'.
Proof.
  intros Hr [v Hx] Hinv. unfold maxSatisfying_step.
  destruct st as [max maxSV].
  rewrite (Range_test_denotes r x v Hr Hx). cbn [bind].
  destruct (new_SemVer_denotes x v o Hx) as (svx & Hnew & Hcx & _).
  destruct (range_accepts r v); [| eauto].
  destruct (falsy max).
  - cbn [bind]. rewrite Hnew. cbn [bind]. eauto.
  - destruct maxSV as [sv |]; cbn [bind]; [| eauto].
    rewrite (SemVer_compare_denotes sv x v Hx). cbn [bind].
    destruct (compare_objects sv v =? -1)%Z; [| eauto].
    rewrite Hnew. cbn [bind]. eauto.
Qed.

Lemma maxSatisfying_scan (r : Range) (o : option Options)
  (xs : list jsvalue) (st : scan_state) :
  range_ok r -> Forall valid_version xs -> max_invariant st ->
  exists st', forEach (maxSatisfying_step r o) xs st = Ok st'.
Proof.
  intros Hr. revert st. induction xs as [| x xs IH]; intros st Hxs Hinv.
  - exists st. reflexivity.
  - inversion Hxs as [| ? ? Hx Hrest]; subst.
    destruct (maxSatisfying_step_invariant r o st x Hr Hx Hinv)
      as (st1 & Hstep & Hinv1).
    destruct (IH st1 Hrest Hinv1) as (st' & Hscan).
    exists st'. cbn [forEach]. rewrite Hstep. exact Hscan.
Qed.

(** ** The exceptions of the functions a scan calls *)

Lemma bind_throw {A B : Type} (r : result A) (k : A -> result B) (e : exn) :
  bind r k = Throw e -> r = Throw e \/ exists a, r = Ok a /\ k a = Throw e.
Proof.
  destruct r as [a |]; cbn; [eauto |].
  intros H. injection H as ->. left. reflexivity.
Qed.

Lemma main_field_throws (g : string) (e : exn) :
  main_field g = Throw e -> e = TypeError.
Proof.
  unfold main_field. destruct (ToNumber g) as [n |].
  - destruct (MAX_SAFE_INTEGER <? n); congruence.
  - congruence.
Qed.

Lemma new_SemVer_throws (x : jsvalue) (o : option Options) (e : exn) :
  new_SemVer x o = Throw e -> e = TypeError.
Proof.
  unfold new_SemVer.
  destruct (match x with
            | VStr s => Ok s
            | VSemVer v => Ok (version v)
            | _ => Throw TypeError
            end) as [text |] eqn:E.
  - destruct (Nat.ltb MAX_LENGTH (String.length text)); [congruence |].
    destruct (match_FULL (trim text)) as [m |]; [| congruence].
    intros H.
    repeat (apply bind_throw in H as [H | (? & _ & H)];
            [exact (main_field_throws _ _ H) |]).
    discriminate.
  - destruct x; try discriminate; congruence.
Qed.

Lemma compare_throws (v1 v2 : jsvalue) (o : option Options) (e : exn) :
  compare v1 v2 o = Throw e -> e = TypeError.
Proof.
  unfold compare. intros H.
  apply bind_throw in H as [H | (a & _ & H)]; [exact (new_SemVer_throws _ _ _ H) |].
  apply bind_throw in H as [H | (b & _ & H)]; [exact (new_SemVer_throws _ _ _ H) |].
  discriminate.
Qed.

Lemma SemVer_compare_throws (sv : SemVer) (x : jsvalue) (e : exn) :
  SemVer_compare sv x = Throw e -> e = TypeError.
Proof.
  unfold SemVer_compare, as_SemVer. intros H.
  apply bind_throw in H as [H | (a & _ & H)]; [| discriminate].
  destruct x; try discriminate; exact (new_SemVer_throws _ _ _ H).
Qed.

Lemma strict_equal_versions_throws (v1 v2 : jsvalue) (e : exn) :
  strict_equal_versions v1 v2 = Throw e -> e = NullDereference "v".
Proof.
  unfold strict_equal_versions.
  destruct v1, v2; cbn [bind]; intros H; congruence.
Qed.

Lemma cmp_throws (v1 v2 : jsvalue) (op : string) (o : option Options) (e : exn) :
  cmp v1 op v2 o = Throw e -> thrown_by_test e.
Proof.
  unfold cmp, thrown_by_test, eq, neq, gt, gte, lt, lte.
  repeat match goal with
    | |- context [if ?b then _ else _] => destruct b
    end;
    intros H;
    try (apply bind_throw in H as [H | (? & _ & H)]; [| discriminate]);
    try (right; left; exact (strict_equal_versions_throws _ _ _ H));
    try (left; exact (compare_throws _ _ _ _ H));
    left; congruence.
Qed.

Lemma Comparator_test_throws (c : Comparator) (x : jsvalue) (e : exn) :
  Comparator_test c x = Throw e -> thrown_by_test e.
Proof.
  unfold Comparator_test. destruct (semver c) as [sv |]; [| discriminate].
  intros H. apply bind_throw in H as [H | (a & _ & H)].
  - destruct x; try discriminate.
    apply bind_throw in H as [H | (? & _ & H)]; [| discriminate].
    left. exact (new_SemVer_throws _ _ _ H).
  - exact (cmp_throws _ _ _ _ _ H).
Qed.

Lemma all_test_throws (set : list Comparator) (x : jsvalue) (e : exn) :
  all_test set x = Throw e -> thrown_by_test e.
Proof.
  induction set as [| c set IH]; cbn [all_test]; [discriminate |].
  intros H. apply bind_throw in H as [H | (t & _ & H)].
  - exact (Comparator_test_throws _ _ _ H).
  - destruct t; [exact (IH H) | discriminate].
Qed.

Lemma testSet_throws (set : list Comparator) (x : jsvalue) (o : Options) (e : exn) :
  testSet set x o = Throw e -> thrown_by_test e.
Proof.
  unfold testSet. intros H. apply bind_throw in H as [H | (t & _ & H)].
  - exact (all_test_throws _ _ _ H).
  - destruct t; cbn [negb] in H; [| discriminate].
    apply bind_throw in H as [H | (pre & _ & H)].
    + destruct x; try discriminate; injection H as <-; right; right; reflexivity.
    + destruct (negb (is_nil pre) && negb (includePrerelease o)); [| discriminate].
      destruct x; try discriminate; injection H as <-; right; right; reflexivity.
Qed.

Lemma some_testSet_throws (sets : list (list Comparator)) (x : jsvalue)
  (o : Options) (e : exn) :
  some_testSet sets x o = Throw e -> thrown_by_test e.
Proof.
  induction sets as [| g sets IH]; cbn [some_testSet]; [discriminate |].
  intros H. apply bind_throw in H as [H | (t & _ & H)].
  - exact (testSet_throws _ _ _ _ H).
  - destruct t; [discriminate | exact (IH H)].
Qed.

Lemma Range_test_throws (r : Range) (x : jsvalue) (e : exn) :
  Range_test r x = Throw e -> thrown_by_test e.
Proof.
  unfold Range_test. intros H. apply bind_throw in H as [H | (a & _ & H)].
  - destruct x; try discriminate.
    apply bind_throw in H as [H | (? & _ & H)]; [| discriminate].
    left. exact (new_SemVer_throws _ _ _ H).
  - exact (some_testSet_throws _ _ _ _ H).
Qed.

Lemma thrown_by_test_not_minSV (e : exn) :
  thrown_by_test e -> e <> NullDereference "minSV".
Proof. intros [-> | [-> | ->]]; discriminate. Qed.

(** [minSV.compare] is never reached with a [null] [minSV]. *)
Lemma minSatisfying_step_safe (r : Range) (o : option Options)
  (st : scan_state) (x : jsvalue) :
  minSV_is_set st ->
  minSatisfying_step r o st x <> Throw (NullDereference "minSV")
  /\ forall st', minSatisfying_step r o st x = Ok st' -> minSV_is_set st'.
Proof.
  unfold minSV_is_set, minSatisfying_step. destruct st as [min minSV].
  cbn [fst snd]. intros Hset. split.
  - intros H. apply bind_throw in H as [H | (t & _ & H)].
    { apply Range_test_throws, thrown_by_test_not_minSV in H. congruence. }
    destruct t; [| discriminate].
    apply bind_throw in H as [H | (b & _ & H)].
    + destruct (falsy min); [discriminate |].
      destruct minSV as [sv |]; [| apply Hset; reflexivity].
      apply bind_throw in H as [H | (? & _ & H)]; [| discriminate].
      apply SemVer_compare_throws in H. discriminate.
    + destruct b; [| discriminate].
      apply bind_throw in H as [H | (? & _ & H)]; [| discriminate].
      apply new_SemVer_throws in H. discriminate.
  - intros st'. destruct (Range_test r x) as [t |]; [| discriminate].
    cbn [bind]. destruct t; [| intros H; injection H as <-; exact Hset].
    destruct (if falsy min then Ok true
              else match minSV with
                   | Some sv => c <- SemVer_compare sv x ;; Ok (c =? 1)%Z
                   | None => Throw (NullDereference "minSV")
                   end) as [b |]; [| discriminate].
    cbn [bind]. destruct b; [| intros H; injection H as <-; exact Hset].
    destruct (new_SemVer x o) as [sv' |]; [| discriminate].
    cbn [bind]. intros H. injection H as <-. cbn [snd]. discriminate.
Qed.

Lemma minSatisfying_scan_safe (r : Range) (o : option Options)
  (xs : list jsvalue) (st : scan_state) :
  minSV_is_set st ->
  forEach (minSatisfying_step r o) xs st <> Throw (NullDereference "minSV").
Proof.
  revert st. induction xs as [| x xs IH]; intros st Hset; cbn [forEach];
    [discriminate |].
  destruct (minSatisfying_step_safe r o st x Hset) as [Hno Hnext].
  destruct (minSatisfying_step r o st x) as [st1 |] eqn:E; cbn [bind].
  - apply IH. apply Hnext. reflexivity.
  - exact Hno.
Qed.

Lemma minSatisfying_step_constructed (r : Range) (o : option Options)
  (st st' : scan_state) (x : jsvalue) :
  minSV_is_constructed o st -> minSatisfying_step r o st x = Ok st' ->
  minSV_is_constructed o st'.
Proof.
  unfold minSatisfying_step. destruct st as [min minSV]. intros Hst.
  destruct (Range_test r x) as [t |]; [| discriminate].
  cbn [bind]. destruct t; [| intros H; injection H as <-; exact Hst].
  destruct (if falsy min then Ok true
            else match minSV with
                 | Some sv => c <- SemVer_compare sv x ;; Ok (c =? 1)%Z
                 | None => Throw (NullDereference "minSV")
                 end) as [b |]; [| discriminate].
  cbn [bind]. destruct b; [| intros H; injection H as <-; exact Hst].
  destruct (new_SemVer x o) as [sv' |] eqn:Hnew; [| discriminate].
  cbn [bind]. intros H. injection H as <-. intros _.
  exists sv', x. split; [reflexivity | exact Hnew].
Qed.

Lemma minSatisfying_scan_constructed (r : Range) (o : option Options)
  (xs : list jsvalue) (st st' : scan_state) :
  minSV_is_constructed o st ->
  forEach (minSatisfying_step r o) xs st = Ok st' ->
  minSV_is_constructed o st'.
Proof.
  revert st. induction xs as [| x xs IH]; intros st Hst; cbn [forEach].
  - intros H. injection H as <-. exact Hst.
  - destruct (minSatisfying_step r o st x) as [st1 |] eqn:E; [| discriminate].
    cbn [bind]. apply IH.
    exact (minSatisfying_step_constructed r o st st1 x Hst E).
Qed.

(** ** C7 and C10: the entry points that scan or test *)

Lemma minSV_is_set_initial : minSV_is_set (None, None).
Proof. unfold minSV_is_set. cbn. discriminate. Qed.

Lemma min_invariant_initial (r : Range) : min_invariant r [] (None, None).
Proof. cbn. intros x v []. Qed.

Lemma satisfies_invalid_range (x : jsvalue) (r : range_arg) (o : option Options) :
  throws (new_Range r o) -> satisfies x r o = Ok false.
Proof. intros [e He]. unfold satisfies. rewrite He. reflexivity. Qed.

Lemma satisfies_denotes (x : jsvalue) (v : SemVer) (rg : range_arg)
  (o : option Options) (r : Range) :
  range_arg_ok rg -> new_Range rg o = Ok r -> denotes x v ->
  satisfies x rg o = Ok (range_accepts r v).
Proof.
  intros Hrg Hnew Hx. rewrite (satisfies_built x rg o r Hnew).
  apply Range_test_denotes; [| exact Hx].
  exact (proj1 (new_Range_inv rg o r Hrg Hnew)).
Qed.

Lemma compare_denotes (x y : jsvalue) (vx vy : SemVer) (o : option Options) :
  denotes x vx -> denotes y vy -> compare x y o = Ok (compare_objects vx vy).
Proof.
  intros Hx Hy.
  destruct (new_SemVer_denotes x vx o Hx) as (sx & Hsx & _ & Hfx).
  destruct (new_SemVer_denotes y vy o Hy) as (sy & Hsy & _ & Hfy).
  rewrite (compare_constructed x y o sx sy Hsx Hsy).
  f_equal. apply compare_objects_fields_eq; assumption.
Qed.

(** C7, as amended: a range argument that cannot be built into a Range
    never makes [satisfies], [validRange], [maxSatisfying] or
    [minSatisfying] throw, whatever the versions are: they answer [false],
    [null], [null] and [null]; and with any range argument, none of
    [satisfies], [maxSatisfying] and [minSatisfying] throws when the
    version arguments are valid versions.  ([validRange] takes no version
    and cannot throw at all: its result is a plain value.) *)
Theorem invalid_ranges_are_caught (r : range_arg) (o : option Options) :
  range_arg_ok r ->
  (throws (new_Range r o) ->
     (forall x, satisfies x r o = Ok false)
     /\ validRange r o = None
     /\ (forall xs, maxSatisfying xs r o = Ok None)
     /\ (forall xs, minSatisfying xs r o = Ok None))
  /\ (forall x, valid_version x -> exists b, satisfies x r o = Ok b)
  /\ (forall xs, Forall valid_version xs ->
        exists m, maxSatisfying xs r o = Ok m)
  /\ (forall xs, Forall valid_version xs ->
        exists m, minSatisfying xs r o = Ok m).
Proof.
  intros Hr. split; [| split; [| split]].
  - intros Hthrows. split; [| split; [| split]].
    + intros x. exact (satisfies_invalid_range x r o Hthrows).
    + destruct Hthrows as [e He]. unfold validRange.
      destruct r; try reflexivity; rewrite He; reflexivity.
    + intros xs. destruct Hthrows as [e He]. unfold maxSatisfying.
      rewrite He. reflexivity.
    + intros xs. destruct Hthrows as [e He]. unfold minSatisfying.
      rewrite He. reflexivity.
  - intros x [v Hx]. destruct (new_Range r o) as [rangeObj | e] eqn:Hnew.
    + exists (range_accepts rangeObj v).
      exact (satisfies_denotes x v r o rangeObj Hr Hnew Hx).
    + exists false. apply satisfies_invalid_range. exists e. exact Hnew.
  - intros xs Hxs. unfold maxSatisfying.
    destruct (new_Range r o) as [rangeObj | e] eqn:Hnew; [| eauto].
    destruct (maxSatisfying_scan rangeObj o xs (None, None)
                (proj1 (new_Range_inv r o rangeObj Hr Hnew)) Hxs I)
      as (st' & Hscan).
    rewrite Hscan. cbn [bind]. eauto.
  - intros xs Hxs. unfold minSatisfying.
    destruct (new_Range r o) as [rangeObj | e] eqn:Hnew; [| eauto].
    destruct (minSatisfying_scan rangeObj o xs [] (None, None)
                (proj1 (new_Range_inv r o rangeObj Hr Hnew)) Hxs
                (min_invariant_initial rangeObj))
      as (st' & Hscan & _).
    rewrite Hscan. cbn [bind]. eauto.
Qed.

Lemma invalid_ranges_are_caught_witness :
  (forall x, satisfies x (RStr "not a range") None = Ok false)
  /\ validRange (RStr "not a range") None = None
  /\ (exists b, satisfies (VStr "1.2.3") (RStr "^1.2.0") None = Ok b)
  /\ (exists m, maxSatisfying [VStr "1.2.3"; VStr "1.3.0"; VStr "2.0.0"]
                  (RStr "^1.2.0") None = Ok m).
Proof.
  assert (Hvalid : forall s v, new_SemVer (VStr s) None = Ok v ->
                               valid_version (VStr s)).
  { intros s v H. exists v. exact H. }
  destruct (invalid_ranges_are_caught (RStr "not a range") None I)
    as (Hbad & _).
  destruct (invalid_ranges_are_caught (RStr "^1.2.0") None I)
    as (_ & Hsat & Hmax & _).
  destruct Hbad as (Hs & Hv & _); [exists TypeError; vm_compute; reflexivity |].
  split; [exact Hs |]. split; [exact Hv |]. split.
  - apply Hsat.
    let v := constructed "1.2.3" in apply (Hvalid _ v); vm_compute; reflexivity.
  - apply Hmax. repeat constructor.
    + let v := constructed "1.2.3" in apply (Hvalid _ v); vm_compute; reflexivity.
    + let v := constructed "1.3.0" in apply (Hvalid _ v); vm_compute; reflexivity.
    + let v := constructed "2.0.0" in apply (Hvalid _ v); vm_compute; reflexivity.
Defined.

(** C7 as stated fails: a malformed version argument is not caught.  The
    constructor of [Range.test] (line 794) and the one of the scans run
    outside every [try], so its TypeError reaches the caller. *)
Lemma malformed_version_is_thrown :
  satisfies (VStr "not-a-version") (RStr "*") None = Throw TypeError
  /\ satisfies (VStr ("1.0.0-" ++ ones 300)) (RStr "*") None = Throw TypeError
  /\ maxSatisfying [VStr "1.0.0"; VStr "not-a-version"] (RStr "*") None
     = Throw TypeError
  /\ minSatisfying [VStr "1.0.0"; VStr "not-a-version"] (RStr "*") None
     = Throw TypeError.
Proof. repeat split; vm_compute; reflexivity. Qed.

(** C10: whatever the list and the range argument, [minSatisfying] never
    reaches [minSV.compare] with a [null] [minSV]: in the state the scan
    of any list ends with, [min] is truthy only if [minSV] is an object
    the constructor returned; and on a list of valid versions it returns:
    [null] when no element satisfies the range, and otherwise an element
    of the list that satisfies the range and that [compare] puts at or
    below every element of the list satisfying it. *)
Theorem minSatisfying_is_safe_and_minimal (xs : list jsvalue) (r : range_arg)
  (o : option Options) :
  minSatisfying xs r o <> Throw (NullDereference "minSV")
  /\ (forall rangeObj st,
        forEach (minSatisfying_step rangeObj o) xs (None, None) = Ok st ->
        falsy (fst st) = false ->
        exists sv x, snd st = Some sv /\ new_SemVer x o = Ok sv)
  /\ (range_arg_ok r -> Forall valid_version xs ->
      exists res, minSatisfying xs r o = Ok res
        /\ match res with
           | None => forall x, In x xs -> satisfies x r o = Ok false
           | Some m =>
               In m xs /\ satisfies m r o = Ok true
               /\ forall x, In x xs -> satisfies x r o = Ok true ->
                    exists c, compare m x o = Ok c /\ (c <= 0)%Z
           end).
Proof.
  split; [| split].
  - unfold minSatisfying.
    destruct (new_Range r o) as [rangeObj | e]; [| discriminate].
    pose proof (minSatisfying_scan_safe rangeObj o xs (None, None)
                  minSV_is_set_initial) as Hsafe.
    destruct (forEach (minSatisfying_step rangeObj o) xs (None, None))
      as [st | e]; cbn [bind]; [discriminate |].
    intros H. apply Hsafe. congruence.
  - intros rangeObj st Hscan.
    apply (minSatisfying_scan_constructed rangeObj o xs (None, None) st);
      [| exact Hscan].
    intros H. discriminate H.
  - intros Hr Hxs. unfold minSatisfying.
    destruct (new_Range r o) as [rangeObj | e] eqn:Hnew.
    + destruct (minSatisfying_scan rangeObj o xs [] (None, None)
                  (proj1 (new_Range_inv r o rangeObj Hr Hnew)) Hxs
                  (min_invariant_initial rangeObj))
        as (st' & Hscan & Hinv).
      rewrite Hscan. cbn [bind app] in *. exists (fst st'). split; [reflexivity |].
      destruct st' as [[m |] [sv |]]; cbn [fst min_invariant] in *;
        try contradiction.
      * destruct Hinv as (Hin & _ & vm & Hm & _ & Hacc & Hmin).
        split; [exact Hin |]. split.
        { rewrite (satisfies_denotes m vm r o rangeObj Hr Hnew Hm).
          rewrite Hacc. reflexivity. }
        intros x Hx Hsat.
        rewrite Forall_forall in Hxs. destruct (Hxs x Hx) as [v Hv].
        rewrite (satisfies_denotes x v r o rangeObj Hr Hnew Hv) in Hsat.
        exists (compare_objects vm v). split.
        { exact (compare_denotes m x vm v o Hm Hv). }
        apply (Hmin x v Hx Hv). congruence.
      * intros x Hx. rewrite Forall_forall in Hxs. destruct (Hxs x Hx) as [v Hv].
        rewrite (satisfies_denotes x v r o rangeObj Hr Hnew Hv).
        rewrite (Hinv x v Hx Hv). reflexivity.
    + exists None. split; [reflexivity |].
      intros x _. apply satisfies_invalid_range. exists e. exact Hnew.
Qed.

Lemma minSatisfying_is_safe_and_minimal_witness :
  exists res,
    minSatisfying [VStr "1.3.0"; VStr "1.2.3"; VStr "2.0.0"; VStr "1.2.0-rc"]
      (RStr "^1.2.0") None = Ok res
    /\ match res with
       | None => forall x,
           In x [VStr "1.3.0"; VStr "1.2.3"; VStr "2.0.0"; VStr "1.2.0-rc"] ->
           satisfies x (RStr "^1.2.0") None = Ok false
       | Some m =>
           In m [VStr "1.3.0"; VStr "1.2.3"; VStr "2.0.0"; VStr "1.2.0-rc"]
           /\ satisfies m (RStr "^1.2.0") None = Ok true
           /\ forall x,
                In x [VStr "1.3.0"; VStr "1.2.3"; VStr "2.0.0"; VStr "1.2.0-rc"] ->
                satisfies x (RStr "^1.2.0") None = Ok true ->
                exists c, compare m x None = Ok c /\ (c <= 0)%Z
       end.
Proof.
  assert (Hvalid : forall s v, new_SemVer (VStr s) None = Ok v ->
                               valid_version (VStr s)).
  { intros s v H. exists v. exact H. }
  apply (proj2 (proj2 (minSatisfying_is_safe_and_minimal
                  [VStr "1.3.0"; VStr "1.2.3"; VStr "2.0.0"; VStr "1.2.0-rc"]
                  (RStr "^1.2.0") None))).
  - exact I.
  - repeat constructor.
    + let v := constructed "1.3.0" in apply (Hvalid _ v); vm_compute; reflexivity.
    + let v := constructed "1.2.3" in apply (Hvalid _ v); vm_compute; reflexivity.
    + let v := constructed "2.0.0" in apply (Hvalid _ v); vm_compute; reflexivity.
    + let v := constructed "1.2.0-rc" in apply (Hvalid _ v); vm_compute; reflexivity.
Defined.

(** ** C4: the caret rewrite *)

Lemma to_uint_normal (n : N) : Decimal.unorm (N.to_uint n) = N.to_uint n.
Proof.
  rewrite <- (DecimalN.Unsigned.to_of (N.to_uint n)).
  rewrite DecimalN.Unsigned.of_to. reflexivity.
Qed.

Lemma nid_ok_decimal (n : N) : nid_ok (decimal n) = true.
Proof.
  pose proof (decimal_digits n) as Hd.
  pose proof (to_uint_normal n) as Hn.
  pose proof (to_uint_nonnil n) as Hnil.
  unfold decimal, NilZero.string_of_uint in *.
  destruct (N.to_uint n) as [| d | d | d | d | d | d | d | d | d | d];
    try congruence; cbn in Hd |- *; try exact Hd.
  unfold Decimal.unorm in Hn. cbn [Decimal.nzhead] in Hn.
  destruct (Decimal.nzhead d) eqn:E;
    try (exfalso; apply (DecimalFacts.nzhead_nonzero d d); congruence).
  injection Hn as <-. reflexivity.
Qed.

Lemma nid_head (a : string) :
  nid_ok a = true -> exists c ds, a = String c ds /\ is_digit c = true.
Proof.
  destruct a as [| c ds]; cbn; [discriminate |]. intros H. exists c, ds.
  split; [reflexivity |].
  apply orb_prop in H as [H | H].
  - apply andb_prop in H as [H _]. apply Ascii.eqb_eq in H. subst c. reflexivity.
  - apply andb_prop in H as [H _]. apply andb_prop in H as [H _]. exact H.
Qed.

Lemma digit_not_v_eq_space (c : ascii) :
  is_digit c = true -> is_v_eq_space c = false.
Proof. ascii_cases c. Qed.

Lemma digit_not_x (c : ascii) :
  is_digit c = true ->
  Ascii.eqb c "x" || Ascii.eqb c "X" || Ascii.eqb c "*" = false.
Proof. ascii_cases c. Qed.

Lemma match_xid_nid (a rest : string) :
  nid_ok a = true -> head_is is_digit rest = false ->
  match_xid (a ++ rest) = Some (a, rest).
Proof.
  intros Ha Hrest. pose proof (match_nid_complete a rest Ha Hrest) as Hm.
  destruct (nid_head a Ha) as (c & ds & -> & Hc).
  cbn [append] in *. unfold match_xid. rewrite (digit_not_x c Hc). exact Hm.
Qed.

Lemma match_xid_x (x rest : string) :
  x_identifier x -> match_xid (x ++ rest) = Some (x, rest).
Proof. intros [-> | [-> | ->]]; reflexivity. Qed.

Lemma skip_prefix_nid (a rest : string) :
  nid_ok a = true -> snd (take_while is_v_eq_space (a ++ rest)) = a ++ rest.
Proof.
  intros Ha. destruct (nid_head a Ha) as (c & ds & -> & Hc).
  cbn [append take_while]. rewrite (digit_not_v_eq_space c Hc). reflexivity.
Qed.

(** XRANGEPLAIN on the forms of a caret token. *)
Lemma match_XRANGEPLAIN_M (M : string) :
  nid_ok M = true ->
  match_XRANGEPLAIN M
  = Some ({| x_M := M; x_m := None; x_p := None; x_pr := None; x_b := None |}, "").
Proof.
  intros HM. unfold match_XRANGEPLAIN.
  pose proof (skip_prefix_nid M "" HM) as Hs.
  pose proof (match_xid_nid M "" HM eq_refl) as Hx.
  rewrite append_nil_r in Hs, Hx. rewrite Hs, Hx. reflexivity.
Qed.

Lemma match_XRANGEPLAIN_M_x (M x : string) :
  nid_ok M = true -> x_identifier x ->
  match_XRANGEPLAIN (M ++ "." ++ x)
  = Some ({| x_M := M; x_m := Some x; x_p := None; x_pr := None; x_b := None |}, "").
Proof.
  intros HM Hx. unfold match_XRANGEPLAIN. cbn [append].
  rewrite (skip_prefix_nid M _ HM), (match_xid_nid M (String "." _) HM eq_refl).
  cbn [append expect Ascii.eqb Bool.eqb].
  pose proof (match_xid_x x "" Hx) as Hxid.
  rewrite append_nil_r in Hxid. rewrite Hxid. reflexivity.
Qed.

Lemma match_XRANGEPLAIN_M_m (M m : string) :
  nid_ok M = true -> nid_ok m = true ->
  match_XRANGEPLAIN (M ++ "." ++ m)
  = Some ({| x_M := M; x_m := Some m; x_p := None; x_pr := None; x_b := None |}, "").
Proof.
  intros HM Hm. unfold match_XRANGEPLAIN. cbn [append].
  rewrite (skip_prefix_nid M _ HM), (match_xid_nid M (String "." _) HM eq_refl).
  cbn [append expect Ascii.eqb Bool.eqb].
  pose proof (match_xid_nid m "" Hm eq_refl) as Hxid.
  rewrite append_nil_r in Hxid. rewrite Hxid. reflexivity.
Qed.

Lemma match_XRANGEPLAIN_M_m_x (M m x : string) :
  nid_ok M = true -> nid_ok m = true -> x_identifier x ->
  match_XRANGEPLAIN (M ++ "." ++ m ++ "." ++ x)
  = Some ({| x_M := M; x_m := Some m; x_p := Some x; x_pr := None; x_b := None |}, "").
Proof.
  intros HM Hm Hx. unfold match_XRANGEPLAIN. cbn [append].
  rewrite (skip_prefix_nid M _ HM), (match_xid_nid M (String "." _) HM eq_refl).
  cbn [append expect Ascii.eqb Bool.eqb].
  rewrite (match_xid_nid m (String "." _) Hm eq_refl).
  cbn [append expect Ascii.eqb Bool.eqb].
  pose proof (match_xid_x x "" Hx) as Hxid.
  rewrite append_nil_r in Hxid. rewrite Hxid. reflexivity.
Qed.

Lemma match_XRANGEPLAIN_M_m_p (M m p : string) (pr : option string) :
  nid_ok M = true -> nid_ok m = true -> nid_ok p = true ->
  match pr with
  | Some s => dotted_ok valid_pid s = true
  | None => True
  end ->
  match_XRANGEPLAIN (M ++ "." ++ m ++ "." ++ p ++ attach "-" pr)
  = Some ({| x_M := M; x_m := Some m; x_p := Some p; x_pr := pr; x_b := None |}, "").
Proof.
  intros HM Hm Hp Hpr. unfold match_XRANGEPLAIN. cbn [append].
  rewrite (skip_prefix_nid M _ HM), (match_xid_nid M (String "." _) HM eq_refl).
  cbn [append expect Ascii.eqb Bool.eqb].
  rewrite (match_xid_nid m (String "." _) Hm eq_refl).
  cbn [append expect Ascii.eqb Bool.eqb].
  destruct pr as [s |]; cbn [attach].
  - rewrite (match_xid_nid p (String "-" s) Hp eq_refl).
    unfold optional, match_prerelease.
    pose proof (match_dotted_complete "-" valid_pid s "" Hpr eq_refl) as Hd.
    rewrite append_nil_r in Hd. rewrite Hd. reflexivity.
  - rewrite (match_xid_nid p "" Hp eq_refl). reflexivity.
Qed.

Lemma isX_nid (a : string) : nid_ok a = true -> isX (Some a) = false.
Proof.
  intros Ha. destruct (nid_head a Ha) as (c & ds & -> & Hc).
  unfold isX. cbn [is_empty toLowerCase orb].
  assert (H1 : String.eqb (String (to_lower_char c) (toLowerCase ds)) "x" = false).
  { cbn [String.eqb]. replace (Ascii.eqb (to_lower_char c) "x") with false;
      [reflexivity |]. revert Hc. ascii_cases c. }
  assert (H2 : String.eqb (String c ds) "*" = false).
  { cbn [String.eqb]. replace (Ascii.eqb c "*") with false;
      [reflexivity |]. revert Hc. ascii_cases c. }
  rewrite H1, H2. reflexivity.
Qed.

Lemma isX_x (x : string) : x_identifier x -> isX (Some x) = true.
Proof. intros [-> | [-> | ->]]; reflexivity. Qed.

Lemma plus_one_decimal (n : N) :
  n <= MAX_SAFE_INTEGER -> plus_one (Some (decimal n)) = decimal (n + 1).
Proof.
  intros Hn. unfold MAX_SAFE_INTEGER in Hn. pose proof pow53 as Hp.
  unfold plus_one, to_str. rewrite ToNumber_decimal by lia.
  unfold number_succ. rewrite double_of_N_small by lia.
  apply NumberToString_small. lia.
Qed.

Lemma decimal_is_zero (n : N) : String.eqb (decimal n) "0" = (n =? 0).
Proof.
  destruct (N.eqb_spec n 0) as [-> | Hn]; [reflexivity |].
  apply String.eqb_neq. intros H. apply Hn.
  rewrite <- (digits_value_decimal n), H. reflexivity.
Qed.

Lemma dotted_nonempty (s : string) :
  dotted_ok valid_pid s = true -> truthy_group (Some s) = true.
Proof. destruct s; [discriminate | reflexivity]. Qed.


Ltac caret_texts :=
  cbn [to_str]; unfold triple_text;
  change (decimal 0) with "0"; norm_append; try reflexivity.



(** ** C8: minVersion *)

(** C8, at the range ">=0.0.0-alpha": [minVersion] answers with its first
    candidate, 0.0.0, although 0.0.0-alpha satisfies the range and
    [compare] puts it strictly below 0.0.0; so the version returned is not
    the lowest one that satisfies the range.  The same happens whenever a
    prerelease of 0.0.0 other than 0.0.0-0 is a lower bound. *)
Theorem minVersion_is_not_the_lowest :
  (exists v, minVersion (RStr ">=0.0.0-alpha") None = Ok (Some v)
             /\ version v = "0.0.0")
  /\ satisfies (VStr "0.0.0-alpha") (RStr ">=0.0.0-alpha") None = Ok true
  /\ compare (VStr "0.0.0-alpha") (VStr "0.0.0") None = Ok (-1)%Z
  /\ (exists v, minVersion (RStr ">1.0.0 <1.0.1-5 || >=1.0.1") None = Ok (Some v)
                /\ version v = "1.0.1")
  /\ satisfies (VStr "1.0.1-0") (RStr ">1.0.0 <1.0.1-5 || >=1.0.1") None = Ok true
  /\ compare (VStr "1.0.1-0") (VStr "1.0.1") None = Ok (-1)%Z.
Proof.
  split; [eexists; split; vm_compute; reflexivity |].
  split; [vm_compute; reflexivity |].
  split; [vm_compute; reflexivity |].
  split; [eexists; split; vm_compute; reflexivity |].
  split; vm_compute; reflexivity.
Qed.

(** What [minVersion] does keep: a version it returns passed
    [range.test]. *)
Theorem minVersion_result_satisfies (r : range_arg) (o : option Options)
  (v : SemVer) :
  minVersion r o = Ok (Some v) ->
  exists rangeObj, new_Range r o = Ok rangeObj
                   /\ Range_test rangeObj (VSemVer v) = Ok true.
Proof.
  unfold minVersion. destruct (new_Range r o) as [rangeObj |]; [| discriminate].
  cbn [bind]. intros H. exists rangeObj. split; [reflexivity |].
  destruct (new_SemVer (VStr "0.0.0") None) as [zero |]; [| discriminate].
  cbn [bind] in H.
  destruct (Range_test rangeObj (VSemVer zero)) as [[] |] eqn:Hzero;
    try discriminate; cbn [bind] in H.
  { injection H as <-. exact Hzero. }
  destruct (new_SemVer (VStr "0.0.0-0") None) as [zero_pre |]; [| discriminate].
  cbn [bind] in H.
  destruct (Range_test rangeObj (VSemVer zero_pre)) as [[] |] eqn:Hpre;
    try discriminate; cbn [bind] in H.
  { injection H as <-. exact Hpre. }
  destruct (forEach _ (set rangeObj) None) as [[mv |] |]; try discriminate.
  cbn [bind] in H.
  destruct (Range_test rangeObj (VSemVer mv)) as [[] |] eqn:Hmv;
    try discriminate; cbn [bind] in H.
  injection H as <-. exact Hmv.
Qed.

Lemma minVersion_result_satisfies_witness :
  exists v rangeObj,
    minVersion (RStr ">1.2.3 <2.0.0") None = Ok (Some v)
    /\ new_Range (RStr ">1.2.3 <2.0.0") None = Ok rangeObj
    /\ Range_test rangeObj (VSemVer v) = Ok true.
Proof.
  assert (Hv : { v | minVersion (RStr ">1.2.3 <2.0.0") None = Ok (Some v) }).
  { eexists. vm_compute. reflexivity. }
  destruct Hv as [v Hv].
  destruct (minVersion_result_satisfies (RStr ">1.2.3 <2.0.0") None v Hv)
    as (rangeObj & Hnew & Htest).
  exists v, rangeObj. split; [exact Hv |]. split; [exact Hnew | exact Htest].
Defined.

(** * Further properties *)

(** ** The comparison functions *)

Lemma denotes_numbers_ok (x : jsvalue) (v : SemVer) :
  denotes x v -> numbers_ok v = true.
Proof. intros H. exact (constructed_numbers_ok v (denotes_constructed x v H)). Qed.

(** [gt], [lt], [eq], [neq], [gte], [lte] and [rcompare] on two valid
    versions: none throws; exactly one of [gt], [lt] and [eq] holds; [gte],
    [lte] and [neq] are the negations of [lt], [gt] and [eq]; swapping the
    arguments swaps [gt] and [lt] and keeps [eq]; [rcompare] is the
    opposite of [compare]. *)
Theorem comparison_functions_agree (x y : jsvalue) (o : option Options) :
  valid_version x -> valid_version y ->
  exists c : Z,
    compare x y o = Ok c /\ rcompare x y o = Ok (- c)%Z
    /\ (c = (-1)%Z \/ c = 0%Z \/ c = 1%Z)
    /\ gt x y o = Ok (c =? 1)%Z /\ lt x y o = Ok (c =? -1)%Z
    /\ eq x y o = Ok (c =? 0)%Z
    /\ gte x y o = Ok (negb (c =? -1)%Z) /\ lte x y o = Ok (negb (c =? 1)%Z)
    /\ neq x y o = Ok (negb (c =? 0)%Z)
    /\ gt y x o = Ok (c =? -1)%Z /\ lt y x o = Ok (c =? 1)%Z
    /\ eq y x o = Ok (c =? 0)%Z.
Proof.
  intros [vx Hx] [vy Hy]. exists (compare_objects vx vy).
  pose proof (compare_denotes x y vx vy o Hx Hy) as Hxy.
  pose proof (compare_denotes y x vy vx o Hy Hx) as Hyx.
  pose proof (compare_objects_antisym vy vx (denotes_numbers_ok y vy Hy)
                (denotes_numbers_ok x vx Hx)) as Hanti.
  unfold rcompare, gt, lt, eq, gte, lte, neq. rewrite Hxy, Hyx, Hanti.
  cbn [bind].
  destruct (compare_objects_range vx vy) as [-> | [-> | ->]];
    repeat split; auto.
Qed.

Lemma comparison_functions_agree_witness :
  exists c : Z,
    compare (VStr "1.2.3-rc.1") (VStr "v1.2.3") None = Ok c
    /\ rcompare (VStr "1.2.3-rc.1") (VStr "v1.2.3") None = Ok (- c)%Z
    /\ (c = (-1)%Z \/ c = 0%Z \/ c = 1%Z)
    /\ gt (VStr "1.2.3-rc.1") (VStr "v1.2.3") None = Ok (c =? 1)%Z
    /\ lt (VStr "1.2.3-rc.1") (VStr "v1.2.3") None = Ok (c =? -1)%Z
    /\ eq (VStr "1.2.3-rc.1") (VStr "v1.2.3") None = Ok (c =? 0)%Z
    /\ gte (VStr "1.2.3-rc.1") (VStr "v1.2.3") None = Ok (negb (c =? -1)%Z)
    /\ lte (VStr "1.2.3-rc.1") (VStr "v1.2.3") None = Ok (negb (c =? 1)%Z)
    /\ neq (VStr "1.2.3-rc.1") (VStr "v1.2.3") None = Ok (negb (c =? 0)%Z)
    /\ gt (VStr "v1.2.3") (VStr "1.2.3-rc.1") None = Ok (c =? -1)%Z
    /\ lt (VStr "v1.2.3") (VStr "1.2.3-rc.1") None = Ok (c =? 1)%Z
    /\ eq (VStr "v1.2.3") (VStr "1.2.3-rc.1") None = Ok (c =? 0)%Z.
Proof.
  apply (comparison_functions_agree (VStr "1.2.3-rc.1") (VStr "v1.2.3") None).
  - let v := constructed "1.2.3-rc.1" in exists v; vm_compute; reflexivity.
  - let v := constructed "v1.2.3" in exists v; vm_compute; reflexivity.
Defined.

(** ** diff *)

Lemma parse_denotes (x : jsvalue) (v : SemVer) :
  denotes x v -> parse x None = Ok None \/ parse x None = Ok (Some v).
Proof.
  destruct x as [s | v0 | |]; cbn [denotes]; try contradiction.
  - intros Hs. unfold parse, try_catch.
    destruct (Nat.ltb MAX_LENGTH (String.length s)); [left; reflexivity |].
    destruct (match_FULL s); [| left; reflexivity].
    rewrite Hs. right. reflexivity.
  - intros [-> _]. right. reflexivity.
Qed.

(** [diff] does not depend on the order of its arguments: on two valid
    versions, [diff(a, b)] and [diff(b, a)] return the same release type
    or both [null]. *)
Theorem diff_is_symmetric (x y : jsvalue) (o : option Options) :
  valid_version x -> valid_version y -> diff x y o = diff y x o.
Proof.
  intros [vx Hx] [vy Hy].
  pose proof (compare_denotes x y vx vy o Hx Hy) as Hxy.
  pose proof (compare_denotes y x vy vx o Hy Hx) as Hyx.
  pose proof (compare_objects_antisym vy vx (denotes_numbers_ok y vy Hy)
                (denotes_numbers_ok x vx Hx)) as Hanti.
  unfold diff, eq. rewrite Hxy, Hyx, Hanti. cbn [bind].
  replace (- compare_objects vx vy =? 0)%Z with (compare_objects vx vy =? 0)%Z
    by (destruct (compare_objects_range vx vy) as [-> | [-> | ->]]; reflexivity).
  destruct (compare_objects vx vy =? 0)%Z; [reflexivity |].
  destruct (parse_denotes x vx Hx) as [-> | ->];
    destruct (parse_denotes y vy Hy) as [-> | ->]; cbn [bind]; try reflexivity.
  rewrite (orb_comm (negb (is_nil (prerelease vy)))).
  rewrite (N.eqb_sym (major vy)), (N.eqb_sym (minor vy)), (N.eqb_sym (patch vy)).
  reflexivity.
Qed.

Lemma diff_is_symmetric_witness :
  diff (VStr "1.0.0-alpha") (VStr "1.1.0") None
  = diff (VStr "1.1.0") (VStr "1.0.0-alpha") None.
Proof.
  apply (diff_is_symmetric (VStr "1.0.0-alpha") (VStr "1.1.0") None).
  - let v := constructed "1.0.0-alpha" in exists v; vm_compute; reflexivity.
  - let v := constructed "1.1.0" in exists v; vm_compute; reflexivity.
Defined.

(** ** The constructor and [valid] *)

Lemma full_text_v_no_space (b : bool) (g : full_groups) :
  groups_ok g = true ->
  forallb_string (fun c => negb (is_space c)) (full_text b g) = true.
Proof.
  intros Hok. pose proof (full_text_no_space g Hok) as H.
  destruct b; [| exact H].
  unfold full_text in *. cbn [append] in *. cbn [forallb_string].
  rewrite H. reflexivity.
Qed.

Lemma length_full_text_v (b : bool) (g : full_groups) :
  (String.length (full_text false g) <= String.length (full_text b g))%nat.
Proof.
  destruct b; [| apply Nat.le_refl].
  unfold full_text. cbn [append String.length]. lia.
Qed.

(** [valid] returns a normal form: for a string [s] it accepts, the
    result [t] is [s] without the leading "v" and without the build
    metadata; [valid] accepts [t] and returns it unchanged; and [compare]
    finds [s] and [t] equal. *)
Theorem valid_is_a_normal_form (s t : string) (o : option Options) :
  valid (VStr s) o = Ok (Some t) ->
  (exists (b : bool) (g : full_groups),
      groups_ok g = true /\ s = full_text b g
      /\ t = full_text false (without_build g))
  /\ valid (VStr t) o = Ok (Some t)
  /\ compare (VStr s) (VStr t) o = Ok 0%Z.
Proof.
  unfold valid. destruct (parse (VStr s) o) as [[v |] |] eqn:Hparse;
    cbn [bind]; try discriminate.
  intros Ht. injection Ht as <-.
  pose proof (parse_string_inv s o v Hparse) as Hnew.
  pose proof (new_SemVer_roundtrip (VStr s) o o v Hnew) as Hround.
  change (new_SemVer (VSemVer v) o) with (new_SemVer (VStr (version v)) o) in Hround.
  unfold parse in Hparse.
  destruct (Nat.ltb MAX_LENGTH (String.length s)) eqn:Hlen; [discriminate |].
  destruct (match_FULL s) as [m |] eqn:Hm; [| discriminate]. clear Hparse.
  destruct (match_FULL_sound s m Hm) as (b & Hs & Hok).
  pose proof (full_text_v_no_space b m Hok) as Hnospace. rewrite <- Hs in Hnospace.
  destruct (new_SemVer_inv _ _ _ Hnew)
    as (text & m' & -> & _ & Hm' & HM & Hmi & Hp & Hpre & _ & _ & _ & Hver).
  rewrite (trim_no_space s Hnospace), Hm in Hm'. injection Hm' as <-.
  rewrite Hpre in Hver. rewrite (version_text m _ _ _ Hok HM Hmi Hp) in Hver.
  split; [exists b, m; auto |]. split.
  - unfold parse, try_catch.
    assert (Hshort : Nat.ltb MAX_LENGTH (String.length (version v)) = false).
    { apply Nat.ltb_ge. apply Nat.ltb_ge in Hlen. rewrite Hver.
      pose proof (length_full_text_without_build b m) as L. rewrite <- Hs in L.
      lia. }
    rewrite Hshort.
    replace (match_FULL (version v)) with (Some (without_build m))
      by (rewrite Hver; symmetry;
          exact (match_FULL_complete false _ (groups_ok_without_build m Hok))).
    rewrite Hround. reflexivity.
  - rewrite (compare_constructed (VStr s) (VStr (version v)) o v
               (canonical v (object_or_default o)) Hnew Hround).
    f_equal. apply compare_objects_same; [| reflexivity].
    unfold same_main, canonical. cbn. rewrite !N.eqb_refl. reflexivity.
Qed.

Lemma valid_is_a_normal_form_witness :
  valid (VStr "1.2.3-rc.1") None = Ok (Some "1.2.3-rc.1")
  /\ compare (VStr "v1.2.3-rc.1+build.5") (VStr "1.2.3-rc.1") None = Ok 0%Z.
Proof.
  destruct (valid_is_a_normal_form "v1.2.3-rc.1+build.5" "1.2.3-rc.1" None)
    as (_ & Hvalid & Hcompare); [vm_compute; reflexivity |].
  split; [exact Hvalid | exact Hcompare].
Defined.

Lemma main_field_decimal (n : N) :
  main_field (decimal n)
  = if n <=? MAX_SAFE_INTEGER then Ok n else Throw TypeError.
Proof.
  pose proof pow53 as Hp. pose proof MAX_SAFE_below_pow53 as Hs.
  unfold main_field.
  destruct (N.leb_spec n MAX_SAFE_INTEGER) as [Hle | Hgt].
  - rewrite ToNumber_decimal by lia.
    destruct (N.ltb_spec MAX_SAFE_INTEGER n); [lia | reflexivity].
  - unfold ToNumber. rewrite digits_value_decimal. unfold double_of_N.
    assert (Hr : 2 ^ 53 <= round53 n).
    { unfold MAX_SAFE_INTEGER in Hgt.
      destruct (N.eq_dec n (2 ^ 53)) as [-> | Hne].
      - rewrite round53_small by lia. lia.
      - apply round53_large. lia. }
    destruct (round53 n <? 2 ^ 1024); [| reflexivity].
    destruct (N.ltb_spec MAX_SAFE_INTEGER (round53 n)); [reflexivity |].
    unfold MAX_SAFE_INTEGER in *. lia.
Qed.

Lemma triple_text_full (M m p : N) :
  triple_text M m p
  = full_text false {| g_major := decimal M; g_minor := decimal m;
                       g_patch := decimal p; g_prerelease := None;
                       g_build := None |}.
Proof.
  unfold triple_text, full_text. cbn [g_major g_minor g_patch g_prerelease g_build attach].
  norm_append. rewrite !append_nil_r. reflexivity.
Qed.

(** The bounds of the constructor: a string of more than 256 characters
    is refused with a TypeError; and the text M.m.p, when it fits the
    length limit, is accepted exactly when M, m and p are all at most
    MAX_SAFE_INTEGER, and then the object holds these three numbers, no
    prerelease, no build, and M.m.p as its version. *)
Theorem constructor_bounds (s : string) (M m p : N) (o : option Options) :
  ((MAX_LENGTH < String.length s)%nat ->
   new_SemVer (VStr s) o = Throw TypeError)
  /\ ((String.length (triple_text M m p) <= MAX_LENGTH)%nat ->
      if (M <=? MAX_SAFE_INTEGER) && (m <=? MAX_SAFE_INTEGER)
         && (p <=? MAX_SAFE_INTEGER)
      then exists v, new_SemVer (VStr (triple_text M m p)) o = Ok v
                     /\ major v = M /\ minor v = m /\ patch v = p
                     /\ prerelease v = [] /\ build v = []
                     /\ version v = triple_text M m p
      else new_SemVer (VStr (triple_text M m p)) o = Throw TypeError).
Proof.
  split.
  - intros Hlen. unfold new_SemVer. apply Nat.ltb_lt in Hlen. rewrite Hlen.
    reflexivity.
  - intros Hlen. apply Nat.ltb_ge in Hlen. unfold new_SemVer. rewrite Hlen.
    set (g := {| g_major := decimal M; g_minor := decimal m;
                 g_patch := decimal p; g_prerelease := None;
                 g_build := None |}).
    assert (Hok : groups_ok g = true).
    { unfold groups_ok. cbn. rewrite !nid_ok_decimal. reflexivity. }
    rewrite (triple_text_full M m p). fold g.
    rewrite (trim_no_space _ (full_text_no_space g Hok)).
    rewrite (match_FULL_complete false g Hok).
    cbn [g g_major g_minor g_patch g_prerelease g_build].
    rewrite !main_field_decimal. pose proof pow53 as Hp53.
    destruct (N.leb_spec M MAX_SAFE_INTEGER) as [HM |]; cbn [bind andb];
      [| reflexivity].
    destruct (N.leb_spec m MAX_SAFE_INTEGER) as [Hm |]; cbn [bind andb];
      [| reflexivity].
    destruct (N.leb_spec p MAX_SAFE_INTEGER) as [Hp |]; cbn [bind andb];
      [| reflexivity].
    eexists. split; [reflexivity |].
    cbn [major minor patch prerelease build version].
    repeat (split; [reflexivity |]).
    subst g. rewrite <- triple_text_full.
    unfold format_version, triple_text. unfold MAX_SAFE_INTEGER in *.
    rewrite !NumberToString_small by lia. reflexivity.
Qed.

Lemma constructor_bounds_witness :
  new_SemVer (VStr ("1.0.0-" ++ ones 300)) None = Throw TypeError
  /\ new_SemVer (VStr "9007199254740992.0.0") None = Throw TypeError
  /\ exists v, new_SemVer (VStr "9007199254740991.0.7") None = Ok v
               /\ major v = 9007199254740991 /\ minor v = 0 /\ patch v = 7
               /\ prerelease v = [] /\ build v = []
               /\ version v = "9007199254740991.0.7".
Proof.
  split; [| split].
  - apply (proj1 (constructor_bounds ("1.0.0-" ++ ones 300) 0 0 0 None)).
    vm_compute. lia.
  - apply (proj2 (constructor_bounds "" 9007199254740992 0 0 None)).
    vm_compute. lia.
  - apply (proj2 (constructor_bounds "" 9007199254740991 0 7 None)).
    vm_compute. lia.
Defined.

(** ** The tilde rewrite *)

Lemma match_TILDE_digit (c : ascii) (rest : string) :
  is_digit c = true ->
  match_TILDE (String "~" (String c rest))
  = at_end (match_XRANGEPLAIN (String c rest)).
Proof. ascii_cases c. Qed.

Lemma match_TILDE_nid (lead a rest : string) :
  tilde_operator lead -> nid_ok a = true ->
  match_TILDE (lead ++ a ++ rest) = at_end (match_XRANGEPLAIN (a ++ rest)).
Proof.
  intros Hlead Ha. destruct (nid_head a Ha) as (c & ds & -> & Hc).
  destruct Hlead as [-> | ->]; cbn [append].
  - apply match_TILDE_digit. exact Hc.
  - reflexivity.
Qed.

Ltac tilde_groups :=
  cbn [x_M x_m x_p x_pr to_str];
  rewrite ?isX_nid by apply nid_ok_decimal;
  rewrite ?plus_one_decimal by assumption.

Ltac tilde_texts :=
  cbn [to_str]; unfold triple_text;
  change (decimal 0) with "0"; norm_append; try reflexivity.

(** [replaceTilde], for main fields that a version can have: the token
    ~M.m.p, with or without a prerelease and with either spelling of the
    operator, becomes ">=M.m.p[-pr] <M.(m+1).0"; ~M.m and ~M.m.x become
    ">=M.m.0 <M.(m+1).0"; ~M and ~M.x become ">=M.0.0 <(M+1).0.0".  The two
    examples go through the whole range parser. *)
Theorem tilde_rewrite (lead : string) (M m p : N) (pr : option string)
  (x : string) :
  tilde_operator lead ->
  M <= MAX_SAFE_INTEGER -> m <= MAX_SAFE_INTEGER -> p <= MAX_SAFE_INTEGER ->
  match pr with
  | Some s => dotted_ok valid_pid s = true
  | None => True
  end ->
  x_identifier x ->
  replaceTilde (lead ++ decimal M ++ "." ++ decimal m ++ "." ++ decimal p
                  ++ attach "-" pr)
  = ">=" ++ triple_text M m p ++ attach "-" pr ++ " <" ++ triple_text M (m + 1) 0
  /\ replaceTilde (lead ++ decimal M ++ "." ++ decimal m ++ "." ++ x)
     = ">=" ++ triple_text M m 0 ++ " <" ++ triple_text M (m + 1) 0
  /\ replaceTilde (lead ++ decimal M ++ "." ++ decimal m)
     = ">=" ++ triple_text M m 0 ++ " <" ++ triple_text M (m + 1) 0
  /\ replaceTilde (lead ++ decimal M ++ "." ++ x)
     = ">=" ++ triple_text M 0 0 ++ " <" ++ triple_text (M + 1) 0 0
  /\ replaceTilde (lead ++ decimal M)
     = ">=" ++ triple_text M 0 0 ++ " <" ++ triple_text (M + 1) 0 0
  /\ satisfies (VStr "1.2.3") (RStr "~1.2.0") None = Ok true
  /\ satisfies (VStr "1.3.0") (RStr "~1.2.0") None = Ok false.
Proof.
  intros Hlead HM Hm Hp Hpr Hx.
  pose proof (nid_ok_decimal M) as HnM. pose proof (nid_ok_decimal m) as Hnm.
  pose proof (nid_ok_decimal p) as Hnp.
  split; [| split; [| split; [| split; [| split]]]]; unfold replaceTilde.
  - rewrite (match_TILDE_nid lead _ _ Hlead HnM).
    rewrite (match_XRANGEPLAIN_M_m_p _ _ _ pr HnM Hnm Hnp Hpr).
    cbn [at_end]. unfold tilde_callback. tilde_groups.
    destruct pr as [s |].
    + rewrite (dotted_nonempty s Hpr). cbn [attach]. tilde_texts.
    + cbn [truthy_group attach]. tilde_texts.
  - rewrite (match_TILDE_nid lead _ _ Hlead HnM).
    rewrite (match_XRANGEPLAIN_M_m_x _ _ x HnM Hnm Hx).
    cbn [at_end]. unfold tilde_callback. tilde_groups.
    rewrite (isX_x x Hx). tilde_texts.
  - rewrite (match_TILDE_nid lead _ _ Hlead HnM).
    rewrite (match_XRANGEPLAIN_M_m _ _ HnM Hnm).
    cbn [at_end]. unfold tilde_callback. tilde_groups. cbn [isX]. tilde_texts.
  - rewrite (match_TILDE_nid lead _ _ Hlead HnM).
    rewrite (match_XRANGEPLAIN_M_x _ x HnM Hx).
    cbn [at_end]. unfold tilde_callback. tilde_groups.
    rewrite (isX_x x Hx). tilde_texts.
  - pose proof (match_TILDE_nid lead (decimal M) "" Hlead HnM) as Hlone.
    rewrite append_nil_r in Hlone. rewrite Hlone.
    rewrite (match_XRANGEPLAIN_M _ HnM).
    cbn [at_end]. unfold tilde_callback. tilde_groups. cbn [isX]. tilde_texts.
  - split; vm_compute; reflexivity.
Qed.

Lemma tilde_rewrite_witness :
  replaceTilde "~>1.2.3-beta.1" = ">=1.2.3-beta.1 <1.3.0"
  /\ replaceTilde "~0.2.x" = ">=0.2.0 <0.3.0"
  /\ replaceTilde "~2" = ">=2.0.0 <3.0.0".
Proof.
  destruct (tilde_rewrite "~>" 1 2 3 (Some "beta.1") "x") as (H1 & _);
    [right; reflexivity | unfold MAX_SAFE_INTEGER; lia
    | unfold MAX_SAFE_INTEGER; lia | unfold MAX_SAFE_INTEGER; lia
    | reflexivity | left; reflexivity |].
  destruct (tilde_rewrite "~" 0 2 0 None "x") as (_ & H2 & _);
    [left; reflexivity | unfold MAX_SAFE_INTEGER; lia
    | unfold MAX_SAFE_INTEGER; lia | unfold MAX_SAFE_INTEGER; lia
    | exact I | left; reflexivity |].
  destruct (tilde_rewrite "~" 2 0 0 None "x") as (_ & _ & _ & _ & H3 & _);
    [left; reflexivity | unfold MAX_SAFE_INTEGER; lia
    | unfold MAX_SAFE_INTEGER; lia | unfold MAX_SAFE_INTEGER; lia
    | exact I | left; reflexivity |].
  split; [exact H1 | split; [exact H2 | exact H3]].
Defined.

(** ** The x-range rewrite *)

Lemma xid_start_not_operator (c : ascii) :
  is_xid_start c = true ->
  Ascii.eqb c "<" = false /\ Ascii.eqb c ">" = false /\ Ascii.eqb c "=" = false
  /\ is_space c = false.
Proof.
  destruct c as [[] [] [] [] [] [] [] []]; try discriminate;
    intros _; repeat split; reflexivity.
Qed.

Lemma match_GTLT_op (op tok : string) :
  xrange_operator op -> head_is is_xid_start tok = true ->
  match_GTLT (op ++ tok) = (op, tok).
Proof.
  intros Hop Htok. destruct tok as [| c r]; [discriminate |].
  cbn [head_is] in Htok.
  destruct (xid_start_not_operator c Htok) as (Hlt & Hgt & Heq & _).
  destruct Hop as [-> | [-> | [-> | [-> | [-> | ->]]]]];
    cbn [append]; unfold match_GTLT; cbn [Ascii.eqb Bool.eqb orb andb];
    rewrite ?Hlt, ?Hgt, ?Heq; reflexivity.
Qed.

Lemma trim_start_xid (tok : string) :
  head_is is_xid_start tok = true -> trim_start tok = tok.
Proof.
  destruct tok as [| c r]; [discriminate |]. cbn [head_is trim_start].
  intros H. destruct (xid_start_not_operator c H) as (_ & _ & _ & ->).
  reflexivity.
Qed.

Lemma operator_no_space (op : string) :
  xrange_operator op ->
  forallb_string (fun c => negb (is_space c)) op = true.
Proof. intros [-> | [-> | [-> | [-> | [-> | ->]]]]]; reflexivity. Qed.

(** [replaceXRange] on an operator followed by a token of XRANGEPLAIN. *)
Lemma replaceXRange_token (op tok : string) (g : xrange_groups) :
  xrange_operator op -> head_is is_xid_start tok = true ->
  forallb_string (fun c => negb (is_space c)) tok = true ->
  match_XRANGEPLAIN tok = Some (g, "") ->
  replaceXRange (op ++ tok) = xrange_callback (op ++ tok) op g.
Proof.
  intros Hop Hhead Hspace Hmatch. unfold replaceXRange.
  rewrite trim_no_space
    by (rewrite forallb_string_app, (operator_no_space op Hop), Hspace;
        reflexivity).
  unfold match_XRANGE. rewrite (match_GTLT_op op tok Hop Hhead).
  rewrite (trim_start_xid tok Hhead), Hmatch. reflexivity.
Qed.

Lemma nid_xid_start (a rest : string) :
  nid_ok a = true -> head_is is_xid_start (a ++ rest) = true.
Proof.
  intros Ha. destruct (nid_head a Ha) as (c & ds & -> & Hc).
  cbn [append head_is]. unfold is_xid_start. rewrite Hc. reflexivity.
Qed.

Lemma x_identifier_facts (x : string) :
  x_identifier x ->
  head_is is_xid_start x = true
  /\ forallb_string (fun c => negb (is_space c)) x = true
  /\ match_XRANGEPLAIN x
     = Some ({| x_M := x; x_m := None; x_p := None; x_pr := None;
                x_b := None |}, "").
Proof. intros [-> | [-> | ->]]; repeat split; reflexivity. Qed.

Ltac no_space_token :=
  repeat (progress (rewrite ?forallb_string_app; cbn [append forallb_string]));
  rewrite ?nid_ok_no_space by apply nid_ok_decimal;
  cbn [is_space negb andb Ascii.eqb Bool.eqb]; try reflexivity.

Ltac xrange_groups :=
  cbn [x_M x_m x_p x_pr to_str];
  rewrite ?isX_nid by apply nid_ok_decimal;
  rewrite ?plus_one_decimal by assumption.

Ltac xrange_operators Hop :=
  destruct Hop as [-> | [-> | [-> | [-> | [-> | ->]]]]];
  cbn [String.eqb Ascii.eqb Bool.eqb andb orb negb is_empty append to_str];
  rewrite ?plus_one_decimal by assumption;
  try caret_texts.

(** [replaceXRange], for main fields that a version can have and each of
    the operators "", "=", "<", ">", "<=", ">=": a partial version (M,
    M.x, M.m or M.m.x) becomes the bounds its operator asks for; a full
    version, with or without a prerelease, is left as it is; and a lone x
    becomes "<0.0.0" under "<" and ">" (nothing passes) and "*" under the
    other operators. *)
Theorem xrange_rewrite (op : string) (M m p : N) (pr : option string)
  (x : string) :
  xrange_operator op ->
  M <= MAX_SAFE_INTEGER -> m <= MAX_SAFE_INTEGER -> p <= MAX_SAFE_INTEGER ->
  match pr with
  | Some s => dotted_ok valid_pid s = true
  | None => True
  end ->
  x_identifier x ->
  replaceXRange (op ++ decimal M ++ "." ++ x) = xrange_bounds op M None
  /\ replaceXRange (op ++ decimal M) = xrange_bounds op M None
  /\ replaceXRange (op ++ decimal M ++ "." ++ decimal m ++ "." ++ x)
     = xrange_bounds op M (Some m)
  /\ replaceXRange (op ++ decimal M ++ "." ++ decimal m)
     = xrange_bounds op M (Some m)
  /\ replaceXRange (op ++ decimal M ++ "." ++ decimal m ++ "." ++ decimal p
                      ++ attach "-" pr)
     = op ++ decimal M ++ "." ++ decimal m ++ "." ++ decimal p ++ attach "-" pr
  /\ replaceXRange (op ++ x)
     = if String.eqb op ">" || String.eqb op "<" then "<0.0.0" else "*".
Proof.
  intros Hop HM Hm Hp Hpr Hx.
  pose proof (nid_ok_decimal M) as HnM. pose proof (nid_ok_decimal m) as Hnm.
  pose proof (nid_ok_decimal p) as Hnp.
  destruct (x_identifier_facts x Hx) as (Hxh & Hxs & Hxm).
  split; [| split; [| split; [| split; [| split]]]].
  - erewrite replaceXRange_token;
      [ | exact Hop | exact (nid_xid_start _ _ HnM) |
        | exact (match_XRANGEPLAIN_M_x _ x HnM Hx)].
    + unfold xrange_callback, xrange_bounds. xrange_groups.
      rewrite (isX_x x Hx). cbn [isX orb]. xrange_operators Hop.
    + no_space_token. exact Hxs.
  - erewrite replaceXRange_token;
      [ | exact Hop | | | exact (match_XRANGEPLAIN_M _ HnM)].
    + unfold xrange_callback, xrange_bounds. xrange_groups.
      cbn [isX orb]. xrange_operators Hop.
    + pose proof (nid_xid_start (decimal M) "" HnM) as H.
      rewrite append_nil_r in H. exact H.
    + exact (nid_ok_no_space _ HnM).
  - erewrite replaceXRange_token;
      [ | exact Hop | exact (nid_xid_start _ _ HnM) |
        | exact (match_XRANGEPLAIN_M_m_x _ _ x HnM Hnm Hx)].
    + unfold xrange_callback, xrange_bounds. xrange_groups.
      rewrite (isX_x x Hx). cbn [isX orb]. xrange_operators Hop.
    + no_space_token. exact Hxs.
  - erewrite replaceXRange_token;
      [ | exact Hop | exact (nid_xid_start _ _ HnM) |
        | exact (match_XRANGEPLAIN_M_m _ _ HnM Hnm)].
    + unfold xrange_callback, xrange_bounds. xrange_groups.
      cbn [isX orb]. xrange_operators Hop.
    + no_space_token.
  - erewrite replaceXRange_token;
      [ | exact Hop | exact (nid_xid_start _ _ HnM) |
        | exact (match_XRANGEPLAIN_M_m_p _ _ _ pr HnM Hnm Hnp Hpr)].
    + unfold xrange_callback. xrange_groups. cbn [isX orb].
      rewrite andb_false_r. cbn [andb]. reflexivity.
    + no_space_token. destruct pr as [s |]; cbn [attach forallb_string].
      * rewrite (dotted_ok_no_space _ _ Hpr). reflexivity.
      * reflexivity.
  - erewrite replaceXRange_token; [ | exact Hop | exact Hxh | exact Hxs | exact Hxm].
    unfold xrange_callback. cbn [x_M x_m x_p]. rewrite (isX_x x Hx).
    cbn [orb andb].
    destruct Hop as [-> | [-> | [-> | [-> | [-> | ->]]]]]; reflexivity.
Qed.

Lemma xrange_rewrite_witness :
  replaceXRange ">1.x" = ">=2.0.0"
  /\ replaceXRange "<=1.2" = "<1.3.0"
  /\ replaceXRange ">=1.2.3-rc.1" = ">=1.2.3-rc.1"
  /\ replaceXRange "<*" = "<0.0.0".
Proof.
  destruct (xrange_rewrite ">" 1 2 3 None "x") as (H1 & _);
    [right; right; right; left; reflexivity | unfold MAX_SAFE_INTEGER; lia
    | unfold MAX_SAFE_INTEGER; lia | unfold MAX_SAFE_INTEGER; lia
    | exact I | left; reflexivity |].
  destruct (xrange_rewrite "<=" 1 2 3 None "x") as (_ & _ & _ & H2 & _);
    [right; right; right; right; left; reflexivity | unfold MAX_SAFE_INTEGER; lia
    | unfold MAX_SAFE_INTEGER; lia | unfold MAX_SAFE_INTEGER; lia
    | exact I | left; reflexivity |].
  destruct (xrange_rewrite ">=" 1 2 3 (Some "rc.1") "*") as (_ & _ & _ & _ & H3 & _);
    [right; right; right; right; right; reflexivity | unfold MAX_SAFE_INTEGER; lia
    | unfold MAX_SAFE_INTEGER; lia | unfold MAX_SAFE_INTEGER; lia
    | reflexivity | right; right; reflexivity |].
  destruct (xrange_rewrite "<" 1 2 3 None "*") as (_ & _ & _ & _ & _ & H4);
    [right; right; left; reflexivity | unfold MAX_SAFE_INTEGER; lia
    | unfold MAX_SAFE_INTEGER; lia | unfold MAX_SAFE_INTEGER; lia
    | exact I | right; right; reflexivity |].
  split; [exact H1 | split; [exact H2 | split; [exact H3 | exact H4]]].
Defined.

(** ** Hyphen ranges *)

Lemma ends_token_facts (rest : string) :
  ends_token rest = true ->
  head_is is_digit rest = false /\ head_is is_idchar_or_dot rest = false
  /\ expect "." rest = None /\ match_prerelease rest = None
  /\ match_build rest = None.
Proof.
  destruct rest as [| c r]; [repeat split; reflexivity |]. cbn [ends_token].
  destruct c as [[] [] [] [] [] [] [] []]; try discriminate;
    intros _; repeat split; reflexivity.
Qed.

Lemma partial_text_head (v : partial_version) (rest : string) :
  exists c ds, partial_text v ++ rest = String c ds /\ is_digit c = true.
Proof.
  assert (H : forall n r, exists c ds, decimal n ++ r = String c ds
                                       /\ is_digit c = true).
  { intros n r. destruct (nid_head _ (nid_ok_decimal n)) as (c & ds & E & Hc).
    rewrite E. cbn [append]. eauto. }
  destruct v as [M m p pr | M m | M]; cbn [partial_text]; unfold triple_text;
    rewrite ?append_assoc; apply H.
Qed.

(** XRANGEPLAIN on the text of a partial version, followed by the end of
    the string or by white space. *)
Lemma match_XRANGEPLAIN_partial (v : partial_version) (rest : string) :
  partial_ok v -> ends_token rest = true ->
  match_XRANGEPLAIN (partial_text v ++ rest) = Some (partial_groups v, rest).
Proof.
  intros Hv Hrest.
  destruct (ends_token_facts rest Hrest) as (Hdigit & Hid & Hdot & Hpre & Hbuild).
  destruct v as [M m p pr | M m | M];
    cbn [partial_text partial_groups partial_ok] in *; unfold triple_text;
    norm_append; unfold match_XRANGEPLAIN.
  - destruct Hv as (_ & _ & _ & Hpr).
    rewrite (skip_prefix_nid _ _ (nid_ok_decimal M)),
      (match_xid_nid _ (String "." _) (nid_ok_decimal M) eq_refl).
    cbn [expect Ascii.eqb Bool.eqb].
    rewrite (match_xid_nid _ (String "." _) (nid_ok_decimal m) eq_refl).
    cbn [expect Ascii.eqb Bool.eqb].
    destruct pr as [s |]; cbn [attach append].
    + rewrite (match_xid_nid _ (String "-" _) (nid_ok_decimal p) eq_refl).
      unfold optional. unfold match_prerelease at 1.
      rewrite (match_dotted_complete "-" valid_pid s rest Hpr Hid).
      rewrite Hbuild. reflexivity.
    + rewrite (match_xid_nid _ rest (nid_ok_decimal p) Hdigit).
      unfold optional. rewrite Hpre, Hbuild. reflexivity.
  - rewrite (skip_prefix_nid _ _ (nid_ok_decimal M)),
      (match_xid_nid _ (String "." _) (nid_ok_decimal M) eq_refl).
    cbn [expect Ascii.eqb Bool.eqb].
    rewrite (match_xid_nid _ rest (nid_ok_decimal m) Hdigit).
    rewrite Hdot. reflexivity.
  - rewrite (skip_prefix_nid _ _ (nid_ok_decimal M)),
      (match_xid_nid _ rest (nid_ok_decimal M) Hdigit).
    rewrite Hdot. reflexivity.
Qed.

Lemma substring_prefix (a b : string) :
  substring 0 (String.length a) (a ++ b) = a.
Proof.
  induction a as [| c a IH]; cbn.
  - destruct b; reflexivity.
  - rewrite IH. reflexivity.
Qed.

Lemma consumed_prefix (a b : string) : consumed (a ++ b) b = a.
Proof.
  unfold consumed. rewrite length_append.
  replace (String.length a + String.length b - String.length b)%nat
    with (String.length a) by lia.
  apply substring_prefix.
Qed.

Lemma is_empty_app (a b : string) :
  is_empty b = false -> is_empty (a ++ b) = false.
Proof. destruct a; [intros H; exact H | reflexivity]. Qed.

Lemma trim_end_app (a b : string) :
  is_empty (trim_end b) = false -> trim_end (a ++ b) = a ++ trim_end b.
Proof.
  intros Hb. induction a as [| c a IH]; [reflexivity |].
  cbn [append trim_end]. rewrite IH, (is_empty_app a _ Hb), andb_false_r.
  reflexivity.
Qed.

(** Two texts without white space, joined by one space, are trimmed. *)
Lemma trim_joined (a b : string) :
  head_is (fun c => negb (is_space c)) a = true ->
  forallb_string (fun c => negb (is_space c)) b = true ->
  is_empty b = false ->
  trim (a ++ " " ++ b) = a ++ " " ++ b.
Proof.
  intros Ha Hb Hne. unfold trim.
  assert (Hstart : trim_start (a ++ " " ++ b) = a ++ " " ++ b).
  { destruct a as [| c a']; [discriminate |]. cbn [head_is] in Ha.
    cbn [append trim_start]. apply negb_true_iff in Ha. rewrite Ha.
    reflexivity. }
  rewrite Hstart.
  assert (Hend : trim_end (" " ++ b) = " " ++ b).
  { cbn [append trim_end]. rewrite (trim_end_no_space b Hb), Hne, andb_false_r.
    reflexivity. }
  rewrite trim_end_app; rewrite Hend; reflexivity.
Qed.


Lemma match_HYPHENRANGE_partial (a b : partial_version) :
  partial_ok a -> partial_ok b ->
  match_HYPHENRANGE (partial_text a ++ " - " ++ partial_text b)
  = Some ((partial_text a, partial_groups a), (partial_text b, partial_groups b)).
Proof.
  intros Ha Hb. unfold match_HYPHENRANGE.
  destruct (partial_text_head a (" - " ++ partial_text b)) as (c & ds & E & Hc).
  assert (Hstart : trim_start (partial_text a ++ " - " ++ partial_text b)
                   = partial_text a ++ " - " ++ partial_text b).
  { rewrite E. cbn [trim_start]. rewrite (digit_not_space c Hc). reflexivity. }
  rewrite Hstart.
  rewrite (match_XRANGEPLAIN_partial a (" - " ++ partial_text b) Ha eq_refl).
  rewrite consumed_prefix.
  destruct (partial_text_head b "") as (c' & ds' & E' & Hc').
  rewrite append_nil_r in E'.
  assert (Hs1 : spaces1 (" - " ++ partial_text b) = Some ("- " ++ partial_text b)).
  { reflexivity. }
  rewrite Hs1. cbn [append expect Ascii.eqb Bool.eqb].
  assert (Hs2 : spaces1 (String " " (partial_text b)) = Some (partial_text b)).
  { unfold spaces1. change (is_space " ") with true. cbn iota.
    rewrite E'. cbn [trim_start]. rewrite (digit_not_space c' Hc'). reflexivity. }
  rewrite Hs2.
  pose proof (match_XRANGEPLAIN_partial b "" Hb eq_refl) as Hmb.
  rewrite append_nil_r in Hmb. rewrite Hmb.
  cbn [trim_start is_empty].
  pose proof (consumed_prefix (partial_text b) "") as Hcb.
  rewrite append_nil_r in Hcb. rewrite Hcb. reflexivity.
Qed.

Lemma hyphen_lower_head (v : partial_version) :
  head_is (fun c => negb (is_space c)) (hyphen_lower v) = true.
Proof. destruct v; reflexivity. Qed.

Lemma hyphen_upper_nonempty (v : partial_version) :
  is_empty (hyphen_upper v) = false.
Proof. destruct v; reflexivity. Qed.

Lemma hyphen_upper_no_space (v : partial_version) :
  partial_ok v ->
  forallb_string (fun c => negb (is_space c)) (hyphen_upper v) = true.
Proof.
  destruct v as [M m p pr | M m | M]; cbn [partial_ok hyphen_upper];
    unfold triple_text; intros Hv; no_space_token.
  destruct Hv as (_ & _ & _ & Hpr).
  destruct pr as [s |]; cbn [attach forallb_string]; [| reflexivity].
  rewrite (dotted_ok_no_space _ _ Hpr). reflexivity.
Qed.

Lemma partial_ok_major (v : partial_version) :
  partial_ok v ->
  match v with
  | Full M m _ _ | MajorMinor M m => M <= MAX_SAFE_INTEGER /\ m <= MAX_SAFE_INTEGER
  | MajorOnly M => M <= MAX_SAFE_INTEGER
  end.
Proof. destruct v; cbn; tauto. Qed.

(** The two sides of a hyphen range, as [hyphenReplace] rewrites them. *)
Lemma hyphenReplace_partial (a b : partial_version) :
  partial_ok a -> partial_ok b ->
  hyphenReplace (partial_text a) (partial_groups a)
    (partial_text b) (partial_groups b)
  = trim (hyphen_lower a ++ " " ++ hyphen_upper b).
Proof.
  intros Ha Hb. unfold hyphenReplace. f_equal.
  assert (Hfrom :
    (if isX (Some (x_M (partial_groups a))) then ""
     else if isX (x_m (partial_groups a))
          then ">=" ++ to_str (Some (x_M (partial_groups a))) ++ ".0.0"
          else if isX (x_p (partial_groups a))
               then ">=" ++ to_str (Some (x_M (partial_groups a))) ++ "."
                      ++ to_str (x_m (partial_groups a)) ++ ".0"
               else ">=" ++ partial_text a) = hyphen_lower a).
  { destruct a as [M m p pr | M m | M];
      cbn [partial_groups partial_text hyphen_lower x_M x_m x_p to_str];
      rewrite ?isX_nid by apply nid_ok_decimal; cbn [isX];
      unfold triple_text; change (decimal 0) with "0"; norm_append; reflexivity. }
  assert (Hto :
    (if isX (Some (x_M (partial_groups b))) then ""
     else if isX (x_m (partial_groups b))
          then "<" ++ plus_one (Some (x_M (partial_groups b))) ++ ".0.0"
          else if isX (x_p (partial_groups b))
               then "<" ++ to_str (Some (x_M (partial_groups b))) ++ "."
                      ++ plus_one (x_m (partial_groups b)) ++ ".0"
               else if truthy_group (x_pr (partial_groups b))
                    then "<=" ++ to_str (Some (x_M (partial_groups b))) ++ "."
                           ++ to_str (x_m (partial_groups b)) ++ "."
                           ++ to_str (x_p (partial_groups b)) ++ "-"
                           ++ to_str (x_pr (partial_groups b))
                    else "<=" ++ partial_text b) = hyphen_upper b).
  { pose proof (partial_ok_major b Hb) as Hfields.
    destruct b as [M m p pr | M m | M];
      cbn [partial_groups partial_text hyphen_upper x_M x_m x_p x_pr to_str];
      rewrite ?isX_nid by apply nid_ok_decimal; cbn [isX].
    - destruct Hb as (_ & _ & _ & Hpr). destruct pr as [s |].
      + rewrite (dotted_nonempty s Hpr). cbn [attach to_str].
        unfold triple_text. norm_append. reflexivity.
      + reflexivity.
    - destruct Hfields as [_ Hm]. rewrite (plus_one_decimal m Hm).
      unfold triple_text. change (decimal 0) with "0". norm_append. reflexivity.
    - rewrite (plus_one_decimal M Hfields).
      unfold triple_text. change (decimal 0) with "0". norm_append. reflexivity. }
  rewrite Hfrom, Hto. reflexivity.
Qed.

(** A hyphen range between two versions, complete or partial, with main
    fields that a version can have: the left side gives the lower bound
    ">=" (missing components read as zeros), the right side gives "<=" the
    version when it is complete and "<" the next minor or major when it is
    partial.  The examples go through the whole range parser. *)
Theorem hyphen_rewrite (a b : partial_version) :
  partial_ok a -> partial_ok b ->
  replace_HYPHENRANGE (partial_text a ++ " - " ++ partial_text b)
  = hyphen_lower a ++ " " ++ hyphen_upper b
  /\ validRange (RStr "1.2.3 - 2.3.4") None = Some ">=1.2.3 <=2.3.4"
  /\ validRange (RStr "1.2 - 3.4.5") None = Some ">=1.2.0 <=3.4.5"
  /\ validRange (RStr "1.2.3 - 3.4") None = Some ">=1.2.3 <3.5.0"
  /\ satisfies (VStr "3.4.9") (RStr "1.2.3 - 3.4") None = Ok true
  /\ satisfies (VStr "3.5.0") (RStr "1.2.3 - 3.4") None = Ok false.
Proof.
  intros Ha Hb. split.
  - unfold replace_HYPHENRANGE.
    rewrite (match_HYPHENRANGE_partial a b Ha Hb).
    rewrite (hyphenReplace_partial a b Ha Hb).
    apply trim_joined.
    + apply hyphen_lower_head.
    + apply hyphen_upper_no_space. exact Hb.
    + apply hyphen_upper_nonempty.
  - repeat split; vm_compute; reflexivity.
Qed.

Lemma hyphen_rewrite_witness :
  replace_HYPHENRANGE "1.2.3-rc.1 - 2" = ">=1.2.3-rc.1 <3.0.0"
  /\ replace_HYPHENRANGE "1 - 2.3.4-beta" = ">=1.0.0 <=2.3.4-beta".
Proof.
  destruct (hyphen_rewrite (Full 1 2 3 (Some "rc.1")) (MajorOnly 2)) as (H1 & _);
    [cbn; unfold MAX_SAFE_INTEGER; repeat split; try lia
    | cbn; unfold MAX_SAFE_INTEGER; lia |].
  destruct (hyphen_rewrite (MajorOnly 1) (Full 2 3 4 (Some "beta"))) as (H2 & _);
    [cbn; unfold MAX_SAFE_INTEGER; lia
    | cbn; unfold MAX_SAFE_INTEGER; repeat split; try lia |].
  split; [exact H1 | exact H2].
Defined.

(** ** maxSatisfying *)

Lemma compare_objects_trans_le_lt (x y z : SemVer) :
  numbers_ok x = true -> numbers_ok y = true -> numbers_ok z = true ->
  (compare_objects x y <= 0)%Z -> compare_objects y z = (-1)%Z ->
  (compare_objects x z <= 0)%Z.
Proof.
  intros Nx Ny Nz Hxy Hyz.
  destruct (compare_objects_range x z) as [H | [H | H]]; try lia.
  exfalso.
  assert (Hzx : compare_objects z x = (-1)%Z)
    by (rewrite (compare_objects_antisym z x Nz Nx), H; reflexivity).
  pose proof (compare_objects_trans z x y Nz Nx Ny Hzx Hxy) as Hzy.
  rewrite (compare_objects_antisym z y Nz Ny), Hyz in Hzy. lia.
Qed.

Lemma maxSatisfying_step_maximal (r : Range) (o : option Options)
  (seen : list jsvalue) (st : scan_state) (x : jsvalue) :
  range_ok r -> valid_version x -> max_scan_invariant r seen st ->
  exists st', maxSatisfying_step r o st x = Ok st'
              /\ max_scan_invariant r (seen ++ [x])%list st'.
Proof.
  intros Hr [v Hx] Hinv. unfold maxSatisfying_step.
  destruct st as [max maxSV].
  rewrite (Range_test_denotes r x v Hr Hx). cbn [bind].
  pose proof (denotes_constructed x v Hx) as Hv.
  destruct (new_SemVer_denotes x v o Hx) as (svx & Hnew & Hcx & Hfx).
  destruct (range_accepts r v) eqn:Eacc.
  - destruct max as [m |], maxSV as [sv |]; cbn [max_scan_invariant] in Hinv;
      try contradiction.
    + destruct Hinv as (Hm & Hsv & vm & Hdm & Hfm & Haccm & Hhigh).
      cbn [falsy]. rewrite (denotes_truthy m vm Hdm). cbn [negb].
      rewrite (SemVer_compare_denotes sv x v Hx). cbn [bind].
      rewrite (compare_objects_fields_eq sv vm v v Hfm (fields_eq_refl v)).
      pose proof (denotes_constructed m vm Hdm) as Hvm.
      pose proof (constructed_numbers_ok v Hv) as Nv.
      pose proof (constructed_numbers_ok vm Hvm) as Nvm.
      destruct (Z.eqb_spec (compare_objects vm v) (-1)) as [E1 | NE1].
      * rewrite Hnew. cbn [bind]. eexists. split; [reflexivity |].
        cbn [max_scan_invariant].
        split; [apply in_or_app; right; left; reflexivity |].
        split; [exact Hcx |]. exists v. split; [exact Hx |].
        split; [exact Hfx |]. split; [exact Eacc |].
        intros x' v' Hin Hd' Hacc'. apply in_app_or in Hin as [Hin | [<- | []]].
        -- pose proof (constructed_numbers_ok v' (denotes_constructed x' v' Hd'))
             as Nv'.
           pose proof (Hhigh x' v' Hin Hd' Hacc') as Hle.
           rewrite (compare_objects_antisym vm v' Nvm Nv') in Hle.
           assert (Hle' : (compare_objects v' vm <= 0)%Z) by lia.
           pose proof (compare_objects_trans_le_lt v' vm v Nv' Nvm Nv Hle' E1)
             as Hres.
           rewrite (compare_objects_antisym v v' Nv Nv'). lia.
        -- rewrite (denotes_fun _ _ _ Hd' Hx), compare_objects_refl. lia.
      * eexists. split; [reflexivity |]. cbn [max_scan_invariant].
        split; [apply in_or_app; left; exact Hm |]. split; [exact Hsv |].
        exists vm. repeat (split; [assumption |]).
        intros x' v' Hin Hd' Hacc'. apply in_app_or in Hin as [Hin | [<- | []]].
        -- apply (Hhigh x' v'); assumption.
        -- rewrite (denotes_fun _ _ _ Hd' Hx).
           destruct (compare_objects_range vm v) as [H | [H | H]]; lia.
    + cbn [falsy]. rewrite Hnew. cbn [bind]. eexists. split; [reflexivity |].
      cbn [max_scan_invariant].
      split; [apply in_or_app; right; left; reflexivity |].
      split; [exact Hcx |]. exists v. split; [exact Hx |].
      split; [exact Hfx |]. split; [exact Eacc |].
      intros x' v' Hin Hd' Hacc'. apply in_app_or in Hin as [Hin | [<- | []]].
      * rewrite (Hinv x' v' Hin Hd') in Hacc'. discriminate.
      * rewrite (denotes_fun _ _ _ Hd' Hx), compare_objects_refl. lia.
  - eexists. split; [reflexivity |].
    destruct max as [m |], maxSV as [sv |]; cbn [max_scan_invariant] in Hinv |- *;
      try contradiction.
    + destruct Hinv as (Hm & Hsv & vm & Hdm & Hfm & Haccm & Hhigh).
      split; [apply in_or_app; left; exact Hm |]. split; [exact Hsv |].
      exists vm. repeat (split; [assumption |]).
      intros x' v' Hin Hd' Hacc'. apply in_app_or in Hin as [Hin | [<- | []]].
      * apply (Hhigh x' v'); assumption.
      * rewrite (denotes_fun _ _ _ Hd' Hx), Eacc in Hacc'. discriminate.
    + intros x' v' Hin Hd'. apply in_app_or in Hin as [Hin | [<- | []]].
      * apply (Hinv x' v'); assumption.
      * rewrite (denotes_fun _ _ _ Hd' Hx). exact Eacc.
Qed.

Lemma maxSatisfying_scan_maximal (r : Range) (o : option Options)
  (xs seen : list jsvalue) (st : scan_state) :
  range_ok r -> Forall valid_version xs -> max_scan_invariant r seen st ->
  exists st', forEach (maxSatisfying_step r o) xs st = Ok st'
              /\ max_scan_invariant r (seen ++ xs)%list st'.
Proof.
  intros Hr. revert seen st. induction xs as [| x xs IH]; intros seen st Hxs Hinv.
  - exists st. rewrite List.app_nil_r. auto.
  - inversion Hxs as [| ? ? Hx Hrest]; subst.
    destruct (maxSatisfying_step_maximal r o seen st x Hr Hx Hinv)
      as (st1 & Hstep & Hinv1).
    destruct (IH (seen ++ [x])%list st1 Hrest Hinv1) as (st' & Hscan & Hinv').
    exists st'. cbn [forEach]. rewrite Hstep. cbn [bind].
    rewrite <- List.app_assoc in Hinv'. auto.
Qed.

(** [maxSatisfying] on a list of valid versions returns [null] when no
    element satisfies the range (or the range cannot be built), and
    otherwise an element of the list that satisfies the range and that
    [compare] puts at or above every element of the list satisfying it. *)
Theorem maxSatisfying_is_maximal (xs : list jsvalue) (r : range_arg)
  (o : option Options) :
  range_arg_ok r -> Forall valid_version xs ->
  exists res, maxSatisfying xs r o = Ok res
    /\ match res with
       | None => forall x, In x xs -> satisfies x r o = Ok false
       | Some m =>
           In m xs /\ satisfies m r o = Ok true
           /\ forall x, In x xs -> satisfies x r o = Ok true ->
                exists c, compare m x o = Ok c /\ (0 <= c)%Z
       end.
Proof.
  intros Hr Hxs. unfold maxSatisfying.
  destruct (new_Range r o) as [rangeObj | e] eqn:Hnew.
  - assert (Hinit : max_scan_invariant rangeObj [] (None, None))
      by (cbn; intros x v []).
    destruct (maxSatisfying_scan_maximal rangeObj o xs [] (None, None)
                (proj1 (new_Range_inv r o rangeObj Hr Hnew)) Hxs Hinit)
      as (st' & Hscan & Hinv).
    rewrite Hscan. cbn [bind app] in *. exists (fst st'). split; [reflexivity |].
    destruct st' as [[m |] [sv |]]; cbn [fst max_scan_invariant] in *;
      try contradiction.
    + destruct Hinv as (Hin & _ & vm & Hm & _ & Hacc & Hmax).
      split; [exact Hin |]. split.
      { rewrite (satisfies_denotes m vm r o rangeObj Hr Hnew Hm).
        rewrite Hacc. reflexivity. }
      intros x Hx Hsat.
      rewrite Forall_forall in Hxs. destruct (Hxs x Hx) as [v Hv].
      rewrite (satisfies_denotes x v r o rangeObj Hr Hnew Hv) in Hsat.
      exists (compare_objects vm v). split.
      { exact (compare_denotes m x vm v o Hm Hv). }
      apply (Hmax x v Hx Hv). congruence.
    + intros x Hx. rewrite Forall_forall in Hxs. destruct (Hxs x Hx) as [v Hv].
      rewrite (satisfies_denotes x v r o rangeObj Hr Hnew Hv).
      rewrite (Hinv x v Hx Hv). reflexivity.
  - exists None. split; [reflexivity |].
    intros x _. apply satisfies_invalid_range. exists e. exact Hnew.
Qed.

Lemma maxSatisfying_is_maximal_witness :
  exists res,
    maxSatisfying [VStr "1.2.3"; VStr "1.9.0"; VStr "2.0.0"; VStr "1.9.1-rc"]
      (RStr "^1.2.0") None = Ok res
    /\ match res with
       | None => forall x,
           In x [VStr "1.2.3"; VStr "1.9.0"; VStr "2.0.0"; VStr "1.9.1-rc"] ->
           satisfies x (RStr "^1.2.0") None = Ok false
       | Some m =>
           In m [VStr "1.2.3"; VStr "1.9.0"; VStr "2.0.0"; VStr "1.9.1-rc"]
           /\ satisfies m (RStr "^1.2.0") None = Ok true
           /\ forall x,
                In x [VStr "1.2.3"; VStr "1.9.0"; VStr "2.0.0"; VStr "1.9.1-rc"] ->
                satisfies x (RStr "^1.2.0") None = Ok true ->
                exists c, compare m x None = Ok c /\ (0 <= c)%Z
       end.
Proof.
  assert (Hvalid : forall s v, new_SemVer (VStr s) None = Ok v ->
                               valid_version (VStr s)).
  { intros s v H. exists v. exact H. }
  apply (maxSatisfying_is_maximal
           [VStr "1.2.3"; VStr "1.9.0"; VStr "2.0.0"; VStr "1.9.1-rc"]
           (RStr "^1.2.0") None).
  - exact I.
  - repeat constructor.
    + let v := constructed "1.2.3" in apply (Hvalid _ v); vm_compute; reflexivity.
    + let v := constructed "1.9.0" in apply (Hvalid _ v); vm_compute; reflexivity.
    + let v := constructed "2.0.0" in apply (Hvalid _ v); vm_compute; reflexivity.
    + let v := constructed "1.9.1-rc" in apply (Hvalid _ v); vm_compute; reflexivity.
Defined.

(** ** The range of all versions *)

Lemma new_Range_any (s : string) (o : option Options) :
  any_text s -> new_Range (RStr s) o = Ok (any_range s (object_or_default o)).
Proof.
  intros [-> | [-> | [-> | [-> | [-> | ->]]]]]; destruct o as [[i] |];
    vm_compute; reflexivity.
Qed.

(** The ranges "*", "", "x", "X", "*.*" and "x.x.x" contain every valid
    version without a prerelease; a version with a prerelease is in them
    only under the option includePrerelease.  [validRange] prints each of
    them as "*". *)
Theorem any_range_accepts_releases (s : string) (x : jsvalue) (v : SemVer)
  (o : option Options) :
  any_text s -> denotes x v ->
  satisfies x (RStr s) o
  = Ok (negb (has_prerelease v) || includePrerelease (object_or_default o))
  /\ validRange (RStr s) o = Some "*".
Proof.
  intros Hs Hx. pose proof (new_Range_any s o Hs) as Hnew. split.
  - rewrite (satisfies_denotes x v (RStr s) o _ I Hnew Hx). f_equal.
    unfold range_accepts, any_range, set_accepts, comparator_accepts, anchors.
    cbn. rewrite !orb_false_r. reflexivity.
  - unfold validRange. rewrite Hnew. reflexivity.
Qed.

Lemma any_range_accepts_releases_witness :
  satisfies (VStr "1.2.3") (RStr "*") None = Ok true
  /\ satisfies (VStr "1.2.3-rc.1") (RStr "") None = Ok false
  /\ satisfies (VStr "1.2.3-rc.1") (RStr "x") (Some {| includePrerelease := true |})
     = Ok true.
Proof.
  split; [| split].
  - let v := constructed "1.2.3" in
    exact (proj1 (any_range_accepts_releases "*" (VStr "1.2.3") v None
                    (or_introl eq_refl) eq_refl)).
  - let v := constructed "1.2.3-rc.1" in
    exact (proj1 (any_range_accepts_releases "" (VStr "1.2.3-rc.1") v None
                    (or_intror (or_introl eq_refl)) eq_refl)).
  - let v := constructed "1.2.3-rc.1" in
    exact (proj1 (any_range_accepts_releases "x" (VStr "1.2.3-rc.1") v
                    (Some {| includePrerelease := true |})
                    (or_intror (or_intror (or_introl eq_refl))) eq_refl)).
Defined.

(** ** The option includePrerelease *)

Lemma mapM_map {A B : Type} (f g : A -> result B) (h : B -> B) (xs : list A)
  (bs : list B) :
  (forall x b, f x = Ok b -> g x = Ok (h b)) ->
  mapM f xs = Ok bs -> mapM g xs = Ok (map h bs).
Proof.
  intros Hfg. revert bs. induction xs as [| x xs IH]; intros bs; cbn [mapM].
  - intros H. injection H as <-. reflexivity.
  - destruct (f x) as [b |] eqn:Ef; cbn [bind]; [| discriminate].
    destruct (mapM f xs) as [bs' |]; cbn [bind]; [| discriminate].
    intros H. injection H as <-.
    rewrite (Hfg x b Ef), (IH bs' eq_refl). reflexivity.
Qed.

Lemma new_Comparator_options (comp : string) (o o' : Options) (c : Comparator) :
  new_Comparator comp (Some o) = Ok c ->
  new_Comparator comp (Some o') = Ok (comparator_with_options o' c).
Proof.
  unfold new_Comparator. cbn [object_or_default].
  destruct (match_COMPARATOR comp) as [[m1 m2] |]; [| discriminate].
  destruct m2 as [m2 |].
  - destruct (is_empty m2).
    + intros H. injection H as <-. reflexivity.
    + destruct (new_SemVer (VStr m2) (Some o)) as [sv |] eqn:Esv; cbn [bind];
        [| discriminate].
      intros H. injection H as <-.
      rewrite (new_SemVer_options (VStr m2) (Some o) (Some o') sv Esv).
      reflexivity.
  - intros H. injection H as <-. reflexivity.
Qed.

Lemma parseRange_options (o o' : Options) (s : string) (cs : list Comparator) :
  parseRange o s = Ok cs ->
  parseRange o' s = Ok (map (comparator_with_options o') cs).
Proof.
  unfold parseRange. apply mapM_map. intros comp c.
  apply new_Comparator_options.
Qed.

Lemma filter_map_nonempty {A : Type} (h : A -> A) (sets : list (list A)) :
  filter (fun c => negb (is_nil c)) (map (map h) sets)
  = map (map h) (filter (fun c => negb (is_nil c)) sets).
Proof.
  induction sets as [| g sets IH]; [reflexivity |]. cbn [map filter].
  destruct g; cbn [map is_nil negb]; rewrite IH; reflexivity.
Qed.

Lemma format_range_options (o : Options) (sets : list (list Comparator)) :
  format_range (map (map (comparator_with_options o)) sets) = format_range sets.
Proof.
  unfold format_range. do 2 f_equal. rewrite map_map.
  apply map_ext. intros comps. rewrite map_map. reflexivity.
Qed.

Lemma new_Range_of_string_options (s : string) (o o' : Options) (r : Range) :
  new_Range_of_string s o = Ok r ->
  new_Range_of_string s o' = Ok (range_with_options o' r).
Proof.
  unfold new_Range_of_string.
  destruct (mapM (fun r0 => parseRange o (trim r0)) (split_or s)) as [sets |] eqn:E;
    cbn [bind]; [| discriminate].
  rewrite (mapM_map _ (fun r0 => parseRange o' (trim r0))
             (map (comparator_with_options o')) _ sets
             (fun x b => parseRange_options o o' (trim x) b) E).
  cbn [bind]. rewrite filter_map_nonempty.
  destruct (filter (fun c => negb (is_nil c)) sets) as [| g gs] eqn:Ef;
    [discriminate |].
  cbn [is_nil map]. intros H. injection H as <-.
  unfold range_with_options. cbn [range range_raw set]. f_equal. f_equal.
  exact (format_range_options o' (g :: gs)).
Qed.

Lemma forallb_map_ext {A B : Type} (f : B -> bool) (g : A -> bool) (h : A -> B)
  (l : list A) :
  (forall x, f (h x) = g x) -> forallb f (map h l) = forallb g l.
Proof.
  intros H. induction l as [| x l IH]; [reflexivity |].
  cbn [map forallb]. rewrite H, IH. reflexivity.
Qed.

Lemma existsb_map_ext {A B : Type} (f : B -> bool) (g : A -> bool) (h : A -> B)
  (l : list A) :
  (forall x, f (h x) = g x) -> existsb f (map h l) = existsb g l.
Proof.
  intros H. induction l as [| x l IH]; [reflexivity |].
  cbn [map existsb]. rewrite H, IH. reflexivity.
Qed.

Lemma set_accepts_with_options (include : bool) (o : Options)
  (g : list Comparator) (v : SemVer) :
  set_accepts include (map (comparator_with_options o) g) v
  = set_accepts include g v.
Proof.
  unfold set_accepts. f_equal.
  - apply forallb_map_ext. intros c. unfold comparator_accepts.
    cbn [comparator_with_options semver operator]. destruct (semver c); reflexivity.
  - f_equal. apply existsb_map_ext. intros c. unfold anchors.
    cbn [comparator_with_options semver]. destruct (semver c); reflexivity.
Qed.

Lemma range_accepts_range_with_options (o : Options) (r : Range) (v : SemVer) :
  range_accepts (range_with_options o r) v
  = existsb (fun g => set_accepts (includePrerelease o) g v) (set r).
Proof.
  unfold range_accepts, range_with_options. cbn [set range_options].
  apply existsb_map_ext. intros g. apply set_accepts_with_options.
Qed.

Lemma set_accepts_include (include : bool) (g : list Comparator) (v : SemVer) :
  set_accepts include g v = true -> set_accepts true g v = true.
Proof.
  unfold set_accepts. intros H. apply andb_prop in H as [H _]. rewrite H.
  rewrite orb_true_r. reflexivity.
Qed.

Lemma set_accepts_release (i i' : bool) (g : list Comparator) (v : SemVer) :
  has_prerelease v = false -> set_accepts i g v = set_accepts i' g v.
Proof. unfold set_accepts. intros ->. reflexivity. Qed.

Lemma new_Range_options (s : string) (o o' : option Options) :
  match new_Range (RStr s) o with
  | Ok r => new_Range (RStr s) o' = Ok (range_with_options (object_or_default o') r)
  | Throw _ => throws (new_Range (RStr s) o')
  end.
Proof.
  cbn [new_Range].
  destruct (new_Range_of_string s (object_or_default o)) as [r | e] eqn:E.
  - exact (new_Range_of_string_options s _ _ r E).
  - destruct (new_Range_of_string s (object_or_default o')) as [r' | e'] eqn:E'.
    + rewrite (new_Range_of_string_options s _ (object_or_default o) r' E') in E.
      discriminate.
    + exists e'. reflexivity.
Qed.

(** The options of a range given as a string change nothing but the
    treatment of prereleases: a valid version that satisfies the range
    still satisfies it under includePrerelease; for a version without a
    prerelease [satisfies] does not depend on the options at all; and
    [validRange] prints the same range under all options. *)
Theorem includePrerelease_only_adds (x : jsvalue) (v : SemVer) (s : string)
  (o o' : option Options) :
  denotes x v ->
  (includePrerelease (object_or_default o') = true ->
   satisfies x (RStr s) o = Ok true -> satisfies x (RStr s) o' = Ok true)
  /\ (has_prerelease v = false ->
      satisfies x (RStr s) o' = satisfies x (RStr s) o)
  /\ validRange (RStr s) o' = validRange (RStr s) o.
Proof.
  intros Hx. pose proof (new_Range_options s o o') as Hopt.
  destruct (new_Range (RStr s) o) as [r | e] eqn:Hnew.
  - pose proof (satisfies_denotes x v (RStr s) o r I Hnew Hx) as Hsat.
    pose proof (satisfies_denotes x v (RStr s) o' _ I Hopt Hx) as Hsat'.
    rewrite range_accepts_range_with_options in Hsat'.
    rewrite Hsat, Hsat'. clear Hsat Hsat'. unfold range_accepts. split; [| split].
    + intros Hinc Hacc. injection Hacc as Hacc. f_equal. rewrite Hinc.
      apply existsb_exists in Hacc as (g & Hg & Hacc).
      apply existsb_exists. exists g. split; [exact Hg |].
      exact (set_accepts_include _ g v Hacc).
    + intros Hrel. f_equal. induction (set r) as [| g gs IH]; [reflexivity |].
      cbn [existsb]. rewrite IH.
      rewrite (set_accepts_release _ (includePrerelease (range_options r)) g v Hrel).
      reflexivity.
    + unfold validRange. rewrite Hnew, Hopt. reflexivity.
  - destruct Hopt as [e' Hnew']. split; [| split].
    + intros _ H. unfold satisfies in H. rewrite Hnew in H. discriminate.
    + intros _. unfold satisfies. rewrite Hnew, Hnew'. reflexivity.
    + unfold validRange. rewrite Hnew, Hnew'. reflexivity.
Qed.

Lemma includePrerelease_only_adds_witness :
  satisfies (VStr "1.2.3") (RStr "^1.2.0") (Some {| includePrerelease := true |})
  = Ok true
  /\ validRange (RStr "^1.2.0") (Some {| includePrerelease := true |})
     = validRange (RStr "^1.2.0") None.
Proof.
  let v := constructed "1.2.3" in
  destruct (includePrerelease_only_adds (VStr "1.2.3") v "^1.2.0" None
              (Some {| includePrerelease := true |}) eq_refl)
    as (Hadd & _ & Hprint).
  split; [| exact Hprint].
  apply Hadd; [reflexivity | vm_compute; reflexivity].
Defined.

(** ** compareBuild *)

Lemma compareBuild_loop_antisym (a b : list string) :
  compareBuild_loop a b = (- compareBuild_loop b a)%Z.
Proof.
  revert b. induction a as [| x a IH]; intros [| y b]; cbn [compareBuild_loop];
    try reflexivity.
  rewrite (String.eqb_sym y x). destruct (String.eqb x y); [apply IH |].
  apply compareIdentifiers_antisym; reflexivity.
Qed.

Lemma compareBuild_loop_refl (a : list string) : compareBuild_loop a a = 0%Z.
Proof.
  induction a as [| x a IH]; [reflexivity |]. cbn [compareBuild_loop].
  rewrite String.eqb_refl. exact IH.
Qed.

Lemma compareBuild_constructed (x y : jsvalue) (o : option Options)
  (sx sy : SemVer) :
  new_SemVer x o = Ok sx -> new_SemVer y o = Ok sy ->
  compareBuild x y o
  = Ok (if (compare_objects sx sy =? 0)%Z
        then compareBuild_loop (build sx) (build sy)
        else compare_objects sx sy).
Proof.
  intros Hsx Hsy.
  unfold compareBuild, SemVer_compare, SemVer_compareBuild, as_SemVer.
  rewrite Hsx, Hsy. cbn [bind]. fold (compare_objects sx sy).
  destruct (compare_objects sx sy =? 0)%Z; reflexivity.
Qed.

(** [compareBuild] on two valid versions: it returns what [compare]
    returns when that is not 0, and looks at the build metadata only among
    versions that [compare] finds equal; it is antisymmetric; a version
    compares 0 with itself; and on two SemVer objects it is [compare],
    because the constructor it calls reads an object through its [version]
    string, which has no build metadata. *)
Theorem compareBuild_refines_compare (x y : jsvalue) (o : option Options) :
  valid_version x -> valid_version y ->
  exists c b : Z,
    compare x y o = Ok c /\ compareBuild x y o = Ok b
    /\ (c <> 0%Z -> b = c)
    /\ compareBuild y x o = Ok (- b)%Z
    /\ compareBuild x x o = Ok 0%Z
    /\ match x, y with
       | VSemVer _, VSemVer _ => b = c
       | _, _ => True
       end.
Proof.
  intros [vx Hx] [vy Hy].
  destruct (new_SemVer_denotes x vx o Hx) as (sx & Hsx & Hcx & Hfx).
  destruct (new_SemVer_denotes y vy o Hy) as (sy & Hsy & Hcy & Hfy).
  pose proof (constructed_numbers_ok sx Hcx) as Nx.
  pose proof (constructed_numbers_ok sy Hcy) as Ny.
  pose proof (compare_objects_antisym sy sx Ny Nx) as Hanti.
  exists (compare_objects sx sy).
  exists (if (compare_objects sx sy =? 0)%Z
          then compareBuild_loop (build sx) (build sy)
          else compare_objects sx sy).
  split; [exact (compare_constructed x y o sx sy Hsx Hsy) |].
  rewrite (compareBuild_constructed x y o sx sy Hsx Hsy).
  rewrite (compareBuild_constructed y x o sy sx Hsy Hsx).
  rewrite (compareBuild_constructed x x o sx sx Hsx Hsx).
  rewrite compare_objects_refl, compareBuild_loop_refl. cbn [Z.eqb].
  split; [reflexivity |]. split.
  { intros Hc. destruct (Z.eqb_spec (compare_objects sx sy) 0); congruence. }
  split.
  { rewrite Hanti.
    destruct (compare_objects_range sx sy) as [-> | [-> | ->]]; cbn [Z.eqb Z.opp];
      try reflexivity.
    rewrite (compareBuild_loop_antisym (build sy) (build sx)). reflexivity. }
  split; [reflexivity |].
  destruct x as [| v0 | |]; try exact I. destruct y as [| w0 | |]; try exact I.
  destruct Hx as [-> Hvx], Hy as [-> Hvy]. destruct Hvx as (x0 & o0 & Hx0).
  destruct Hvy as (y0 & o1 & Hy0).
  rewrite (new_SemVer_roundtrip x0 o0 o vx Hx0) in Hsx.
  rewrite (new_SemVer_roundtrip y0 o1 o vy Hy0) in Hsy.
  injection Hsx as <-. injection Hsy as <-. cbn [canonical build].
  destruct (compare_objects _ _ =? 0)%Z eqn:E; [| reflexivity].
  apply Z.eqb_eq in E. cbn [compareBuild_loop]. symmetry. exact E.
Qed.

Lemma compareBuild_refines_compare_witness :
  exists c b : Z,
    compare (VStr "1.0.0+build.1") (VStr "1.0.0+build.2") None = Ok c
    /\ compareBuild (VStr "1.0.0+build.1") (VStr "1.0.0+build.2") None = Ok b
    /\ (c <> 0%Z -> b = c)
    /\ compareBuild (VStr "1.0.0+build.2") (VStr "1.0.0+build.1") None
       = Ok (- b)%Z
    /\ compareBuild (VStr "1.0.0+build.1") (VStr "1.0.0+build.1") None = Ok 0%Z
    /\ True.
Proof.
  apply (compareBuild_refines_compare (VStr "1.0.0+build.1")
           (VStr "1.0.0+build.2") None).
  - let v := constructed "1.0.0+build.1" in exists v; vm_compute; reflexivity.
  - let v := constructed "1.0.0+build.2" in exists v; vm_compute; reflexivity.
Defined.

(** ** SemVer.inc *)

Lemma compare_objects_main_greater (a b : SemVer) :
  main_ok a -> main_ok b ->
  major b < major a
  \/ (major a = major b /\ minor b < minor a)
  \/ (major a = major b /\ minor a = minor b /\ patch b < patch a) ->
  compare_objects a b = 1%Z.
Proof.
  intros Ha Hb H. unfold compare_objects. rewrite (compareMain_sign a b Ha Hb).
  destruct H as [H | [[E H] | (E1 & E2 & H)]].
  - apply N.compare_gt_iff in H. rewrite H. reflexivity.
  - rewrite E, N.compare_refl. apply N.compare_gt_iff in H. rewrite H. reflexivity.
  - rewrite E1, E2, !N.compare_refl. apply N.compare_gt_iff in H. rewrite H.
    reflexivity.
Qed.

Lemma compare_objects_release_above (a b : SemVer) :
  same_main a b = true -> prerelease a = [] -> prerelease b <> [] ->
  compare_objects a b = 1%Z.
Proof.
  intros Hm Ha Hb. unfold compare_objects, comparePre.
  rewrite (compareMain_same a b Hm), Ha.
  destruct (prerelease b); [contradiction | reflexivity].
Qed.

Lemma compare_objects_prerelease_above (a b : SemVer) :
  same_main a b = true -> comparePre_loop (prerelease a) (prerelease b) = 1%Z ->
  prerelease a <> [] -> prerelease b <> [] ->
  compare_objects a b = 1%Z.
Proof.
  intros Hm Hloop Ha Hb. unfold compare_objects, comparePre.
  rewrite (compareMain_same a b Hm).
  destruct (prerelease a); [contradiction |].
  destruct (prerelease b); [contradiction |]. exact Hloop.
Qed.

Lemma comparePre_loop_longer (l : list ident) (y : ident) :
  comparePre_loop (l ++ [y])%list l = 1%Z.
Proof.
  induction l as [| x l IH]; [reflexivity |].
  cbn [app comparePre_loop]. rewrite ident_eqb_refl. exact IH.
Qed.

Lemma comparePre_loop_incr_last (l l' : list ident) :
  forallb number_identifier_ok l = true -> incr_last_number l = Some l' ->
  comparePre_loop l' l = 1%Z /\ l' <> [].
Proof.
  revert l'. induction l as [| x l IH]; intros l' Hok; cbn [incr_last_number];
    [discriminate |].
  cbn [forallb] in Hok. apply andb_prop in Hok as [Hx Hl].
  destruct (incr_last_number l) as [xs' |].
  - intros H. injection H as <-. split; [| discriminate].
    cbn [comparePre_loop]. rewrite ident_eqb_refl.
    exact (proj1 (IH xs' Hl eq_refl)).
  - destruct x as [n | s]; [| discriminate].
    intros H. injection H as <-. split; [| discriminate].
    cbn [number_identifier_ok] in Hx. apply N.ltb_lt in Hx.
    pose proof pow53 as Hp. unfold MAX_SAFE_INTEGER in Hx.
    rewrite incr_safe by (unfold MAX_SAFE_INTEGER; lia).
    cbn [comparePre_loop ident_eqb].
    destruct (N.eqb_spec (n + 1) n) as [E | _]; [lia |].
    rewrite compareIdentifiers_numbers by lia.
    assert (Hgt : (n + 1 ?= n) = Gt) by (apply N.compare_gt_iff; lia).
    rewrite Hgt. reflexivity.
Qed.

Lemma same_main_refl (v : SemVer) : same_main v v = true.
Proof. unfold same_main. rewrite !N.eqb_refl. reflexivity. Qed.

Lemma numbers_ok_fields (v : SemVer) :
  numbers_ok v = true ->
  major v <= MAX_SAFE_INTEGER /\ minor v <= MAX_SAFE_INTEGER
  /\ patch v <= MAX_SAFE_INTEGER
  /\ forallb number_identifier_ok (prerelease v) = true.
Proof.
  unfold numbers_ok. intros H.
  apply andb_prop in H as [H Hpre]. apply andb_prop in H as [H Hp].
  apply andb_prop in H as [HM Hm].
  apply N.leb_le in HM, Hm, Hp. auto.
Qed.

Ltac inc_fields :=
  cbn [major minor patch prerelease finish_inc with_main inc_pre inc_patch
       inc_minor inc_major].

Ltac main_greater IM Im Ip :=
  apply compare_objects_main_greater;
  [ unfold main_ok; inc_fields; rewrite ?IM, ?Im, ?Ip; lia
  | assumption
  | inc_fields; rewrite ?IM, ?Im, ?Ip; lia ].

(** [inc] with one of the release types major, minor, patch, premajor,
    preminor, prepatch and prerelease, and no identifier, returns a
    version that [compare] puts strictly above the version it started
    from.  With an identifier this can fail: the prerelease list is
    replaced, and the result can be lower. *)
Theorem inc_increases (x : jsvalue) (v : SemVer) (r : string)
  (o : option Options) :
  new_SemVer x o = Ok v -> release_type r ->
  (exists v', SemVer_inc v r None = Ok v'
              /\ SemVer_compare v' (VSemVer v) = Ok 1%Z
              /\ inc x r (OptionsGiven o) None = Some (version v'))
  /\ inc (VStr "1.0.0-beta.1") "prerelease" (IdentifierGiven "alpha") None
     = Some "1.0.0-alpha.0"
  /\ compare (VStr "1.0.0-alpha.0") (VStr "1.0.0-beta.1") None = Ok (-1)%Z.
Proof.
  intros Hnew Hr.
  assert (Hok : numbers_ok v = true)
    by (apply constructed_numbers_ok; exists x, o; exact Hnew).
  assert (Hinc : exists v', SemVer_inc v r None = Ok v'
                            /\ SemVer_compare v' (VSemVer v) = Ok 1%Z).
  {
  destruct (numbers_ok_fields v Hok) as (HM & Hm & Hp & Hpre).
  pose proof (numbers_ok_main v Hok) as Hmain.
  pose proof pow53 as Hp53. unfold MAX_SAFE_INTEGER in HM, Hm, Hp.
  pose proof (incr_safe (major v)) as IM. pose proof (incr_safe (minor v)) as Im.
  pose proof (incr_safe (patch v)) as Ip. unfold MAX_SAFE_INTEGER in IM, Im, Ip.
  specialize (IM HM). specialize (Im Hm). specialize (Ip Hp).
  unfold main_ok in Hmain.
  destruct Hr as [-> | [-> | [-> | [-> | [-> | [-> | ->]]]]]];
    eexists; (split; [reflexivity |]);
    change (SemVer_compare ?a (VSemVer ?b)) with (Ok (compare_objects a b));
    f_equal.
  - unfold inc_major.
    destruct (negb (minor v =? 0) || negb (patch v =? 0) || is_nil (prerelease v)) eqn:E.
    + main_greater IM Im Ip.
    + apply orb_false_elim in E as [E E3]. apply orb_false_elim in E as [E1 E2].
      apply negb_false_iff, N.eqb_eq in E1, E2.
      apply compare_objects_release_above.
      * unfold same_main. cbn. rewrite E1, E2, N.eqb_refl. reflexivity.
      * reflexivity.
      * destruct (prerelease v); [discriminate | discriminate].
  - unfold inc_minor.
    destruct (negb (patch v =? 0) || is_nil (prerelease v)) eqn:E.
    + main_greater IM Im Ip.
    + apply orb_false_elim in E as [E2 E3].
      apply negb_false_iff, N.eqb_eq in E2.
      apply compare_objects_release_above.
      * unfold same_main. cbn. rewrite E2, !N.eqb_refl. reflexivity.
      * reflexivity.
      * destruct (prerelease v); [discriminate | discriminate].
  - unfold inc_patch. destruct (prerelease v) as [| h l] eqn:E.
    + main_greater IM Im Ip.
    + apply compare_objects_release_above.
      * unfold same_main. cbn. rewrite !N.eqb_refl. reflexivity.
      * reflexivity.
      * rewrite E. discriminate.
  - main_greater IM Im Ip.
  - main_greater IM Im Ip.
  - main_greater IM Im Ip.
  - destruct (prerelease v) as [| h l] eqn:E.
    + unfold inc_patch. rewrite E. main_greater IM Im Ip.
    + assert (Hpre1 :
        prerelease (finish_inc (inc_pre v None))
        = match incr_last_number (h :: l) with
          | Some l' => l'
          | None => ((h :: l) ++ [INum 0])%list
          end).
      { inc_fields. rewrite E. reflexivity. }
      apply compare_objects_prerelease_above.
      * unfold same_main. inc_fields. rewrite !N.eqb_refl. reflexivity.
      * rewrite Hpre1, E.
        destruct (incr_last_number (h :: l)) as [l' |] eqn:El.
        -- exact (proj1 (comparePre_loop_incr_last _ l' Hpre El)).
        -- apply comparePre_loop_longer.
      * rewrite Hpre1.
        destruct (incr_last_number (h :: l)) as [l' |] eqn:El.
        -- exact (proj2 (comparePre_loop_incr_last _ l' Hpre El)).
        -- discriminate.
      * rewrite E. discriminate.
  }
  destruct Hinc as (v' & Hinc & Hcmp). split.
  - exists v'. split; [exact Hinc |]. split; [exact Hcmp |].
    unfold inc. rewrite Hnew. cbn [bind]. rewrite Hinc. reflexivity.
  - split; vm_compute; reflexivity.
Qed.

Lemma inc_increases_witness :
  inc (VStr "1.2.3-rc.1") "prerelease" (OptionsGiven None) None
  = Some "1.2.3-rc.2"
  /\ compare (VStr "1.2.3-rc.2") (VStr "1.2.3-rc.1") None = Ok 1%Z.
Proof.
  let v := constructed "1.2.3-rc.1" in
  destruct (proj1 (inc_increases (VStr "1.2.3-rc.1") v "prerelease" None eq_refl
                     (or_intror (or_intror (or_intror (or_intror (or_intror
                        (or_intror eq_refl))))))))
    as (v' & Hinc & _ & Hpublic).
  vm_compute in Hinc. injection Hinc as <-.
  split; [exact Hpublic | vm_compute; reflexivity].
Defined.

(** ** The range parser on plain comparators *)

(** *** Splitting and joining *)

Lemma token_char_facts (c : ascii) :
  token_char c = true ->
  is_space c = false /\ Ascii.eqb c "|" = false /\ Ascii.eqb c "*" = false
  /\ Ascii.eqb c " " = false.
Proof.
  destruct c as [[] [] [] [] [] [] [] []]; try discriminate;
    intros _; repeat split; reflexivity.
Qed.

Lemma token_ok_inv (s : string) :
  token_ok s = true ->
  exists c s', s = String c s' /\ token_char c = true
               /\ forallb_string token_char s' = true.
Proof.
  unfold token_ok. destruct s as [| c s']; [discriminate |].
  cbn [is_empty negb andb forallb_string]. intros H.
  apply andb_prop in H as [Hc Hs]. eauto.
Qed.

Lemma token_no_space (s : string) :
  forallb_string token_char s = true ->
  forallb_string (fun c => negb (is_space c)) s = true.
Proof.
  apply forallb_string_impl. intros c Hc.
  destruct (token_char_facts c Hc) as (-> & _). reflexivity.
Qed.

Lemma split_or_aux_step (c : ascii) (s cur ws : string) :
  Ascii.eqb c "|" = false ->
  split_or_aux (String c s) cur ws false
  = if is_space c then split_or_aux s cur (ws ++ String c "") false
    else split_or_aux s (cur ++ ws ++ String c "") "" false.
Proof.
  destruct c as [[] [] [] [] [] [] [] []]; try discriminate;
    intros _; reflexivity.
Qed.

Lemma split_or_no_bar (s cur ws : string) :
  forallb_string (fun c => negb (Ascii.eqb c "|")) s = true ->
  split_or_aux s cur ws false = [cur ++ ws ++ s].
Proof.
  revert cur ws. induction s as [| c s IH]; intros cur ws H.
  - cbn [split_or_aux]. rewrite append_nil_r. reflexivity.
  - cbn [forallb_string] in H. apply andb_prop in H as [Hc Hs].
    apply negb_true_iff in Hc. rewrite (split_or_aux_step c s cur ws Hc).
    destruct (is_space c); rewrite (IH _ _ Hs); norm_append;
      rewrite ?append_nil_r; reflexivity.
Qed.

Lemma join_cons2 (sep x y : string) (l : list string) :
  join sep (x :: y :: l) = x ++ sep ++ join sep (y :: l).
Proof. reflexivity. Qed.

Lemma split_ws_aux_token (t rest cur : string) (b : bool) :
  token_ok t = true ->
  split_ws_aux (t ++ rest) cur b = split_ws_aux rest (cur ++ t) false.
Proof.
  intros Ht. destruct (token_ok_inv t Ht) as (c & t' & -> & Hc & Ht').
  destruct (token_char_facts c Hc) as (Hsp & _).
  cbn [append split_ws_aux]. rewrite Hsp.
  assert (Hrun : forall u cur0, forallb_string token_char u = true ->
            split_ws_aux (u ++ rest) cur0 false
            = split_ws_aux rest (cur0 ++ u) false).
  { induction u as [| d u IH]; intros cur0 Hu.
    - cbn [append]. rewrite append_nil_r. reflexivity.
    - cbn [forallb_string] in Hu. apply andb_prop in Hu as [Hd Hu].
      destruct (token_char_facts d Hd) as (Hd' & _).
      cbn [append split_ws_aux]. rewrite Hd', (IH _ Hu).
      norm_append. reflexivity. }
  rewrite (Hrun t' _ Ht'). norm_append. reflexivity.
Qed.

Lemma split_ws_join (t : string) (l : list string) (b : bool) :
  forallb token_ok (t :: l) = true ->
  split_ws_aux (join " " (t :: l)) "" b = t :: l.
Proof.
  revert t b. induction l as [| t' l IH]; intros t b H;
    cbn [forallb] in H; apply andb_prop in H as [Ht Hl].
  - cbn [join String.concat].
    pose proof (split_ws_aux_token t "" "" b Ht) as E.
    rewrite append_nil_r in E. rewrite E. reflexivity.
  - rewrite join_cons2, (split_ws_aux_token t _ "" b Ht).
    cbn [append split_ws_aux is_space]. change (is_space " ") with true.
    cbn iota. rewrite (IH t' true Hl). reflexivity.
Qed.

Lemma split_char_aux_token (t rest cur : string) :
  forallb_string token_char t = true ->
  split_char_aux " " (t ++ rest) cur = split_char_aux " " rest (cur ++ t).
Proof.
  revert cur. induction t as [| d t IH]; intros cur Ht.
  - cbn [append]. rewrite append_nil_r. reflexivity.
  - cbn [forallb_string] in Ht. apply andb_prop in Ht as [Hd Ht].
    destruct (token_char_facts d Hd) as (_ & _ & _ & Hd').
    cbn [append split_char_aux]. rewrite Hd', (IH _ Ht).
    norm_append. reflexivity.
Qed.

Lemma split_char_join (t : string) (l : list string) :
  forallb token_ok (t :: l) = true ->
  split_char " " (join " " (t :: l)) = t :: l.
Proof.
  unfold split_char. revert t. induction l as [| t' l IH]; intros t H;
    cbn [forallb] in H; apply andb_prop in H as [Ht Hl];
    unfold token_ok in Ht; apply andb_prop in Ht as [_ Ht].
  - cbn [join String.concat].
    pose proof (split_char_aux_token t "" "" Ht) as E.
    rewrite append_nil_r in E. rewrite E. reflexivity.
  - rewrite join_cons2, (split_char_aux_token t _ "" Ht).
    cbn [append split_char_aux Ascii.eqb Bool.eqb]. rewrite (IH t' Hl).
    reflexivity.
Qed.

Lemma join_tokens_head (t : string) (l : list string) :
  token_ok t = true ->
  exists c s', join " " (t :: l) = String c s' /\ token_char c = true.
Proof.
  intros Ht. destruct (token_ok_inv t Ht) as (c & t' & -> & Hc & _).
  destruct l as [| t2 l]; [exists c, t'; auto |].
  rewrite join_cons2. cbn [append]. eauto.
Qed.

Lemma trim_end_join (t : string) (l : list string) :
  forallb token_ok (t :: l) = true ->
  trim_end (join " " (t :: l)) = join " " (t :: l).
Proof.
  revert t. induction l as [| t' l IH]; intros t H;
    cbn [forallb] in H; apply andb_prop in H as [Ht Hl].
  - cbn [join String.concat]. apply trim_end_no_space, token_no_space.
    unfold token_ok in Ht. apply andb_prop in Ht as [_ Ht]. exact Ht.
  - rewrite join_cons2.
    assert (Hrest : trim_end (" " ++ join " " (t' :: l)) = " " ++ join " " (t' :: l)).
    { cbn [append trim_end]. rewrite (IH t' Hl).
      cbn [forallb] in Hl. apply andb_prop in Hl as [Ht' _].
      destruct (join_tokens_head t' l Ht') as (c & s' & -> & _).
      cbn [is_empty]. rewrite andb_false_r. reflexivity. }
    rewrite trim_end_app; rewrite Hrest; reflexivity.
Qed.

Lemma trim_join (t : string) (l : list string) :
  forallb token_ok (t :: l) = true ->
  trim (join " " (t :: l)) = join " " (t :: l).
Proof.
  intros H. unfold trim.
  assert (Hstart : trim_start (join " " (t :: l)) = join " " (t :: l)).
  { cbn [forallb] in H. apply andb_prop in H as [Ht _].
    destruct (join_tokens_head t l Ht) as (c & s' & -> & Hc).
    destruct (token_char_facts c Hc) as (Hsp & _).
    cbn [trim_start]. rewrite Hsp. reflexivity. }
  rewrite Hstart. apply trim_end_join. exact H.
Qed.

(** *** No star, no rewrite *)

Lemma expect_star_trim_start (s : string) :
  forallb_string (fun c => negb (Ascii.eqb c "*")) s = true ->
  expect "*" (trim_start s) = None.
Proof.
  induction s as [| c s IH]; [reflexivity |]. cbn [forallb_string trim_start].
  intros H. apply andb_prop in H as [Hc Hs]. apply negb_true_iff in Hc.
  destruct (is_space c); [exact (IH Hs) |]. cbn [expect]. rewrite Hc. reflexivity.
Qed.

Lemma match_STAR_here_none (s : string) :
  forallb_string (fun c => negb (Ascii.eqb c "*")) s = true ->
  match_STAR_here s = None.
Proof.
  intros H. unfold match_STAR_here, match_GTLT.
  destruct s as [| c s']; [reflexivity |].
  cbn [forallb_string] in H. apply andb_prop in H as [Hc Hs].
  destruct (Ascii.eqb c "<" || Ascii.eqb c ">").
  - destruct s' as [| c' s'']; [reflexivity |].
    cbn [forallb_string] in Hs. apply andb_prop in Hs as [Hc' Hs'].
    destruct (Ascii.eqb c' "=").
    + exact (expect_star_trim_start s'' Hs').
    + apply expect_star_trim_start. cbn [forallb_string]. rewrite Hc', Hs'.
      reflexivity.
  - destruct (Ascii.eqb c "=").
    + exact (expect_star_trim_start s' Hs).
    + apply expect_star_trim_start. cbn [forallb_string]. rewrite Hc, Hs.
      reflexivity.
Qed.

Lemma replace_STAR_none (s : string) :
  forallb_string (fun c => negb (Ascii.eqb c "*")) s = true ->
  replace_STAR s = s.
Proof.
  induction s as [| c s IH]; intros H.
  - reflexivity.
  - cbn [replace_STAR]. rewrite (match_STAR_here_none _ H).
    cbn [forallb_string] in H. apply andb_prop in H as [_ Hs].
    rewrite (IH Hs). reflexivity.
Qed.

Lemma join_no_star (l : list string) :
  forallb token_ok l = true ->
  forallb_string (fun c => negb (Ascii.eqb c "*")) (join " " l) = true.
Proof.
  assert (Htok : forall t, token_ok t = true ->
            forallb_string (fun c => negb (Ascii.eqb c "*")) t = true).
  { intros t Ht. unfold token_ok in Ht. apply andb_prop in Ht as [_ Ht].
    revert Ht. apply forallb_string_impl. intros c Hc.
    destruct (token_char_facts c Hc) as (_ & _ & -> & _). reflexivity. }
  induction l as [| t l IH]; [reflexivity |].
  cbn [forallb]. intros H. apply andb_prop in H as [Ht Hl].
  destruct l as [| t' l'].
  - cbn [join String.concat]. exact (Htok t Ht).
  - rewrite join_cons2, !forallb_string_app, (Htok t Ht), (IH Hl).
    reflexivity.
Qed.

(** *** Plain comparators *)

Lemma idchar_or_dot_token_char (c : ascii) :
  is_idchar_or_dot c = true -> token_char c = true.
Proof. ascii_cases c. Qed.

Lemma digit_token_char (c : ascii) : is_digit c = true -> token_char c = true.
Proof. ascii_cases c. Qed.

Lemma decimal_token_chars (n : N) : forallb_string token_char (decimal n) = true.
Proof.
  pose proof (decimal_digits n) as H. revert H.
  apply forallb_string_impl. exact digit_token_char.
Qed.

Lemma bound_version_token_chars (b : bound) :
  bound_ok b -> forallb_string token_char (bound_version b) = true.
Proof.
  intros [_ Hpr]. unfold bound_version, triple_text.
  repeat (progress (rewrite ?forallb_string_app; cbn [append forallb_string])).
  rewrite !decimal_token_chars.
  change (token_char ".") with true. cbn [andb].
  destruct (b_pr b) as [s |]; cbn [attach forallb_string]; [| reflexivity].
  change (token_char "-") with true. cbn [andb].
  unfold dotted_ok in Hpr. apply andb_prop in Hpr as [Hpr _]. revert Hpr.
  apply forallb_string_impl. exact idchar_or_dot_token_char.
Qed.

Lemma operator_token_chars (op : string) :
  xrange_operator op -> forallb_string token_char op = true.
Proof. intros [-> | [-> | [-> | [-> | [-> | ->]]]]]; reflexivity. Qed.

Lemma bound_version_head (b : bound) (rest : string) :
  exists c ds, bound_version b ++ rest = String c ds /\ is_digit c = true.
Proof.
  unfold bound_version, triple_text. rewrite !append_assoc.
  destruct (nid_head _ (nid_ok_decimal (b_M b))) as (c & ds & E & Hc).
  rewrite E. cbn [append]. eauto.
Qed.

Lemma bound_text_token_ok (b : bound) : bound_ok b -> token_ok (bound_text b) = true.
Proof.
  intros Hb. unfold token_ok, bound_text. apply andb_true_intro. split.
  - destruct (bound_version_head b "") as (c & ds & E & _).
    rewrite append_nil_r in E. rewrite E.
    destruct (b_op b); reflexivity.
  - rewrite forallb_string_app, (operator_token_chars _ (proj1 Hb)),
      (bound_version_token_chars b Hb). reflexivity.
Qed.

(** The first character of a plain comparator. *)
Lemma bound_text_head (b : bound) (rest : string) :
  bound_ok b ->
  exists c s', bound_text b ++ rest = String c s'
               /\ (is_digit c || Ascii.eqb c "<" || Ascii.eqb c ">"
                   || Ascii.eqb c "=") = true.
Proof.
  intros [Hop _]. unfold bound_text. rewrite append_assoc.
  destruct (bound_version_head b rest) as (c & ds & E & Hc). rewrite E.
  destruct Hop as [-> | [-> | [-> | [-> | [-> | ->]]]]]; cbn [append];
    try (eexists; eexists; split; [reflexivity | reflexivity]).
  exists c, ds. rewrite Hc. auto.
Qed.

Lemma match_CARET_plain (c : ascii) (s : string) :
  (is_digit c || Ascii.eqb c "<" || Ascii.eqb c ">" || Ascii.eqb c "=") = true ->
  match_CARET (String c s) = None /\ match_TILDE (String c s) = None.
Proof.
  destruct c as [[] [] [] [] [] [] [] []]; try discriminate;
    intros _; split; reflexivity.
Qed.

Lemma replaceCaret_bound (b : bound) :
  bound_ok b -> replaceCaret (bound_text b) = bound_text b.
Proof.
  intros Hb. destruct (bound_text_head b "" Hb) as (c & s' & E & Hc).
  rewrite append_nil_r in E. unfold replaceCaret. rewrite E.
  rewrite (proj1 (match_CARET_plain c s' Hc)). reflexivity.
Qed.

Lemma replaceTilde_bound (b : bound) :
  bound_ok b -> replaceTilde (bound_text b) = bound_text b.
Proof.
  intros Hb. destruct (bound_text_head b "" Hb) as (c & s' & E & Hc).
  rewrite append_nil_r in E. unfold replaceTilde. rewrite E.
  rewrite (proj2 (match_CARET_plain c s' Hc)). reflexivity.
Qed.

Lemma bound_version_text (b : bound) :
  bound_version b
  = decimal (b_M b) ++ "." ++ decimal (b_m b) ++ "." ++ decimal (b_p b)
    ++ attach "-" (b_pr b).
Proof. unfold bound_version, triple_text. norm_append. reflexivity. Qed.

Lemma replaceXRange_bound (b : bound) :
  bound_ok b -> replaceXRange (bound_text b) = bound_text b.
Proof.
  intros [Hop Hpr]. unfold bound_text. rewrite bound_version_text.
  erewrite replaceXRange_token;
    [ | exact Hop | exact (nid_xid_start _ _ (nid_ok_decimal _)) |
      | exact (match_XRANGEPLAIN_M_m_p _ _ _ _ (nid_ok_decimal _)
                 (nid_ok_decimal _) (nid_ok_decimal _) Hpr)].
  - unfold xrange_callback. cbn [x_M x_m x_p].
    rewrite !isX_nid by apply nid_ok_decimal. cbn [orb].
    rewrite andb_false_r. cbn [andb]. reflexivity.
  - rewrite <- bound_version_text. apply token_no_space.
    apply bound_version_token_chars. split; assumption.
Qed.

Lemma bounds_token_ok (bs : list bound) :
  Forall bound_ok bs -> forallb token_ok (map bound_text bs) = true.
Proof.
  induction 1 as [| b bs Hb _ IH]; [reflexivity |].
  cbn [map forallb]. rewrite (bound_text_token_ok b Hb), IH. reflexivity.
Qed.

Lemma map_bounds_fixed (f : string -> string) (bs : list bound) :
  (forall b, bound_ok b -> f (bound_text b) = bound_text b) ->
  Forall bound_ok bs -> map f (map bound_text bs) = map bound_text bs.
Proof.
  intros Hf. induction 1 as [| b bs Hb _ IH]; [reflexivity |].
  cbn [map]. rewrite (Hf b Hb), IH. reflexivity.
Qed.

Lemma replaceCarets_bounds (b : bound) (bs : list bound) :
  Forall bound_ok (b :: bs) ->
  replaceCarets (join " " (map bound_text (b :: bs)))
  = join " " (map bound_text (b :: bs)).
Proof.
  intros Hbs. pose proof (bounds_token_ok _ Hbs) as Htok. cbn [map] in *.
  unfold replaceCarets. rewrite (trim_join _ _ Htok).
  unfold split_ws. rewrite (split_ws_join _ _ false Htok).
  change (bound_text b :: map bound_text bs) with (map bound_text (b :: bs)).
  rewrite (map_bounds_fixed replaceCaret _ replaceCaret_bound Hbs). reflexivity.
Qed.

Lemma replaceTildes_bounds (b : bound) (bs : list bound) :
  Forall bound_ok (b :: bs) ->
  replaceTildes (join " " (map bound_text (b :: bs)))
  = join " " (map bound_text (b :: bs)).
Proof.
  intros Hbs. pose proof (bounds_token_ok _ Hbs) as Htok. cbn [map] in *.
  unfold replaceTildes. rewrite (trim_join _ _ Htok).
  unfold split_ws. rewrite (split_ws_join _ _ false Htok).
  change (bound_text b :: map bound_text bs) with (map bound_text (b :: bs)).
  rewrite (map_bounds_fixed replaceTilde _ replaceTilde_bound Hbs). reflexivity.
Qed.

Lemma replaceXRanges_bounds (b : bound) (bs : list bound) :
  Forall bound_ok (b :: bs) ->
  replaceXRanges (join " " (map bound_text (b :: bs)))
  = join " " (map bound_text (b :: bs)).
Proof.
  intros Hbs. pose proof (bounds_token_ok _ Hbs) as Htok. cbn [map] in *.
  unfold replaceXRanges, split_ws. rewrite (split_ws_join _ _ false Htok).
  change (bound_text b :: map bound_text bs) with (map bound_text (b :: bs)).
  rewrite (map_bounds_fixed replaceXRange _ replaceXRange_bound Hbs). reflexivity.
Qed.

Lemma replaceStars_bounds (b : bound) (bs : list bound) :
  Forall bound_ok (b :: bs) ->
  replaceStars (join " " (map bound_text (b :: bs)))
  = join " " (map bound_text (b :: bs)).
Proof.
  intros Hbs. pose proof (bounds_token_ok _ Hbs) as Htok. cbn [map] in *.
  unfold replaceStars. rewrite (trim_join _ _ Htok).
  apply replace_STAR_none. exact (join_no_star _ Htok).
Qed.

(** [parseComparator] leaves a list of plain comparators as it is. *)
Lemma parseComparator_bounds (b : bound) (bs : list bound) :
  Forall bound_ok (b :: bs) ->
  parseComparator (join " " (map bound_text (b :: bs)))
  = join " " (map bound_text (b :: bs)).
Proof.
  intros Hbs. unfold parseComparator.
  rewrite (replaceCarets_bounds b bs Hbs), (replaceTildes_bounds b bs Hbs),
    (replaceXRanges_bounds b bs Hbs).
  exact (replaceStars_bounds b bs Hbs).
Qed.

Lemma parseComparator_bound (b : bound) :
  bound_ok b -> parseComparator (bound_text b) = bound_text b.
Proof.
  intros Hb. exact (parseComparator_bounds b [] (Forall_cons b Hb (Forall_nil _))).
Qed.

Lemma match_XRANGEPLAIN_version (b : bound) (rest : string) :
  bound_ok b -> ends_token rest = true ->
  exists g, match_XRANGEPLAIN (bound_version b ++ rest) = Some (g, rest).
Proof.
  intros [_ Hpr] Hrest.
  destruct (ends_token_facts rest Hrest) as (Hdigit & Hid & Hdot & Hpre & Hbuild).
  rewrite bound_version_text. norm_append. unfold match_XRANGEPLAIN.
  rewrite (skip_prefix_nid _ _ (nid_ok_decimal (b_M b))),
    (match_xid_nid _ (String "." _) (nid_ok_decimal (b_M b)) eq_refl).
  cbn [expect Ascii.eqb Bool.eqb].
  rewrite (match_xid_nid _ (String "." _) (nid_ok_decimal (b_m b)) eq_refl).
  cbn [expect Ascii.eqb Bool.eqb].
  destruct (b_pr b) as [s |]; cbn [attach append].
  - rewrite (match_xid_nid _ (String "-" _) (nid_ok_decimal (b_p b)) eq_refl).
    unfold optional. unfold match_prerelease at 1.
    rewrite (match_dotted_complete "-" valid_pid s rest Hpr Hid).
    rewrite Hbuild. eauto.
  - rewrite (match_xid_nid _ rest (nid_ok_decimal (b_p b)) Hdigit).
    unfold optional. rewrite Hpre, Hbuild. eauto.
Qed.

Lemma match_XRANGEPLAIN_equals (s : string) :
  match_XRANGEPLAIN (String "=" s) = match_XRANGEPLAIN s.
Proof.
  unfold match_XRANGEPLAIN. cbn [take_while].
  change (is_v_eq_space "=") with true. cbn iota.
  destruct (take_while is_v_eq_space s). reflexivity.
Qed.

Lemma plain_head_not_hyphen (c : ascii) (s : string) :
  (is_digit c || Ascii.eqb c "<" || Ascii.eqb c ">" || Ascii.eqb c "=") = true ->
  trim_start (String c s) = String c s /\ expect "-" (String c s) = None.
Proof.
  destruct c as [[] [] [] [] [] [] [] []]; try discriminate;
    intros _; split; reflexivity.
Qed.

(** A list of plain comparators is no hyphen range. *)
Lemma match_HYPHENRANGE_bounds (b : bound) (bs : list bound) :
  Forall bound_ok (b :: bs) ->
  match_HYPHENRANGE (join " " (map bound_text (b :: bs))) = None.
Proof.
  intros Hbs. inversion Hbs as [| ? ? Hb Hrest]; subst.
  assert (Hsplit : exists rest,
            join " " (map bound_text (b :: bs)) = bound_text b ++ rest
            /\ ends_token rest = true
            /\ (spaces1 rest = None
                \/ exists c s', spaces1 rest = Some (String c s')
                                /\ expect "-" (String c s') = None)).
  { destruct bs as [| b' bs'].
    - exists "". cbn [map join String.concat]. rewrite append_nil_r. auto.
    - exists (" " ++ join " " (map bound_text (b' :: bs'))).
      split; [reflexivity |]. split; [reflexivity |]. right.
      inversion Hrest as [| ? ? Hb' Hrest']; subst.
      assert (Hhead : exists c s', join " " (map bound_text (b' :: bs')) = String c s'
                /\ (is_digit c || Ascii.eqb c "<" || Ascii.eqb c ">"
                    || Ascii.eqb c "=") = true).
      { destruct bs' as [| b2 bs2].
        - destruct (bound_text_head b' "" Hb') as (c & s' & E & Hc).
          rewrite append_nil_r in E. exists c, s'. cbn [map join String.concat].
          auto.
        - cbn [map]. rewrite join_cons2.
          exact (bound_text_head b' _ Hb'). }
      destruct Hhead as (c & s' & E & Hc). exists c, s'.
      destruct (plain_head_not_hyphen c s' Hc) as [Htrim Hexp].
      split; [| exact Hexp]. cbn [append spaces1].
      change (is_space " ") with true. cbn iota. rewrite E. f_equal. exact Htrim. }
  destruct Hsplit as (rest & -> & Hends & Hspaces).
  unfold match_HYPHENRANGE.
  destruct (bound_text_head b rest Hb) as (c & s' & E & Hc).
  rewrite E, (proj1 (plain_head_not_hyphen c s' Hc)), <- E.
  unfold bound_text. rewrite append_assoc.
  destruct (match_XRANGEPLAIN_version b rest Hb Hends) as (g & Hg).
  destruct Hb as [Hop _].
  destruct Hop as [-> | [-> | [-> | [-> | [-> | ->]]]]]; cbn [append];
    rewrite ?match_XRANGEPLAIN_equals;
    try (destruct (bound_version_head b rest) as (d & ds & -> & _); reflexivity).
  - rewrite Hg. destruct Hspaces as [-> | (d & ds & -> & ->)]; reflexivity.
  - rewrite Hg. destruct Hspaces as [-> | (d & ds & -> & ->)]; reflexivity.
Qed.

(** [parseRange] on a list of plain comparators: one Comparator each. *)
Lemma parseRange_bounds (o : Options) (b : bound) (bs : list bound) :
  Forall bound_ok (b :: bs) ->
  parseRange o (join " " (map bound_text (b :: bs)))
  = mapM (fun comp => new_Comparator comp (Some o)) (map bound_text (b :: bs)).
Proof.
  intros Hbs. pose proof (bounds_token_ok _ Hbs) as Htok.
  unfold parseRange. cbn [map] in *.
  rewrite (trim_join _ _ Htok).
  change (bound_text b :: map bound_text bs) with (map bound_text (b :: bs)).
  rewrite (match_HYPHENRANGE_bounds b bs Hbs). cbn [map].
  unfold split_ws. rewrite (split_ws_join _ _ false Htok).
  rewrite (split_char_join _ _ Htok).
  change (bound_text b :: map bound_text bs) with (map bound_text (b :: bs)).
  rewrite (map_bounds_fixed parseComparator _ parseComparator_bound Hbs).
  cbn [map]. rewrite (split_ws_join _ _ false Htok). reflexivity.
Qed.

Lemma match_FULLPLAIN_bound_version (b : bound) :
  bound_ok b ->
  exists g, match_FULLPLAIN (bound_version b) = Some (g, "").
Proof.
  intros [_ Hpr].
  set (g := {| g_major := decimal (b_M b); g_minor := decimal (b_m b);
               g_patch := decimal (b_p b); g_prerelease := b_pr b;
               g_build := None |}).
  assert (Hok : groups_ok g = true).
  { unfold groups_ok. cbn [g g_major g_minor g_patch g_prerelease g_build].
    rewrite !nid_ok_decimal. destruct (b_pr b); [rewrite Hpr |]; reflexivity. }
  exists g. rewrite <- (match_FULLPLAIN_complete false g Hok). f_equal.
  rewrite bound_version_text. unfold full_text.
  cbn [g g_major g_minor g_patch g_prerelease g_build attach].
  norm_append. rewrite ?append_nil_r. reflexivity.
Qed.

(** The Comparator of a plain comparator. *)
Lemma new_Comparator_bound (o : Options) (b : bound) :
  bound_ok b ->
  new_Comparator (bound_text b) (Some o)
  = sv <- new_SemVer (VStr (bound_version b)) (Some o) ;;
    Ok {| semver := Some sv; operator := stored_operator (b_op b);
          value := stored_operator (b_op b) ++ version sv;
          comparator_options := o |}.
Proof.
  intros Hb. unfold new_Comparator, match_COMPARATOR, bound_text.
  destruct (bound_version_head b "") as (c & ds & E & Hc).
  rewrite append_nil_r in E.
  assert (Hhead : head_is is_xid_start (bound_version b) = true).
  { rewrite E. cbn [head_is]. unfold is_xid_start. rewrite Hc. reflexivity. }
  rewrite (match_GTLT_op _ _ (proj1 Hb) Hhead), (trim_start_xid _ Hhead).
  destruct (match_FULLPLAIN_bound_version b Hb) as (g & ->).
  cbn [object_or_default].
  replace (is_empty (bound_version b)) with false by (rewrite E; reflexivity).
  reflexivity.
Qed.

(** *** Ranges of one group *)

Lemma join_no_bar (l : list string) :
  forallb token_ok l = true ->
  forallb_string (fun c => negb (Ascii.eqb c "|")) (join " " l) = true.
Proof.
  assert (Htok : forall t, token_ok t = true ->
            forallb_string (fun c => negb (Ascii.eqb c "|")) t = true).
  { intros t Ht. unfold token_ok in Ht. apply andb_prop in Ht as [_ Ht].
    revert Ht. apply forallb_string_impl. intros c Hc.
    destruct (token_char_facts c Hc) as (_ & -> & _). reflexivity. }
  induction l as [| t l IH]; [reflexivity |].
  cbn [forallb]. intros H. apply andb_prop in H as [Ht Hl].
  destruct l as [| t' l'].
  - cbn [join String.concat]. exact (Htok t Ht).
  - rewrite join_cons2, !forallb_string_app, (Htok t Ht), (IH Hl).
    reflexivity.
Qed.

(** A range string without "||" is one group. *)
Lemma new_Range_of_string_one_group (s : string) (o : Options) :
  forallb_string (fun c => negb (Ascii.eqb c "|")) s = true ->
  new_Range_of_string s o
  = cs <- parseRange o (trim s) ;;
    if is_nil cs then Throw TypeError
    else Ok {| range := format_range [cs]; range_raw := s; range_options := o;
               range_includePrerelease := includePrerelease o; set := [cs] |}.
Proof.
  intros Hs. unfold new_Range_of_string, split_or.
  rewrite (split_or_no_bar s "" "" Hs). cbn [append mapM].
  destruct (parseRange o (trim s)) as [cs |]; cbn [bind]; [| reflexivity].
  destruct cs; reflexivity.
Qed.

(** Two range strings of one group that [parseRange] reads alike make
    [satisfies] and [validRange] agree. *)
Lemma same_parse_same_answers (s1 s2 : string) (x : jsvalue) (o : option Options) :
  forallb_string (fun c => negb (Ascii.eqb c "|")) s1 = true ->
  forallb_string (fun c => negb (Ascii.eqb c "|")) s2 = true ->
  parseRange (object_or_default o) (trim s1)
  = parseRange (object_or_default o) (trim s2) ->
  satisfies x (RStr s1) o = satisfies x (RStr s2) o
  /\ validRange (RStr s1) o = validRange (RStr s2) o.
Proof.
  intros H1 H2 Hparse. unfold satisfies, validRange. cbn [new_Range].
  rewrite (new_Range_of_string_one_group s1 _ H1),
    (new_Range_of_string_one_group s2 _ H2), Hparse.
  destruct (parseRange (object_or_default o) (trim s2)) as [cs |];
    cbn [bind]; [| split; reflexivity].
  destruct (is_nil cs); split; reflexivity.
Qed.

Lemma mapM_bounds (o : Options) (bs : list bound) (v : SemVer) :
  Forall bound_ok bs ->
  Forall (fun b => valid_version (VStr (bound_version b))) bs ->
  exists cs,
    mapM (fun comp => new_Comparator comp (Some o)) (map bound_text bs) = Ok cs
    /\ forallb (fun c => comparator_accepts c v) cs
       = forallb (fun b => bound_accepts b v) bs
    /\ existsb (fun c => anchors c v) cs
       = existsb (fun b => bound_anchors b v) bs
    /\ is_nil cs = is_nil bs.
Proof.
  intros Hok Hvalid. induction bs as [| b bs IH].
  - exists []. repeat split; reflexivity.
  - inversion Hok as [| ? ? Hb Hok']; subst.
    inversion Hvalid as [| ? ? [w Hw] Hvalid']; subst.
    destruct (IH Hok' Hvalid') as (cs & Hcs & Hall & Hany & _).
    cbn [denotes] in Hw.
    pose proof (new_SemVer_options _ None (Some o) w Hw) as Hwo.
    cbn [object_or_default] in Hwo.
    eexists. cbn [map mapM].
    rewrite (new_Comparator_bound o b Hb), Hwo. cbn [bind]. rewrite Hcs.
    cbn [bind]. split; [reflexivity |].
    cbn [forallb existsb is_nil]. rewrite Hall, Hany.
    unfold comparator_accepts, anchors, bound_accepts, bound_anchors.
    cbn [semver operator]. rewrite Hw. repeat split; reflexivity.
Qed.

(** A range written as plain comparators separated by spaces, each with a
    valid version, contains a valid version when every comparator holds
    of it and, if it has a prerelease and includePrerelease is off, some
    comparator carries a prerelease on the same major, minor and patch. *)
Theorem comparators_are_conjoined (b : bound) (bs : list bound) (x : jsvalue)
  (v : SemVer) (o : option Options) :
  Forall bound_ok (b :: bs) ->
  Forall (fun c => valid_version (VStr (bound_version c))) (b :: bs) ->
  denotes x v ->
  satisfies x (RStr (join " " (map bound_text (b :: bs)))) o
  = Ok (forallb (fun c => bound_accepts c v) (b :: bs)
        && (negb (has_prerelease v)
            || includePrerelease (object_or_default o)
            || existsb (fun c => bound_anchors c v) (b :: bs))).
Proof.
  intros Hok Hvalid Hx.
  destruct (mapM_bounds (object_or_default o) (b :: bs) v Hok Hvalid)
    as (cs & Hcs & Hall & Hany & Hnil).
  pose proof (bounds_token_ok _ Hok) as Htok.
  assert (Hnew : new_Range (RStr (join " " (map bound_text (b :: bs)))) o
                 = Ok {| range := format_range [cs];
                         range_raw := join " " (map bound_text (b :: bs));
                         range_options := object_or_default o;
                         range_includePrerelease :=
                           includePrerelease (object_or_default o);
                         set := [cs] |}).
  { cbn [new_Range].
    rewrite (new_Range_of_string_one_group _ _ (join_no_bar _ Htok)).
    cbn [map] in Htok |- *. rewrite (trim_join _ _ Htok).
    change (bound_text b :: map bound_text bs) with (map bound_text (b :: bs)).
    rewrite (parseRange_bounds _ b bs Hok), Hcs. cbn [bind].
    rewrite Hnil. reflexivity. }
  rewrite (satisfies_denotes x v (RStr (join " " (map bound_text (b :: bs)))) o
             _ I Hnew Hx).
  f_equal.
  unfold range_accepts, set_accepts. cbn [set range_options existsb].
  rewrite orb_false_r, Hall, Hany. reflexivity.
Qed.

Lemma comparators_are_conjoined_witness :
  satisfies (VStr "1.5.0") (RStr ">=1.2.3 <2.0.0") None = Ok true.
Proof.
  assert (Hvalid : forall s v, new_SemVer (VStr s) None = Ok v ->
                               valid_version (VStr s)).
  { intros s v H. exists v. exact H. }
  let v := constructed "1.5.0" in
  refine (eq_trans
            (comparators_are_conjoined
               {| b_op := ">="; b_M := 1; b_m := 2; b_p := 3; b_pr := None |}
               [{| b_op := "<"; b_M := 2; b_m := 0; b_p := 0; b_pr := None |}]
               (VStr "1.5.0") v None _ _ _) _).
  - apply Forall_cons; [| apply Forall_cons; [| apply Forall_nil]].
    + split; [| exact I]. do 5 right. reflexivity.
    + split; [| exact I]. do 2 right. left. reflexivity.
  - repeat constructor.
    + let w := constructed "1.2.3" in apply (Hvalid _ w); vm_compute; reflexivity.
    + let w := constructed "2.0.0" in apply (Hvalid _ w); vm_compute; reflexivity.
  - vm_compute. reflexivity.
  - vm_compute. reflexivity.
Defined.

(** ** Carets and tildes stand for their bounds *)

Lemma partial_text_groups (v : partial_version) :
  partial_ok v ->
  match_XRANGEPLAIN (partial_text v) = Some (partial_groups v, "").
Proof.
  intros Hv. pose proof (match_XRANGEPLAIN_partial v "" Hv eq_refl) as H.
  rewrite append_nil_r in H. exact H.
Qed.

Lemma lower_bound_ok (v : partial_version) : partial_ok v -> bound_ok (lower_bound v).
Proof.
  destruct v as [M m p pr | M m | M]; cbn [partial_ok lower_bound]; intros Hv;
    (split; [do 5 right; reflexivity |]); cbn [b_pr]; [tauto | exact I | exact I].
Qed.

Lemma upper_ok (M m p : N) : bound_ok (upper M m p).
Proof. split; [do 2 right; left; reflexivity | exact I]. Qed.

Lemma caret_bounds_ok (v : partial_version) :
  partial_ok v -> Forall bound_ok (caret_bounds v).
Proof.
  intros Hv. apply Forall_cons; [exact (lower_bound_ok v Hv) |].
  apply Forall_cons; [| apply Forall_nil].
  destruct v as [M m p pr | M m | M]; cbn [caret_upper_bound];
    repeat match goal with
      | |- context [if ?c then _ else _] => destruct c
      end; apply upper_ok.
Qed.

Lemma tilde_bounds_ok (v : partial_version) :
  partial_ok v -> Forall bound_ok (tilde_bounds v).
Proof.
  intros Hv. apply Forall_cons; [exact (lower_bound_ok v Hv) |].
  apply Forall_cons; [| apply Forall_nil].
  destruct v; apply upper_ok.
Qed.

Ltac bounds_texts :=
  cbn [map join String.concat caret_bounds tilde_bounds lower_bound upper
       b_op b_M b_m b_p b_pr];
  unfold bound_text, bound_version, upper, triple_text;
  cbn [b_op b_M b_m b_p b_pr attach to_str];
  change (decimal 0) with "0"; norm_append; rewrite ?append_nil_r;
  try reflexivity.

Lemma replaceCaret_partial (v : partial_version) :
  partial_ok v ->
  replaceCaret ("^" ++ partial_text v) = join " " (map bound_text (caret_bounds v)).
Proof.
  intros Hv. pose proof (partial_ok_major v Hv) as Hfields.
  unfold replaceCaret. cbn [append match_CARET].
  rewrite (partial_text_groups v Hv). cbn [at_end]. unfold caret_callback.
  unfold caret_bounds, caret_upper_bound.
  destruct v as [M m p pr | M m | M];
    cbn [partial_groups x_M x_m x_p x_pr to_str];
    rewrite ?isX_nid by apply nid_ok_decimal; rewrite ?decimal_is_zero; cbn [isX].
  - destruct Hv as (HM & Hm & Hp & Hpr).
    rewrite ?plus_one_decimal by assumption.
    destruct pr as [s |].
    + rewrite (dotted_nonempty s Hpr).
      destruct (N.eqb_spec M 0) as [-> | _];
        [destruct (N.eqb_spec m 0) as [-> | _] |]; bounds_texts.
    + cbn [truthy_group].
      destruct (N.eqb_spec M 0) as [-> | _];
        [destruct (N.eqb_spec m 0) as [-> | _] |]; bounds_texts.
  - destruct Hfields as [HM Hm]. rewrite ?plus_one_decimal by assumption.
    destruct (N.eqb_spec M 0) as [-> | _]; bounds_texts.
  - rewrite ?plus_one_decimal by assumption. bounds_texts.
Qed.

Lemma replaceTilde_partial (lead : string) (v : partial_version) :
  tilde_operator lead -> partial_ok v ->
  replaceTilde (lead ++ partial_text v) = join " " (map bound_text (tilde_bounds v)).
Proof.
  intros Hlead Hv. pose proof (partial_ok_major v Hv) as Hfields.
  unfold replaceTilde.
  assert (Hmatch : match_TILDE (lead ++ partial_text v)
                   = Some (partial_groups v)).
  { destruct (partial_text_head v "") as (c & ds & E & Hc).
    rewrite append_nil_r in E.
    pose proof (partial_text_groups v Hv) as Hg. rewrite E in Hg |- *.
    destruct Hlead as [-> | ->]; cbn [append].
    - rewrite (match_TILDE_digit c ds Hc), Hg. reflexivity.
    - cbn [match_TILDE]. rewrite Hg. reflexivity. }
  rewrite Hmatch. unfold tilde_callback.
  unfold tilde_bounds, tilde_upper_bound.
  destruct v as [M m p pr | M m | M];
    cbn [partial_groups x_M x_m x_p x_pr to_str];
    rewrite ?isX_nid by apply nid_ok_decimal; cbn [isX].
  - destruct Hv as (HM & Hm & Hp & Hpr).
    rewrite ?plus_one_decimal by assumption.
    destruct pr as [s |].
    + rewrite (dotted_nonempty s Hpr). bounds_texts.
    + cbn [truthy_group]. bounds_texts.
  - destruct Hfields as [HM Hm]. rewrite ?plus_one_decimal by assumption.
    bounds_texts.
  - rewrite ?plus_one_decimal by assumption. bounds_texts.
Qed.

Lemma partial_text_token_chars (v : partial_version) :
  partial_ok v -> forallb_string token_char (partial_text v) = true.
Proof.
  destruct v as [M m p pr | M m | M]; cbn [partial_ok partial_text]; intros Hv.
  - change (triple_text M m p ++ attach "-" pr)
      with (bound_version {| b_op := ""; b_M := M; b_m := m; b_p := p;
                             b_pr := pr |}).
    apply bound_version_token_chars. split; [left; reflexivity |].
    cbn [b_pr]. tauto.
  - rewrite !forallb_string_app, !decimal_token_chars. reflexivity.
  - apply decimal_token_chars.
Qed.

Lemma shorthand_token_ok (lead : string) (v : partial_version) :
  lead = "^" \/ tilde_operator lead -> partial_ok v ->
  token_ok (lead ++ partial_text v) = true.
Proof.
  intros Hlead Hv. unfold token_ok.
  rewrite forallb_string_app, (partial_text_token_chars v Hv).
  destruct Hlead as [-> | [-> | ->]]; reflexivity.
Qed.

Lemma shorthand_no_hyphen (lead : string) (s : string) :
  lead = "^" \/ tilde_operator lead -> match_HYPHENRANGE (lead ++ s) = None.
Proof. intros [-> | [-> | ->]]; reflexivity. Qed.

Lemma single_token (s : string) :
  token_ok s = true ->
  trim s = s /\ split_ws s = [s] /\ split_char " " s = [s].
Proof.
  intros Hs.
  assert (H : forallb token_ok [s] = true) by (cbn; rewrite Hs; reflexivity).
  split; [exact (trim_join s [] H) |].
  split; [exact (split_ws_join s [] false H) | exact (split_char_join s [] H)].
Qed.

(** [parseRange] on a range that is one token without a hyphen. *)
Lemma parseRange_token (o : Options) (s : string) :
  token_ok s = true -> match_HYPHENRANGE s = None ->
  parseRange o s
  = mapM (fun comp => new_Comparator comp (Some o)) (split_ws (parseComparator s)).
Proof.
  intros Hs Hhyphen. destruct (single_token s Hs) as (Htrim & Hws & Hchar).
  unfold parseRange. rewrite Htrim, Hhyphen, Hws. cbn [join String.concat].
  rewrite Hchar. reflexivity.
Qed.

Lemma parseComparator_caret (v : partial_version) :
  partial_ok v ->
  parseComparator ("^" ++ partial_text v)
  = join " " (map bound_text (caret_bounds v)).
Proof.
  intros Hv. pose proof (caret_bounds_ok v Hv) as Hok.
  destruct (single_token _ (shorthand_token_ok "^" v (or_introl eq_refl) Hv))
    as (Htrim & Hws & _).
  unfold parseComparator.
  assert (Hcarets : replaceCarets ("^" ++ partial_text v)
                    = join " " (map bound_text (caret_bounds v))).
  { unfold replaceCarets. rewrite Htrim, Hws. cbn [map join String.concat].
    exact (replaceCaret_partial v Hv). }
  rewrite Hcarets. unfold caret_bounds in *.
  rewrite (replaceTildes_bounds _ _ Hok), (replaceXRanges_bounds _ _ Hok).
  exact (replaceStars_bounds _ _ Hok).
Qed.

Lemma parseComparator_tilde (lead : string) (v : partial_version) :
  tilde_operator lead -> partial_ok v ->
  parseComparator (lead ++ partial_text v)
  = join " " (map bound_text (tilde_bounds v)).
Proof.
  intros Hlead Hv. pose proof (tilde_bounds_ok v Hv) as Hok.
  destruct (single_token _ (shorthand_token_ok lead v (or_intror Hlead) Hv))
    as (Htrim & Hws & _).
  unfold parseComparator.
  assert (Hcarets : replaceCarets (lead ++ partial_text v) = lead ++ partial_text v).
  { unfold replaceCarets. rewrite Htrim, Hws. cbn [map join String.concat].
    unfold replaceCaret. destruct Hlead as [-> | ->]; reflexivity. }
  rewrite Hcarets.
  assert (Htildes : replaceTildes (lead ++ partial_text v)
                    = join " " (map bound_text (tilde_bounds v))).
  { unfold replaceTildes. rewrite Htrim, Hws. cbn [map join String.concat].
    exact (replaceTilde_partial lead v Hlead Hv). }
  rewrite Htildes. unfold tilde_bounds in *.
  rewrite (replaceXRanges_bounds _ _ Hok).
  exact (replaceStars_bounds _ _ Hok).
Qed.

Lemma shorthand_parse (o : Options) (s : string) (b : bound) (bs : list bound) :
  token_ok s = true -> match_HYPHENRANGE s = None ->
  Forall bound_ok (b :: bs) ->
  parseComparator s = join " " (map bound_text (b :: bs)) ->
  parseRange o (trim s) = parseRange o (trim (join " " (map bound_text (b :: bs)))).
Proof.
  intros Hs Hhyphen Hok Hcomp.
  pose proof (bounds_token_ok _ Hok) as Htok. cbn [map] in Htok.
  rewrite (proj1 (single_token s Hs)), (parseRange_token o s Hs Hhyphen), Hcomp.
  cbn [map]. rewrite (trim_join _ _ Htok).
  change (bound_text b :: map bound_text bs) with (map bound_text (b :: bs)).
  rewrite (parseRange_bounds o b bs Hok). cbn [map].
  unfold split_ws. rewrite (split_ws_join _ _ false Htok). reflexivity.
Qed.

Lemma token_no_bar (s : string) :
  token_ok s = true ->
  forallb_string (fun c => negb (Ascii.eqb c "|")) s = true.
Proof.
  intros Hs.
  assert (H : forallb token_ok [s] = true) by (cbn; rewrite Hs; reflexivity).
  exact (join_no_bar [s] H).
Qed.

(** A caret or tilde range on a version, complete or partial, with fields
    at most MAX_SAFE_INTEGER, is the same range as its two bounds written
    out: [satisfies] gives the same answer on every version argument, and
    [validRange] prints the same string. *)
Theorem carets_and_tildes_mean_their_bounds (lead : string)
  (v : partial_version) (x : jsvalue) (o : option Options) :
  tilde_operator lead -> partial_ok v ->
  satisfies x (RStr ("^" ++ partial_text v)) o
  = satisfies x (RStr (join " " (map bound_text (caret_bounds v)))) o
  /\ validRange (RStr ("^" ++ partial_text v)) o
     = validRange (RStr (join " " (map bound_text (caret_bounds v)))) o
  /\ satisfies x (RStr (lead ++ partial_text v)) o
     = satisfies x (RStr (join " " (map bound_text (tilde_bounds v)))) o
  /\ validRange (RStr (lead ++ partial_text v)) o
     = validRange (RStr (join " " (map bound_text (tilde_bounds v)))) o.
Proof.
  intros Hlead Hv.
  pose proof (caret_bounds_ok v Hv) as Hcok.
  pose proof (tilde_bounds_ok v Hv) as Htok.
  pose proof (shorthand_token_ok "^" v (or_introl eq_refl) Hv) as Hc.
  pose proof (shorthand_token_ok lead v (or_intror Hlead) Hv) as Ht.
  assert (Hcaret :
    satisfies x (RStr ("^" ++ partial_text v)) o
    = satisfies x (RStr (join " " (map bound_text (caret_bounds v)))) o
    /\ validRange (RStr ("^" ++ partial_text v)) o
       = validRange (RStr (join " " (map bound_text (caret_bounds v)))) o).
  { apply same_parse_same_answers.
    - exact (token_no_bar _ Hc).
    - exact (join_no_bar _ (bounds_token_ok _ Hcok)).
    - unfold caret_bounds in *.
      exact (shorthand_parse _ _ _ _ Hc
               (shorthand_no_hyphen "^" _ (or_introl eq_refl)) Hcok
               (parseComparator_caret v Hv)). }
  assert (Htilde :
    satisfies x (RStr (lead ++ partial_text v)) o
    = satisfies x (RStr (join " " (map bound_text (tilde_bounds v)))) o
    /\ validRange (RStr (lead ++ partial_text v)) o
       = validRange (RStr (join " " (map bound_text (tilde_bounds v)))) o).
  { apply same_parse_same_answers.
    - exact (token_no_bar _ Ht).
    - exact (join_no_bar _ (bounds_token_ok _ Htok)).
    - unfold tilde_bounds in *.
      exact (shorthand_parse _ _ _ _ Ht
               (shorthand_no_hyphen lead _ (or_intror Hlead)) Htok
               (parseComparator_tilde lead v Hlead Hv)). }
  tauto.
Qed.

Lemma carets_and_tildes_mean_their_bounds_witness :
  satisfies (VStr "0.2.9") (RStr "^0.2.3") None
  = satisfies (VStr "0.2.9") (RStr ">=0.2.3 <0.3.0") None
  /\ validRange (RStr "~>1.2") None = validRange (RStr ">=1.2.0 <1.3.0") None.
Proof.
  destruct (carets_and_tildes_mean_their_bounds "~>" (Full 0 2 3 None)
              (VStr "0.2.9") None) as (H1 & _);
    [right; reflexivity
    | cbn; unfold MAX_SAFE_INTEGER; repeat split; try lia |].
  destruct (carets_and_tildes_mean_their_bounds "~>" (MajorMinor 1 2)
              (VStr "0.2.9") None) as (_ & _ & _ & H2);
    [right; reflexivity | cbn; unfold MAX_SAFE_INTEGER; lia |].
  split; [exact H1 | exact H2].
Defined.

(** ** Hyphen ranges stand for their bounds *)

Lemma hyphen_bounds_ok (a b : partial_version) :
  partial_ok a -> partial_ok b -> Forall bound_ok (hyphen_bounds a b).
Proof.
  intros Ha Hb. apply Forall_cons; [exact (lower_bound_ok a Ha) |].
  apply Forall_cons; [| apply Forall_nil].
  destruct b as [M m p pr | M m | M]; cbn [hyphen_upper_bound];
    try apply upper_ok.
  split; [do 4 right; left; reflexivity |]. cbn [b_pr partial_ok] in *. tauto.
Qed.

Lemma hyphen_bounds_text (a b : partial_version) :
  hyphen_lower a ++ " " ++ hyphen_upper b
  = join " " (map bound_text (hyphen_bounds a b)).
Proof.
  unfold hyphen_bounds.
  destruct a as [M m p pr | M m | M], b as [M' m' p' pr' | M' m' | M'];
    cbn [hyphen_lower hyphen_upper hyphen_upper_bound];
    bounds_texts.
Qed.

Lemma trim_hyphen_range (a b : partial_version) :
  partial_ok a -> partial_ok b ->
  trim (partial_text a ++ " - " ++ partial_text b)
  = partial_text a ++ " - " ++ partial_text b.
Proof.
  intros Ha Hb. unfold trim.
  destruct (partial_text_head a (" - " ++ partial_text b)) as (c & ds & E & Hc).
  assert (Hstart : trim_start (partial_text a ++ " - " ++ partial_text b)
                   = partial_text a ++ " - " ++ partial_text b).
  { rewrite E. cbn [trim_start]. rewrite (digit_not_space c Hc). reflexivity. }
  rewrite Hstart.
  assert (Hb' : trim_end (" - " ++ partial_text b) = " - " ++ partial_text b).
  { destruct (partial_text_head b "") as (c' & ds' & E' & _).
    rewrite append_nil_r in E'.
    pose proof (trim_end_no_space _ (token_no_space _ (partial_text_token_chars b Hb)))
      as Hend.
    cbn [append trim_end]. rewrite Hend, E'. reflexivity. }
  rewrite trim_end_app; rewrite Hb'; reflexivity.
Qed.

Lemma hyphen_range_no_bar (a b : partial_version) :
  partial_ok a -> partial_ok b ->
  forallb_string (fun c => negb (Ascii.eqb c "|"))
    (partial_text a ++ " - " ++ partial_text b) = true.
Proof.
  intros Ha Hb.
  assert (H : forall v, partial_ok v ->
            forallb_string (fun c => negb (Ascii.eqb c "|")) (partial_text v) = true).
  { intros v Hv. pose proof (partial_text_token_chars v Hv) as Hc. revert Hc.
    apply forallb_string_impl. intros c Hc.
    destruct (token_char_facts c Hc) as (_ & -> & _). reflexivity. }
  rewrite !forallb_string_app, (H a Ha), (H b Hb). reflexivity.
Qed.

Lemma parseRange_hyphen (o : Options) (a b : partial_version) :
  partial_ok a -> partial_ok b ->
  parseRange o (trim (partial_text a ++ " - " ++ partial_text b))
  = parseRange o (trim (join " " (map bound_text (hyphen_bounds a b)))).
Proof.
  intros Ha Hb. pose proof (hyphen_bounds_ok a b Ha Hb) as Hok.
  pose proof (bounds_token_ok _ Hok) as Htok.
  unfold hyphen_bounds in *. cbn [map] in Htok.
  rewrite (trim_hyphen_range a b Ha Hb).
  cbn [map]. rewrite (trim_join _ _ Htok).
  change (bound_text (lower_bound a) :: [bound_text (hyphen_upper_bound b)])
    with (map bound_text [lower_bound a; hyphen_upper_bound b]).
  rewrite (parseRange_bounds o _ _ Hok).
  unfold parseRange. rewrite (trim_hyphen_range a b Ha Hb).
  rewrite (match_HYPHENRANGE_partial a b Ha Hb),
    (hyphenReplace_partial a b Ha Hb).
  rewrite (trim_joined _ _ (hyphen_lower_head a) (hyphen_upper_no_space b Hb)
             (hyphen_upper_nonempty b)).
  rewrite (hyphen_bounds_text a b). unfold hyphen_bounds. cbn [map].
  unfold split_ws. rewrite (split_ws_join _ _ false Htok).
  rewrite (split_char_join _ _ Htok).
  change (bound_text (lower_bound a) :: [bound_text (hyphen_upper_bound b)])
    with (map bound_text [lower_bound a; hyphen_upper_bound b]).
  rewrite (map_bounds_fixed parseComparator _ parseComparator_bound Hok).
  cbn [map]. rewrite (split_ws_join _ _ false Htok). reflexivity.
Qed.

(** A hyphen range between two versions, complete or partial, with fields
    at most MAX_SAFE_INTEGER, is the same range as its two bounds written
    out: [satisfies] gives the same answer on every version argument, and
    [validRange] prints the same string. *)
Theorem hyphen_ranges_mean_their_bounds (a b : partial_version) (x : jsvalue)
  (o : option Options) :
  partial_ok a -> partial_ok b ->
  satisfies x (RStr (partial_text a ++ " - " ++ partial_text b)) o
  = satisfies x (RStr (join " " (map bound_text (hyphen_bounds a b)))) o
  /\ validRange (RStr (partial_text a ++ " - " ++ partial_text b)) o
     = validRange (RStr (join " " (map bound_text (hyphen_bounds a b)))) o.
Proof.
  intros Ha Hb. apply same_parse_same_answers.
  - exact (hyphen_range_no_bar a b Ha Hb).
  - exact (join_no_bar _ (bounds_token_ok _ (hyphen_bounds_ok a b Ha Hb))).
  - exact (parseRange_hyphen _ a b Ha Hb).
Qed.

Lemma hyphen_ranges_mean_their_bounds_witness :
  satisfies (VStr "3.4.9") (RStr "1.2.3 - 3.4") None
  = satisfies (VStr "3.4.9") (RStr ">=1.2.3 <3.5.0") None
  /\ validRange (RStr "1.2.3 - 3.4") None = validRange (RStr ">=1.2.3 <3.5.0") None.
Proof.
  apply (hyphen_ranges_mean_their_bounds (Full 1 2 3 None) (MajorMinor 3 4)
           (VStr "3.4.9") None).
  - cbn. unfold MAX_SAFE_INTEGER. repeat split; lia.
  - cbn. unfold MAX_SAFE_INTEGER. lia.
Defined.
(** ** X-ranges stand for their bounds *)

Lemma split_ws_aux_word (s cur : string) :
  forallb_string (fun c => negb (is_space c)) s = true ->
  split_ws_aux s cur false = [cur ++ s].
Proof.
  revert cur. induction s as [| c s IH]; intros cur H.
  - cbn [split_ws_aux]. rewrite append_nil_r. reflexivity.
  - cbn [forallb_string] in H. apply andb_prop in H as [Hc Hs].
    apply negb_true_iff in Hc. cbn [split_ws_aux]. rewrite Hc, (IH _ Hs).
    norm_append. reflexivity.
Qed.

Lemma not_space_not_blank (c : ascii) :
  is_space c = false -> Ascii.eqb c " " = false.
Proof. destruct c as [[] [] [] [] [] [] [] []]; try discriminate; reflexivity. Qed.

Lemma split_char_aux_word (s cur : string) :
  forallb_string (fun c => negb (is_space c)) s = true ->
  split_char_aux " " s cur = [cur ++ s].
Proof.
  revert cur. induction s as [| c s IH]; intros cur H.
  - cbn [split_char_aux]. rewrite append_nil_r. reflexivity.
  - cbn [forallb_string] in H. apply andb_prop in H as [Hc Hs].
    apply negb_true_iff in Hc. cbn [split_char_aux].
    rewrite (not_space_not_blank c Hc), (IH _ Hs). norm_append. reflexivity.
Qed.

Lemma single_word (s : string) :
  forallb_string (fun c => negb (is_space c)) s = true ->
  trim s = s /\ split_ws s = [s] /\ split_char " " s = [s].
Proof.
  intros Hs. split; [exact (trim_no_space s Hs) |].
  split; [exact (split_ws_aux_word s "" Hs) | exact (split_char_aux_word s "" Hs)].
Qed.

(** [parseRange] on a range that is one word without a hyphen. *)
Lemma parseRange_word (o : Options) (s : string) :
  forallb_string (fun c => negb (is_space c)) s = true ->
  match_HYPHENRANGE s = None ->
  parseRange o s
  = mapM (fun comp => new_Comparator comp (Some o)) (split_ws (parseComparator s)).
Proof.
  intros Hs Hhyphen. destruct (single_word s Hs) as (Htrim & Hws & Hchar).
  unfold parseRange. rewrite Htrim, Hhyphen, Hws. cbn [join String.concat].
  rewrite Hchar. reflexivity.
Qed.

Lemma word_parse (o : Options) (s : string) (b : bound) (bs : list bound) :
  forallb_string (fun c => negb (is_space c)) s = true ->
  match_HYPHENRANGE s = None ->
  Forall bound_ok (b :: bs) ->
  parseComparator s = join " " (map bound_text (b :: bs)) ->
  parseRange o (trim s) = parseRange o (trim (join " " (map bound_text (b :: bs)))).
Proof.
  intros Hs Hhyphen Hok Hcomp.
  pose proof (bounds_token_ok _ Hok) as Htok. cbn [map] in Htok.
  rewrite (proj1 (single_word s Hs)), (parseRange_word o s Hs Hhyphen), Hcomp.
  cbn [map]. rewrite (trim_join _ _ Htok).
  change (bound_text b :: map bound_text bs) with (map bound_text (b :: bs)).
  rewrite (parseRange_bounds o b bs Hok). cbn [map].
  unfold split_ws. rewrite (split_ws_join _ _ false Htok). reflexivity.
Qed.

Lemma xrange_token_head (op tok : string) :
  xrange_operator op -> head_is is_digit tok = true ->
  exists c s, op ++ tok = String c s
              /\ (is_digit c || Ascii.eqb c "<" || Ascii.eqb c ">"
                  || Ascii.eqb c "=") = true.
Proof.
  intros Hop Htok. destruct tok as [| d r]; [discriminate |].
  cbn [head_is] in Htok.
  destruct Hop as [-> | [-> | [-> | [-> | [-> | ->]]]]]; cbn [append];
    try (eexists; eexists; split; [reflexivity | reflexivity]).
  exists d, r. rewrite Htok. auto.
Qed.

Lemma digit_xid_start (tok : string) :
  head_is is_digit tok = true -> head_is is_xid_start tok = true.
Proof.
  destruct tok as [| c r]; [discriminate |]. cbn [head_is]. unfold is_xid_start.
  intros ->. reflexivity.
Qed.

(** A token of an x-range with its operator is no hyphen range. *)
Lemma xrange_token_no_hyphen (op tok : string) (g : xrange_groups) :
  xrange_operator op -> head_is is_digit tok = true ->
  match_XRANGEPLAIN tok = Some (g, "") ->
  match_HYPHENRANGE (op ++ tok) = None.
Proof.
  intros Hop Htok Hmatch. destruct tok as [| d r]; [discriminate |].
  cbn [head_is] in Htok. pose proof (digit_not_space d Htok) as Hd.
  destruct Hop as [-> | [-> | [-> | [-> | [-> | ->]]]]]; cbn [append];
    unfold match_HYPHENRANGE; try reflexivity.
  - cbn [trim_start]. rewrite Hd, Hmatch. reflexivity.
  - change (trim_start (String "=" (String d r))) with (String "=" (String d r)).
    rewrite match_XRANGEPLAIN_equals, Hmatch. reflexivity.
Qed.

(** [parseComparator] on such a token, when the callback of
    [replaceXRange] gives plain comparators. *)
Lemma parseComparator_xrange_token (op tok : string) (g : xrange_groups)
  (b : bound) (bs : list bound) :
  xrange_operator op -> head_is is_digit tok = true ->
  forallb_string (fun c => negb (is_space c)) tok = true ->
  match_XRANGEPLAIN tok = Some (g, "") ->
  Forall bound_ok (b :: bs) ->
  xrange_callback (op ++ tok) op g = join " " (map bound_text (b :: bs)) ->
  parseComparator (op ++ tok) = join " " (map bound_text (b :: bs)).
Proof.
  intros Hop Hhead Htok Hmatch Hok Hcall.
  assert (Hword : forallb_string (fun c => negb (is_space c)) (op ++ tok) = true).
  { rewrite forallb_string_app, (operator_no_space op Hop), Htok. reflexivity. }
  destruct (single_word _ Hword) as (Htrim & Hws & _).
  destruct (xrange_token_head op tok Hop Hhead) as (c & s & E & Hc).
  unfold parseComparator.
  assert (Hcarets : replaceCarets (op ++ tok) = op ++ tok).
  { unfold replaceCarets. rewrite Htrim, Hws. cbn [map join String.concat].
    unfold replaceCaret. rewrite E, (proj1 (match_CARET_plain c s Hc)).
    reflexivity. }
  rewrite Hcarets.
  assert (Htildes : replaceTildes (op ++ tok) = op ++ tok).
  { unfold replaceTildes. rewrite Htrim, Hws. cbn [map join String.concat].
    unfold replaceTilde. rewrite E, (proj2 (match_CARET_plain c s Hc)).
    reflexivity. }
  rewrite Htildes.
  assert (Hxranges : replaceXRanges (op ++ tok)
                     = join " " (map bound_text (b :: bs))).
  { unfold replaceXRanges. rewrite Hws. cbn [map join String.concat].
    rewrite (replaceXRange_token op tok g Hop (digit_xid_start tok Hhead)
               Htok Hmatch).
    exact Hcall. }
  rewrite Hxranges. exact (replaceStars_bounds _ _ Hok).
Qed.

(** The bounds of an x-range as plain comparators. *)
Lemma xrange_bounds_plain (op : string) (M : N) (m : option N) :
  xrange_operator op ->
  exists b bs, xrange_bounds op M m = join " " (map bound_text (b :: bs))
               /\ Forall bound_ok (b :: bs).
Proof.
  intros Hop. unfold xrange_bounds.
  pose (lo := {| b_op := ">="; b_M := M;
                 b_m := match m with Some m => m | None => 0 end;
                 b_p := 0; b_pr := None |}).
  pose (hi := match m with
              | Some m => upper M (m + 1) 0
              | None => upper (M + 1) 0 0
              end).
  assert (Hlo : forall o, xrange_operator o ->
            bound_ok {| b_op := o; b_M := b_M lo; b_m := b_m lo; b_p := 0;
                        b_pr := None |}).
  { intros o Ho. split; [exact Ho | exact I]. }
  assert (Hhi : forall o, xrange_operator o ->
            bound_ok {| b_op := o; b_M := b_M hi; b_m := b_m hi; b_p := 0;
                        b_pr := None |}).
  { intros o Ho. split; [exact Ho | exact I]. }
  destruct Hop as [-> | [-> | [-> | [-> | [-> | ->]]]]];
    cbn [String.eqb Ascii.eqb Bool.eqb orb].
  - exists lo, [hi]. split.
    + subst lo hi. destruct m; bounds_texts.
    + repeat apply Forall_cons; try apply Forall_nil.
      * apply (Hlo ">="). do 5 right. reflexivity.
      * subst hi. destruct m; apply upper_ok.
  - exists lo, [hi]. split.
    + subst lo hi. destruct m; bounds_texts.
    + repeat apply Forall_cons; try apply Forall_nil.
      * apply (Hlo ">="). do 5 right. reflexivity.
      * subst hi. destruct m; apply upper_ok.
  - exists {| b_op := "<"; b_M := b_M lo; b_m := b_m lo; b_p := 0;
              b_pr := None |}, []. split.
    + subst lo. destruct m; bounds_texts.
    + apply Forall_cons; [| apply Forall_nil].
      apply Hlo. do 2 right. left. reflexivity.
  - exists {| b_op := ">="; b_M := b_M hi; b_m := b_m hi; b_p := 0;
              b_pr := None |}, []. split.
    + subst hi. destruct m; bounds_texts.
    + apply Forall_cons; [| apply Forall_nil].
      apply Hhi. do 5 right. reflexivity.
  - exists hi, []. split.
    + subst hi. destruct m; bounds_texts.
    + apply Forall_cons; [| apply Forall_nil]. subst hi. destruct m; apply upper_ok.
  - exists lo, []. split.
    + subst lo. destruct m; bounds_texts.
    + apply Forall_cons; [| apply Forall_nil].
      apply (Hlo ">="). do 5 right. reflexivity.
Qed.

Lemma xrange_callback_major (ret op : string) (M : N) (x : option string) :
  xrange_operator op -> M <= MAX_SAFE_INTEGER ->
  match x with Some s => x_identifier s | None => True end ->
  xrange_callback ret op
    {| x_M := decimal M; x_m := x; x_p := None; x_pr := None; x_b := None |}
  = xrange_bounds op M None.
Proof.
  intros Hop HM Hx. unfold xrange_callback, xrange_bounds. xrange_groups.
  destruct x as [x |].
  - rewrite (isX_x x Hx). cbn [isX orb]. xrange_operators Hop.
  - cbn [isX orb]. xrange_operators Hop.
Qed.

Lemma xrange_callback_minor (ret op : string) (M m : N) (x : option string) :
  xrange_operator op -> M <= MAX_SAFE_INTEGER -> m <= MAX_SAFE_INTEGER ->
  match x with Some s => x_identifier s | None => True end ->
  xrange_callback ret op
    {| x_M := decimal M; x_m := Some (decimal m); x_p := x; x_pr := None;
       x_b := None |}
  = xrange_bounds op M (Some m).
Proof.
  intros Hop HM Hm Hx. unfold xrange_callback, xrange_bounds. xrange_groups.
  destruct x as [x |].
  - rewrite (isX_x x Hx). cbn [isX orb]. xrange_operators Hop.
  - cbn [isX orb]. xrange_operators Hop.
Qed.

Lemma match_XRANGEPLAIN_major (M : N) (x : option string) :
  match x with Some s => x_identifier s | None => True end ->
  match_XRANGEPLAIN (decimal M ++ attach "." x)
  = Some ({| x_M := decimal M; x_m := x; x_p := None; x_pr := None;
             x_b := None |}, "").
Proof.
  intros Hx. destruct x as [x |]; cbn [attach].
  - exact (match_XRANGEPLAIN_M_x _ x (nid_ok_decimal M) Hx).
  - rewrite append_nil_r. exact (match_XRANGEPLAIN_M _ (nid_ok_decimal M)).
Qed.

Lemma match_XRANGEPLAIN_minor (M m : N) (x : option string) :
  match x with Some s => x_identifier s | None => True end ->
  match_XRANGEPLAIN (decimal M ++ "." ++ decimal m ++ attach "." x)
  = Some ({| x_M := decimal M; x_m := Some (decimal m); x_p := x;
             x_pr := None; x_b := None |}, "").
Proof.
  intros Hx. destruct x as [x |]; cbn [attach].
  - exact (match_XRANGEPLAIN_M_m_x _ _ x (nid_ok_decimal M) (nid_ok_decimal m) Hx).
  - rewrite append_nil_r.
    exact (match_XRANGEPLAIN_M_m _ _ (nid_ok_decimal M) (nid_ok_decimal m)).
Qed.

Lemma x_tail_chars (x : option string) :
  match x with Some s => x_identifier s | None => True end ->
  forallb_string (fun c => negb (is_space c)) (attach "." x) = true
  /\ forallb_string (fun c => negb (Ascii.eqb c "|")) (attach "." x) = true.
Proof.
  destruct x as [x |]; [| split; reflexivity].
  intros [-> | [-> | ->]]; split; reflexivity.
Qed.

Lemma decimal_head (n : N) (rest : string) :
  head_is is_digit (decimal n ++ rest) = true.
Proof.
  destruct (nid_head _ (nid_ok_decimal n)) as (c & ds & -> & Hc). exact Hc.
Qed.

Lemma decimal_no_bar (n : N) :
  forallb_string (fun c => negb (Ascii.eqb c "|")) (decimal n) = true.
Proof.
  pose proof (decimal_token_chars n) as H. revert H.
  apply forallb_string_impl. intros c Hc.
  destruct (token_char_facts c Hc) as (_ & -> & _). reflexivity.
Qed.

Lemma operator_no_bar (op : string) :
  xrange_operator op ->
  forallb_string (fun c => negb (Ascii.eqb c "|")) op = true.
Proof. intros [-> | [-> | [-> | [-> | [-> | ->]]]]]; reflexivity. Qed.

(** The range of one x-range token is the range of its bounds. *)
Lemma xrange_token_range (op tok : string) (g : xrange_groups) (M : N)
  (m : option N) (v : jsvalue) (o : option Options) :
  xrange_operator op -> head_is is_digit tok = true ->
  forallb_string (fun c => negb (is_space c)) tok = true ->
  forallb_string (fun c => negb (Ascii.eqb c "|")) tok = true ->
  match_XRANGEPLAIN tok = Some (g, "") ->
  xrange_callback (op ++ tok) op g = xrange_bounds op M m ->
  satisfies v (RStr (op ++ tok)) o = satisfies v (RStr (xrange_bounds op M m)) o
  /\ validRange (RStr (op ++ tok)) o = validRange (RStr (xrange_bounds op M m)) o.
Proof.
  intros Hop Hhead Hspace Hbar Hmatch Hcall.
  destruct (xrange_bounds_plain op M m Hop) as (b & bs & Htext & Hok).
  rewrite Htext in Hcall |- *.
  apply same_parse_same_answers.
  - rewrite forallb_string_app, (operator_no_bar op Hop), Hbar. reflexivity.
  - exact (join_no_bar _ (bounds_token_ok _ Hok)).
  - apply word_parse.
    + rewrite forallb_string_app, (operator_no_space op Hop), Hspace.
      reflexivity.
    + exact (xrange_token_no_hyphen op tok g Hop Hhead Hmatch).
    + exact Hok.
    + exact (parseComparator_xrange_token op tok g b bs Hop Hhead Hspace
               Hmatch Hok Hcall).
Qed.

(** An x-range, a partial version M or M.m with or without a closing x
    and under any of the operators "", "=", "<", ">", "<=", ">=", with
    fields at most MAX_SAFE_INTEGER, is the same range as its bounds
    written out: [satisfies] gives the same answer on every version
    argument, and [validRange] prints the same string. *)
Theorem xranges_mean_their_bounds (op : string) (M m : N) (x : option string)
  (v : jsvalue) (o : option Options) :
  xrange_operator op ->
  M <= MAX_SAFE_INTEGER -> m <= MAX_SAFE_INTEGER ->
  match x with Some s => x_identifier s | None => True end ->
  satisfies v (RStr (op ++ decimal M ++ attach "." x)) o
  = satisfies v (RStr (xrange_bounds op M None)) o
  /\ validRange (RStr (op ++ decimal M ++ attach "." x)) o
     = validRange (RStr (xrange_bounds op M None)) o
  /\ satisfies v (RStr (op ++ decimal M ++ "." ++ decimal m ++ attach "." x)) o
     = satisfies v (RStr (xrange_bounds op M (Some m))) o
  /\ validRange (RStr (op ++ decimal M ++ "." ++ decimal m ++ attach "." x)) o
     = validRange (RStr (xrange_bounds op M (Some m))) o.
Proof.
  intros Hop HM Hm Hx. destruct (x_tail_chars x Hx) as [Hxs Hxb].
  assert (Hmajor :
    satisfies v (RStr (op ++ decimal M ++ attach "." x)) o
    = satisfies v (RStr (xrange_bounds op M None)) o
    /\ validRange (RStr (op ++ decimal M ++ attach "." x)) o
       = validRange (RStr (xrange_bounds op M None)) o).
  { refine (xrange_token_range op _ _ M None v o Hop (decimal_head M _) _ _
              (match_XRANGEPLAIN_major M x Hx)
              (xrange_callback_major _ op M x Hop HM Hx)).
    - rewrite forallb_string_app, (nid_ok_no_space _ (nid_ok_decimal M)), Hxs.
      reflexivity.
    - rewrite forallb_string_app, (decimal_no_bar M), Hxb. reflexivity. }
  assert (Hminor :
    satisfies v (RStr (op ++ decimal M ++ "." ++ decimal m ++ attach "." x)) o
    = satisfies v (RStr (xrange_bounds op M (Some m))) o
    /\ validRange (RStr (op ++ decimal M ++ "." ++ decimal m ++ attach "." x)) o
       = validRange (RStr (xrange_bounds op M (Some m))) o).
  { refine (xrange_token_range op _ _ M (Some m) v o Hop (decimal_head M _) _ _
              (match_XRANGEPLAIN_minor M m x Hx)
              (xrange_callback_minor _ op M m x Hop HM Hm Hx)).
    - rewrite !forallb_string_app, (nid_ok_no_space _ (nid_ok_decimal M)),
        (nid_ok_no_space _ (nid_ok_decimal m)), Hxs.
      reflexivity.
    - rewrite !forallb_string_app, !decimal_no_bar, Hxb. reflexivity. }
  tauto.
Qed.

Lemma xranges_mean_their_bounds_witness :
  satisfies (VStr "1.9.9") (RStr "1.x") None
  = satisfies (VStr "1.9.9") (RStr ">=1.0.0 <2.0.0") None
  /\ validRange (RStr "1.x") None = validRange (RStr ">=1.0.0 <2.0.0") None.
Proof.
  destruct (xranges_mean_their_bounds "" 1 0 (Some "x") (VStr "1.9.9") None)
    as (H1 & H2 & _).
  - left. reflexivity.
  - unfold MAX_SAFE_INTEGER. lia.
  - unfold MAX_SAFE_INTEGER. lia.
  - left. reflexivity.
  - split; [exact H1 | exact H2].
Defined.
(** ** outside, gtr and ltr *)

Lemma range_accepts_fields_eq (r : Range) (a b : SemVer) :
  fields_eq a b -> range_accepts r a = range_accepts r b.
Proof.
  intros Hab. pose proof Hab as (HM & Hm & Hp & Hpre).
  assert (Hacc : forall c, comparator_accepts c a = comparator_accepts c b).
  { intros c. unfold comparator_accepts. destruct (semver c) as [sv |]; [| reflexivity].
    rewrite (compare_objects_fields_eq a b sv sv Hab (fields_eq_refl sv)).
    reflexivity. }
  assert (Hanc : forall c, anchors c a = anchors c b).
  { intros c. unfold anchors, same_main. destruct (semver c) as [sv |]; [| reflexivity].
    rewrite HM, Hm, Hp. reflexivity. }
  unfold range_accepts, set_accepts, has_prerelease. rewrite Hpre.
  induction (set r) as [| g gs IH]; [reflexivity |]. cbn [existsb]. rewrite IH.
  f_equal. f_equal; [| f_equal].
  - induction g as [| c g IHg]; [reflexivity |]. cbn [forallb].
    rewrite Hacc, IHg. reflexivity.
  - induction g as [| c g IHg]; [reflexivity |]. cbn [existsb].
    rewrite Hanc, IHg. reflexivity.
Qed.

Lemma compare_answers (a b : SemVer) (o : option Options) :
  constructed a -> constructed b ->
  compare (VSemVer a) (VSemVer b) o = Ok (compare_objects a b).
Proof.
  intros Ha Hb. apply compare_denotes; split; auto.
Qed.

Lemma comparisons_answer : answers gt /\ answers lt /\ answers gte /\ answers lte.
Proof.
  repeat split; intros a b o Ha Hb; unfold gt, lt, gte, lte;
    rewrite (compare_answers a b o Ha Hb); cbn [bind]; eauto.
Qed.

Lemma floor_comparator :
  exists c, new_Comparator ">=0.0.0" None = Ok c /\ versioned c.
Proof.
  eexists. split; [vm_compute; reflexivity |].
  eexists. split; [reflexivity |].
  exists (VStr "0.0.0"), (Some {| includePrerelease := false |}).
  vm_compute. reflexivity.
Qed.

Lemma outside_step_answers (gtfn ltfn : comparison_function) (o : option Options)
  (st : option Comparator * option Comparator) (c : Comparator) :
  answers gtfn -> answers ltfn -> comparator_ok c -> outside_invariant st ->
  exists high low,
    outside_step gtfn ltfn o st c = Ok (Some high, Some low)
    /\ versioned high /\ versioned low.
Proof.
  intros Hgt Hlt [_ Hc] Hst. unfold outside_step.
  assert (Hcomp : exists c', match semver c with
                             | None => new_Comparator ">=0.0.0" None
                             | Some _ => Ok c
                             end = Ok c' /\ versioned c').
  { destruct (semver c) as [sv |] eqn:E.
    - exists c. split; [reflexivity |]. exists sv. auto.
    - exact floor_comparator. }
  destruct Hcomp as (c' & -> & Hc'). cbn [bind].
  set (high := match fst st with Some h => h | None => c' end).
  set (low := match snd st with Some l => l | None => c' end).
  assert (Hhl : versioned high /\ versioned low).
  { subst high low. destruct st as [[h |] [l |]]; cbn [outside_invariant fst snd] in *;
      try contradiction; tauto. }
  destruct Hhl as [Hhigh Hlow].
  pose proof Hc' as (sc & Esc & Hsc). pose proof Hhigh as (sh & Esh & Hsh).
  pose proof Hlow as (sl & Esl & Hsl).
  unfold semver_arg. rewrite Esc, Esh, Esl.
  destruct (Hgt sc sh o Hsc Hsh) as (g & ->). cbn [bind].
  destruct g; [eauto |].
  destruct (Hlt sc sl o Hsc Hsl) as (l & ->). cbn [bind].
  destruct l; eauto.
Qed.

Lemma outside_loop_answers (gtfn ltfn : comparison_function) (o : option Options)
  (cs : list Comparator) (st : option Comparator * option Comparator) :
  answers gtfn -> answers ltfn -> Forall comparator_ok cs -> outside_invariant st ->
  exists st', forEach (outside_step gtfn ltfn o) cs st = Ok st'
              /\ outside_invariant st'.
Proof.
  intros Hgt Hlt Hcs. revert st. induction Hcs as [| c cs Hc _ IH]; intros st Hst.
  - exists st. split; [reflexivity | exact Hst].
  - destruct (outside_step_answers gtfn ltfn o st c Hgt Hlt Hc Hst)
      as (high & low & E & Hhigh & Hlow).
    cbn [forEach]. rewrite E. cbn [bind]. apply IH. split; assumption.
Qed.

Lemma outside_sets_answers (gtfn ltefn ltfn : comparison_function) (comp ecomp : string)
  (o : option Options) (v : SemVer) (sets : list (list Comparator)) :
  answers gtfn -> answers ltefn -> answers ltfn -> constructed v ->
  Forall (Forall comparator_ok) sets ->
  exists b, outside_sets gtfn ltefn ltfn comp ecomp o v sets = Ok b.
Proof.
  intros Hgt Hlte Hlt Hv Hsets. induction Hsets as [| cs sets Hcs _ IH].
  - exists true. reflexivity.
  - cbn [outside_sets].
    destruct (outside_loop_answers gtfn ltfn o cs (None, None) Hgt Hlt Hcs I)
      as (st' & -> & Hst').
    cbn [bind]. destruct st' as [[high |] [low |]]; eauto.
    destruct Hst' as [_ (sl & Esl & Hsl)]. unfold semver_arg. rewrite Esl.
    destruct (String.eqb (operator high) comp || String.eqb (operator high) ecomp);
      [eauto |].
    destruct (is_empty (operator low) || String.eqb (operator low) comp).
    + destruct (Hlte v sl None Hv Hsl) as (b1 & ->). cbn [bind].
      destruct b1; [eauto |].
      destruct (String.eqb (operator low) ecomp); cbn [bind]; [| exact IH].
      destruct (Hlt v sl None Hv Hsl) as (b2 & ->). cbn [bind].
      destruct b2; [eauto | exact IH].
    + cbn [bind].
      destruct (String.eqb (operator low) ecomp); cbn [bind]; [| exact IH].
      destruct (Hlt v sl None Hv Hsl) as (b2 & ->). cbn [bind].
      destruct b2; [eauto | exact IH].
Qed.

Lemma range_ok_sets (r : Range) :
  range_ok r -> Forall (Forall comparator_ok) (set r).
Proof.
  intros [_ H]. apply Forall_forall. intros g Hg. apply Forall_forall.
  intros c Hc. exact (H g Hg c Hc).
Qed.

(** [outside] once its arguments are built. *)
Lemma outside_built (x : jsvalue) (v : SemVer) (rg : range_arg) (r : Range)
  (hilo : string) (o : option Options) :
  denotes x v -> range_arg_ok rg -> new_Range rg o = Ok r ->
  exists sv, constructed sv /\
    outside x rg hilo o
    = (fns <- (if String.eqb hilo ">" then Ok (gt, lte, lt, ">", ">=")
               else if String.eqb hilo "<" then Ok (lt, gte, gt, "<", "<=")
               else Throw TypeError) ;;
       let '(gtfn, ltefn, ltfn, comp, ecomp) := fns in
       if range_accepts r v then Ok false
       else outside_sets gtfn ltefn ltfn comp ecomp o sv (set r)).
Proof.
  intros Hx Hrg Hnew.
  destruct (new_SemVer_denotes x v o Hx) as (sv & Hsv & Hcsv & Hf).
  destruct (new_Range_inv rg o r Hrg Hnew) as [Hr Hinc].
  exists sv. split; [exact Hcsv |].
  unfold outside. rewrite Hsv, Hnew. cbn [bind].
  assert (Hagain : new_Range (RRange r) o = Ok r).
  { cbn [new_Range]. destruct Hr as [Hflag _]. rewrite Hflag, Hinc.
    rewrite Bool.eqb_reflx. reflexivity. }
  assert (Hsat : satisfies (VSemVer sv) (RRange r) o = Ok (range_accepts r v)).
  { rewrite (satisfies_denotes (VSemVer sv) sv (RRange r) o r Hr Hagain
               (conj eq_refl Hcsv)).
    rewrite (range_accepts_fields_eq r sv v Hf). reflexivity. }
  destruct (String.eqb hilo ">"); [cbn [bind]; rewrite Hsat; reflexivity |].
  destruct (String.eqb hilo "<"); [cbn [bind]; rewrite Hsat; reflexivity |].
  reflexivity.
Qed.

(** On a valid version and a range that can be built, [gtr] and [ltr]
    return a boolean and do not throw; they return [false] when the
    version satisfies the range; and [outside] with a direction other than
    "<" and ">" throws a TypeError. *)
Theorem outside_is_safe (x : jsvalue) (rg : range_arg) (r : Range)
  (hilo : string) (o : option Options) :
  valid_version x -> range_arg_ok rg -> new_Range rg o = Ok r ->
  (exists b, gtr x rg o = Ok b)
  /\ (exists b, ltr x rg o = Ok b)
  /\ (satisfies x rg o = Ok true ->
      gtr x rg o = Ok false /\ ltr x rg o = Ok false)
  /\ (hilo <> ">" -> hilo <> "<" -> outside x rg hilo o = Throw TypeError).
Proof.
  intros [v Hx] Hrg Hnew.
  destruct comparisons_answer as (Hgt & Hlt & Hgte & Hlte).
  pose proof (range_ok_sets r (proj1 (new_Range_inv rg o r Hrg Hnew))) as Hsets.
  pose proof (satisfies_denotes x v rg o r Hrg Hnew Hx) as Hsat.
  destruct (outside_built x v rg r ">" o Hx Hrg Hnew) as (sv & Hsv & Egtr).
  destruct (outside_built x v rg r "<" o Hx Hrg Hnew) as (sv' & Hsv' & Eltr).
  destruct (outside_built x v rg r hilo o Hx Hrg Hnew) as (sv'' & _ & Eout).
  unfold gtr, ltr. rewrite Egtr, Eltr, Eout, Hsat.
  cbn [String.eqb Ascii.eqb Bool.eqb bind].
  split; [| split; [| split]].
  - destruct (range_accepts r v); [eauto |].
    exact (outside_sets_answers gt lte lt ">" ">=" o sv (set r) Hgt Hlte Hlt Hsv Hsets).
  - destruct (range_accepts r v); [eauto |].
    exact (outside_sets_answers lt gte gt "<" "<=" o sv' (set r) Hlt Hgte Hgt Hsv' Hsets).
  - intros H. injection H as ->. split; reflexivity.
  - intros Hgt' Hlt'.
    destruct (String.eqb_spec hilo ">") as [E | _]; [contradiction |].
    destruct (String.eqb_spec hilo "<") as [E | _]; [contradiction |].
    reflexivity.
Qed.

Lemma outside_is_safe_witness :
  (exists b, gtr (VStr "2.5.0") (RStr "1.x") None = Ok b)
  /\ outside (VStr "2.5.0") (RStr "1.x") ">=" None = Throw TypeError.
Proof.
  assert (Hr : exists r, new_Range (RStr "1.x") None = Ok r)
    by (eexists; vm_compute; reflexivity).
  destruct Hr as [r Hr].
  destruct (outside_is_safe (VStr "2.5.0") (RStr "1.x") r ">=" None) as (H1 & _ & _ & H4).
  - eexists. cbn [denotes]. vm_compute. reflexivity.
  - exact I.
  - exact Hr.
  - split; [exact H1 | apply H4; discriminate].
Defined.
(** ** Comparators that intersect *)

Lemma full_text_nonempty (v : bool) (g : full_groups) (rest : string) :
  groups_ok g = true -> is_empty (full_text v g ++ rest) = false.
Proof.
  unfold groups_ok. intros H.
  apply andb_prop in H as [H _]. apply andb_prop in H as [H _].
  apply andb_prop in H as [H _]. apply andb_prop in H as [H _].
  destruct (nid_head _ H) as (c & ds & E & _). unfold full_text. rewrite E.
  destruct v; reflexivity.
Qed.

Lemma built_comparator_inv (c : Comparator) :
  built_comparator c ->
  (semver c = None /\ operator c = "" /\ value c = "")
  \/ (exists sv, semver c = Some sv /\ constructed sv
                 /\ operator_ok (operator c) = true
                 /\ value c = operator c ++ version sv).
Proof.
  intros (comp & o & H). revert H. unfold new_Comparator, match_COMPARATOR.
  pose proof (match_GTLT_operator comp) as Hop.
  destruct (match_GTLT comp) as [op s1]. cbn in Hop.
  assert (Hnorm : operator_ok (if String.eqb op "=" then "" else op) = true).
  { destruct Hop as [-> | [-> | [-> | [-> | [-> | ->]]]]]; reflexivity. }
  destruct (match_FULLPLAIN (trim_start s1)) as [[g rest] |] eqn:E.
  - destruct rest.
    + destruct (match_FULLPLAIN_sound _ _ _ E) as (v & Htext & Hg).
      rewrite Htext at 1. rewrite (full_text_nonempty v g "" Hg).
      destruct (new_SemVer (VStr (trim_start s1)) (Some (object_or_default o)))
        as [sv |] eqn:Esv; [| discriminate].
      cbn [bind]. intros H. injection H as <-. right. exists sv.
      cbn [semver operator value]. repeat split; try assumption.
      exists (VStr (trim_start s1)), (Some (object_or_default o)). exact Esv.
    + destruct (is_empty comp); [| discriminate].
      intros H. injection H as <-. left. repeat split.
  - destruct (is_empty comp); [| discriminate].
    intros H. injection H as <-. left. repeat split.
Qed.

Lemma operator_ok_cases (op : string) :
  operator_ok op = true ->
  op = "" \/ op = "<" \/ op = ">" \/ op = "<=" \/ op = ">=".
Proof.
  unfold operator_ok. intros H.
  repeat (apply orb_prop in H as [H | H]); apply String.eqb_eq in H; auto.
Qed.

(** The version of a constructed object is the text of a plain
    comparator. *)
Lemma constructed_version_bound (sv : SemVer) (op : string) :
  constructed sv -> operator_ok op = true ->
  exists b, bound_ok b /\ b_op b = op /\ bound_version b = version sv.
Proof.
  intros (x & o & H) Hop.
  apply new_SemVer_inv in H
    as (text & m & _ & _ & Hm & HM & Hmi & Hp & Hpre & _ & _ & _ & Hver).
  destruct (match_FULL_sound _ _ Hm) as (vf & _ & Hok).
  rewrite Hpre in Hver. rewrite (version_text m _ _ _ Hok HM Hmi Hp) in Hver.
  pose proof Hok as Hg. unfold groups_ok in Hg.
  apply andb_prop in Hg as [Hg _]. apply andb_prop in Hg as [Hg Hpr].
  apply andb_prop in Hg as [Hg H3]. apply andb_prop in Hg as [H1 H2].
  pose proof MAX_SAFE_below_pow53 as Hmax.
  pose proof (main_field_bound _ _ HM) as BM.
  pose proof (main_field_bound _ _ Hmi) as Bm.
  pose proof (main_field_bound _ _ Hp) as Bp.
  pose proof (main_field_text _ _ H1 HM) as TM.
  pose proof (main_field_text _ _ H2 Hmi) as Tm.
  pose proof (main_field_text _ _ H3 Hp) as Tp.
  rewrite NumberToString_small in TM, Tm, Tp by lia.
  exists {| b_op := op; b_M := major sv; b_m := minor sv; b_p := patch sv;
            b_pr := g_prerelease m |}.
  split; [| split; [reflexivity |]].
  - split.
    + cbn [b_op]. destruct (operator_ok_cases op Hop) as [-> | [-> | [-> | [-> | ->]]]];
        unfold xrange_operator; auto 10.
    + cbn [b_pr]. destruct (g_prerelease m); [exact Hpr | exact I].
  - rewrite Hver. unfold bound_version, triple_text, full_text.
    cbn [b_M b_m b_p b_pr without_build g_major g_minor g_patch g_prerelease
         g_build attach].
    rewrite TM, Tm, Tp. norm_append. rewrite ?append_nil_r. reflexivity.
Qed.

Lemma stored_operator_ok (op : string) :
  operator_ok op = true -> stored_operator op = op.
Proof.
  intros H. destruct (operator_ok_cases op H) as [-> | [-> | [-> | [-> | ->]]]];
    reflexivity.
Qed.

(** The Range of the value of a comparator with a version. *)
Lemma new_Range_comparator (sv : SemVer) (op : string) (o : Options) :
  constructed sv -> operator_ok op = true ->
  exists raw text,
    new_Range (RStr (op ++ version sv)) (Some o)
    = Ok {| range := text; range_raw := raw; range_options := o;
            range_includePrerelease := includePrerelease o;
            set := [[ {| semver := Some (canonical sv o); operator := op;
                         value := op ++ version sv;
                         comparator_options := o |} ]] |}.
Proof.
  intros Hsv Hop.
  destruct (constructed_version_bound sv op Hsv Hop) as (b & Hb & Eop & Ever).
  assert (Hbs : Forall bound_ok [b]) by (apply Forall_cons; auto).
  pose proof (bounds_token_ok _ Hbs) as Htok.
  assert (Etext : op ++ version sv = join " " (map bound_text [b])).
  { cbn [map join String.concat]. unfold bound_text. rewrite Eop, Ever.
    reflexivity. }
  destruct Hsv as (x & o0 & Hx).
  pose proof (new_SemVer_roundtrip x o0 (Some o) sv Hx) as Hround.
  assert (Hparse : new_SemVer (VStr (bound_version b)) (Some o)
                   = Ok (canonical sv o)).
  { rewrite Ever. exact Hround. }
  eexists. eexists. cbn [new_Range object_or_default]. rewrite Etext at 1.
  rewrite (new_Range_of_string_one_group _ _ (join_no_bar _ Htok)).
  cbn [map] in Htok |- *. rewrite (trim_join _ _ Htok).
  change [bound_text b] with (map bound_text [b]).
  rewrite (parseRange_bounds o b [] Hbs). cbn [map mapM].
  rewrite (new_Comparator_bound o b Hb), Hparse. cbn [bind is_nil].
  rewrite Eop, (stored_operator_ok op Hop). reflexivity.
Qed.

(** A version against the Range of one comparator. *)
Lemma satisfies_comparator_range (x : jsvalue) (v sv : SemVer) (op : string)
  (o : Options) (raw text : string) :
  denotes x v -> constructed sv -> operator_ok op = true ->
  satisfies x
    (RRange {| range := text; range_raw := raw; range_options := o;
               range_includePrerelease := includePrerelease o;
               set := [[ {| semver := Some (canonical sv o); operator := op;
                            value := op ++ version sv;
                            comparator_options := o |} ]] |})
    (Some o)
  = Ok (exact_meets (includePrerelease o) v op sv).
Proof.
  intros Hx Hsv Hop.
  set (r := {| range := text; range_raw := raw; range_options := o;
               range_includePrerelease := includePrerelease o;
               set := [[ {| semver := Some (canonical sv o); operator := op;
                            value := op ++ version sv;
                            comparator_options := o |} ]] |}).
  assert (Hr : range_ok r).
  { split; [reflexivity |]. intros g [<- | []] c [<- | []].
    split; [exact Hop |]. cbn [semver]. exact (constructed_canonical sv o Hsv). }
  assert (Hnew : new_Range (RRange r) (Some o) = Ok r).
  { cbn [new_Range object_or_default range_includePrerelease r].
    rewrite Bool.eqb_reflx. reflexivity. }
  rewrite (satisfies_denotes x v (RRange r) (Some o) r Hr Hnew Hx).
  f_equal. unfold range_accepts, set_accepts, exact_meets, comparator_accepts,
    anchors.
  cbn [set r range_options existsb forallb semver operator].
  rewrite !orb_false_r, andb_true_r. reflexivity.
Qed.

Lemma version_nonempty (sv : SemVer) (op : string) :
  constructed sv -> operator_ok op = true ->
  String.eqb (op ++ version sv) "" = false.
Proof.
  intros Hsv Hop.
  destruct (constructed_version_bound sv op Hsv Hop) as (b & _ & _ & <-).
  destruct (bound_version_head b "") as (c & ds & E & _).
  rewrite append_nil_r in E. rewrite E.
  destruct op; reflexivity.
Qed.

Lemma denotes_version (sv : SemVer) :
  constructed sv ->
  denotes (VStr (version sv)) (canonical sv {| includePrerelease := false |}).
Proof.
  intros (x & o & Hx). cbn [denotes].
  exact (new_SemVer_roundtrip x o None sv Hx).
Qed.

Lemma exact_meets_canonical (include : bool) (x y : SemVer) (op : string)
  (o : Options) :
  exact_meets include (canonical x o) op y = exact_meets include x op y.
Proof. reflexivity. Qed.

(** [intersects] on two comparators with versions. *)
Lemma Comparator_intersects_versions (a b : Comparator) (sa sb : SemVer)
  (o : option Options) :
  semver a = Some sa -> constructed sa -> operator_ok (operator a) = true ->
  value a = operator a ++ version sa ->
  semver b = Some sb -> constructed sb -> operator_ok (operator b) = true ->
  value b = operator b ++ version sb ->
  Comparator_intersects a b o
  = Ok (comparators_meet (includePrerelease (object_or_default o))
          (operator a) sa (operator b) sb).
Proof.
  intros Ea Hsa Hopa Hva Eb Hsb Hopb Hvb.
  unfold Comparator_intersects, comparators_meet.
  set (o' := object_or_default o).
  destruct (new_Range_comparator sa (operator a) o' Hsa Hopa)
    as (rawa & texta & Hra).
  destruct (new_Range_comparator sb (operator b) o' Hsb Hopb)
    as (rawb & textb & Hrb).
  rewrite Hva, Hvb, (version_nonempty sa _ Hsa Hopa),
    (version_nonempty sb _ Hsb Hopb).
  destruct (String.eqb_spec (operator a) "") as [Ha | Ha].
  - rewrite Hrb. cbn [bind]. rewrite Ha. cbn [append].
    rewrite (satisfies_comparator_range _ _ sb (operator b) o' rawb textb
               (denotes_version sa Hsa) Hsb Hopb).
    reflexivity.
  - destruct (String.eqb_spec (operator b) "") as [Hb | Hb].
    + rewrite Hra. cbn [bind]. rewrite Eb.
      rewrite (satisfies_comparator_range (VSemVer sb) sb sa (operator a) o'
                 rawa texta (conj eq_refl Hsb) Hsa Hopa).
      reflexivity.
    + unfold semver_arg, same_version. rewrite Ea, Eb.
      assert (Hlt : operator_ok "<" = true) by reflexivity.
      assert (Hgt : operator_ok ">" = true) by reflexivity.
      rewrite (cmp_of_objects sa sb "<" (Some o') Hlt Hsa Hsb),
        (cmp_of_objects sa sb ">" (Some o') Hgt Hsa Hsb).
      cbn [bind]. reflexivity.
Qed.

Lemma compare_objects_zero_main (a b : SemVer) :
  numbers_ok a = true -> numbers_ok b = true ->
  compare_objects a b = 0%Z ->
  same_main a b = true /\ has_prerelease a = has_prerelease b.
Proof.
  intros Ha Hb H. unfold compare_objects in H.
  apply or_else_zero in H as [Hm Hp]. split.
  - apply compareMain_zero; auto using numbers_ok_main.
  - unfold comparePre in Hp. unfold has_prerelease.
    destruct (prerelease a), (prerelease b); try discriminate; reflexivity.
Qed.

Lemma exact_meets_equal (include : bool) (a b : SemVer) :
  numbers_ok a = true -> numbers_ok b = true ->
  exact_meets include a "" b = exact_meets include b "" a.
Proof.
  intros Ha Hb. unfold exact_meets, operator_holds. cbn [String.eqb].
  rewrite (compare_objects_antisym b a Hb Ha).
  destruct (Z.eqb_spec (compare_objects a b) 0) as [E | E].
  - destruct (compare_objects_zero_main a b Ha Hb E) as [Hm Hp].
    rewrite E, (same_main_sym b a), Hm, Hp. cbn [Z.opp Z.eqb andb].
    rewrite andb_true_r. destruct (has_prerelease b), include; reflexivity.
  - destruct (Z.eqb_spec (- compare_objects a b) 0) as [E' | _]; [lia |].
    reflexivity.
Qed.

Lemma comparators_meet_sym (include : bool) (opa opb : string) (sa sb : SemVer) :
  numbers_ok sa = true -> numbers_ok sb = true ->
  comparators_meet include opa sa opb sb = comparators_meet include opb sb opa sa.
Proof.
  intros Ha Hb. unfold comparators_meet.
  destruct (String.eqb_spec opa "") as [-> | _],
           (String.eqb_spec opb "") as [-> | _]; try reflexivity.
  - exact (exact_meets_equal include sa sb Ha Hb).
  - rewrite (compare_objects_antisym sb sa Hb Ha), (String.eqb_sym (version sb)).
    replace (- compare_objects sa sb <? 0)%Z with (0 <? compare_objects sa sb)%Z
      by (destruct (Z.ltb_spec 0 (compare_objects sa sb)),
            (Z.ltb_spec (- compare_objects sa sb) 0); try reflexivity; lia).
    replace (0 <? - compare_objects sa sb)%Z with (compare_objects sa sb <? 0)%Z
      by (destruct (Z.ltb_spec (compare_objects sa sb) 0),
            (Z.ltb_spec 0 (- compare_objects sa sb)); try reflexivity; lia).
    destruct (increasing opa), (increasing opb), (decreasing opa),
      (decreasing opb), (inclusive opa), (inclusive opb),
      (String.eqb (version sa) (version sb)),
      (compare_objects sa sb <? 0)%Z, (0 <? compare_objects sa sb)%Z;
      reflexivity.
Qed.

(** On two comparators with versions the answer does not depend on the
    order. *)
Lemma Comparator_intersects_proper (a b : Comparator) (o : option Options) :
  proper a -> proper b ->
  exists r, Comparator_intersects a b o = Ok r
            /\ Comparator_intersects b a o = Ok r.
Proof.
  intros [Ha Na] [Hb Nb].
  destruct (built_comparator_inv a Ha)
    as [(Ea & _) | (sa & Ea & Hsa & Hopa & Hva)]; [contradiction |].
  destruct (built_comparator_inv b Hb)
    as [(Eb & _) | (sb & Eb & Hsb & Hopb & Hvb)]; [contradiction |].
  rewrite (Comparator_intersects_versions a b sa sb o Ea Hsa Hopa Hva Eb Hsb
             Hopb Hvb),
    (Comparator_intersects_versions b a sb sa o Eb Hsb Hopb Hvb Ea Hsa Hopa
       Hva).
  eexists. split; [reflexivity |]. f_equal. symmetry.
  apply comparators_meet_sym; apply constructed_numbers_ok; assumption.
Qed.

(** On comparators the constructor built, [intersects] does not throw.
    Between two comparators with versions it does not depend on the
    order.  A comparator without a version, which the empty string gives,
    intersects every comparator; a comparator with a version intersects
    one without exactly when it has an operator, or its version has no
    prerelease, or includePrerelease is set: then alone the order
    matters. *)
Theorem Comparator_intersects_is_symmetric (a b : Comparator)
  (o : option Options) :
  built_comparator a -> built_comparator b ->
  (exists r, Comparator_intersects a b o = Ok r)
  /\ (semver a = None -> Comparator_intersects a b o = Ok true)
  /\ (semver a <> None -> semver b <> None ->
      Comparator_intersects a b o = Comparator_intersects b a o)
  /\ (forall sa, semver a = Some sa -> semver b = None ->
      Comparator_intersects a b o
      = Ok (negb (String.eqb (operator a) "" && has_prerelease sa
                  && negb (includePrerelease (object_or_default o))))).
Proof.
  intros Ha Hb.
  assert (Hany : forall c d, semver c = None -> operator c = "" ->
            value c = "" -> Comparator_intersects c d o = Ok true).
  { intros c d _ Hop Hval. unfold Comparator_intersects.
    rewrite Hop, Hval. reflexivity. }
  assert (Hright : forall c sc d, semver c = Some sc -> constructed sc ->
            operator_ok (operator c) = true ->
            value c = operator c ++ version sc ->
            semver d = None -> operator d = "" -> value d = "" ->
            Comparator_intersects c d o
            = Ok (negb (String.eqb (operator c) "" && has_prerelease sc
                        && negb (includePrerelease (object_or_default o))))).
  { intros c sc d Ec Hsc Hopc Hvc _ Hopd Hvald. unfold Comparator_intersects.
    rewrite Hopd, Hvald, Hvc, (version_nonempty sc _ Hsc Hopc).
    destruct (String.eqb_spec (operator c) "") as [E | _]; [| reflexivity].
    rewrite (new_Range_any "" (Some (object_or_default o))
               (or_intror (or_introl eq_refl))).
    cbn [bind object_or_default]. rewrite E. cbn [append].
    assert (Hr : range_ok (any_range "" (object_or_default o))).
    { split; [reflexivity |]. intros g [<- | []] c0 [<- | []].
      split; [reflexivity | exact I]. }
    assert (Hnew : new_Range (RRange (any_range "" (object_or_default o)))
                     (Some (object_or_default o))
                   = Ok (any_range "" (object_or_default o))).
    { cbn [new_Range object_or_default any_range range_includePrerelease].
      rewrite Bool.eqb_reflx. reflexivity. }
    rewrite (satisfies_denotes _ _ (RRange (any_range "" (object_or_default o)))
               _ _ Hr Hnew (denotes_version sc Hsc)).
    f_equal. unfold range_accepts, any_range, set_accepts, comparator_accepts,
      anchors.
    cbn. rewrite !orb_false_r.
    change (has_prerelease (canonical sc {| includePrerelease := false |}))
      with (has_prerelease sc).
    destruct (has_prerelease sc), (includePrerelease (object_or_default o));
      reflexivity. }
  destruct (built_comparator_inv a Ha)
    as [(Ea & Hopa & Hva) | (sa & Ea & Hsa & Hopa & Hva)];
    destruct (built_comparator_inv b Hb)
      as [(Eb & Hopb & Hvb) | (sb & Eb & Hsb & Hopb & Hvb)].
  - rewrite (Hany a b Ea Hopa Hva).
    split; [eauto |]. split; [reflexivity |]. split; [congruence |].
    intros sa E. congruence.
  - rewrite (Hany a b Ea Hopa Hva).
    split; [eauto |]. split; [reflexivity |]. split; [congruence |].
    intros sa E. congruence.
  - rewrite (Hright a sa b Ea Hsa Hopa Hva Eb Hopb Hvb).
    split; [eauto |]. split; [congruence |]. split; [congruence |].
    intros sa' E _. congruence.
  - rewrite (Comparator_intersects_versions a b sa sb o Ea Hsa Hopa Hva Eb Hsb
               Hopb Hvb),
      (Comparator_intersects_versions b a sb sa o Eb Hsb Hopb Hvb Ea Hsa Hopa
         Hva).
    split; [eauto |]. split; [congruence |]. split; [| congruence].
    intros _ _. f_equal.
    apply comparators_meet_sym; apply constructed_numbers_ok; assumption.
Qed.

Lemma Comparator_intersects_is_symmetric_witness :
  exists a b,
    new_Comparator ">=1.2.3" None = Ok a /\ new_Comparator "<2.0.0" None = Ok b
    /\ Comparator_intersects a b None = Comparator_intersects b a None.
Proof.
  eexists. eexists. split; [vm_compute; reflexivity |].
  split; [vm_compute; reflexivity |].
  refine (proj1 (proj2 (proj2 (Comparator_intersects_is_symmetric _ _ None _ _)))
            _ _).
  - exists ">=1.2.3", None. vm_compute. reflexivity.
  - exists "<2.0.0", None. vm_compute. reflexivity.
  - discriminate.
  - discriminate.
Defined.

(** ** Ranges that intersect *)

Lemma array_every_total {A : Type} (f : A -> result bool) (p : A -> bool)
  (xs : list A) :
  (forall x, In x xs -> f x = Ok (p x)) -> array_every f xs = Ok (forallb p xs).
Proof.
  induction xs as [| x xs IH]; intros H; [reflexivity |].
  cbn [array_every forallb]. rewrite (H x (or_introl eq_refl)). cbn [bind].
  destruct (p x); [| reflexivity].
  apply IH. intros y Hy. apply H. right. exact Hy.
Qed.

Lemma array_some_total {A : Type} (f : A -> result bool) (p : A -> bool)
  (xs : list A) :
  (forall x, In x xs -> f x = Ok (p x)) -> array_some f xs = Ok (existsb p xs).
Proof.
  induction xs as [| x xs IH]; intros H; [reflexivity |].
  cbn [array_some existsb]. rewrite (H x (or_introl eq_refl)). cbn [bind].
  destruct (p x); [reflexivity |].
  apply IH. intros y Hy. apply H. right. exact Hy.
Qed.

Lemma meet_proper (c d : Comparator) :
  proper c -> proper d ->
  Comparator_intersects c d None = Ok (meet c d) /\ meet c d = meet d c.
Proof.
  intros Hc Hd. unfold meet.
  destruct (Comparator_intersects_proper c d None Hc Hd) as (r & -> & ->).
  split; reflexivity.
Qed.

Lemma isSatisfiable_loop_total (t : Comparator) (remaining : list Comparator) :
  proper t -> Forall proper remaining ->
  exists b, isSatisfiable_loop t remaining None = Ok b.
Proof.
  intros Ht Hrem. revert t Ht.
  induction Hrem as [| next remaining Hnext Hrem IH]; intros t Ht.
  - exists true. reflexivity.
  - cbn [isSatisfiable_loop].
    rewrite (array_every_total _ (meet t) (rev (next :: remaining))).
    + cbn [bind]. destruct (forallb (meet t) (rev (next :: remaining))).
      * exact (IH next Hnext).
      * exists false. reflexivity.
    + intros d Hd. apply in_rev in Hd.
      assert (Hpd : proper d).
      { destruct Hd as [<- | Hd]; [exact Hnext |].
        exact (proj1 (Forall_forall _ _) Hrem d Hd). }
      exact (proj1 (meet_proper t d Ht Hpd)).
Qed.

Lemma isSatisfiable_total (cs : list Comparator) :
  Forall proper cs -> isSatisfiable cs None = Ok (satisfiable cs).
Proof.
  intros Hcs. unfold satisfiable.
  assert (H : exists b, isSatisfiable cs None = Ok b).
  { unfold isSatisfiable.
    assert (Hrev : Forall proper (rev cs)).
    { apply Forall_forall. intros c Hc. apply in_rev in Hc.
      exact (proj1 (Forall_forall _ _) Hcs c Hc). }
    destruct (rev cs) as [| t remaining]; [exists true; reflexivity |].
    inversion Hrev as [| ? ? Ht Hrem]; subst.
    exact (isSatisfiable_loop_total t remaining Ht Hrem). }
  destruct H as (b & ->). reflexivity.
Qed.

Lemma Range_intersects_total (r1 r2 : Range) :
  Forall (Forall proper) (set r1) -> Forall (Forall proper) (set r2) ->
  Range_intersects r1 r2 None = Ok (ranges_meet (set r1) (set r2)).
Proof.
  intros H1 H2. unfold Range_intersects, ranges_meet.
  apply array_some_total. intros s1 Hs1.
  pose proof (proj1 (Forall_forall _ _) H1 s1 Hs1) as P1.
  rewrite (isSatisfiable_total s1 P1). cbn [bind].
  destruct (satisfiable s1); [| reflexivity]. cbn [andb].
  apply array_some_total. intros s2 Hs2.
  pose proof (proj1 (Forall_forall _ _) H2 s2 Hs2) as P2.
  rewrite (isSatisfiable_total s2 P2). cbn [bind].
  destruct (satisfiable s2); [| reflexivity]. cbn [andb].
  unfold sets_meet. apply array_every_total. intros c1 Hc1.
  apply array_every_total. intros c2 Hc2.
  apply meet_proper.
  - exact (proj1 (Forall_forall _ _) P1 c1 Hc1).
  - exact (proj1 (Forall_forall _ _) P2 c2 Hc2).
Qed.

Lemma sets_meet_sym (s1 s2 : list Comparator) :
  Forall proper s1 -> Forall proper s2 -> sets_meet s1 s2 = sets_meet s2 s1.
Proof.
  intros P1 P2. apply eq_true_iff_eq. unfold sets_meet.
  rewrite !forallb_forall.
  split; intros H c Hc; apply forallb_forall; intros d Hd;
    pose proof (H d Hd) as Hd'; rewrite forallb_forall in Hd';
    specialize (Hd' c Hc).
  - rewrite <- Hd'. symmetry. apply meet_proper.
    + exact (proj1 (Forall_forall _ _) P1 d Hd).
    + exact (proj1 (Forall_forall _ _) P2 c Hc).
  - rewrite <- Hd'. apply meet_proper.
    + exact (proj1 (Forall_forall _ _) P1 c Hc).
    + exact (proj1 (Forall_forall _ _) P2 d Hd).
Qed.

Lemma ranges_meet_sym (l1 l2 : list (list Comparator)) :
  Forall (Forall proper) l1 -> Forall (Forall proper) l2 ->
  ranges_meet l1 l2 = ranges_meet l2 l1.
Proof.
  intros H1 H2. apply eq_true_iff_eq. unfold ranges_meet.
  rewrite !existsb_exists.
  split; intros (s & Hs & H); apply andb_prop in H as [Hsat H];
    apply existsb_exists in H as (s' & Hs' & H);
    apply andb_prop in H as [Hsat' Hmeet];
    exists s'; (split; [exact Hs' |]); rewrite Hsat'; cbn [andb];
    apply existsb_exists; exists s; (split; [exact Hs |]);
    rewrite Hsat; cbn [andb]; rewrite <- Hmeet.
  - apply sets_meet_sym.
    + exact (proj1 (Forall_forall _ _) H2 s' Hs').
    + exact (proj1 (Forall_forall _ _) H1 s Hs).
  - apply sets_meet_sym.
    + exact (proj1 (Forall_forall _ _) H1 s' Hs').
    + exact (proj1 (Forall_forall _ _) H2 s Hs).
Qed.

Lemma new_Range_of_string_built (s : string) (o : Options) (r : Range) :
  new_Range_of_string s o = Ok r -> Forall (Forall built_comparator) (set r).
Proof.
  unfold new_Range_of_string.
  destruct (mapM (fun r0 => parseRange o (trim r0)) (split_or s)) as [sets |] eqn:E;
    [| discriminate].
  cbn. destruct (is_nil (filter (fun c => negb (is_nil c)) sets)); [discriminate |].
  intros H. injection H as <-. cbn [set].
  apply Forall_forall. intros g Hg. apply Forall_forall. intros c Hc.
  apply filter_In in Hg as [Hg _].
  destruct (mapM_inv _ _ _ E g Hg) as (piece & _ & Hp).
  unfold parseRange in Hp.
  destruct (mapM_inv _ _ _ Hp c Hc) as (comp & _ & Hcomp).
  exists comp, (Some o). exact Hcomp.
Qed.

Lemma built_versioned_proper (l : list (list Comparator)) :
  Forall (Forall built_comparator) l -> Forall (Forall versioned) l ->
  Forall (Forall proper) l.
Proof.
  intros Hb Hv. apply Forall_forall. intros g Hg. apply Forall_forall.
  intros c Hc. split.
  - exact (proj1 (Forall_forall _ _)
             (proj1 (Forall_forall _ _) Hb g Hg) c Hc).
  - destruct (proj1 (Forall_forall _ _)
                (proj1 (Forall_forall _ _) Hv g Hg) c Hc) as (sv & E & _).
    congruence.
Qed.

Lemma has_versions_versioned (r : Range) :
  range_ok r -> has_versions (set r) = true -> Forall (Forall versioned) (set r).
Proof.
  intros [_ Hr] H. unfold has_versions in H.
  apply Forall_forall. intros g Hg. apply Forall_forall. intros c Hc.
  pose proof (proj1 (forallb_forall _ _) H g Hg) as Hg'.
  pose proof (proj1 (forallb_forall _ _) Hg' c Hc) as Hc'. cbn beta in Hc'.
  destruct (Hr g Hg c Hc) as [_ Hsv].
  destruct (semver c) as [sv |] eqn:E; [| discriminate].
  exists sv. split; [exact E | exact Hsv].
Qed.

(** Between two range strings whose comparators all carry a version,
    [intersects] returns a boolean and does not depend on the order of
    its arguments. *)
Theorem intersects_is_symmetric (s1 s2 : string) (o : option Options)
  (r1 r2 : Range) :
  new_Range (RStr s1) o = Ok r1 -> new_Range (RStr s2) o = Ok r2 ->
  Forall (Forall versioned) (set r1) -> Forall (Forall versioned) (set r2) ->
  exists b, intersects (RStr s1) (RStr s2) o = Ok b
            /\ intersects (RStr s2) (RStr s1) o = Ok b.
Proof.
  intros Hr1 Hr2 Hv1 Hv2.
  pose proof (built_versioned_proper _
                (new_Range_of_string_built s1 _ r1 Hr1) Hv1) as P1.
  pose proof (built_versioned_proper _
                (new_Range_of_string_built s2 _ r2 Hr2) Hv2) as P2.
  unfold intersects. rewrite Hr1, Hr2. cbn [bind].
  rewrite (Range_intersects_total r1 r2 P1 P2),
    (Range_intersects_total r2 r1 P2 P1).
  exists (ranges_meet (set r1) (set r2)). split; [reflexivity |].
  f_equal. exact (ranges_meet_sym _ _ P2 P1).
Qed.

Lemma intersects_is_symmetric_witness :
  exists b, intersects (RStr "^1.2.3") (RStr "1.5.x || >=3.0.0") None = Ok b
            /\ intersects (RStr "1.5.x || >=3.0.0") (RStr "^1.2.3") None = Ok b.
Proof.
  assert (H1 : exists r, new_Range (RStr "^1.2.3") None = Ok r
                         /\ has_versions (set r) = true).
  { eexists. split; vm_compute; reflexivity. }
  assert (H2 : exists r, new_Range (RStr "1.5.x || >=3.0.0") None = Ok r
                         /\ has_versions (set r) = true).
  { eexists. split; vm_compute; reflexivity. }
  destruct H1 as (r1 & Hr1 & Hv1). destruct H2 as (r2 & Hr2 & Hv2).
  exact (intersects_is_symmetric "^1.2.3" "1.5.x || >=3.0.0" None r1 r2
           Hr1 Hr2
           (has_versions_versioned r1
              (proj1 (new_Range_inv (RStr "^1.2.3") None r1 I Hr1)) Hv1)
           (has_versions_versioned r2
              (proj1 (new_Range_inv (RStr "1.5.x || >=3.0.0") None r2 I Hr2))
              Hv2)).
Defined.
